(** * start-streaming: backoff, broadcaster, channel registry, route
      handler and the client hooks

    A shallow embedding of the TypeScript sources and the properties the
    specification states about them, followed in each module by further
    properties of the same code.

    - [Backoff]            utils/exponentialBackoff.ts, utils/jitter.ts
    - [ChannelManager]     server/channel-manager.ts
    - [RouteFactory]       server/route-factory.ts
    - [QueryInvalidation]  client/hooks/useSSEQueryInvalidation.ts (both copies)
    - [Events]             server/events.ts (broadcaster factory, memory
                           broadcaster)
    - [Reconnect]          client/hooks/useAutoReconnectStream.ts,
                           client/hooks/usePageVisibility.ts
    - [ReactQuery]         client/integrations/reactQuery.ts
    - [SSEConnection]      client/hooks/useSSEConnection.ts and its use by
                           useSSEQueryInvalidation

    A JavaScript number is the rational it denotes ([Q]); where the code
    computes with fractions (the jitter) every operation rounds to the
    nearest IEEE double, and the rounding is written out.  Counters are
    [nat]/[Z].  [Infinity] and [NaN] are not modelled: the properties of
    the backoff take their arguments in the range where no operation
    overflows. *)

From Stdlib Require Import ZArith QArith Qround Qminmax Qabs Qpower Lia Lqa.
From stdpp Require Import base gmap strings list.

(* ===================================================================== *)
(** ** Backoff calculator *)
(* ===================================================================== *)

Module Backoff.

Local Open Scope Q_scope.

(** [Math.round]: nearest integer, ties towards +infinity. *)
Definition Math_round (x : Q) : Z := Qfloor (x + (1 # 2)).

(** [Math.min] on two numbers. *)
Definition Math_min (x y : Q) : Q := Qmin x y.

(** [2 ** attempt] for a counter [attempt]. *)
Definition pow2 (attempt : nat) : Q := inject_Z (2 ^ Z.of_nat attempt).

(** exponentialBackoff.ts, [calculateBackoff].  Multiplying a double by a
    power of two is exact, so the product needs no rounding. *)
Definition calculateBackoff (attempt : nat) (baseDelay maxDelay : Q) : Q :=
  let delay := baseDelay * pow2 attempt in
  Math_min delay maxDelay.

(** *** Numbers: IEEE 754 doubles

    A finite double is the rational it denotes: m * 2^e with |m| < 2^53 and
    e >= -1074.  Every arithmetic operation of the code returns the exact
    result rounded to the nearest double, ties to the even significand. *)

(** The largest k with 2^k <= |x|, for x other than 0. *)
Definition ilog2 (x : Q) : Z :=
  let a := Qabs x in
  if Qle_bool 1 a then Z.log2 (Qfloor a) else (- Z.log2_up (Qceiling (/ a)))%Z.

(** The nearest integer, ties to even. *)
Definition rne (x : Q) : Z :=
  let f := Qfloor x in
  match Qcompare (x - inject_Z f) (1 # 2) with
  | Lt => f
  | Gt => (f + 1)%Z
  | Eq => if Z.even f then f else (f + 1)%Z
  end.

(** The exponent of the unit in the last place at [x]: 53 significant bits,
    and 2^-1074 for the subnormal numbers. *)
Definition ulp_exponent (x : Q) : Z := Z.max (ilog2 x - 52) (-1074).

(** Rounding to the nearest double: [fl x] is a double ([fl_format]), no
    double is nearer to [x] ([fl_nearest]), and of two nearest ones it is
    the one with the even significand. *)
Definition fl (x : Q) : Q :=
  let e := ulp_exponent x in inject_Z (rne (x / 2 ^ e)) * 2 ^ e.

(** [x] is a double. *)
Definition double (x : Q) : Prop := fl x == x.

(** The same, by the form of the number. *)
Definition format (x : Q) : Prop :=
  exists m e : Z, x == inject_Z m * 2 ^ e /\ (Z.abs m < 2 ^ 53)%Z /\ (-1074 <= e)%Z.

(** [Number.MAX_VALUE]: beyond it a result is [Infinity], which the model
    does not have. *)
Definition MAX_VALUE : Q := inject_Z (2 ^ 53 - 1) * 2 ^ 971.

(** [x * y], [x + y] and [x - y] on numbers. *)
Definition fmul (x y : Q) : Q := fl (x * y).
Definition fadd (x y : Q) : Q := fl (x + y).
Definition fsub (x y : Q) : Q := fl (x - y).

(** jitter.ts, [addJitter].  [random] is the value [Math.random()] returns
    at the call (0 <= random < 1). *)
Definition addJitter (delay jitterPercent random : Q) : Z :=
  let jitter := fmul (fmul delay jitterPercent) (fsub (fmul random 2) 1) in
  Math_round (fadd delay jitter).

(** jitter.ts, [calculateBackoffWithJitter]. *)
Definition calculateBackoffWithJitter
    (attempt : nat) (baseDelay maxDelay jitterPercent random : Q) : Z :=
  let delay := baseDelay * pow2 attempt in
  let cappedDelay := Math_min delay maxDelay in
  addJitter cappedDelay jitterPercent random.

(** The default [jitterPercent = 0.25]. *)
Definition defaultJitterPercent : Q := 1 # 4.

Lemma pow2_pos attempt : 0 < pow2 attempt.
Proof.
  unfold pow2. change 0 with (inject_Z 0). rewrite <- Zlt_Qlt.
  apply Z.pow_pos_nonneg; lia.
Qed.

Lemma Math_round_mono x y : x <= y -> (Math_round x <= Math_round y)%Z.
Proof.
  intros H. unfold Math_round. apply Qfloor_resp_le. lra.
Qed.

Lemma Math_round_comp x y : x == y -> Math_round x = Math_round y.
Proof.
  intros H. unfold Math_round. apply Qfloor_comp. now rewrite H.
Qed.

Lemma Math_round_Z z : Math_round (inject_Z z) = z.
Proof.
  unfold Math_round.
  assert (Hlo : (z <= Qfloor (inject_Z z + (1 # 2)))%Z).
  { rewrite <- (Qfloor_Z z) at 1. apply Qfloor_resp_le. lra. }
  assert (Hhi : (Qfloor (inject_Z z + (1 # 2)) < z + 1)%Z).
  { rewrite Zlt_Qlt. eapply Qle_lt_trans; [apply Qfloor_le|].
    rewrite inject_Z_plus. change (inject_Z 1) with 1. lra. }
  lia.
Qed.

Lemma capped_nonneg attempt baseDelay maxDelay :
  0 < baseDelay -> 0 < maxDelay ->
  0 < Math_min (baseDelay * pow2 attempt) maxDelay.
Proof.
  intros Hb Hm. unfold Math_min. apply Q.min_glb_lt; [|assumption].
  apply Qmult_lt_0_compat; [assumption | apply pow2_pos].
Qed.

(** [calculateBackoff] is the documented formula and is the midpoint that
    [calculateBackoffWithJitter] randomises. *)
Lemma calculateBackoffWithJitter_compose attempt baseDelay maxDelay p r :
  calculateBackoffWithJitter attempt baseDelay maxDelay p r
  = addJitter (calculateBackoff attempt baseDelay maxDelay) p r.
Proof. reflexivity. Qed.

(** Backoff is monotonically non-decreasing in the attempt. *)
Lemma calculateBackoff_mono a b baseDelay maxDelay :
  0 < baseDelay -> (a <= b)%nat ->
  calculateBackoff a baseDelay maxDelay <= calculateBackoff b baseDelay maxDelay.
Proof.
  intros Hb Hab. unfold calculateBackoff, Math_min.
  apply Q.min_le_compat_r.
  apply Qmult_le_l; [assumption|].
  unfold pow2. rewrite <- Zle_Qle. apply Z.pow_le_mono_r; lia.
Qed.

(** **** Powers of two *)
Lemma two_neq_0 : ~ 2 == 0.
Proof. discriminate. Qed.

Lemma pow2Z_pos e : 0 < 2 ^ e.
Proof. apply Qpower_0_lt. reflexivity. Qed.

Lemma pow2Z_add a b : 2 ^ (a + b) == 2 ^ a * 2 ^ b.
Proof. apply Qpower_plus, two_neq_0. Qed.

Lemma pow2Z_le a b : (a <= b)%Z -> 2 ^ a <= 2 ^ b.
Proof. intros H. apply Qpower_le_compat_l; [assumption | discriminate]. Qed.

Lemma pow2Z_lt a b : (a < b)%Z -> 2 ^ a < 2 ^ b.
Proof. intros H. apply Qpower_lt_compat_l; [assumption | reflexivity]. Qed.

Lemma pow2Z_lt_inv a b : 2 ^ a < 2 ^ b -> (a < b)%Z.
Proof. intros H. eapply Qpower_lt_compat_l_inv; [exact H | reflexivity]. Qed.

Lemma pow2Z_inject n : (0 <= n)%Z -> 2 ^ n == inject_Z (2 ^ n).
Proof. intros H. rewrite Zpower_Qpower by assumption. reflexivity. Qed.

Lemma pow2Z_sub a b : 2 ^ (a - b) == 2 ^ a / 2 ^ b.
Proof.
  unfold Z.sub. rewrite pow2Z_add, Qpower_opp. reflexivity.
Qed.

Lemma div_mul_pow2Z x e : x / 2 ^ e * 2 ^ e == x.
Proof.
  pose proof (pow2Z_pos e) as H. field. intros E. rewrite E in H. discriminate.
Qed.

Lemma mul_div_pow2Z x e : x * 2 ^ e / 2 ^ e == x.
Proof.
  pose proof (pow2Z_pos e) as H. field. intros E. rewrite E in H. discriminate.
Qed.

(** **** The binade of a number *)

#[global] Instance ilog2_comp : Proper (Qeq ==> eq) ilog2.
Proof.
  intros x y H. unfold ilog2.
  assert (Ha : Qabs x == Qabs y) by (rewrite H; reflexivity).
  assert (Hb : Qle_bool 1 (Qabs x) = Qle_bool 1 (Qabs y)).
  { destruct (Qle_bool 1 (Qabs x)) eqn:E1, (Qle_bool 1 (Qabs y)) eqn:E2; try reflexivity.
    - apply Qle_bool_iff in E1. rewrite Ha in E1. apply Qle_bool_iff in E1. congruence.
    - apply Qle_bool_iff in E2. rewrite <- Ha in E2. apply Qle_bool_iff in E2. congruence. }
  rewrite Hb. destruct (Qle_bool 1 (Qabs y)).
  - rewrite Ha. reflexivity.
  - rewrite Ha. reflexivity.
Qed.

Lemma ilog2_spec x : ~ x == 0 -> 2 ^ ilog2 x <= Qabs x < 2 ^ (ilog2 x + 1).
Proof.
  intros Hx. unfold ilog2.
  assert (Ha : 0 < Qabs x).
  { pose proof (Qabs_nonneg x) as H0.
    destruct (Qeq_dec (Qabs x) 0) as [E|E]; [|lra].
    exfalso. apply Hx. revert E. apply Qabs_case; intros; lra. }
  set (a := Qabs x) in *.
  destruct (Qle_bool 1 a) eqn:E.
  - apply Qle_bool_iff in E.
    assert (Hf : (1 <= Qfloor a)%Z).
    { change 1%Z with (Qfloor 1). apply Qfloor_resp_le. assumption. }
    destruct (Z.log2_spec (Qfloor a)) as [H1 H2]; [lia|].
    pose proof (Z.log2_nonneg (Qfloor a)) as Hk.
    split.
    + rewrite pow2Z_inject by assumption.
      eapply Qle_trans; [|apply Qfloor_le]. rewrite <- Zle_Qle. assumption.
    + rewrite pow2Z_inject by lia.
      eapply Qlt_le_trans; [apply Qlt_floor|]. rewrite <- Zle_Qle.
      change (Z.succ (Z.log2 (Qfloor a))) with (Z.log2 (Qfloor a) + 1)%Z in H2. lia.
  - assert (E1 : a < 1).
    { apply Qnot_le_lt. intros H. apply Qle_bool_iff in H. congruence. }
    assert (Hi : 1 < / a).
    { apply Qlt_shift_inv_l; [assumption|]. lra. }
    assert (Hc : (1 < Qceiling (/ a))%Z).
    { rewrite Zlt_Qlt. eapply Qlt_le_trans; [exact Hi | apply Qle_ceiling]. }
    destruct (Z.log2_up_spec (Qceiling (/ a))) as [H1 H2]; [assumption|].
    set (j := Z.log2_up (Qceiling (/ a))) in *.
    assert (Hj : (0 < j)%Z) by (apply Z.log2_up_pos; assumption).
    split.
    + rewrite Qpower_opp.
      assert (H3 : / a <= 2 ^ j).
      { eapply Qle_trans; [apply Qle_ceiling|]. rewrite pow2Z_inject by lia.
        rewrite <- Zle_Qle. assumption. }
      apply Qle_shift_inv_r; [apply pow2Z_pos|].
      apply (Qmult_le_l _ _ a) in H3; [|assumption].
      rewrite Qmult_inv_r in H3 by lra. lra.
    + replace (- j + 1)%Z with (- (j - 1))%Z by lia. rewrite Qpower_opp.
      assert (H3 : 2 ^ (j - 1) < / a).
      { rewrite pow2Z_inject by lia.
        eapply Qle_lt_trans; [|apply Qceiling_lt].
        rewrite <- Zle_Qle. replace (Z.pred j) with (j - 1)%Z in H1 by lia. lia. }
      apply Qlt_shift_inv_l; [apply pow2Z_pos|].
      apply (Qmult_lt_l _ _ a) in H3; [|assumption].
      rewrite Qmult_inv_r in H3 by lra. lra.
Qed.


(** **** Rounding to an integer *)

#[global] Instance rne_comp : Proper (Qeq ==> eq) rne.
Proof.
  intros x y H. unfold rne. rewrite (Qfloor_comp _ _ H).
  assert (E : Qcompare (x - inject_Z (Qfloor y)) (1 # 2)
              = Qcompare (y - inject_Z (Qfloor y)) (1 # 2)) by (rewrite H; reflexivity).
  rewrite E. reflexivity.
Qed.

Lemma rne_cases x :
  (rne x = Qfloor x /\ x - inject_Z (Qfloor x) <= 1 # 2)
  \/ (rne x = (Qfloor x + 1)%Z /\ 1 # 2 <= x - inject_Z (Qfloor x)).
Proof.
  unfold rne. destruct (Qcompare_spec (x - inject_Z (Qfloor x)) (1 # 2)) as [E|E|E].
  - destruct (Z.even (Qfloor x)); [left | right]; split; try reflexivity; rewrite E; lra.
  - left. split; [reflexivity | lra].
  - right. split; [reflexivity | lra].
Qed.

Lemma floor_bounds x : inject_Z (Qfloor x) <= x < inject_Z (Qfloor x) + 1.
Proof.
  split; [apply Qfloor_le|].
  pose proof (Qlt_floor x) as H. rewrite inject_Z_plus in H. exact H.
Qed.

Lemma rne_nearest x (z : Z) :
  Qabs (inject_Z (rne x) - x) <= Qabs (inject_Z z - x).
Proof.
  destruct (floor_bounds x) as [F1 F2].
  assert (Hz : inject_Z z <= inject_Z (Qfloor x) \/ inject_Z (Qfloor x) + 1 <= inject_Z z).
  { destruct (Z_le_gt_dec z (Qfloor x)) as [L|G].
    - left. rewrite <- Zle_Qle. assumption.
    - right. change 1 with (inject_Z 1). rewrite <- inject_Z_plus, <- Zle_Qle. lia. }
  pose proof (Qle_Qabs (inject_Z z - x)) as A1.
  pose proof (Qle_Qabs (- (inject_Z z - x))) as A2. rewrite Qabs_opp in A2.
  apply Qabs_Qle_condition.
  destruct (rne_cases x) as [[-> Hr]|[-> Hr]]; [|rewrite inject_Z_plus; change (inject_Z 1) with 1];
    destruct Hz; split; lra.
Qed.

Lemma rne_Z z : rne (inject_Z z) = z.
Proof.
  unfold rne. rewrite Qfloor_Z.
  assert (E : Qcompare (inject_Z z - inject_Z z) (1 # 2) = Lt).
  { apply (proj1 (Qlt_alt _ _)). lra. }
  rewrite E. reflexivity.
Qed.

Lemma rne_bounds x : (Qfloor x <= rne x <= Qfloor x + 1)%Z.
Proof. destruct (rne_cases x) as [[-> _]|[-> _]]; lia. Qed.

(** **** Rounding to a double *)

#[global] Instance ulp_exponent_comp : Proper (Qeq ==> eq) ulp_exponent.
Proof. intros x y H. unfold ulp_exponent. rewrite H. reflexivity. Qed.

#[global] Instance fl_comp : Proper (Qeq ==> Qeq) fl.
Proof.
  intros x y H. unfold fl. rewrite (ulp_exponent_comp _ _ H).
  assert (E : x / 2 ^ ulp_exponent y == y / 2 ^ ulp_exponent y) by (rewrite H; reflexivity).
  rewrite (rne_comp _ _ E). reflexivity.
Qed.

Lemma ulp_exponent_min x : (-1074 <= ulp_exponent x)%Z.
Proof. unfold ulp_exponent. lia. Qed.

Lemma fl_0 : fl 0 == 0.
Proof. reflexivity. Qed.

Lemma fl_eq0 x : x == 0 -> fl x == 0.
Proof. intros H. rewrite H. apply fl_0. Qed.

(** The rounded value is at least as close as any multiple of the unit in
    the last place. *)
Lemma fl_multiple_nearest x (z : Z) :
  Qabs (fl x - x) <= Qabs (inject_Z z * 2 ^ ulp_exponent x - x).
Proof.
  unfold fl. set (e := ulp_exponent x). pose proof (pow2Z_pos e) as He.
  assert (E1 : inject_Z (rne (x / 2 ^ e)) * 2 ^ e - x
               == (inject_Z (rne (x / 2 ^ e)) - x / 2 ^ e) * 2 ^ e).
  { rewrite <- (div_mul_pow2Z x e) at 2. ring. }
  assert (E2 : inject_Z z * 2 ^ e - x == (inject_Z z - x / 2 ^ e) * 2 ^ e).
  { rewrite <- (div_mul_pow2Z x e) at 1. ring. }
  rewrite E1, E2, !Qabs_Qmult, (Qabs_pos (2 ^ e)) by lra.
  apply Qmult_le_compat_r; [apply rne_nearest | lra].
Qed.

Lemma fl_between x y (z : Z) :
  let g := inject_Z z * 2 ^ ulp_exponent x in
  (x <= g <= y) \/ (y <= g <= x) ->
  Qabs (fl x - x) <= Qabs (y - x).
Proof.
  intros g H. eapply Qle_trans; [apply (fl_multiple_nearest x z)|]. fold g.
  pose proof (Qle_Qabs (y - x)) as A1.
  pose proof (Qle_Qabs (- (y - x))) as A2. rewrite Qabs_opp in A2.
  apply Qabs_Qle_condition. destruct H as [[H1 H2]|[H1 H2]]; split; lra.
Qed.

(** A double at or above [2 ^ k] in magnitude is a multiple of the unit in
    the last place of the binade of [2 ^ k]. *)
Lemma multiple_of_ulp y k :
  format y -> 2 ^ k <= Qabs y ->
  exists z : Z, y == inject_Z z * 2 ^ Z.max (k - 52) (-1074).
Proof.
  intros (m & e & Hy & Hm & He) Hk.
  assert (Hlt : 2 ^ k < 2 ^ (53 + e)).
  { eapply Qle_lt_trans; [exact Hk|]. rewrite Hy, Qabs_Qmult.
    rewrite (Qabs_pos (2 ^ e)) by (apply Qlt_le_weak, pow2Z_pos).
    rewrite pow2Z_add. apply Qmult_lt_compat_r; [apply pow2Z_pos|].
    rewrite pow2Z_inject by lia.
    assert (E : Qabs (inject_Z m) == inject_Z (Z.abs m)).
    { unfold inject_Z. rewrite <- Zabs_Qabs. reflexivity. }
    rewrite E, <- Zlt_Qlt. assumption. }
  apply pow2Z_lt_inv in Hlt.
  set (e0 := Z.max (k - 52) (-1074)).
  assert (Hle : (e0 <= e)%Z) by (unfold e0; lia).
  exists (m * 2 ^ (e - e0))%Z.
  rewrite Hy, inject_Z_mult, <- pow2Z_inject by lia.
  rewrite <- Qmult_assoc, <- pow2Z_add. replace (e - e0 + e0)%Z with e by lia. reflexivity.
Qed.

Lemma multiple_of_min y : format y -> exists z : Z, y == inject_Z z * 2 ^ (-1074).
Proof.
  intros (m & e & Hy & Hm & He).
  exists (m * 2 ^ (e + 1074))%Z.
  rewrite Hy, inject_Z_mult, <- pow2Z_inject by lia.
  rewrite <- Qmult_assoc, <- pow2Z_add. replace (e + 1074 + -1074)%Z with e by lia. reflexivity.
Qed.


#[global] Instance format_comp : Proper (Qeq ==> iff) format.
Proof.
  intros x y H. unfold format. split; intros (m & e & Hx & Hm); exists m, e;
    (split; [|exact Hm]); [rewrite <- H | rewrite H]; exact Hx.
Qed.

Lemma Qabs_0_diff y : Qabs (0 - 0) <= Qabs y.
Proof. change (Qabs (0 - 0)) with 0. apply Qabs_nonneg. Qed.

(** [fl x] is a nearest double of [x]. *)
Lemma fl_nearest x y : format y -> Qabs (fl x - x) <= Qabs (y - x).
Proof.
  intros Hy. destruct (Qeq_dec x 0) as [Hx0|Hx0].
  { rewrite (fl_eq0 x Hx0), Hx0. apply Qabs_0_diff. }
  destruct (ilog2_spec x Hx0) as [K1 K2].
  pose proof (pow2Z_pos (ilog2 x)) as Kp.
  destruct (Z_le_gt_dec (ilog2 x - 52) (-1074)) as [Hsub|Hnorm].
  - assert (He : ulp_exponent x = (-1074)%Z) by (unfold ulp_exponent; lia).
    destruct (multiple_of_min y Hy) as [z Hz].
    eapply Qle_trans; [apply (fl_multiple_nearest x z)|].
    rewrite He, <- Hz. apply Qle_refl.
  - assert (He : ulp_exponent x = (ilog2 x - 52)%Z) by (unfold ulp_exponent; lia).
    assert (Elo : inject_Z (2 ^ 52) * 2 ^ ulp_exponent x == 2 ^ ilog2 x).
    { rewrite He, <- pow2Z_inject, <- pow2Z_add by lia.
      replace (52 + (ilog2 x - 52))%Z with (ilog2 x) by lia. reflexivity. }
    assert (Ehi : inject_Z (2 ^ 53) * 2 ^ ulp_exponent x == 2 ^ (ilog2 x + 1)).
    { rewrite He, <- pow2Z_inject, <- pow2Z_add by lia.
      replace (53 + (ilog2 x - 52))%Z with (ilog2 x + 1)%Z by lia. reflexivity. }
    assert (Elo' : inject_Z (- 2 ^ 52) * 2 ^ ulp_exponent x == - 2 ^ ilog2 x).
    { rewrite inject_Z_opp, <- Elo. ring. }
    assert (Ehi' : inject_Z (- 2 ^ 53) * 2 ^ ulp_exponent x == - 2 ^ (ilog2 x + 1)).
    { rewrite inject_Z_opp, <- Ehi. ring. }
    assert (Hin : 2 ^ ilog2 x <= Qabs y ->
                  Qabs (fl x - x) <= Qabs (y - x)).
    { intros Hk. destruct (multiple_of_ulp y (ilog2 x) Hy Hk) as [z Hz].
      eapply Qle_trans; [apply (fl_multiple_nearest x z)|].
      unfold ulp_exponent. rewrite <- Hz. apply Qle_refl. }
    destruct (Qlt_le_dec 0 x) as [Hpos|Hneg].
    + rewrite (Qabs_pos x) in K1, K2 by lra.
      destruct (Qlt_le_dec y (2 ^ (ilog2 x + 1))) as [Y1|Y1].
      * destruct (Qlt_le_dec (2 ^ ilog2 x) y) as [Y2|Y2].
        -- apply Hin. rewrite Qabs_pos by lra. lra.
        -- apply (fl_between x y (2 ^ 52)). right. rewrite Elo. split; lra.
      * apply (fl_between x y (2 ^ 53)). left. rewrite Ehi. split; lra.
    + rewrite (Qabs_neg x) in K1, K2 by lra.
      destruct (Qlt_le_dec (- 2 ^ (ilog2 x + 1)) y) as [Y1|Y1].
      * destruct (Qlt_le_dec y (- 2 ^ ilog2 x)) as [Y2|Y2].
        -- apply Hin. rewrite Qabs_neg by lra. lra.
        -- apply (fl_between x y (- 2 ^ 52)). left. rewrite Elo'. split; lra.
      * apply (fl_between x y (- 2 ^ 53)). right. rewrite Ehi'. split; lra.
Qed.

(** [fl x] is a double. *)
Lemma fl_format x : format (fl x).
Proof.
  destruct (Qeq_dec x 0) as [Hx0|Hx0].
  { exists 0%Z, 0%Z. split; [rewrite (fl_eq0 x Hx0); reflexivity | split; [reflexivity | lia]]. }
  destruct (ilog2_spec x Hx0) as [K1 K2].
  unfold fl. set (e := ulp_exponent x). pose proof (pow2Z_pos e) as He.
  assert (Hemin : (-1074 <= e)%Z) by apply ulp_exponent_min.
  assert (Hek : (ilog2 x + 1 <= 53 + e)%Z) by (unfold e, ulp_exponent; lia).
  assert (Hb : Qabs (x / 2 ^ e) < inject_Z (2 ^ 53)).
  { unfold Qdiv. rewrite Qabs_Qmult, Qabs_Qinv, (Qabs_pos (2 ^ e)) by lra.
    apply Qlt_shift_div_r; [assumption|].
    eapply Qlt_le_trans; [exact K2|].
    rewrite <- pow2Z_inject, <- pow2Z_add by lia. apply pow2Z_le. assumption. }
  apply Qabs_Qlt_condition in Hb as [Hb1 Hb2].
  set (q := x / 2 ^ e) in *.
  assert (Hf1 : (- 2 ^ 53 <= Qfloor q)%Z).
  { rewrite <- (Qfloor_Z (- 2 ^ 53)). apply Qfloor_resp_le.
    rewrite inject_Z_opp. lra. }
  assert (Hf2 : (Qfloor q < 2 ^ 53)%Z).
  { rewrite Zlt_Qlt. eapply Qle_lt_trans; [apply Qfloor_le | exact Hb2]. }
  pose proof (rne_bounds q) as Hn.
  destruct (Z.eq_dec (rne q) (2 ^ 53)%Z) as [E|E1].
  { exists (2 ^ 52)%Z, (e + 1)%Z. split; [|split; [reflexivity | lia]].
    rewrite E, pow2Z_add. change (inject_Z (2 ^ 53)) with (inject_Z (2 ^ 52) * 2).
    change (2 ^ 1) with 2. ring. }
  destruct (Z.eq_dec (rne q) (- 2 ^ 53)%Z) as [E|E2].
  { exists (- 2 ^ 52)%Z, (e + 1)%Z. split; [|split; [reflexivity | lia]].
    rewrite E, pow2Z_add. change (inject_Z (- 2 ^ 53)) with (inject_Z (- 2 ^ 52) * 2).
    change (2 ^ 1) with 2. ring. }
  exists (rne q), e. split; [reflexivity | split; [lia | assumption]].
Qed.

(** Rounding leaves a double unchanged. *)
Lemma format_fl y : format y -> fl y == y.
Proof.
  intros Hy. destruct (Qeq_dec y 0) as [Hy0|Hy0].
  { rewrite (fl_eq0 y Hy0). symmetry. assumption. }
  destruct (ilog2_spec y Hy0) as [K1 _].
  destruct (multiple_of_ulp y (ilog2 y) Hy K1) as [z Hz].
  change (Z.max (ilog2 y - 52) (-1074)) with (ulp_exponent y) in Hz.
  unfold fl. set (e := ulp_exponent y) in *.
  assert (Hd : y / 2 ^ e == inject_Z z).
  { rewrite <- (mul_div_pow2Z (inject_Z z) e). unfold Qdiv.
    apply Qmult_comp; [exact Hz | reflexivity]. }
  rewrite (rne_comp _ _ Hd), rne_Z. symmetry. exact Hz.
Qed.

Lemma double_format x : double x <-> format x.
Proof.
  split.
  - intros H. unfold double in H. rewrite <- H. apply fl_format.
  - apply format_fl.
Qed.

Lemma fl_idem x : fl (fl x) == fl x.
Proof. apply format_fl, fl_format. Qed.

(** Rounding is monotone. *)
Lemma fl_mono x y : x <= y -> fl x <= fl y.
Proof.
  intros Hxy. destruct (Qlt_le_dec (fl y) (fl x)) as [Hlt|Hle]; [exfalso | exact Hle].
  pose proof (fl_nearest x (fl y) (fl_format y)) as N1.
  pose proof (fl_nearest y (fl x) (fl_format x)) as N2.
  assert (M1 : fl y + fl x <= 2 * x).
  { revert N1. pattern (Qabs (fl x - x)). apply Qabs_case; intros A1;
      pattern (Qabs (fl y - x)); apply Qabs_case; intros A2 N1; lra. }
  assert (M2 : 2 * y <= fl y + fl x).
  { revert N2. pattern (Qabs (fl y - y)). apply Qabs_case; intros A1;
      pattern (Qabs (fl x - y)); apply Qabs_case; intros A2 N2; lra. }
  assert (E : x == y) by lra.
  rewrite (fl_comp _ _ E) in Hlt. lra.
Qed.


(** The literal 0.1; ties at 1 and at the smallest subnormal go to the
    even neighbour; the largest double below 1 is 1 - 2^-53. *)
Example fl_samples :
  fl (1 # 10) == inject_Z 3602879701896397 * 2 ^ (-55)
  /\ fl (1 + 2 ^ (-53)) == 1
  /\ fl (1 + 3 * 2 ^ (-53)) == 1 + 2 ^ (-51)
  /\ fl (2 ^ (-1075)) == 0
  /\ fl (3 * 2 ^ (-1075)) == 2 ^ (-1073)
  /\ fl (1 - 2 ^ (-54)) == 1
  /\ fl (1 - 2 ^ (-53)) == 1 - 2 ^ (-53).
Proof. repeat split; vm_compute; reflexivity. Qed.

(** **** Doubles *)

#[global] Instance fmul_comp : Proper (Qeq ==> Qeq ==> Qeq) fmul.
Proof. intros x x' Hx y y' Hy. unfold fmul. now rewrite Hx, Hy. Qed.

#[global] Instance fadd_comp : Proper (Qeq ==> Qeq ==> Qeq) fadd.
Proof. intros x x' Hx y y' Hy. unfold fadd. now rewrite Hx, Hy. Qed.

#[global] Instance fsub_comp : Proper (Qeq ==> Qeq ==> Qeq) fsub.
Proof. intros x x' Hx y y' Hy. unfold fsub. now rewrite Hx, Hy. Qed.

#[global] Instance Math_round_proper : Proper (Qeq ==> eq) Math_round.
Proof. intros x y H. apply Math_round_comp, H. Qed.

#[global] Instance double_comp : Proper (Qeq ==> iff) double.
Proof. intros x y H. unfold double. now rewrite H. Qed.

Lemma double_fl x : double (fl x).
Proof. apply fl_idem. Qed.

Lemma format_opp x : format x -> format (- x).
Proof.
  intros (m & e & Hx & Hm & He). exists (- m)%Z, e.
  split; [rewrite Hx, inject_Z_opp; ring | split; [lia | assumption]].
Qed.

Lemma double_opp x : double x -> double (- x).
Proof. intros H. apply double_format, format_opp, double_format, H. Qed.

Lemma double_Z z : (Z.abs z <= 2 ^ 53)%Z -> double (inject_Z z).
Proof.
  intros H. apply double_format.
  destruct (Z.eq_dec (Z.abs z) (2 ^ 53)%Z) as [E|E].
  - assert (Hz : z = (2 ^ 53)%Z \/ z = (- 2 ^ 53)%Z) by lia.
    destruct Hz as [-> | ->].
    + exists (2 ^ 52)%Z, 1%Z. split; [reflexivity | split; [reflexivity | lia]].
    + exists (- 2 ^ 52)%Z, 1%Z. split; [reflexivity | split; [reflexivity | lia]].
  - exists z, 0%Z. split; [change (2 ^ 0) with 1; ring | split; lia].
Qed.

Lemma double_0 : double 0.
Proof. apply (double_Z 0). discriminate. Qed.

Lemma double_1 : double 1.
Proof. apply (double_Z 1). discriminate. Qed.

Lemma double_2 : double 2.
Proof. apply (double_Z 2). discriminate. Qed.

Lemma double_MAX_VALUE : double MAX_VALUE.
Proof.
  apply double_format. exists (2 ^ 53 - 1)%Z, 971%Z.
  split; [reflexivity | split; [reflexivity | discriminate]].
Qed.

(** Scaling by a power of two keeps a number a double. *)
Lemma double_scale x n : double x -> double (x * pow2 n).
Proof.
  intros H. apply double_format in H as (m & e & Hx & Hm & He).
  apply double_format. exists m, (e + Z.of_nat n)%Z.
  split; [|split; [assumption | lia]].
  unfold pow2. rewrite Hx, pow2Z_add, <- (pow2Z_inject (Z.of_nat n)) by lia. ring.
Qed.

Lemma double_min x y : double x -> double y -> double (Math_min x y).
Proof.
  intros Hx Hy. unfold double, Math_min.
  destruct (Q.min_spec x y) as [[_ E]|[_ E]]; rewrite E; assumption.
Qed.

Lemma double_calculateBackoff attempt baseDelay maxDelay :
  double baseDelay -> double maxDelay ->
  double (calculateBackoff attempt baseDelay maxDelay).
Proof.
  intros Hb Hm. unfold calculateBackoff. apply double_min; [|assumption].
  apply double_scale. assumption.
Qed.

Lemma fl_le_double x y : double y -> x <= y -> fl x <= y.
Proof.
  intros Hy H. unfold double in Hy.
  apply Qle_trans with (fl y); [apply fl_mono, H | rewrite Hy; apply Qle_refl].
Qed.

Lemma fl_ge_double x y : double y -> y <= x -> y <= fl x.
Proof.
  intros Hy H. unfold double in Hy.
  apply Qle_trans with (fl y); [rewrite Hy; apply Qle_refl | apply fl_mono, H].
Qed.

(** The rounding error of a number below 2^52 is at most a quarter. *)
Lemma fl_error_small x : Qabs x < inject_Z (2 ^ 52) -> Qabs (fl x - x) <= 1 # 4.
Proof.
  intros Hx. destruct (Qeq_dec x 0) as [Hx0|Hx0].
  { rewrite (fl_eq0 x Hx0), Hx0. discriminate. }
  destruct (ilog2_spec x Hx0) as [K1 _].
  assert (Hk : (ilog2 x < 52)%Z).
  { apply pow2Z_lt_inv. eapply Qle_lt_trans; [exact K1|].
    rewrite pow2Z_inject by lia. assumption. }
  unfold fl. set (e := ulp_exponent x).
  assert (He : (e <= -1)%Z) by (unfold e, ulp_exponent; lia).
  pose proof (pow2Z_pos e) as Hp.
  assert (Hp2 : 2 ^ e <= 1 # 2) by (apply (pow2Z_le e (-1)); assumption).
  set (q := x / 2 ^ e).
  assert (E1 : inject_Z (rne q) * 2 ^ e - x == (inject_Z (rne q) - q) * 2 ^ e).
  { unfold q. rewrite <- (div_mul_pow2Z x e) at 2. ring. }
  rewrite E1, Qabs_Qmult, (Qabs_pos (2 ^ e)) by lra.
  assert (Hr : Qabs (inject_Z (rne q) - q) <= 1 # 2).
  { destruct (floor_bounds q) as [F1 F2]. apply Qabs_Qle_condition.
    destruct (rne_cases q) as [[-> Hr]|[-> Hr]];
      [|rewrite inject_Z_plus; change (inject_Z 1) with 1]; split; lra. }
  pose proof (Qabs_nonneg (inject_Z (rne q) - q)) as Ha.
  set (d := Qabs (inject_Z (rne q) - q)) in *.
  assert (H1 : d * 2 ^ e <= (1 # 2) * 2 ^ e) by (apply Qmult_le_compat_r; lra).
  lra.
Qed.

Lemma fl_error_small_bounds x :
  Qabs x < inject_Z (2 ^ 52) -> x - (1 # 4) <= fl x <= x + (1 # 4).
Proof.
  intros H. apply fl_error_small in H. apply Qabs_Qle_condition in H. split; lra.
Qed.

Lemma Math_round_succ x y : x <= y + 1 -> (Math_round x <= Math_round y + 1)%Z.
Proof.
  intros H. unfold Math_round.
  assert (H1 : (Qfloor (x + (1 # 2)) < Qfloor (y + (1 # 2)) + 2)%Z).
  { rewrite Zlt_Qlt. eapply Qle_lt_trans; [apply Qfloor_le|].
    destruct (floor_bounds (y + (1 # 2))) as [_ F].
    rewrite inject_Z_plus. change (inject_Z 2) with 2. lra. }
  lia.
Qed.

(** **** The jitter *)

(** [Math.random() * 2 - 1] lies in [-1, 1]. *)
Lemma draw_range r : 0 <= r <= 1 -> -1 <= fsub (fmul r 2) 1 <= 1.
Proof.
  intros [H0 H1]. unfold fsub, fmul.
  assert (A : 0 <= fl (r * 2) <= 2).
  { split; [apply fl_ge_double; [apply double_0 | lra]
           | apply fl_le_double; [apply double_2 | lra]]. }
  split.
  - apply (fl_ge_double _ (-1)); [apply (double_opp 1), double_1 | lra].
  - apply fl_le_double; [apply double_1 | lra].
Qed.

(** [delay * jitterPercent] lies between 0 and the delay. *)
Lemma fmul_percent c p : double c -> 0 <= c -> 0 <= p <= 1 -> 0 <= fmul c p <= c.
Proof.
  intros Hc H0 [Hp0 Hp1]. unfold fmul.
  assert (A : 0 <= c * p) by (apply Qmult_le_0_compat; assumption).
  assert (B : 0 <= c * (1 - p)) by (apply Qmult_le_0_compat; lra).
  split; [apply fl_ge_double; [apply double_0 | assumption]
         | apply fl_le_double; [assumption | lra]].
Qed.

Lemma fmul_range a u : double a -> 0 <= a -> -1 <= u <= 1 -> - a <= fmul a u <= a.
Proof.
  intros Ha H0 [Hu0 Hu1]. unfold fmul.
  assert (A : 0 <= a * (1 - u)) by (apply Qmult_le_0_compat; lra).
  assert (B : 0 <= a * (u + 1)) by (apply Qmult_le_0_compat; lra).
  split; [apply fl_ge_double; [apply double_opp, Ha | lra]
         | apply fl_le_double; [assumption | lra]].
Qed.

(** The sum that [addJitter] rounds lies between the doubles
    [delay - delay * jitterPercent] and [delay + delay * jitterPercent]. *)
Lemma jittered_range c p r :
  double c -> 0 <= c -> 0 <= p <= 1 -> 0 <= r <= 1 ->
  fsub c (fmul c p)
  <= fadd c (fmul (fmul c p) (fsub (fmul r 2) 1))
  <= fadd c (fmul c p).
Proof.
  intros Hc H0 Hp Hr.
  destruct (fmul_percent c p Hc H0 Hp) as [A0 A1].
  destruct (fmul_range (fmul c p) (fsub (fmul r 2) 1)) as [J0 J1];
    [apply double_fl | assumption | apply draw_range; assumption |].
  unfold fsub at 1, fadd. split; apply fl_mono; lra.
Qed.

Lemma addJitter_range c p r :
  double c -> 0 <= c -> 0 <= p <= 1 -> 0 <= r <= 1 ->
  (Math_round (fsub c (fmul c p)) <= addJitter c p r
   <= Math_round (fadd c (fmul c p)))%Z.
Proof.
  intros Hc H0 Hp Hr. destruct (jittered_range c p r Hc H0 Hp Hr) as [L U].
  unfold addJitter. split; apply Math_round_mono; assumption.
Qed.

Lemma addJitter_nonneg c p r :
  double c -> 0 <= c -> 0 <= p <= 1 -> 0 <= r <= 1 -> (0 <= addJitter c p r)%Z.
Proof.
  intros Hc H0 Hp Hr. destruct (addJitter_range c p r Hc H0 Hp Hr) as [L _].
  destruct (fmul_percent c p Hc H0 Hp) as [A0 A1].
  assert (H : 0 <= fsub c (fmul c p)).
  { unfold fsub. apply fl_ge_double; [apply double_0 | lra]. }
  apply Math_round_mono in H. change (Math_round 0) with 0%Z in H. lia.
Qed.

(** Against the exact range: below 2^50 the double rounding moves the
    result by at most one. *)
Lemma addJitter_near_exact c p r :
  double c -> 0 <= c -> c <= inject_Z (2 ^ 50) -> 0 <= p <= 1 -> 0 <= r <= 1 ->
  (Math_round (c * (1 - p)) - 1 <= addJitter c p r
   <= Math_round (c * (1 + p)) + 1)%Z.
Proof.
  intros Hc H0 Hmax Hp Hr.
  destruct (addJitter_range c p r Hc H0 Hp Hr) as [L U].
  destruct (fmul_percent c p Hc H0 Hp) as [A0 A1].
  assert (Hcp : 0 <= c * p) by (apply Qmult_le_0_compat; lra).
  assert (Hcq : 0 <= c * (1 - p)) by (apply Qmult_le_0_compat; lra).
  assert (H50 : inject_Z (2 ^ 50) * 4 == inject_Z (2 ^ 52)) by reflexivity.
  assert (P50 : 0 < inject_Z (2 ^ 50)) by reflexivity.
  destruct (fl_error_small_bounds (c * p)) as [E1 E2].
  { rewrite Qabs_pos by assumption. lra. }
  fold (fmul c p) in E1, E2.
  destruct (fl_error_small_bounds (c + fmul c p)) as [_ E3].
  { rewrite Qabs_pos by lra. lra. }
  destruct (fl_error_small_bounds (c - fmul c p)) as [E4 _].
  { rewrite Qabs_pos by lra. lra. }
  fold (fadd c (fmul c p)) in E3. fold (fsub c (fmul c p)) in E4.
  split.
  - assert (H : (Math_round (c * (1 - p)) <= Math_round (fsub c (fmul c p)) + 1)%Z)
      by (apply Math_round_succ; lra).
    lia.
  - assert (H : (Math_round (fadd c (fmul c p)) <= Math_round (c * (1 + p)) + 1)%Z)
      by (apply Math_round_succ; lra).
    lia.
Qed.

(** With [jitterPercent = 0] the delay is only rounded to an integer. *)
Lemma addJitter_zero d r : double d -> addJitter d 0 r = Math_round d.
Proof.
  intros Hd. unfold addJitter. apply Math_round_comp. unfold fadd, fmul.
  assert (E1 : d * 0 == 0) by ring. rewrite (fl_comp _ _ E1), fl_0.
  assert (E2 : 0 * fsub (fl (r * 2)) 1 == 0) by ring. rewrite (fl_comp _ _ E2), fl_0.
  assert (E3 : d + 0 == d) by ring. rewrite (fl_comp _ _ E3). exact Hd.
Qed.

(** A larger draw never gives a shorter delay. *)
Lemma addJitter_mono_random d p r1 r2 :
  0 <= d -> 0 <= p -> r1 <= r2 -> (addJitter d p r1 <= addJitter d p r2)%Z.
Proof.
  intros Hd Hp Hr. unfold addJitter. apply Math_round_mono.
  unfold fadd. apply fl_mono.
  assert (Ha : 0 <= fmul d p).
  { unfold fmul. apply fl_ge_double; [apply double_0|]. apply Qmult_le_0_compat; assumption. }
  assert (Hu : fsub (fmul r1 2) 1 <= fsub (fmul r2 2) 1).
  { unfold fsub, fmul. apply fl_mono.
    assert (H : fl (r1 * 2) <= fl (r2 * 2)) by (apply fl_mono; lra). lra. }
  assert (Hj : fmul (fmul d p) (fsub (fmul r1 2) 1) <= fmul (fmul d p) (fsub (fmul r2 2) 1)).
  { set (a := fmul d p) in *. set (u1 := fsub (fmul r1 2) 1) in *.
    set (u2 := fsub (fmul r2 2) 1) in *.
    unfold fmul. apply fl_mono.
    assert (H : 0 <= a * (u2 - u1)) by (apply Qmult_le_0_compat; lra). lra. }
  lra.
Qed.


(** **** The backoff with jitter *)

(** [calculateBackoff] computes the documented formula. *)
Lemma calculateBackoff_formula attempt baseDelay maxDelay :
  calculateBackoff attempt baseDelay maxDelay
  == Qmin (baseDelay * 2 ^ Z.of_nat attempt) maxDelay.
Proof.
  unfold calculateBackoff, Math_min, pow2.
  rewrite <- (pow2Z_inject (Z.of_nat attempt)) by lia. reflexivity.
Qed.

(** C7, as the code has it: for a non-negative attempt, positive doubles
    [baseDelay] and [maxDelay] (small enough for [maxDelay] plus its jitter
    to be finite, and with the cap reached before [2 ** attempt]
    overflows), [jitterPercent] p in [0,1] and a random draw r in [0,1],
    with c = min(baseDelay * 2^attempt, maxDelay) and u the double
    [r * 2 - 1], which lies in [-1,1]: [calculateBackoffWithJitter] caps
    before it jitters.  The result is [Math.round] of the double
    [c + c * p * u], every product and sum rounded to the nearest double;
    it lies between [Math.round (c - c * p)] and [Math.round (c + c * p)],
    both in double arithmetic; hence it is at most
    [Math.round (maxDelay + maxDelay * p)], which may be above [maxDelay];
    for [maxDelay] up to 2^50 these bounds are within one of
    round(c * (1 - p)), round(c * (1 + p)) and
    round(maxDelay + p * maxDelay); and with p = 0 the result is exactly
    round(c). *)
Theorem calculateBackoffWithJitter_cap_then_jitter
    (attempt : nat) (baseDelay maxDelay p r : Q) :
  double baseDelay -> double maxDelay ->
  0 < baseDelay -> 0 < maxDelay -> 0 <= p <= 1 -> 0 <= r <= 1 ->
  2 * maxDelay <= MAX_VALUE -> maxDelay <= baseDelay * 2 ^ 1024 ->
  let c := Qmin (baseDelay * 2 ^ Z.of_nat attempt) maxDelay in
  let u := fsub (fmul r 2) 1 in
  let jittered := fadd c (fmul (fmul c p) u) in
  let result := calculateBackoffWithJitter attempt baseDelay maxDelay p r in
  -1 <= u <= 1
  /\ c == calculateBackoff attempt baseDelay maxDelay
  /\ double c /\ 0 < c <= maxDelay
  /\ ((1024 <= attempt)%nat -> c == maxDelay)
  /\ 0 <= jittered <= MAX_VALUE
  /\ result = Math_round jittered
  /\ (Math_round (fsub c (fmul c p)) <= result <= Math_round (fadd c (fmul c p)))%Z
  /\ (result <= Math_round (fadd maxDelay (fmul maxDelay p)))%Z
  /\ (maxDelay <= inject_Z (2 ^ 50) ->
      (Math_round (c * (1 - p)) - 1 <= result <= Math_round (c * (1 + p)) + 1)%Z
      /\ (result <= Math_round (maxDelay + p * maxDelay) + 1)%Z)
  /\ (p == 0 -> result = Math_round c).
Proof.
  intros Db Dm Hb Hm Hp Hr Hfin Hcap c u jittered result.
  assert (Ec : c == calculateBackoff attempt baseDelay maxDelay)
    by (symmetry; apply calculateBackoff_formula).
  assert (Hres : result = addJitter c p r).
  { unfold result. rewrite calculateBackoffWithJitter_compose.
    unfold addJitter. now rewrite <- Ec. }
  assert (Hu : -1 <= u <= 1) by (apply draw_range; assumption).
  assert (Hc : 0 < c).
  { rewrite Ec. apply capped_nonneg; assumption. }
  assert (Hcm : c <= maxDelay) by (apply Q.le_min_r).
  assert (Dc : double c).
  { rewrite Ec. apply double_calculateBackoff; assumption. }
  assert (Hc0 : 0 <= c) by lra.
  destruct (jittered_range c p r Dc Hc0 Hp Hr) as [JL JU]. fold u jittered in JL, JU.
  destruct (addJitter_range c p r Dc Hc0 Hp Hr) as [RL RU]. rewrite <- Hres in RL, RU.
  destruct (fmul_percent c p Dc Hc0 Hp) as [A0 A1].
  assert (Hm0 : 0 <= maxDelay) by lra.
  destruct (fmul_percent maxDelay p Dm Hm0 Hp) as [B0 B1].
  assert (Hmono : fadd c (fmul c p) <= fadd maxDelay (fmul maxDelay p)).
  { unfold fadd. apply fl_mono.
    assert (H1 : fmul c p <= fmul maxDelay p).
    { unfold fmul. apply fl_mono. apply Qmult_le_compat_r; [assumption | apply Hp]. }
    lra. }
  split; [exact Hu|]. split; [exact Ec|]. split; [exact Dc|].
  split; [split; assumption|]. split; [|split; [|split; [exact Hres|]]].
  - intros Ha. unfold c. apply Q.min_r.
    eapply Qle_trans; [exact Hcap|]. apply Qmult_le_l; [assumption|].
    apply pow2Z_le. lia.
  - split.
    + eapply Qle_trans; [|exact JL]. unfold fsub.
      apply fl_ge_double; [apply double_0 | lra].
    + eapply Qle_trans; [exact JU|]. eapply Qle_trans; [exact Hmono|].
      unfold fadd. apply fl_le_double; [apply double_MAX_VALUE | lra].
  - split; [exact (conj RL RU)|]. split; [|split].
    + eapply Z.le_trans; [exact RU|]. apply Math_round_mono, Hmono.
    + intros H50.
      destruct (addJitter_near_exact c p r) as [NL NU]; try assumption; [lra|].
      rewrite <- Hres in NL, NU.
      split; [exact (conj NL NU)|].
      eapply Z.le_trans; [exact NU|]. apply Z.add_le_mono_r, Math_round_mono.
      assert (H1 : 0 <= (maxDelay - c) * (1 + p)) by (apply Qmult_le_0_compat; lra).
      lra.
    + intros Hz. rewrite Hres. unfold addJitter.
      apply Math_round_comp. unfold fadd, fmul.
      assert (E1 : c * p == 0) by (rewrite Hz; ring).
      rewrite (fl_comp _ _ E1), fl_0.
      assert (E2 : 0 * fsub (fl (r * 2)) 1 == 0) by ring.
      rewrite (fl_comp _ _ E2), fl_0.
      assert (E3 : c + 0 == c) by ring.
      rewrite (fl_comp _ _ E3). exact Dc.
Qed.

(** A concrete instance: attempt 10, base 1000, cap 10000, 25% jitter and
    the draw 7/8 (u = 3/4) give 11875, above the cap. *)
Lemma calculateBackoffWithJitter_cap_then_jitter_witness :
  let result := calculateBackoffWithJitter 10 1000 10000 (1 # 4) (7 # 8) in
  result = 11875%Z
  /\ (Math_round (fsub 10000 (fmul 10000 (1 # 4))) <= result
      <= Math_round (fadd 10000 (fmul 10000 (1 # 4))))%Z.
Proof.
  pose proof (calculateBackoffWithJitter_cap_then_jitter
                10 1000 10000 (1 # 4) (7 # 8)) as H.
  destruct H as (_ & _ & _ & _ & _ & _ & _ & Hrange & _);
    [vm_compute; reflexivity | vm_compute; reflexivity | reflexivity | reflexivity
    | split; discriminate | split; discriminate
    | vm_compute; discriminate | vm_compute; discriminate |].
  split; [vm_compute; reflexivity | exact Hrange].
Defined.

(** C7 as stated, over the reals, fails on doubles.  With the double
    nearest to 6.8 as [baseDelay] and [maxDelay], 25% jitter and the draw
    1 - 2^-52, the exact value of c + c * p * u is just below 8.5, and so
    is c * (1 + p); the double sum is 8.5 and the code returns 9.  With
    delay 10 the result 13 is inside the stated range but is not
    round(c + c * p * u) = 12. *)
Lemma jitter_rounding_leaves_the_stated_range :
  let d := fl (68 # 10) in
  let r := inject_Z (2 ^ 52 - 1) * 2 ^ (-52) in
  let u := r * 2 - 1 in
  double d /\ double r /\ 0 <= r < 1 /\ 0 < d
  /\ calculateBackoffWithJitter 0 d d (1 # 4) r = 9%Z
  /\ Math_round (Qmin (d * 2 ^ 0) d * (1 + (1 # 4))) = 8%Z
  /\ Math_round (d + d * (1 # 4) * u) = 8%Z
  /\ calculateBackoffWithJitter 0 10 10 (1 # 4) r = 13%Z
  /\ Math_round (10 + 10 * (1 # 4) * u) = 12%Z.
Proof.
  cbv zeta. repeat split; vm_compute; try reflexivity; discriminate.
Qed.

(** The excess over [maxDelay] is reachable: the same configuration. *)
Example backoff_may_exceed_maxDelay :
  (10000 < calculateBackoffWithJitter 10 1000 10000 (1 # 4) (7 # 8))%Z.
Proof. vm_compute. reflexivity. Qed.







(** X2: on a non-negative double [delay] (small enough for the
    jittered sum to be finite) and [jitterPercent] in [0,1], [addJitter]
    returns a non-negative integer between [Math.round] of the doubles
    [delay - delay * jitterPercent] and [delay + delay * jitterPercent];
    for a delay up to 2^50 that is within one of round(delay * (1 -
    jitterPercent)) and round(delay * (1 + jitterPercent)).  It grows with
    the random draw, and with [jitterPercent] 0 it returns the rounded
    delay, an integral delay unchanged. *)
Theorem addJitter_within_percent (delay jitterPercent : Q) :
  double delay -> 0 <= delay -> 2 * delay <= MAX_VALUE ->
  0 <= jitterPercent <= 1 ->
  (forall random, 0 <= random <= 1 ->
     (Math_round (fsub delay (fmul delay jitterPercent))
      <= addJitter delay jitterPercent random
      <= Math_round (fadd delay (fmul delay jitterPercent)))%Z
     /\ (0 <= addJitter delay jitterPercent random)%Z
     /\ inject_Z (addJitter delay jitterPercent random) <= MAX_VALUE
     /\ (delay <= inject_Z (2 ^ 50) ->
         (Math_round (delay * (1 - jitterPercent)) - 1
          <= addJitter delay jitterPercent random
          <= Math_round (delay * (1 + jitterPercent)) + 1)%Z))
  /\ (forall r1 r2, r1 <= r2 ->
        (addJitter delay jitterPercent r1 <= addJitter delay jitterPercent r2)%Z)
  /\ (forall random, addJitter delay 0 random = Math_round delay)
  /\ (forall (z : Z) random,
        (Z.abs z <= 2 ^ 53)%Z -> addJitter (inject_Z z) 0 random = z).
Proof.
  intros Dd Hd Hfin Hp. split; [|split; [|split]].
  - intros r Hr.
    pose proof (addJitter_range delay jitterPercent r Dd Hd Hp Hr) as Hrange.
    split; [exact Hrange|]. split; [apply addJitter_nonneg; assumption|]. split.
    + destruct (fmul_percent delay jitterPercent Dd Hd Hp) as [A0 A1].
      assert (Hs : fadd delay (fmul delay jitterPercent) <= inject_Z (Qfloor MAX_VALUE)).
      { unfold fadd. apply fl_le_double.
        - apply double_format. exists (2 ^ 53 - 1)%Z, 971%Z.
          split; [vm_compute; reflexivity | split; [reflexivity | discriminate]].
        - assert (E : inject_Z (Qfloor MAX_VALUE) == MAX_VALUE) by (vm_compute; reflexivity).
          rewrite E. lra. }
      assert (Hz : (addJitter delay jitterPercent r <= Qfloor MAX_VALUE)%Z).
      { eapply Z.le_trans; [apply Hrange|].
        rewrite <- (Math_round_Z (Qfloor MAX_VALUE)). apply Math_round_mono, Hs. }
      rewrite Zle_Qle in Hz. eapply Qle_trans; [exact Hz | apply Qfloor_le].
    + intros H50. apply addJitter_near_exact; assumption.
  - intros r1 r2 Hr. apply addJitter_mono_random; [assumption | apply Hp | assumption].
  - intros r. apply addJitter_zero. assumption.
  - intros z r Hz. rewrite addJitter_zero by (apply double_Z, Hz). apply Math_round_Z.
Qed.

Lemma addJitter_within_percent_witness :
  (750 <= addJitter 1000 (1 # 4) (3 # 8) <= 1250)%Z.
Proof.
  pose proof (addJitter_within_percent 1000 (1 # 4)) as H.
  destruct H as (Hr & _ & _);
    [vm_compute; reflexivity | discriminate | vm_compute; discriminate
    | split; discriminate |].
  destruct (Hr (3 # 8)) as [Hrange _]; [split; discriminate|].
  exact Hrange.
Defined.

(** A retry at attempt [S k] waits at most [Math.round] of the double
    [maxDelay + maxDelay * 0.25]; for [maxDelay] up to 2^50 it waits, to
    within one, at least three quarters of the capped double of [baseDelay]
    and at most five quarters of [maxDelay]. *)
Lemma calculateBackoffWithJitter_retry_bounds (k : nat) (baseDelay maxDelay r : Q) :
  double baseDelay -> double maxDelay ->
  0 < baseDelay -> 0 < maxDelay -> 0 <= r <= 1 ->
  (calculateBackoffWithJitter (S k) baseDelay maxDelay (1 # 4) r
   <= Math_round (fadd maxDelay (fmul maxDelay (1 # 4))))%Z
  /\ (maxDelay <= inject_Z (2 ^ 50) ->
      (Math_round (calculateBackoff 1 baseDelay maxDelay * (3 # 4)) - 1
       <= calculateBackoffWithJitter (S k) baseDelay maxDelay (1 # 4) r
       <= Math_round (maxDelay * (5 # 4)) + 1)%Z).
Proof.
  intros Db Dm Hb Hm Hr.
  rewrite calculateBackoffWithJitter_compose.
  set (c := calculateBackoff (S k) baseDelay maxDelay).
  assert (Hc1 : calculateBackoff 1 baseDelay maxDelay <= c)
    by (apply calculateBackoff_mono; [assumption | lia]).
  assert (Hcm : c <= maxDelay) by apply Q.le_min_r.
  assert (Hc0 : 0 < c) by (apply capped_nonneg; assumption).
  assert (Dc : double c) by (apply double_calculateBackoff; assumption).
  assert (Hp : 0 <= 1 # 4 <= 1) by (split; discriminate).
  split.
  - destruct (addJitter_range c (1 # 4) r) as [_ U]; try assumption; [lra|].
    eapply Z.le_trans; [exact U|]. apply Math_round_mono. unfold fadd. apply fl_mono.
    assert (H1 : fmul c (1 # 4) <= fmul maxDelay (1 # 4)) by (unfold fmul; apply fl_mono; lra).
    lra.
  - intros H50.
    destruct (addJitter_near_exact c (1 # 4) r) as [L U]; try assumption; [lra | lra |].
    split.
    + eapply Z.le_trans; [|exact L]. apply Z.sub_le_mono_r, Math_round_mono. lra.
    + eapply Z.le_trans; [exact U|]. apply Z.add_le_mono_r, Math_round_mono. lra.
Qed.

End Backoff.

(* ===================================================================== *)
(** ** Channel registry (server/channel-manager.ts) *)
(* ===================================================================== *)

Module ChannelManager.

Section Manager.

(** The event payload type [TEvent extends SSEEvent]; the manager never
    inspects it. *)
Context {TEvent : Type}.

(** A better-sse [Channel], as far as the manager and its callers touch it:
    the registered sessions.  Sessions are opaque handles compared by
    identity, here natural numbers. *)
Record Channel := { activeSessions : list nat }.

(** The closure state of one [createSSEChannelManager] call.  JavaScript
    objects have identity: [heap] holds every channel [createChannel()] has
    returned, a channel's reference is its index, and the [channels] map
    stores references. *)
Record Manager := {
  keyPrefix : string;
  keySuffix : string;
  channels : gmap string nat;
  heap : list Channel;
  delivered : list (nat * TEvent)   (* (session, event) pairs broadcast so far *)
}.

Definition set_channels (f : gmap string nat -> gmap string nat) (m : Manager) :=
  {| keyPrefix := keyPrefix m; keySuffix := keySuffix m;
     channels := f (channels m); heap := heap m; delivered := delivered m |}.

Definition set_heap (f : list Channel -> list Channel) (m : Manager) :=
  {| keyPrefix := keyPrefix m; keySuffix := keySuffix m;
     channels := channels m; heap := f (heap m); delivered := delivered m |}.

Definition set_delivered (f : list (nat * TEvent) -> list (nat * TEvent)) (m : Manager) :=
  {| keyPrefix := keyPrefix m; keySuffix := keySuffix m;
     channels := channels m; heap := heap m; delivered := f (delivered m) |}.

(** [createSSEChannelManager(config)]: both keys default to the empty
    string, the map starts empty. *)
Definition createSSEChannelManager (prefix suffix : option string) : Manager :=
  {| keyPrefix := default "" prefix; keySuffix := default "" suffix;
     channels := ∅; heap := []; delivered := [] |}.

(** [parts.join(sep)]. *)
Definition Array_join (sep : string) (parts : list string) : string :=
  match parts with
  | [] => ""
  | p :: rest => fold_left (fun acc x => acc +:+ sep +:+ x) rest p
  end.

(** [[keyPrefix, resourceId, keySuffix].filter(Boolean).join(":")]; the
    empty string is the only falsy string. *)
Definition buildChannelKey (m : Manager) (resourceId : string) : string :=
  let parts :=
    List.filter (fun s => negb (String.eqb s "")) [keyPrefix m; resourceId; keySuffix m] in
  Array_join ":" parts.

(** [createChannel()]: a fresh object, empty session list. *)
Definition createChannel (m : Manager) : nat * Manager :=
  (length (heap m), set_heap (fun h => h ++ [{| activeSessions := [] |}]) m).

Definition getChannel (resourceId : string) (m : Manager) : nat * Manager :=
  let channelKey := buildChannelKey m resourceId in
  match channels m !! channelKey with
  | Some channel => (channel, m)
  | None =>
      let '(channel, m1) := createChannel m in
      (channel, set_channels (insert channelKey channel) m1)
  end.

(** The session list of the channel object with reference [c]. *)
Definition sessionsOf (m : Manager) (c : nat) : list nat :=
  match heap m !! c with
  | Some ch => activeSessions ch
  | None => []
  end.

(** [channel.broadcast(event, "message")]: one delivery per registered
    session. *)
Definition broadcast (c : nat) (event : TEvent) (m : Manager) : Manager :=
  set_delivered (fun d => d ++ map (fun s => (s, event)) (sessionsOf m c)) m.

Definition publish (resourceId : string) (event : TEvent) (m : Manager) : Manager :=
  let '(channel, m1) := getChannel resourceId m in
  broadcast channel event m1.

(** [channel?.activeSessions.length ?? 0]: looks the key up, creates nothing. *)
Definition getSessionCount (resourceId : string) (m : Manager) : nat :=
  let channelKey := buildChannelKey m resourceId in
  match channels m !! channelKey with
  | Some channel => length (sessionsOf m channel)
  | None => 0
  end.

Definition cleanupIfEmpty (resourceId : string) (m : Manager) : Manager :=
  let channelKey := buildChannelKey m resourceId in
  match channels m !! channelKey with
  | Some channel =>
      if (length (sessionsOf m channel) =? 0)%nat
      then set_channels (delete channelKey) m
      else m
  | None => m
  end.

(** Taking one session out of a list of sessions. *)
Fixpoint remove_first (s : nat) (l : list nat) : list nat :=
  match l with
  | [] => []
  | x :: l' => if (x =? s)%nat then l' else x :: remove_first s l'
  end.

(** Modelled from the spec: [channel.register(session)] and
    [channel.deregister(session)], the two calls of the route glue on a
    channel object.  The [Channel] class belongs to better-sse and is not
    in the repository; by section 3 its sessions are a set of opaque
    handles, unique by identity.  So registering a session that is
    registered changes nothing, a new session is added after the others
    (a JavaScript [Set] keeps insertion order), and deregistering takes
    the session out if it is there. *)
Definition register (c s : nat) (m : Manager) : Manager :=
  set_heap (alter (fun ch =>
    if decide (s ∈ activeSessions ch) then ch
    else {| activeSessions := activeSessions ch ++ [s] |}) c) m.

Definition deregister (c s : nat) (m : Manager) : Manager :=
  set_heap (alter (fun ch => {| activeSessions := remove_first s (activeSessions ch) |}) c) m.

(** Calls a program can make on one manager and on its channels. *)
Inductive Op :=
| OpGetChannel (resourceId : string)
| OpPublish (resourceId : string) (event : TEvent)
| OpGetSessionCount (resourceId : string)
| OpCleanupIfEmpty (resourceId : string)
| OpRegister (channel session : nat)
| OpDeregister (channel session : nat).

Definition exec (op : Op) (m : Manager) : Manager :=
  match op with
  | OpGetChannel r => snd (getChannel r m)
  | OpPublish r e => publish r e m
  | OpGetSessionCount _ => m
  | OpCleanupIfEmpty r => cleanupIfEmpty r m
  | OpRegister c s => register c s m
  | OpDeregister c s => deregister c s m
  end.

Definition run (ops : list Op) (m : Manager) : Manager :=
  fold_left (fun acc op => exec op acc) ops m.

(** [op], run in [m], deletes the entry of [resourceId]. *)
Definition removes (resourceId : string) (m : Manager) (op : Op) : bool :=
  match op with
  | OpCleanupIfEmpty r =>
      String.eqb (buildChannelKey m r) (buildChannelKey m resourceId)
      && match channels m !! buildChannelKey m r with
         | Some c => (length (sessionsOf m c) =? 0)%nat
         | None => false
         end
  | _ => false
  end.

(** No call of [ops], run from [m], cleans the channel of [resourceId] up. *)
Fixpoint never_removed (resourceId : string) (ops : list Op) (m : Manager) : bool :=
  match ops with
  | [] => true
  | op :: ops' =>
      negb (removes resourceId m op) && never_removed resourceId ops' (exec op m)
  end.

(** Every reference stored in the map points into the heap. *)
Definition wf (m : Manager) : Prop :=
  forall k c, channels m !! k = Some c -> c < length (heap m).

End Manager.

Arguments Manager : clear implicits.
Arguments Op : clear implicits.

Section Properties.

Context {TEvent : Type}.
Implicit Types (m : Manager TEvent) (op : Op TEvent) (ops : list (Op TEvent)).

Lemma buildChannelKey_exec op m r :
  buildChannelKey (exec op m) r = buildChannelKey m r.
Proof.
  destruct op; simpl; try reflexivity.
  - unfold getChannel. destruct (channels m !! _); reflexivity.
  - unfold publish, getChannel. destruct (channels m !! _); reflexivity.
  - unfold cleanupIfEmpty. destruct (channels m !! _); [|reflexivity].
    destruct (_ =? _)%nat; reflexivity.
Qed.

Lemma heap_length_exec op m : length (heap m) <= length (heap (exec op m)).
Proof.
  destruct op; simpl; try lia.
  - unfold getChannel. destruct (channels m !! _); simpl; [lia|].
    rewrite length_app. simpl. lia.
  - unfold publish, getChannel. destruct (channels m !! _); simpl; [lia|].
    rewrite length_app. simpl. lia.
  - unfold cleanupIfEmpty. destruct (channels m !! _); [|lia].
    destruct (_ =? _)%nat; simpl; lia.
  - rewrite length_alter. lia.
  - rewrite length_alter. lia.
Qed.

Lemma wf_create prefix suffix : wf (createSSEChannelManager (TEvent := TEvent) prefix suffix).
Proof. intros k c H. simpl in H. rewrite lookup_empty in H. discriminate. Qed.

Lemma wf_getChannel r m : wf m -> wf (snd (getChannel r m)).
Proof.
  intros Hwf. unfold getChannel.
  destruct (channels m !! buildChannelKey m r) eqn:E; simpl; [assumption|].
  intros k c. simpl. rewrite length_app. simpl.
  destruct (decide (buildChannelKey m r = k)) as [->|Hne].
  - rewrite lookup_insert_eq. intros [= <-]. lia.
  - rewrite lookup_insert_ne by assumption. intros H. apply Hwf in H. lia.
Qed.

Lemma wf_exec op m : wf m -> wf (exec op m).
Proof.
  intros Hwf. destruct op; simpl; try assumption.
  - apply wf_getChannel; assumption.
  - unfold publish. pose proof (wf_getChannel resourceId m Hwf) as H.
    destruct (getChannel resourceId m) as [c m1]. exact H.
  - unfold cleanupIfEmpty. destruct (channels m !! _) eqn:E; [|assumption].
    destruct (_ =? _)%nat; [|assumption].
    intros k c. simpl. intros H.
    apply lookup_delete_Some in H as [_ H]. eapply Hwf; eassumption.
  - intros k c H. simpl in *. rewrite length_alter. eapply Hwf; eassumption.
  - intros k c H. simpl in *. rewrite length_alter. eapply Hwf; eassumption.
Qed.

Lemma wf_run ops m : wf m -> wf (run ops m).
Proof.
  revert m. induction ops as [|op ops IH]; intros m Hwf; [assumption|].
  simpl. apply IH, wf_exec, Hwf.
Qed.

(** A lookup that hits returns the stored reference and changes nothing. *)
Lemma getChannel_hit r m c :
  channels m !! buildChannelKey m r = Some c -> getChannel r m = (c, m).
Proof. intros H. unfold getChannel. rewrite H. reflexivity. Qed.

(** After [getChannel] the key is bound to the returned reference. *)
Lemma getChannel_binds r m :
  channels (snd (getChannel r m)) !! buildChannelKey m r = Some (fst (getChannel r m)).
Proof.
  unfold getChannel. destruct (channels m !! buildChannelKey m r) eqn:E; simpl.
  - assumption.
  - apply lookup_insert_eq.
Qed.

(** A call that does not clean the key up keeps its binding. *)
Lemma exec_keeps_binding op m r c :
  channels m !! buildChannelKey m r = Some c ->
  removes r m op = false ->
  channels (exec op m) !! buildChannelKey m r = Some c.
Proof.
  intros Hc Hrm. destruct op; simpl in *; try assumption.
  - unfold getChannel.
    destruct (channels m !! buildChannelKey m resourceId) eqn:E; simpl; [assumption|].
    rewrite lookup_insert_ne; [assumption|]. intros Heq. congruence.
  - unfold publish, getChannel.
    destruct (channels m !! buildChannelKey m resourceId) eqn:E; simpl; [assumption|].
    rewrite lookup_insert_ne; [assumption|]. intros Heq. congruence.
  - unfold cleanupIfEmpty.
    destruct (channels m !! buildChannelKey m resourceId) eqn:E; [|assumption].
    destruct (length (sessionsOf m n) =? 0)%nat eqn:E0; [|assumption].
    simpl. rewrite andb_true_r in Hrm. apply String.eqb_neq in Hrm.
    rewrite lookup_delete_ne; [assumption|]. assumption.
Qed.

Lemma run_keeps_binding ops m r c :
  channels m !! buildChannelKey m r = Some c ->
  never_removed r ops m = true ->
  channels (run ops m) !! buildChannelKey m r = Some c.
Proof.
  revert m. induction ops as [|op ops IH]; intros m Hc Hnr; [assumption|].
  simpl in *. apply andb_true_iff in Hnr as [H1 H2]. apply negb_true_iff in H1.
  rewrite <- (buildChannelKey_exec op m r). apply IH; [|assumption].
  rewrite buildChannelKey_exec. apply exec_keeps_binding; assumption.
Qed.

Lemma buildChannelKey_run ops m r : buildChannelKey (run ops m) r = buildChannelKey m r.
Proof.
  revert m. induction ops as [|op ops IH]; intros m; [reflexivity|].
  simpl. rewrite IH. apply buildChannelKey_exec.
Qed.

Lemma heap_length_run ops m : length (heap m) <= length (heap (run ops m)).
Proof.
  revert m. induction ops as [|op ops IH]; intros m; [simpl; lia|].
  simpl. pose proof (heap_length_exec op m). pose proof (IH (exec op m)). lia.
Qed.

(** Once the key is unbound or bound to a younger object, it never again
    refers to the old object [c]. *)
Lemma exec_never_rebinds op m r c :
  c < length (heap m) ->
  channels m !! buildChannelKey m r <> Some c ->
  channels (exec op m) !! buildChannelKey m r <> Some c.
Proof.
  intros Hlt Hne. destruct op; simpl; try assumption.
  - unfold getChannel.
    destruct (channels m !! buildChannelKey m resourceId) eqn:E; simpl; [assumption|].
    destruct (decide (buildChannelKey m resourceId = buildChannelKey m r)) as [Heq|Hk].
    + rewrite Heq, lookup_insert_eq. intros [= H]. lia.
    + rewrite lookup_insert_ne by assumption. assumption.
  - unfold publish, getChannel.
    destruct (channels m !! buildChannelKey m resourceId) eqn:E; simpl; [assumption|].
    destruct (decide (buildChannelKey m resourceId = buildChannelKey m r)) as [Heq|Hk].
    + rewrite Heq, lookup_insert_eq. intros [= H]. lia.
    + rewrite lookup_insert_ne by assumption. assumption.
  - unfold cleanupIfEmpty.
    destruct (channels m !! buildChannelKey m resourceId) eqn:E; [|assumption].
    destruct (_ =? _)%nat; [|assumption]. simpl.
    intros H. apply lookup_delete_Some in H as [_ H]. contradiction.
Qed.

Lemma run_never_rebinds ops m r c :
  c < length (heap m) ->
  channels m !! buildChannelKey m r <> Some c ->
  channels (run ops m) !! buildChannelKey m r <> Some c.
Proof.
  revert m. induction ops as [|op ops IH]; intros m Hlt Hne; [assumption|].
  simpl. rewrite <- (buildChannelKey_exec op m r). apply IH.
  - pose proof (heap_length_exec op m). lia.
  - rewrite buildChannelKey_exec. apply exec_never_rebinds; assumption.
Qed.

(** C8: on a well-formed manager, [getChannel] for a resource id returns the
    same channel object (same reference, state untouched) for as long as no
    call has cleaned that channel up, whatever else is called in between;
    once [cleanupIfEmpty] has removed the channel (its session list being
    empty), the key is unbound and every later [getChannel] for that resource
    id, the very next one included, returns an object whose identity differs
    from the original. *)
Theorem getChannel_identity_reuse_and_renewal m (r : string) :
  wf m ->
  let c1 := fst (getChannel r m) in
  let m1 := snd (getChannel r m) in
  (forall ops,
      never_removed r ops m1 = true ->
      getChannel r (run ops m1) = (c1, run ops m1))
  /\ (forall ops ops',
        never_removed r ops m1 = true ->
        sessionsOf (run ops m1) c1 = [] ->
        let m2 := cleanupIfEmpty r (run ops m1) in
        channels m2 !! buildChannelKey m r = None
        /\ fst (getChannel r m2) = length (heap m2)
        /\ fst (getChannel r (run ops' m2)) <> c1).
Proof.
  intros Hwf c1 m1.
  assert (Hk1' : forall x, buildChannelKey m1 x = buildChannelKey m x).
  { intros x. unfold m1, getChannel.
    destruct (channels m !! buildChannelKey m r); reflexivity. }
  assert (Hb1 : channels m1 !! buildChannelKey m1 r = Some c1).
  { rewrite Hk1'. apply getChannel_binds. }
  assert (Hwf1 : wf m1) by (apply wf_getChannel; assumption).
  assert (Hkeep : forall ops, never_removed r ops m1 = true ->
            channels (run ops m1) !! buildChannelKey (run ops m1) r = Some c1).
  { intros ops Hnr. rewrite buildChannelKey_run.
    apply run_keeps_binding; assumption. }
  split.
  - intros ops Hnr. apply getChannel_hit, Hkeep, Hnr.
  - intros ops ops' Hnr Hempty m2.
    pose proof (Hkeep ops Hnr) as Hb.
    assert (Hm2 : m2 = set_channels (delete (buildChannelKey (run ops m1) r)) (run ops m1)).
    { unfold m2, cleanupIfEmpty. rewrite Hb, Hempty. reflexivity. }
    assert (Hkm2 : forall x, buildChannelKey m2 x = buildChannelKey m x).
    { intros x. rewrite Hm2.
      change (buildChannelKey (set_channels _ (run ops m1)) x)
        with (buildChannelKey (run ops m1) x).
      rewrite buildChannelKey_run. apply Hk1'. }
    assert (Hnone : channels m2 !! buildChannelKey m2 r = None).
    { rewrite Hkm2, Hm2. simpl. rewrite buildChannelKey_run, Hk1'.
      apply lookup_delete_eq. }
    assert (Hlt : c1 < length (heap m2)).
    { rewrite Hm2. simpl. pose proof (wf_run ops m1 Hwf1) as Hw.
      eapply Hw. exact Hb. }
    split; [rewrite <- Hkm2; exact Hnone|].
    split.
    + unfold getChannel. rewrite Hnone. reflexivity.
    + pose proof (run_never_rebinds ops' m2 r c1 Hlt) as Hnb.
      rewrite Hnone in Hnb. specialize (Hnb ltac:(discriminate)).
      rewrite <- (buildChannelKey_run ops') in Hnb.
      unfold getChannel.
      destruct (channels (run ops' m2) !! buildChannelKey (run ops' m2) r) eqn:E; simpl.
      * congruence.
      * pose proof (heap_length_run ops' m2). lia.
Qed.

(** C9: [cleanupIfEmpty] never fails (it is a total function of the
    state); it deletes the entry of the resource's key exactly when an entry
    exists and its channel has no active session, touching nothing else; when
    the channel has sessions or the key is unbound the state is returned
    unchanged. *)
Theorem cleanupIfEmpty_removes_iff_empty m (r : string) :
  let k := buildChannelKey m r in
  let m' := cleanupIfEmpty r m in
  let removable := exists c, channels m !! k = Some c /\ length (sessionsOf m c) = 0 in
  (removable -> m' = set_channels (delete k) m)
  /\ (~ removable -> m' = m)
  /\ ((is_Some (channels m !! k) /\ channels m' !! k = None) <-> removable)
  /\ (forall k', k' <> k -> channels m' !! k' = channels m !! k')
  /\ heap m' = heap m.
Proof.
  intros k m' removable. unfold m', cleanupIfEmpty. fold k.
  destruct (channels m !! k) as [c|] eqn:E.
  - destruct (length (sessionsOf m c) =? 0)%nat eqn:E0.
    + apply Nat.eqb_eq in E0.
      assert (Hr : removable) by (exists c; split; [reflexivity | assumption]).
      repeat split; try (intros; reflexivity); try (intros; contradiction); try (intros; exact Hr).
      * eexists; reflexivity.
      * simpl. apply lookup_delete_eq.
      * intros k' Hne. simpl. apply lookup_delete_ne. congruence.
    + apply Nat.eqb_neq in E0.
      assert (Hr : ~ removable) by (intros (c' & [= <-] & H0); contradiction).
      repeat split; try (intros; reflexivity); try (intros; contradiction).
      intros [_ H]. rewrite E in H. discriminate.
  - assert (Hr : ~ removable) by (intros (c' & [=] & _)).
    repeat split; try (intros; reflexivity); try (intros; contradiction).
    intros [[x Hx] _]. discriminate.
Qed.

End Properties.

(** The scenario of channel-manager.test.ts: get, get again, clean up, get. *)
Lemma getChannel_identity_reuse_and_renewal_witness :
  let m := createSSEChannelManager (TEvent := nat) None None in
  wf m
  /\ fst (getChannel "test-123" (snd (getChannel "test-123" m))) = fst (getChannel "test-123" m)
  /\ fst (getChannel "test-123" (cleanupIfEmpty "test-123" (snd (getChannel "test-123" m))))
     <> fst (getChannel "test-123" m).
Proof.
  intros m.
  destruct (getChannel_identity_reuse_and_renewal m "test-123" (wf_create None None))
    as [Hsame Hnew].
  split; [apply wf_create|]. split.
  - exact (f_equal fst (Hsame [] eq_refl)).
  - destruct (Hnew [] [] eq_refl eq_refl) as (_ & _ & H). exact H.
Defined.

(** A channel with a registered session survives the cleanup; an empty one
    does not. *)
Lemma cleanupIfEmpty_removes_iff_empty_witness :
  let m0 := createSSEChannelManager (TEvent := nat) (Some "discussion") (Some "comments") in
  let m := snd (getChannel "42" m0) in
  cleanupIfEmpty "42" (register 0 7 m) = register 0 7 m
  /\ channels (cleanupIfEmpty "42" m) !! "discussion:42:comments" = None
  /\ cleanupIfEmpty "absent" m = m.
Proof.
  intros m0 m. split; [|split].
  - apply (cleanupIfEmpty_removes_iff_empty (register 0 7 m) "42").
    intros (c & Hc & Hl). vm_compute in Hc. injection Hc as <-. vm_compute in Hl. discriminate.
  - destruct (cleanupIfEmpty_removes_iff_empty m "42") as (H & _).
    rewrite H; [apply lookup_delete_eq|]. exists 0. split; reflexivity.
  - apply (cleanupIfEmpty_removes_iff_empty m "absent").
    intros (c & Hc & _). vm_compute in Hc. discriminate.
Defined.

(* --------------------------------------------------------------------- *)
(** *** Keys, session counts and the life cycle of a channel *)

Section MoreProperties.

Context {TEvent : Type}.
Implicit Types (m : Manager TEvent) (op : Op TEvent) (ops : list (Op TEvent)).

Lemma String_length_append (s t : string) :
  String.length (s +:+ t) = String.length s + String.length t.
Proof.
  induction s as [|a s IH]; [reflexivity|].
  change (S (String.length (s +:+ t)) = S (String.length s + String.length t)).
  now rewrite IH.
Qed.

Lemma String_append_cancel_r (s1 s2 t : string) : s1 +:+ t = s2 +:+ t -> s1 = s2.
Proof.
  revert s2. induction s1 as [|a s1 IH]; intros [|b s2] H.
  - reflexivity.
  - apply (f_equal String.length) in H. rewrite !String_length_append in H.
    simpl in H. lia.
  - apply (f_equal String.length) in H. rewrite !String_length_append in H.
    simpl in H. lia.
  - change (String a (s1 +:+ t) = String b (s2 +:+ t)) in H.
    injection H as -> H. f_equal. apply IH, H.
Qed.

(** [buildChannelKey] is injective in the resource id: the eight shapes of
    the key (prefix, id, suffix each empty or not) never collide. *)
Lemma buildChannelKey_inj m (r1 r2 : string) :
  buildChannelKey m r1 = buildChannelKey m r2 -> r1 = r2.
Proof.
  unfold buildChannelKey. simpl.
  destruct (String.eqb (keyPrefix m) "") eqn:Ep, (String.eqb (keySuffix m) "") eqn:Es,
    (String.eqb r1 "") eqn:E1, (String.eqb r2 "") eqn:E2; simpl; intros H;
    try (apply String.eqb_eq in E1); try (apply String.eqb_eq in E2);
    try congruence;
    try (apply (f_equal String.length) in H; rewrite ?String_length_append in H;
         simpl in H; lia).
  - apply String_append_cancel_r in H. exact H.
  - apply (String.app_inj (keyPrefix m)) in H. injection H as H. exact H.
  - apply String_append_cancel_r in H. apply (String.app_inj (keyPrefix m)) in H.
    injection H as H. exact H.
Qed.

(** No two keys of the map share a channel object. *)
Definition separate m : Prop :=
  forall k1 k2 c, channels m !! k1 = Some c -> channels m !! k2 = Some c -> k1 = k2.

Lemma separate_create prefix suffix :
  separate (createSSEChannelManager (TEvent := TEvent) prefix suffix).
Proof. intros k1 k2 c H. simpl in H. rewrite lookup_empty in H. discriminate. Qed.

Lemma separate_getChannel r m : wf m -> separate m -> separate (snd (getChannel r m)).
Proof.
  intros Hwf Hs. unfold getChannel.
  destruct (channels m !! buildChannelKey m r) eqn:E; simpl; [assumption|].
  intros k1 k2 c. simpl.
  destruct (decide (buildChannelKey m r = k1)) as [<-|H1];
    destruct (decide (buildChannelKey m r = k2)) as [<-|H2];
    rewrite ?lookup_insert_eq, ?lookup_insert_ne by assumption.
  - reflexivity.
  - intros [= <-] H. apply Hwf in H. lia.
  - intros H [= <-]. apply Hwf in H. lia.
  - apply Hs.
Qed.

Lemma separate_exec op m : wf m -> separate m -> separate (exec op m).
Proof.
  intros Hwf Hs. destruct op; simpl; try assumption.
  - apply separate_getChannel; assumption.
  - unfold publish. pose proof (separate_getChannel resourceId m Hwf Hs) as H.
    destruct (getChannel resourceId m) as [c m1]. exact H.
  - unfold cleanupIfEmpty. destruct (channels m !! _) eqn:E; [|assumption].
    destruct (_ =? _)%nat; [|assumption].
    intros k1 k2 c. simpl. intros H1 H2.
    apply lookup_delete_Some in H1 as [_ H1].
    apply lookup_delete_Some in H2 as [_ H2]. eapply Hs; eassumption.
Qed.

Lemma separate_run ops m : wf m -> separate m -> wf (run ops m) /\ separate (run ops m).
Proof.
  revert m. induction ops as [|op ops IH]; intros m Hwf Hs; [split; assumption|].
  simpl. apply IH; [apply wf_exec | apply separate_exec]; assumption.
Qed.

Lemma buildChannelKey_getChannel r m x :
  buildChannelKey (snd (getChannel r m)) x = buildChannelKey m x.
Proof. unfold getChannel. destruct (channels m !! _); reflexivity. Qed.

Lemma buildChannelKey_cleanupIfEmpty r m x :
  buildChannelKey (cleanupIfEmpty r m) x = buildChannelKey m x.
Proof.
  unfold cleanupIfEmpty. destruct (channels m !! _); [|reflexivity].
  destruct (_ =? _)%nat; reflexivity.
Qed.

(** The object [createChannel] has just returned has no session. *)
Lemma sessionsOf_fresh m :
  sessionsOf (set_heap (fun h => h ++ [{| activeSessions := [] |}]) m) (length (heap m)) = [].
Proof.
  unfold sessionsOf. simpl. rewrite list_lookup_middle by reflexivity. reflexivity.
Qed.

(** [getChannel] leaves the session list of every object alone; the object it
    may create is empty. *)
Lemma sessionsOf_getChannel r m c :
  sessionsOf (snd (getChannel r m)) c = sessionsOf m c.
Proof.
  unfold getChannel. destruct (channels m !! buildChannelKey m r); [reflexivity|].
  unfold sessionsOf. simpl.
  destruct (decide (c < length (heap m))) as [Hlt|Hge].
  - rewrite lookup_app_l by assumption. reflexivity.
  - rewrite (lookup_ge_None_2 (heap m) c) by lia.
    destruct (decide (c = length (heap m))) as [->|Hne].
    + rewrite list_lookup_middle by reflexivity. reflexivity.
    + rewrite lookup_ge_None_2; [reflexivity|]. rewrite length_app. simpl. lia.
Qed.

(** The count depends on the keys, the map and the heap only. *)
Lemma getSessionCount_ext m m' r :
  keyPrefix m' = keyPrefix m -> keySuffix m' = keySuffix m ->
  channels m' = channels m -> heap m' = heap m ->
  getSessionCount r m' = getSessionCount r m.
Proof.
  intros Hp Hs Hc Hh. unfold getSessionCount, buildChannelKey, sessionsOf.
  rewrite Hp, Hs, Hc, Hh. reflexivity.
Qed.

Lemma getSessionCount_getChannel r r' m :
  getSessionCount r' (snd (getChannel r m)) = getSessionCount r' m.
Proof.
  destruct (channels m !! buildChannelKey m r) as [c|] eqn:E.
  { rewrite (getChannel_hit _ _ _ E). reflexivity. }
  unfold getSessionCount. rewrite buildChannelKey_getChannel.
  assert (Hch : channels (snd (getChannel r m))
                = <[buildChannelKey m r := length (heap m)]> (channels m)).
  { unfold getChannel. rewrite E. reflexivity. }
  rewrite Hch.
  destruct (decide (buildChannelKey m r = buildChannelKey m r')) as [Heq|Hne].
  - rewrite <- Heq, lookup_insert_eq, E, sessionsOf_getChannel.
    unfold sessionsOf. rewrite lookup_ge_None_2 by lia. reflexivity.
  - rewrite lookup_insert_ne by assumption.
    destruct (channels m !! buildChannelKey m r') as [c|]; [|reflexivity].
    rewrite sessionsOf_getChannel. reflexivity.
Qed.

Lemma getSessionCount_cleanupIfEmpty r r' m :
  getSessionCount r' (cleanupIfEmpty r m) = getSessionCount r' m.
Proof.
  unfold getSessionCount. rewrite buildChannelKey_cleanupIfEmpty.
  unfold cleanupIfEmpty.
  destruct (channels m !! buildChannelKey m r) as [c|] eqn:E; [|reflexivity].
  destruct (length (sessionsOf m c) =? 0)%nat eqn:E0; [|reflexivity].
  apply Nat.eqb_eq in E0. simpl.
  destruct (decide (buildChannelKey m r = buildChannelKey m r')) as [Heq|Hne].
  - rewrite <- Heq, lookup_delete_eq, E, E0. reflexivity.
  - rewrite lookup_delete_ne by assumption. reflexivity.
Qed.

Lemma remove_first_length s l :
  length (remove_first s l) = if decide (s ∈ l) then pred (length l) else length l.
Proof.
  induction l as [|x l IH]; simpl; [reflexivity|].
  destruct (x =? s)%nat eqn:E.
  - apply Nat.eqb_eq in E. subst. rewrite decide_True by left. reflexivity.
  - apply Nat.eqb_neq in E. simpl. rewrite IH.
    destruct (decide (s ∈ l)) as [Hin|Hin].
    + rewrite decide_True by (right; assumption).
      destruct l; [inversion Hin | reflexivity].
    + rewrite decide_False; [reflexivity|].
      intros H. apply elem_of_cons in H as [H|H]; congruence.
Qed.

Lemma remove_first_snoc s l : s ∉ l -> remove_first s (l ++ [s]) = l.
Proof.
  induction l as [|x l IH]; intros Hn; simpl.
  - now rewrite Nat.eqb_refl.
  - apply not_elem_of_cons in Hn as [Hne Hn].
    destruct (x =? s)%nat eqn:E; [apply Nat.eqb_eq in E; congruence|].
    now rewrite IH.
Qed.

Lemma remove_first_elem_of s x l : x ∈ remove_first s l -> x ∈ l.
Proof.
  induction l as [|y l IH]; simpl; [trivial|].
  destruct (y =? s)%nat.
  - intros H. now right.
  - intros H. apply elem_of_cons in H as [->|H]; [left | right; auto].
Qed.

Lemma sessionsOf_register_any m c s c' :
  c < length (heap m) ->
  sessionsOf (register c s m) c'
  = if decide (c' = c)
    then (if decide (s ∈ sessionsOf m c) then sessionsOf m c else sessionsOf m c ++ [s])
    else sessionsOf m c'.
Proof.
  intros Hc. unfold sessionsOf, register. simpl.
  destruct (decide (c' = c)) as [->|Hne].
  - rewrite list_lookup_alter_eq.
    destruct (lookup_lt_is_Some_2 (heap m) c Hc) as [ch ->]. simpl.
    destruct (decide (s ∈ activeSessions ch)); reflexivity.
  - rewrite list_lookup_alter_ne by congruence. reflexivity.
Qed.

(** Registering a session that is not registered appends it. *)
Lemma sessionsOf_register m c s c' :
  c < length (heap m) -> s ∉ sessionsOf m c ->
  sessionsOf (register c s m) c'
  = if decide (c' = c) then sessionsOf m c ++ [s] else sessionsOf m c'.
Proof.
  intros Hc Hs. rewrite sessionsOf_register_any by assumption.
  destruct (decide (c' = c)); [|reflexivity]. now rewrite decide_False.
Qed.

Lemma sessionsOf_deregister m c s c' :
  sessionsOf (deregister c s m) c'
  = if decide (c' = c) then remove_first s (sessionsOf m c) else sessionsOf m c'.
Proof.
  unfold sessionsOf, deregister. simpl.
  destruct (decide (c' = c)) as [->|Hne].
  - rewrite list_lookup_alter_eq. destruct (heap m !! c); reflexivity.
  - rewrite list_lookup_alter_ne by congruence. reflexivity.
Qed.

Lemma sessionsOf_publish r event m c :
  sessionsOf (publish r event m) c = sessionsOf m c.
Proof.
  unfold publish. pose proof (sessionsOf_getChannel r m c) as H.
  destruct (getChannel r m) as [c1 m1]. exact H.
Qed.

Lemma sessionsOf_cleanupIfEmpty r m c :
  sessionsOf (cleanupIfEmpty r m) c = sessionsOf m c.
Proof.
  unfold cleanupIfEmpty. destruct (channels m !! _); [|reflexivity].
  destruct (_ =? _)%nat; reflexivity.
Qed.

(** The count depends on the keys, the map and the session lists only. *)
Lemma getSessionCount_sessions_ext m m' r :
  keyPrefix m' = keyPrefix m -> keySuffix m' = keySuffix m ->
  channels m' = channels m -> (forall c, sessionsOf m' c = sessionsOf m c) ->
  getSessionCount r m' = getSessionCount r m.
Proof.
  intros Hp Hs Hc Hh. unfold getSessionCount, buildChannelKey.
  rewrite Hp, Hs, Hc. destruct (channels m !! _); [|reflexivity]. now rewrite Hh.
Qed.

Lemma getSessionCount_bound m r c :
  channels m !! buildChannelKey m r = Some c ->
  getSessionCount r m = length (sessionsOf m c).
Proof. intros H. unfold getSessionCount. now rewrite H. Qed.

Lemma delivered_getChannel r m : delivered (snd (getChannel r m)) = delivered m.
Proof. unfold getChannel. destruct (channels m !! _); reflexivity. Qed.

Lemma delivered_cleanupIfEmpty r m : delivered (cleanupIfEmpty r m) = delivered m.
Proof.
  unfold cleanupIfEmpty. destruct (channels m !! _); [|reflexivity].
  destruct (_ =? _)%nat; reflexivity.
Qed.

(** A publish delivers to the sessions of the resource's channel, in the
    order they registered. *)
Lemma delivered_publish r event m :
  delivered (publish r event m)
  = delivered m ++ map (fun s => (s, event)) (sessionsOf m (fst (getChannel r m))).
Proof.
  unfold publish. pose proof (delivered_getChannel r m) as Hd.
  pose proof (sessionsOf_getChannel r m (fst (getChannel r m))) as Hs.
  destruct (getChannel r m) as [c m1]. simpl in *.
  unfold broadcast. simpl. now rewrite Hd, Hs.
Qed.

Lemma sessionsOf_register_elem_of m c s c' x :
  x ∈ sessionsOf (register c s m) c' -> x ∈ sessionsOf m c' \/ x = s.
Proof.
  unfold sessionsOf, register. simpl.
  destruct (decide (c' = c)) as [->|Hne].
  - rewrite list_lookup_alter_eq. destruct (heap m !! c) as [ch|]; simpl; [|now left].
    destruct (decide (s ∈ activeSessions ch)); simpl; [now left|].
    intros H. apply elem_of_app in H as [H|H]; [now left|].
    apply list_elem_of_singleton in H. now right.
  - rewrite list_lookup_alter_ne by congruence. now left.
Qed.

Lemma getSessionCount_register m r c s r' :
  wf m -> separate m ->
  channels m !! buildChannelKey m r = Some c -> s ∉ sessionsOf m c ->
  getSessionCount r' (register c s m)
  = if decide (r' = r) then S (getSessionCount r' m) else getSessionCount r' m.
Proof.
  intros Hwf Hsep Hb Hs. pose proof (Hwf _ _ Hb) as Hc.
  unfold getSessionCount.
  change (buildChannelKey (register c s m) r') with (buildChannelKey m r').
  change (channels (register c s m)) with (channels m).
  destruct (decide (r' = r)) as [->|Hne].
  - rewrite Hb, sessionsOf_register, decide_True, length_app by auto. simpl. lia.
  - destruct (channels m !! buildChannelKey m r') as [c'|] eqn:E; [|reflexivity].
    rewrite sessionsOf_register, decide_False; [reflexivity | | assumption | assumption].
    intros ->. apply Hne, (buildChannelKey_inj m). eapply Hsep; eassumption.
Qed.

(** X3: within one manager two different
    resource ids never map to the same channel key, whatever prefix and
    suffix are configured (each may be empty, and so may an id). *)
Theorem distinct_ids_have_distinct_keys m (r1 r2 : string) :
  r1 <> r2 -> buildChannelKey m r1 <> buildChannelKey m r2.
Proof. intros Hne H. apply Hne, (buildChannelKey_inj m), H. Qed.

(** X4: in every state a manager
    can reach, two different resource ids are served by two different channel
    objects, and the first keeps its object when the second is looked up. *)
Theorem distinct_resources_have_distinct_channels prefix suffix ops (r1 r2 : string) :
  r1 <> r2 ->
  let m := run ops (createSSEChannelManager (TEvent := TEvent) prefix suffix) in
  let m1 := snd (getChannel r1 m) in
  let m2 := snd (getChannel r2 m1) in
  fst (getChannel r1 m) <> fst (getChannel r2 m1)
  /\ getChannel r1 m2 = (fst (getChannel r1 m), m2).
Proof.
  intros Hne m m1 m2.
  destruct (separate_run ops (createSSEChannelManager prefix suffix))
    as [Hwf Hs]; [apply wf_create | apply separate_create |]. fold m in Hwf, Hs.
  assert (Hwf1 : wf m1) by (apply wf_getChannel; assumption).
  assert (Hs1 : separate m1) by (apply separate_getChannel; assumption).
  assert (Hs2 : separate m2) by (apply separate_getChannel; assumption).
  pose proof (getChannel_binds r1 m) as Hb1. fold m1 in Hb1.
  pose proof (getChannel_binds r2 m1) as Hb2. fold m2 in Hb2.
  assert (Hk : buildChannelKey m r1 <> buildChannelKey m1 r2).
  { unfold m1. rewrite buildChannelKey_getChannel.
    intros H. apply Hne, (buildChannelKey_inj m), H. }
  assert (Hb1' : channels m2 !! buildChannelKey m r1 = Some (fst (getChannel r1 m))).
  { unfold m2, getChannel.
    destruct (channels m1 !! buildChannelKey m1 r2) eqn:E; simpl; [assumption|].
    rewrite lookup_insert_ne by congruence. assumption. }
  split.
  - intros Heq. rewrite Heq in Hb1'. apply Hk. eapply Hs2; eassumption.
  - apply getChannel_hit. unfold m2, m1.
    rewrite !buildChannelKey_getChannel. exact Hb1'.
Qed.

(** X5: [getSessionCount] reports the size
    of the very channel [getChannel] hands out (zero for a resource never
    seen, and asking creates nothing); a [register] on that channel raises the
    count by one when the session is not registered yet and leaves it alone
    otherwise, so that a session registered twice counts once; a
    [deregister] lowers the count by one exactly when the session was
    registered. *)
Theorem getSessionCount_tracks_sessions m (r : string) (s : nat) :
  wf m ->
  let c := fst (getChannel r m) in
  let m1 := snd (getChannel r m) in
  getSessionCount r m = length (sessionsOf m1 c)
  /\ getSessionCount r m1 = getSessionCount r m
  /\ (channels m !! buildChannelKey m r = None -> getSessionCount r m = 0)
  /\ getSessionCount r (register c s m1)
     = (if decide (s ∈ sessionsOf m1 c) then getSessionCount r m
        else S (getSessionCount r m))
  /\ getSessionCount r (register c s (register c s m1))
     = getSessionCount r (register c s m1)
  /\ getSessionCount r (deregister c s m1)
     = (if decide (s ∈ sessionsOf m1 c) then pred (getSessionCount r m)
        else getSessionCount r m).
Proof.
  intros Hwf c m1.
  assert (Hc : c < length (heap m1)).
  { apply (wf_getChannel r m Hwf (buildChannelKey m r)), getChannel_binds. }
  assert (Hb : channels m1 !! buildChannelKey m r = Some c) by apply getChannel_binds.
  assert (H1 : getSessionCount r m1 = length (sessionsOf m1 c)).
  { unfold getSessionCount. unfold m1 at 1 2. rewrite buildChannelKey_getChannel.
    fold m1. rewrite Hb. reflexivity. }
  assert (H0 : getSessionCount r m = length (sessionsOf m1 c)).
  { rewrite <- H1. symmetry. apply getSessionCount_getChannel. }
  assert (Hcount : forall m', keyPrefix m' = keyPrefix m1 -> keySuffix m' = keySuffix m1 ->
                     channels m' = channels m1 ->
                     getSessionCount r m' = length (sessionsOf m' c)).
  { intros m' Hp Hx Hch. unfold getSessionCount, buildChannelKey. rewrite Hp, Hx, Hch.
    fold (buildChannelKey m1 r). unfold m1 at 1 2. rewrite buildChannelKey_getChannel.
    fold m1. rewrite Hb. reflexivity. }
  assert (Hreg : sessionsOf (register c s m1) c
                 = if decide (s ∈ sessionsOf m1 c) then sessionsOf m1 c
                   else sessionsOf m1 c ++ [s]).
  { rewrite sessionsOf_register_any by assumption. now rewrite decide_True. }
  split; [exact H0|]. split; [congruence|]. split.
  { intros E. unfold getSessionCount. now rewrite E. }
  split; [|split].
  - rewrite (Hcount (register c s m1)) by reflexivity. rewrite Hreg, H0.
    destruct (decide (s ∈ sessionsOf m1 c)); [reflexivity|].
    rewrite length_app. simpl. lia.
  - rewrite (Hcount (register c s (register c s m1))) by reflexivity.
    rewrite (Hcount (register c s m1)) by reflexivity.
    assert (Hc' : c < length (heap (register c s m1)))
      by (unfold register; simpl; rewrite length_alter; exact Hc).
    rewrite sessionsOf_register_any, decide_True by (try reflexivity; exact Hc').
    rewrite decide_True; [reflexivity|].
    rewrite Hreg. destruct (decide (s ∈ sessionsOf m1 c)); [assumption|].
    apply elem_of_app. right. apply list_elem_of_singleton. reflexivity.
  - rewrite (Hcount (deregister c s m1)) by reflexivity.
    rewrite sessionsOf_deregister, decide_True by reflexivity.
    rewrite remove_first_length, H0. reflexivity.
Qed.

(** X6: publishing to a
    resource nobody has asked for delivers nothing but leaves an empty channel
    behind in the map; a [cleanupIfEmpty] for the same resource takes it out
    again. *)
Theorem publish_to_unknown_resource_leaves_empty_channel
    m (r : string) (event : TEvent) :
  channels m !! buildChannelKey m r = None ->
  let m' := publish r event m in
  delivered m' = delivered m
  /\ channels m' !! buildChannelKey m r = Some (length (heap m))
  /\ getSessionCount r m' = 0
  /\ channels (cleanupIfEmpty r m') = channels m.
Proof.
  intros E m'.
  assert (Hm' : m' = set_delivered (fun d => d ++ [])
                       (set_channels (insert (buildChannelKey m r) (length (heap m)))
                          (set_heap (fun h => h ++ [{| activeSessions := [] |}]) m))).
  { unfold m', publish, getChannel. rewrite E. simpl. unfold broadcast.
    change (sessionsOf (set_channels _ ?x) ?c) with (sessionsOf x c).
    rewrite sessionsOf_fresh. reflexivity. }
  assert (Hk : buildChannelKey m' r = buildChannelKey m r) by (rewrite Hm'; reflexivity).
  assert (Hb : channels m' !! buildChannelKey m r = Some (length (heap m))).
  { rewrite Hm'. simpl. apply lookup_insert_eq. }
  assert (Hs : sessionsOf m' (length (heap m)) = []).
  { rewrite Hm'. apply sessionsOf_fresh. }
  split; [rewrite Hm'; simpl; apply app_nil_r|].
  split; [exact Hb|]. split.
  - unfold getSessionCount. rewrite Hk, Hb, Hs. reflexivity.
  - unfold cleanupIfEmpty. rewrite Hk, Hb, Hs. simpl. rewrite Hm'. simpl.
    rewrite delete_insert_id by exact E. reflexivity.
Qed.

(** X7: a [cleanupIfEmpty] changes no session
    count, and a [publish] that directly follows it delivers what it would
    have delivered without the cleanup; a second cleanup changes nothing.
    (What comes later can differ: [getChannel] hands out a new object, and
    a session registered on the old one is no longer reached.) *)
Theorem cleanupIfEmpty_keeps_counts_and_next_delivery m (r r' : string) (event : TEvent) :
  getSessionCount r' (cleanupIfEmpty r m) = getSessionCount r' m
  /\ delivered (publish r' event (cleanupIfEmpty r m)) = delivered (publish r' event m)
  /\ cleanupIfEmpty r (cleanupIfEmpty r m) = cleanupIfEmpty r m.
Proof.
  split; [apply getSessionCount_cleanupIfEmpty|].
  unfold cleanupIfEmpty at 1 3 4.
  destruct (channels m !! buildChannelKey m r) as [c|] eqn:E.
  2:{ split; [reflexivity|]. unfold cleanupIfEmpty. now rewrite E. }
  destruct (length (sessionsOf m c) =? 0)%nat eqn:E0.
  2:{ split; [reflexivity|]. unfold cleanupIfEmpty. now rewrite E, E0. }
  apply Nat.eqb_eq in E0. apply length_zero_iff_nil in E0.
  split.
  - unfold publish, getChannel. simpl.
    change (buildChannelKey (set_channels _ m) r') with (buildChannelKey m r').
    destruct (decide (buildChannelKey m r = buildChannelKey m r')) as [Heq|Hne].
    + rewrite <- Heq, lookup_delete_eq, E. simpl. unfold broadcast. simpl.
      rewrite E0. unfold sessionsOf. simpl.
      rewrite list_lookup_middle by reflexivity. reflexivity.
    + rewrite lookup_delete_ne by assumption.
      destruct (channels m !! buildChannelKey m r'); reflexivity.
  - unfold cleanupIfEmpty. simpl.
    change (buildChannelKey (set_channels _ m) r) with (buildChannelKey m r).
    rewrite lookup_delete_eq. reflexivity.
Qed.

End MoreProperties.

(** With prefix [discussion] and suffix [comments], the ids 1 and 2. *)
Lemma distinct_ids_have_distinct_keys_witness :
  let m := createSSEChannelManager (TEvent := nat) (Some "discussion") (Some "comments") in
  buildChannelKey m "1" <> buildChannelKey m "2".
Proof.
  intros m. apply (distinct_ids_have_distinct_keys m "1" "2"). discriminate.
Defined.

(** After traffic on a third resource, the channels of 1 and 2 differ. *)
Lemma distinct_resources_have_distinct_channels_witness :
  let m := run [OpPublish "3" 0; OpCleanupIfEmpty "3"; OpGetChannel "2"]
             (createSSEChannelManager None None) in
  fst (getChannel "1" m) <> fst (getChannel "2" (snd (getChannel "1" m))).
Proof.
  intros m.
  pose proof (distinct_resources_have_distinct_channels None None
                [OpPublish "3" 0; OpCleanupIfEmpty "3"; OpGetChannel "2"] "1" "2") as H.
  destruct H as [H _]; [discriminate | exact H].
Defined.

(** One session registered and deregistered on a new manager. *)
Lemma getSessionCount_tracks_sessions_witness :
  let m := createSSEChannelManager (TEvent := nat) None None in
  let c := fst (getChannel "42" m) in
  let m1 := snd (getChannel "42" m) in
  getSessionCount "42" (register c 7 m1) = 1
  /\ getSessionCount "42" (deregister c 7 (register c 7 m1)) = 0.
Proof.
  intros m c m1.
  pose proof (getSessionCount_tracks_sessions m "42" 7 (wf_create None None)) as H.
  destruct H as (_ & _ & _ & H & _). split; [exact H | vm_compute; reflexivity].
Defined.

(** A publish on an empty manager. *)
Lemma publish_to_unknown_resource_leaves_empty_channel_witness :
  let m := createSSEChannelManager (TEvent := nat) None None in
  delivered (publish "42" 5 m) = []
  /\ channels (cleanupIfEmpty "42" (publish "42" 5 m)) = channels m.
Proof.
  intros m.
  pose proof (publish_to_unknown_resource_leaves_empty_channel m "42" 5) as H.
  destruct H as (Hd & _ & _ & Hc); [reflexivity|].
  split; [exact Hd | exact Hc].
Defined.

End ChannelManager.

(* ===================================================================== *)
(** ** SSE route handler (server/route-factory.ts) *)
(* ===================================================================== *)

Module RouteFactory.

(** What a callback of the configuration can throw: an [Error] with its
    message, or any other value with its [String(...)] rendering. *)
Inductive Thrown :=
| ThrownError (message : string)
| ThrownOther (asString : string).

Inductive Result (A : Type) :=
| Returns (a : A)
| Throws (e : Thrown).

Arguments Returns {A} a.
Arguments Throws {A} e.

(** [error instanceof Error ? error.message : String(error)]. *)
Definition errorText (e : Thrown) : string :=
  match e with
  | ThrownError message => message
  | ThrownOther asString => asString
  end.

Section Handler.

Context {TParams TEvent : Type}.

Abbreviation Manager := (ChannelManager.Manager TEvent).

(** [SSERouteHandlerConfig].  The callbacks close over a channel manager:
    [getChannel] returns a channel of it (a reference into its heap) and
    [onDisconnect] may change it, so both take and return the manager's
    state.  [getChannel] is the manager's and does not throw;
    [validateParams] is the caller's and may. *)
Record SSERouteHandlerConfig := {
  getChannel : TParams -> Manager -> nat * Manager;
  validateParams : option (TParams -> Result bool);
  getInitialEvent : option (TParams -> TEvent);
  onDisconnect : option (TParams -> Manager -> Manager)
}.

Inductive Response :=
| EventStream (session : nat)            (* the response of [createResponse] *)
| Status (code : nat) (body : string).   (* [new Response(body, { status })] *)

(** The closure passed to [session.once("disconnected", ...)]: it captures
    the channel, the session and the request's params. *)
Record Listener := {
  l_session : nat;
  l_channel : nat;
  l_params : TParams
}.

(** The server: the channel manager, the number of sessions [createResponse]
    has created (a session's identity is its number), and the pending
    [once("disconnected")] listeners. *)
Record Server := {
  manager : Manager;
  sessions : nat;
  disconnected : list Listener
}.

Definition initial (prefix suffix : option string) : Server :=
  {| manager := ChannelManager.createSSEChannelManager prefix suffix;
     sessions := 0; disconnected := [] |}.

(** [session.push(event, "message")]: one delivery to that session. *)
Definition push (session : nat) (event : TEvent) (m : Manager) : Manager :=
  ChannelManager.set_delivered (fun d => d ++ [(session, event)]) m.

(** The callback given to [createResponse] (lines 86-109). *)
Definition init (config : SSERouteHandlerConfig) (params : TParams)
    (session : nat) (sv : Server) : Server :=
  let '(channel, m1) := getChannel config params (manager sv) in
  let m2 := ChannelManager.register channel session m1 in
  let m3 :=
    match getInitialEvent config with
    | Some f => push session (f params) m2
    | None => m2
    end in
  {| manager := m3; sessions := sessions sv;
     disconnected :=
       disconnected sv
       ++ [{| l_session := session; l_channel := channel; l_params := params |}] |}.

(** better-sse's [createResponse(request, init)], as the double of
    route-factory.test.ts has it: a new session, [init] called with it, the
    response returned. *)
Definition createResponse (init : nat -> Server -> Server) (sv : Server)
    : Response * Server :=
  let session := sessions sv in
  (EventStream session,
   init session
     {| manager := manager sv; sessions := S (sessions sv);
        disconnected := disconnected sv |}).

(** The handler [createSSERouteHandler(config)] returns. *)
Definition handler (config : SSERouteHandlerConfig) (params : TParams)
    (sv : Server) : Response * Server :=
  match validateParams config with
  | Some validate =>
      match validate params with
      | Throws error =>
          (Status 500 ("Failed to establish SSE connection: " +:+ errorText error), sv)
      | Returns false => (Status 400 "Invalid parameters", sv)
      | Returns true => createResponse (init config params) sv
      end
  | None => createResponse (init config params) sv
  end.

(** The body of the [once("disconnected")] listener (lines 101-108). *)
Definition onDisconnected (config : SSERouteHandlerConfig) (l : Listener)
    (m : Manager) : Manager :=
  let m1 := ChannelManager.deregister (l_channel l) (l_session l) m in
  match onDisconnect config with
  | Some f => f (l_params l) m1
  | None => m1
  end.

(** The session emits ["disconnected"]: its [once] listeners run, in the
    order they were added, and are gone afterwards. *)
Definition disconnect (config : SSERouteHandlerConfig) (session : nat)
    (sv : Server) : Server :=
  let mine := List.filter (fun l => l_session l =? session) (disconnected sv) in
  {| manager := fold_left (fun m l => onDisconnected config l m) mine (manager sv);
     sessions := sessions sv;
     disconnected :=
       List.filter (fun l => negb (l_session l =? session)) (disconnected sv) |}.

(** What happens to a server: a request, a client going away, and the
    application publishing through the channel manager. *)
Inductive Input :=
| Request (params : TParams)
| Disconnected (session : nat)
| Publish (resourceId : string) (event : TEvent).

Definition step (config : SSERouteHandlerConfig) (sv : Server) (inp : Input) : Server :=
  match inp with
  | Request params => snd (handler config params sv)
  | Disconnected session => disconnect config session sv
  | Publish resourceId event =>
      {| manager := ChannelManager.publish resourceId event (manager sv);
         sessions := sessions sv; disconnected := disconnected sv |}
  end.

Definition run (config : SSERouteHandlerConfig) (inputs : list Input) (sv : Server) : Server :=
  fold_left (step config) inputs sv.

(** The wiring of the documentation (lines 50-62): the channel of the
    request's resource id, and [cleanupIfEmpty] for it on disconnect. *)
Definition wired (resourceId : TParams -> string)
    (validate : option (TParams -> Result bool))
    (initialEvent : option (TParams -> TEvent)) : SSERouteHandlerConfig :=
  {| getChannel := fun params => ChannelManager.getChannel (resourceId params);
     validateParams := validate;
     getInitialEvent := initialEvent;
     onDisconnect := Some (fun params => ChannelManager.cleanupIfEmpty (resourceId params)) |}.

(** The request passes validation. *)
Definition accepted (config : SSERouteHandlerConfig) (params : TParams) : bool :=
  match validateParams config with
  | Some validate =>
      match validate params with
      | Returns true => true
      | _ => false
      end
  | None => true
  end.

(** The deliveries to one session, in order. *)
Definition received (session : nat) (m : Manager) : list TEvent :=
  map snd (List.filter (fun d => fst d =? session) (ChannelManager.delivered m)).

End Handler.

Arguments SSERouteHandlerConfig : clear implicits.
Arguments Server : clear implicits.
Arguments Input : clear implicits.
Arguments Listener : clear implicits.

Section Properties.

Context {TParams TEvent : Type}.
Variable resourceId : TParams -> string.
Variable validate : option (TParams -> Result bool).
Variable initialEvent : option (TParams -> TEvent).

Implicit Types (sv : Server TParams TEvent) (m : ChannelManager.Manager TEvent).
Implicit Types (config : SSERouteHandlerConfig TParams TEvent).

Lemma handler_accepted config params sv :
  accepted config params = true ->
  handler config params sv = createResponse (init config params) sv.
Proof.
  unfold accepted, handler. destruct (validateParams config) as [v|]; [|reflexivity].
  destruct (v params) as [[|]|]; intros H; try discriminate. reflexivity.
Qed.

Lemma handler_rejected config params sv :
  accepted config params = false ->
  snd (handler config params sv) = sv
  /\ (fst (handler config params sv) = Status 400 "Invalid parameters"
      \/ exists error,
           fst (handler config params sv)
           = Status 500 ("Failed to establish SSE connection: " +:+ errorText error)).
Proof.
  unfold accepted, handler. destruct (validateParams config) as [v|]; [|discriminate].
  destruct (v params) as [[|]|error]; intros H; try discriminate.
  - split; [reflexivity | now left].
  - split; [reflexivity | right; now exists error].
Qed.

(** The configuration of the documentation. *)
Definition documented := wired resourceId validate initialEvent.

(** [getInitialEvent] and [session.push], when configured. *)
Definition greet (params : TParams) (session : nat) m :=
  match initialEvent with
  | Some f => push session (f params) m
  | None => m
  end.

Lemma connect_eq params sv :
  accepted documented params = true ->
  let gc := ChannelManager.getChannel (resourceId params) (manager sv) in
  handler documented params sv
  = (EventStream (sessions sv),
     {| manager := greet params (sessions sv)
                     (ChannelManager.register (fst gc) (sessions sv) (snd gc));
        sessions := S (sessions sv);
        disconnected :=
          disconnected sv
          ++ [{| l_session := sessions sv; l_channel := fst gc; l_params := params |}] |}).
Proof.
  intros H gc. rewrite handler_accepted by assumption.
  unfold createResponse, init, greet. simpl. fold gc.
  destruct gc as [c m1]. simpl. destruct initialEvent; reflexivity.
Qed.

Lemma sessionsOf_greet params s m c :
  ChannelManager.sessionsOf (greet params s m) c = ChannelManager.sessionsOf m c.
Proof. unfold greet. destruct initialEvent; reflexivity. Qed.

Lemma channels_greet params s m :
  ChannelManager.channels (greet params s m) = ChannelManager.channels m.
Proof. unfold greet. destruct initialEvent; reflexivity. Qed.

Lemma buildChannelKey_greet params s m r :
  ChannelManager.buildChannelKey (greet params s m) r = ChannelManager.buildChannelKey m r.
Proof. unfold greet. destruct initialEvent; reflexivity. Qed.

Lemma delivered_greet params s m :
  ChannelManager.delivered (greet params s m)
  = ChannelManager.delivered m
    ++ match initialEvent with Some f => [(s, f params)] | None => [] end.
Proof.
  unfold greet. destruct initialEvent; simpl; [reflexivity | now rewrite app_nil_r].
Qed.

Lemma wf_greet params s m : ChannelManager.wf m -> ChannelManager.wf (greet params s m).
Proof. unfold greet. destruct initialEvent; intros H; exact H. Qed.

Lemma separate_greet params s m :
  ChannelManager.separate m -> ChannelManager.separate (greet params s m).
Proof. unfold greet. destruct initialEvent; intros H; exact H. Qed.

(** What holds of the manager in every state the server reaches, [n] being
    the number of sessions created so far. *)
Record sound_manager (n : nat) m : Prop := {
  sound_wf : ChannelManager.wf m;
  sound_separate : ChannelManager.separate m;
  sound_sessions : forall c s, s ∈ ChannelManager.sessionsOf m c -> s < n;
  sound_nodup : forall c, NoDup (ChannelManager.sessionsOf m c);
  sound_delivered : forall d, d ∈ ChannelManager.delivered m -> fst d < n
}.

Definition sound sv : Prop :=
  sound_manager (sessions sv) (manager sv)
  /\ forall l, l ∈ disconnected sv -> l_session l < sessions sv.

Lemma sound_initial_server prefix suffix : sound (initial (TParams := TParams) prefix suffix).
Proof.
  split; [split|]; simpl.
  - apply ChannelManager.wf_create.
  - apply ChannelManager.separate_create.
  - intros c s H. unfold ChannelManager.sessionsOf in H. simpl in H. inversion H.
  - intros c. unfold ChannelManager.sessionsOf. simpl. constructor.
  - intros d H. inversion H.
  - intros l H. inversion H.
Qed.

Lemma remove_first_NoDup s l : NoDup l -> NoDup (ChannelManager.remove_first s l).
Proof.
  induction 1 as [|x l Hx Hl IH]; simpl; [constructor|].
  destruct (x =? s)%nat; [assumption|].
  constructor; [|assumption].
  intros H. apply Hx. eapply ChannelManager.remove_first_elem_of, H.
Qed.

Lemma sound_manager_getChannel n r m :
  sound_manager n m -> sound_manager n (snd (ChannelManager.getChannel r m)).
Proof.
  intros [Hwf Hsep Hs Hn Hd]. split.
  - apply ChannelManager.wf_getChannel, Hwf.
  - apply ChannelManager.separate_getChannel; assumption.
  - intros c s. rewrite ChannelManager.sessionsOf_getChannel. apply Hs.
  - intros c. rewrite ChannelManager.sessionsOf_getChannel. apply Hn.
  - intros d. rewrite ChannelManager.delivered_getChannel. apply Hd.
Qed.

Lemma sound_manager_onDisconnected n (l : Listener TParams) m :
  sound_manager n m -> sound_manager n (onDisconnected documented l m).
Proof.
  intros [Hwf Hsep Hs Hn Hd]. unfold onDisconnected. simpl. split.
  - apply (ChannelManager.wf_exec (ChannelManager.OpCleanupIfEmpty _)).
    apply (ChannelManager.wf_exec (ChannelManager.OpDeregister _ _)), Hwf.
  - apply (ChannelManager.separate_exec (ChannelManager.OpCleanupIfEmpty _)).
    + apply (ChannelManager.wf_exec (ChannelManager.OpDeregister _ _)), Hwf.
    + apply (ChannelManager.separate_exec (ChannelManager.OpDeregister _ _)); assumption.
  - intros c s.
    rewrite ChannelManager.sessionsOf_cleanupIfEmpty, ChannelManager.sessionsOf_deregister.
    destruct (decide _) as [->|_]; [|apply Hs].
    intros H. eapply Hs, ChannelManager.remove_first_elem_of, H.
  - intros c.
    rewrite ChannelManager.sessionsOf_cleanupIfEmpty, ChannelManager.sessionsOf_deregister.
    destruct (decide _) as [->|_]; [|apply Hn].
    apply remove_first_NoDup, Hn.
  - intros d. rewrite ChannelManager.delivered_cleanupIfEmpty. apply Hd.
Qed.

Lemma sound_manager_fold n (ls : list (Listener TParams)) m :
  sound_manager n m ->
  sound_manager n (fold_left (fun m l => onDisconnected documented l m) ls m).
Proof.
  revert m. induction ls as [|l ls IH]; intros m H; [exact H|].
  simpl. apply IH, sound_manager_onDisconnected, H.
Qed.

Lemma sound_manager_publish n r event m :
  sound_manager n m -> sound_manager n (ChannelManager.publish r event m).
Proof.
  intros [Hwf Hsep Hs Hn Hd]. split.
  - apply (ChannelManager.wf_exec (ChannelManager.OpPublish r event)), Hwf.
  - apply (ChannelManager.separate_exec (ChannelManager.OpPublish r event)); assumption.
  - intros c s. rewrite ChannelManager.sessionsOf_publish. apply Hs.
  - intros c. rewrite ChannelManager.sessionsOf_publish. apply Hn.
  - intros d. rewrite ChannelManager.delivered_publish. intros H.
    apply elem_of_app in H as [H|H]; [now apply Hd|].
    apply list_elem_of_fmap in H as (s & -> & H). simpl. eapply Hs, H.
Qed.

Lemma sound_manager_connect params sv :
  sound sv ->
  let gc := ChannelManager.getChannel (resourceId params) (manager sv) in
  sound_manager (S (sessions sv))
    (greet params (sessions sv)
       (ChannelManager.register (fst gc) (sessions sv) (snd gc))).
Proof.
  intros [Hm Hl] gc.
  pose proof (sound_manager_getChannel _ (resourceId params) _ Hm) as [Hwf Hsep Hs Hn Hd].
  fold gc in Hwf, Hsep, Hs, Hn, Hd.
  assert (Hc : fst gc < length (ChannelManager.heap (snd gc))).
  { eapply Hwf. apply ChannelManager.getChannel_binds. }
  assert (Hfr : sessions sv ∉ ChannelManager.sessionsOf (snd gc) (fst gc)).
  { intros H. apply Hs in H. lia. }
  split.
  - apply wf_greet. apply (ChannelManager.wf_exec (ChannelManager.OpRegister _ _)), Hwf.
  - apply separate_greet.
    apply (ChannelManager.separate_exec (ChannelManager.OpRegister _ _)); assumption.
  - intros c s. rewrite sessionsOf_greet, ChannelManager.sessionsOf_register by assumption.
    destruct (decide _) as [->|_].
    + intros H. apply elem_of_app in H as [H|H]; [apply Hs in H; lia|].
      apply list_elem_of_singleton in H. lia.
    + intros H. apply Hs in H. lia.
  - intros c. rewrite sessionsOf_greet, ChannelManager.sessionsOf_register by assumption.
    destruct (decide _) as [->|_]; [|apply Hn].
    apply NoDup_app. split; [apply Hn|]. split; [|apply NoDup_singleton].
    intros x Hx Hx'. apply list_elem_of_singleton in Hx'. subst. apply Hs in Hx. lia.
  - intros d. rewrite delivered_greet. intros H.
    apply elem_of_app in H as [H|H]; [apply Hd in H; lia|].
    destruct initialEvent; [|inversion H].
    apply list_elem_of_singleton in H. subst. simpl. lia.
Qed.

Lemma sound_step_server sv inp : sound sv -> sound (step documented sv inp).
Proof.
  intros Hsv. pose proof Hsv as [Hm Hl]. destruct inp as [params|session|r event]; simpl.
  - destruct (accepted documented params) eqn:Ha.
    + rewrite connect_eq by assumption. simpl. split.
      * apply sound_manager_connect, Hsv.
      * simpl. intros l H. apply elem_of_app in H as [H|H]; [apply Hl in H; lia|].
        apply list_elem_of_singleton in H. subst. simpl. lia.
    + destruct (handler_rejected documented params sv Ha) as [-> _]. exact Hsv.
  - split; simpl.
    + apply sound_manager_fold, Hm.
    + intros l H. apply list_elem_of_In, filter_In in H as [H _].
      apply Hl, list_elem_of_In, H.
  - split; simpl; [apply sound_manager_publish, Hm | exact Hl].
Qed.

Lemma sound_run_server inputs sv : sound sv -> sound (run documented inputs sv).
Proof.
  revert sv. induction inputs as [|inp inputs IH]; intros sv H; [exact H|].
  simpl. apply IH, sound_step_server, H.
Qed.


Lemma getSessionCount_greet params s m r :
  ChannelManager.getSessionCount r (greet params s m) = ChannelManager.getSessionCount r m.
Proof. unfold greet. destruct initialEvent; reflexivity. Qed.

Lemma received_app s m m' (l : list (nat * TEvent)) :
  ChannelManager.delivered m' = ChannelManager.delivered m ++ l ->
  received s m' = received s m ++ map snd (List.filter (fun d => fst d =? s) l).
Proof. intros H. unfold received. now rewrite H, List.filter_app, map_app. Qed.

Lemma filter_none {A} (f : A -> bool) (l : list A) :
  (forall x, x ∈ l -> f x = false) -> List.filter f l = [].
Proof.
  induction l as [|x l IH]; intros H; [reflexivity|]. simpl.
  rewrite (H x) by left. apply IH. intros y Hy. apply H. now right.
Qed.

Lemma filter_all {A} (f : A -> bool) (l : list A) :
  (forall x, x ∈ l -> f x = true) -> List.filter f l = l.
Proof.
  induction l as [|x l IH]; intros H; [reflexivity|]. simpl.
  rewrite (H x) by left. f_equal. apply IH. intros y Hy. apply H. now right.
Qed.

Lemma received_fresh n s m :
  (forall d, d ∈ ChannelManager.delivered m -> fst d < n) -> n <= s -> received s m = [].
Proof.
  intros H Hn. unfold received. rewrite filter_none; [reflexivity|].
  intros d Hd. apply H in Hd. apply Nat.eqb_neq. lia.
Qed.

(** What a broadcast to the sessions [l] adds to the deliveries of [s]. *)
Lemma broadcast_received (event : TEvent) s (l : list nat) :
  NoDup l ->
  map snd (List.filter (fun d => fst d =? s) (map (fun x => (x, event)) l))
  = if decide (s ∈ l) then [event] else [].
Proof.
  induction 1 as [|x l Hx Hl IH].
  - rewrite decide_False; [reflexivity | inversion 1].
  - cbn [map List.filter fst]. destruct (x =? s) eqn:E.
    + apply Nat.eqb_eq in E. subst x. cbn [map snd]. rewrite IH.
      rewrite decide_False by assumption. rewrite decide_True by left. reflexivity.
    + apply Nat.eqb_neq in E. rewrite IH.
      destruct (decide (s ∈ l)) as [Hin|Hin].
      * rewrite decide_True by (now right). reflexivity.
      * rewrite decide_False; [reflexivity|].
        intros H. apply elem_of_cons in H as [H|H]; congruence.
Qed.

(** X8: a request whose params fail
    validation is answered with status 400 and the body [Invalid parameters]
    when the validator returns false, and with status 500 and the thrown
    message when it throws; no session is created for it, and any number of
    such requests leave channels, sessions and listeners as they were. *)
Theorem rejected_requests_change_nothing config (ps : list TParams) sv :
  (forall params, params ∈ ps -> accepted config params = false) ->
  run config (map Request ps) sv = sv
  /\ forall params, params ∈ ps ->
       snd (handler config params sv) = sv
       /\ forall v, validateParams config = Some v ->
            match v params with
            | Returns _ =>
                fst (handler config params sv) = Status 400 "Invalid parameters"
            | Throws error =>
                fst (handler config params sv)
                = Status 500 ("Failed to establish SSE connection: " +:+ errorText error)
            end.
Proof.
  intros Hrej. split.
  - induction ps as [|params ps IH]; [reflexivity|]. simpl.
    destruct (handler_rejected config params sv) as [-> _]; [apply Hrej; left|].
    apply IH. intros q Hq. apply Hrej. now right.
  - intros params Hin. specialize (Hrej params Hin).
    split; [apply handler_rejected, Hrej|].
    intros v Hv. unfold accepted in Hrej. unfold handler. rewrite Hv in *.
    destruct (v params) as [[|]|error]; try discriminate; reflexivity.
Qed.

(** X9: in every state the
    server reaches with the documented wiring, an accepted request gets a
    session no earlier request had; the session is appended to the channel of
    its resource, whose count goes up by one while every other count stays;
    the initial event, when configured, is delivered to the new session alone
    and is the first thing it receives. *)
Theorem connect_registers_and_greets_the_new_session prefix suffix inputs params :
  accepted documented params = true ->
  let sv := run documented inputs (initial prefix suffix) in
  let s := sessions sv in
  let c := fst (ChannelManager.getChannel (resourceId params) (manager sv)) in
  let sv1 := snd (handler documented params sv) in
  fst (handler documented params sv) = EventStream s
  /\ (forall c', s ∉ ChannelManager.sessionsOf (manager sv) c')
  /\ ChannelManager.sessionsOf (manager sv1) c
     = ChannelManager.sessionsOf (manager sv) c ++ [s]
  /\ (forall r,
        ChannelManager.getSessionCount r (manager sv1)
        = if decide (r = resourceId params)
          then S (ChannelManager.getSessionCount r (manager sv))
          else ChannelManager.getSessionCount r (manager sv))
  /\ received s (manager sv) = []
  /\ received s (manager sv1)
     = match initialEvent with Some f => [f params] | None => [] end
  /\ (forall s', s' <> s -> received s' (manager sv1) = received s' (manager sv)).
Proof.
  intros Ha sv s c sv1.
  assert (Hsv : sound sv) by apply sound_run_server, sound_initial_server.
  pose proof Hsv as [Hm Hl].
  pose proof (sound_manager_getChannel _ (resourceId params) _ Hm) as Hm1.
  set (m1 := snd (ChannelManager.getChannel (resourceId params) (manager sv))) in *.
  assert (Hb : ChannelManager.channels m1
               !! ChannelManager.buildChannelKey m1 (resourceId params) = Some c).
  { unfold m1. rewrite ChannelManager.buildChannelKey_getChannel.
    apply ChannelManager.getChannel_binds. }
  assert (Hc : c < length (ChannelManager.heap m1)).
  { eapply (sound_wf _ _ Hm1), Hb. }
  assert (Hsv1 : sv1 = {| manager := greet params s (ChannelManager.register c s m1);
                          sessions := S s;
                          disconnected :=
                            disconnected sv
                            ++ [{| l_session := s; l_channel := c; l_params := params |}] |}).
  { unfold sv1. rewrite connect_eq by assumption. reflexivity. }
  assert (Hd : ChannelManager.delivered (manager sv1)
               = ChannelManager.delivered (manager sv)
                 ++ match initialEvent with Some f => [(s, f params)] | None => [] end).
  { rewrite Hsv1. simpl. rewrite delivered_greet.
    change (ChannelManager.delivered (ChannelManager.register c s m1))
      with (ChannelManager.delivered m1).
    unfold m1. now rewrite ChannelManager.delivered_getChannel. }
  assert (Hfresh : received s (manager sv) = []).
  { eapply received_fresh; [apply (sound_delivered _ _ Hm) | reflexivity]. }
  assert (Hfr : s ∉ ChannelManager.sessionsOf m1 c).
  { intros H. apply (sound_sessions _ _ Hm1) in H. unfold s in H. lia. }
  split; [unfold s; rewrite connect_eq by assumption; reflexivity|].
  split.
  { intros c' H. apply (sound_sessions _ _ Hm) in H. unfold s in H. lia. }
  split.
  { rewrite Hsv1. simpl.
    rewrite sessionsOf_greet, ChannelManager.sessionsOf_register by assumption.
    rewrite decide_True by reflexivity.
    unfold m1. now rewrite ChannelManager.sessionsOf_getChannel. }
  split.
  { intros r. rewrite Hsv1. simpl. rewrite getSessionCount_greet.
    rewrite (ChannelManager.getSessionCount_register m1 (resourceId params) c s r);
      [|apply (sound_wf _ _ Hm1) | apply (sound_separate _ _ Hm1) | exact Hb | exact Hfr].
    unfold m1. rewrite ChannelManager.getSessionCount_getChannel. reflexivity. }
  split; [exact Hfresh|]. split.
  - rewrite (received_app s _ _ _ Hd), Hfresh.
    destruct initialEvent; simpl; [|reflexivity]. now rewrite Nat.eqb_refl.
  - intros s' Hne. rewrite (received_app s' _ _ _ Hd).
    destruct initialEvent; simpl; [|now rewrite app_nil_r].
    destruct (s =? s') eqn:E; [apply Nat.eqb_eq in E; congruence|].
    simpl. now rewrite app_nil_r.
Qed.

(** X10: with the documented wiring, when a
    session that has just connected goes away, every channel has the sessions
    it had before the connection and every count is what it was; the channel
    of the resource is dropped from the map exactly when it would be left
    without a session (so the last client to leave takes the channel with
    it); the listener is gone, and a second [disconnected] changes nothing. *)
Theorem disconnect_undoes_connect prefix suffix inputs params :
  accepted documented params = true ->
  let sv := run documented inputs (initial prefix suffix) in
  let r := resourceId params in
  let m := manager sv in
  let sv1 := snd (handler documented params sv) in
  let sv2 := disconnect documented (sessions sv) sv1 in
  (forall c, ChannelManager.sessionsOf (manager sv2) c = ChannelManager.sessionsOf m c)
  /\ (forall r', ChannelManager.getSessionCount r' (manager sv2)
                 = ChannelManager.getSessionCount r' m)
  /\ ChannelManager.channels (manager sv2)
     = (if ChannelManager.getSessionCount r m =? 0
        then delete (ChannelManager.buildChannelKey m r) (ChannelManager.channels m)
        else ChannelManager.channels m)
  /\ disconnected sv2 = disconnected sv
  /\ disconnect documented (sessions sv) sv2 = sv2.
Proof.
  intros Ha sv r m sv1 sv2.
  assert (Hsv : sound sv) by apply sound_run_server, sound_initial_server.
  pose proof Hsv as [Hm Hl]. fold m in Hm.
  pose proof (sound_manager_getChannel _ r _ Hm) as Hm1.
  set (s := sessions sv) in *.
  set (c := fst (ChannelManager.getChannel r m)).
  set (m1 := snd (ChannelManager.getChannel r m)) in *.
  assert (Hk1 : forall x, ChannelManager.buildChannelKey m1 x
                          = ChannelManager.buildChannelKey m x).
  { intros x. apply ChannelManager.buildChannelKey_getChannel. }
  assert (Hb : ChannelManager.channels m1 !! ChannelManager.buildChannelKey m r = Some c).
  { apply ChannelManager.getChannel_binds. }
  assert (Hc : c < length (ChannelManager.heap m1)).
  { eapply (sound_wf _ _ Hm1), Hb. }
  set (L := {| l_session := s; l_channel := c; l_params := params |}).
  set (M1 := greet params s (ChannelManager.register c s m1)).
  assert (Hsv1 : sv1 = {| manager := M1; sessions := S s;
                          disconnected := disconnected sv ++ [L] |}).
  { unfold sv1. rewrite connect_eq by assumption. reflexivity. }
  assert (Hold : forall l, l ∈ disconnected sv -> (l_session l =? s) = false).
  { intros l H. apply Hl in H. apply Nat.eqb_neq. fold s in H. lia. }
  assert (Hmine : List.filter (fun l => l_session l =? s) (disconnected sv ++ [L]) = [L]).
  { rewrite List.filter_app, filter_none by exact Hold.
    simpl. now rewrite Nat.eqb_refl. }
  assert (Hrest : List.filter (fun l => negb (l_session l =? s)) (disconnected sv ++ [L])
                  = disconnected sv).
  { rewrite List.filter_app, filter_all.
    - simpl. rewrite Nat.eqb_refl. simpl. apply app_nil_r.
    - intros l H. now rewrite Hold. }
  set (M2 := ChannelManager.deregister c s M1).
  assert (Hsv2 : sv2 = {| manager := ChannelManager.cleanupIfEmpty r M2; sessions := S s;
                          disconnected := disconnected sv |}).
  { unfold sv2, disconnect. rewrite Hsv1. simpl. rewrite Hmine, Hrest. reflexivity. }
  assert (Hnot : s ∉ ChannelManager.sessionsOf m1 c).
  { intros H. apply (sound_sessions _ _ Hm1) in H. lia. }
  assert (HS2 : forall c', ChannelManager.sessionsOf M2 c' = ChannelManager.sessionsOf m c').
  { intros c'. unfold M2, M1. rewrite ChannelManager.sessionsOf_deregister.
    destruct (decide (c' = c)) as [->|Hne];
      rewrite sessionsOf_greet, ChannelManager.sessionsOf_register by assumption.
    - rewrite decide_True by reflexivity.
      rewrite ChannelManager.remove_first_snoc by assumption.
      apply ChannelManager.sessionsOf_getChannel.
    - rewrite decide_False by assumption.
      apply ChannelManager.sessionsOf_getChannel. }
  assert (HK2 : forall x, ChannelManager.buildChannelKey M2 x
                          = ChannelManager.buildChannelKey m x).
  { intros x. unfold M2, M1.
    change (ChannelManager.buildChannelKey (ChannelManager.deregister c s ?X) x)
      with (ChannelManager.buildChannelKey X x).
    rewrite buildChannelKey_greet. apply Hk1. }
  assert (HC2 : ChannelManager.channels M2 = ChannelManager.channels m1).
  { unfold M2, M1.
    change (ChannelManager.channels (ChannelManager.deregister c s ?X))
      with (ChannelManager.channels X).
    now rewrite channels_greet. }
  assert (Hcount2 : forall r', ChannelManager.getSessionCount r' M2
                               = ChannelManager.getSessionCount r' m).
  { intros r'.
    transitivity (ChannelManager.getSessionCount r' m1);
      [|apply ChannelManager.getSessionCount_getChannel].
    unfold ChannelManager.getSessionCount. rewrite HK2, HC2, Hk1.
    destruct (ChannelManager.channels m1 !! ChannelManager.buildChannelKey m r')
      as [c0|]; [|reflexivity].
    rewrite HS2. unfold m1. now rewrite ChannelManager.sessionsOf_getChannel. }
  assert (Hlen : length (ChannelManager.sessionsOf M2 c) = ChannelManager.getSessionCount r m).
  { rewrite <- (ChannelManager.getSessionCount_getChannel r r m). fold m1.
    unfold ChannelManager.getSessionCount. rewrite Hk1, Hb, HS2.
    unfold m1. now rewrite ChannelManager.sessionsOf_getChannel. }
  split; [|split; [|split; [|split]]].
  - intros c'. rewrite Hsv2. simpl.
    rewrite ChannelManager.sessionsOf_cleanupIfEmpty. apply HS2.
  - intros r'. rewrite Hsv2. simpl.
    rewrite ChannelManager.getSessionCount_cleanupIfEmpty. apply Hcount2.
  - rewrite Hsv2. simpl. unfold ChannelManager.cleanupIfEmpty.
    rewrite HK2, HC2, Hb, Hlen.
    destruct (ChannelManager.getSessionCount r m =? 0) eqn:E0.
    + change (delete (ChannelManager.buildChannelKey m r) (ChannelManager.channels M2)
              = delete (ChannelManager.buildChannelKey m r) (ChannelManager.channels m)).
      rewrite HC2. unfold m1, ChannelManager.getChannel.
      destruct (ChannelManager.channels m !! ChannelManager.buildChannelKey m r);
        simpl; [reflexivity|].
      apply delete_insert_eq.
    + rewrite HC2. unfold m1, ChannelManager.getChannel.
      destruct (ChannelManager.channels m !! ChannelManager.buildChannelKey m r) eqn:E;
        simpl; [reflexivity|].
      unfold ChannelManager.getSessionCount in E0. rewrite E in E0. discriminate.
  - rewrite Hsv2. reflexivity.
  - rewrite Hsv2. unfold disconnect. simpl.
    rewrite filter_none by exact Hold. rewrite filter_all; [reflexivity|].
    intros l H. now rewrite Hold.
Qed.

(** X11: in every state the
    server reaches with the documented wiring, a publish for a resource adds
    the event exactly once to what each session registered on that
    resource's channel has received, and adds nothing for any other
    session. *)
Theorem publish_reaches_each_connected_session_once
    prefix suffix inputs (r : string) (event : TEvent) (s : nat) :
  let sv := run documented inputs (initial prefix suffix) in
  let m := manager sv in
  let c := fst (ChannelManager.getChannel r m) in
  received s (manager (step documented sv (Publish r event)))
  = received s m
    ++ (if decide (s ∈ ChannelManager.sessionsOf m c) then [event] else []).
Proof.
  intros sv m c.
  assert (Hsv : sound sv) by apply sound_run_server, sound_initial_server.
  destruct Hsv as [Hm _].
  change (manager (step documented sv (Publish r event)))
    with (ChannelManager.publish r event m).
  rewrite (received_app s m _ _ (ChannelManager.delivered_publish r event m)).
  f_equal. apply broadcast_received, (sound_nodup _ _ Hm).
Qed.

(** A session that is registered nowhere and was created earlier stays so. *)
Definition gone (s : nat) sv : Prop :=
  s < sessions sv /\ forall c, s ∉ ChannelManager.sessionsOf (manager sv) c.

Lemma gone_onDisconnected s (l : Listener TParams) m :
  (forall c, s ∉ ChannelManager.sessionsOf m c) ->
  (forall c, s ∉ ChannelManager.sessionsOf (onDisconnected documented l m) c)
  /\ ChannelManager.delivered (onDisconnected documented l m) = ChannelManager.delivered m.
Proof.
  intros H. unfold onDisconnected. simpl. split.
  - intros c.
    rewrite ChannelManager.sessionsOf_cleanupIfEmpty, ChannelManager.sessionsOf_deregister.
    destruct (decide _) as [->|_]; [|apply H].
    intros Hin. eapply H, ChannelManager.remove_first_elem_of, Hin.
  - now rewrite ChannelManager.delivered_cleanupIfEmpty.
Qed.

Lemma gone_fold s (ls : list (Listener TParams)) m :
  (forall c, s ∉ ChannelManager.sessionsOf m c) ->
  (forall c, s ∉ ChannelManager.sessionsOf
                   (fold_left (fun m l => onDisconnected documented l m) ls m) c)
  /\ ChannelManager.delivered (fold_left (fun m l => onDisconnected documented l m) ls m)
     = ChannelManager.delivered m.
Proof.
  revert m. induction ls as [|l ls IH]; intros m H; [split; [exact H | reflexivity]|].
  simpl. destruct (gone_onDisconnected s l m H) as [H1 H2].
  destruct (IH _ H1) as [H3 H4]. split; [exact H3 | congruence].
Qed.

Lemma gone_step s sv inp :
  gone s sv ->
  gone s (step documented sv inp)
  /\ received s (manager (step documented sv inp)) = received s (manager sv).
Proof.
  intros [Hlt Hno]. destruct inp as [params|session|r event]; simpl.
  - destruct (accepted documented params) eqn:Ha.
    + rewrite connect_eq by assumption. simpl. split; [split|].
      * simpl. lia.
      * simpl. intros c H. rewrite sessionsOf_greet in H.
        apply ChannelManager.sessionsOf_register_elem_of in H as [H|H]; [|lia].
        rewrite ChannelManager.sessionsOf_getChannel in H. eapply Hno, H.
      * erewrite received_app.
        2:{ rewrite delivered_greet.
            change (ChannelManager.delivered (ChannelManager.register ?a ?b ?X))
              with (ChannelManager.delivered X).
            rewrite ChannelManager.delivered_getChannel. reflexivity. }
        destruct initialEvent; simpl; [|now rewrite app_nil_r].
        destruct (sessions sv =? s) eqn:E; [apply Nat.eqb_eq in E; lia|].
        simpl. now rewrite app_nil_r.
    + destruct (handler_rejected documented params sv Ha) as [-> _].
      split; [split; assumption | reflexivity].
  - destruct (gone_fold s
                (List.filter (fun l => l_session l =? session) (disconnected sv))
                (manager sv) Hno) as [H1 H2].
    split; [split; [exact Hlt | exact H1]|].
    unfold received. now rewrite H2.
  - split; [split; [exact Hlt|]|].
    + simpl. intros c. rewrite ChannelManager.sessionsOf_publish. apply Hno.
    + rewrite (received_app s _ _ _ (ChannelManager.delivered_publish r event (manager sv))).
      rewrite filter_none; [simpl; now rewrite app_nil_r|].
      intros d Hd. apply list_elem_of_fmap in Hd as (x & -> & Hx). simpl.
      apply Nat.eqb_neq. intros ->. eapply Hno, Hx.
Qed.

(** X12: with the documented
    wiring, a session that is no longer registered on any channel never
    receives anything again, whatever requests, disconnects and publishes
    follow: session identities are not reused. *)
Theorem disconnected_session_receives_nothing_more (s : nat) sv inputs :
  s < sessions sv ->
  (forall c, s ∉ ChannelManager.sessionsOf (manager sv) c) ->
  received s (manager (run documented inputs sv)) = received s (manager sv)
  /\ forall c, s ∉ ChannelManager.sessionsOf (manager (run documented inputs sv)) c.
Proof.
  intros Hlt Hno. assert (Hg : gone s sv) by (split; assumption). clear Hlt Hno.
  revert sv Hg. induction inputs as [|inp inputs IH]; intros sv Hg.
  - split; [reflexivity | apply Hg].
  - simpl. destruct (gone_step s sv inp Hg) as [Hg' Hr].
    destruct (IH _ Hg') as [H1 H2]. split; [congruence | exact H2].
Qed.

End Properties.

(** The route of the documentation, with a string for the params: the id
    must not be empty, and every session is greeted with the event 0. *)
Definition nonEmpty (params : string) : Result bool :=
  Returns (negb (String.eqb params "")).

Definition greeting (_ : string) : nat := 0.

Lemma rejected_requests_change_nothing_witness :
  let config := wired (fun params => params) (Some nonEmpty) (Some greeting) in
  run config (map Request [""; ""]) (initial None None) = initial None None
  /\ fst (handler config "" (initial None None)) = Status 400 "Invalid parameters".
Proof.
  intros config.
  pose proof (rejected_requests_change_nothing config [""; ""] (initial None None)) as H.
  destruct H as [Hrun Hresp].
  { intros params Hp. apply elem_of_cons in Hp as [->|Hp]; [reflexivity|].
    apply elem_of_cons in Hp as [->|Hp]; [reflexivity | inversion Hp]. }
  split; [exact Hrun|].
  destruct (Hresp "") as [_ H400]; [left|].
  exact (H400 nonEmpty eq_refl).
Defined.

Lemma connect_registers_and_greets_the_new_session_witness :
  let config := wired (fun params => params) (Some nonEmpty) (Some greeting) in
  let sv := run config [Request "7"; Publish "7" 5] (initial None None) in
  fst (handler config "7" sv) = EventStream 1
  /\ ChannelManager.getSessionCount "7" (manager (snd (handler config "7" sv))) = 2
  /\ received 1 (manager (snd (handler config "7" sv))) = [0].
Proof.
  intros config sv.
  pose proof (connect_registers_and_greets_the_new_session
                (fun params => params) (Some nonEmpty) (Some greeting)
                None None [Request "7"; Publish "7" 5] "7") as H.
  cbv zeta in H. destruct H as (Hresp & _ & _ & Hcount & _ & Hrecv & _); [reflexivity|].
  split; [exact Hresp|]. split; [|exact Hrecv].
  etransitivity; [exact (Hcount "7") | vm_compute; reflexivity].
Defined.

Lemma disconnect_undoes_connect_witness :
  let config := wired (fun params => params) (Some nonEmpty) (Some greeting) in
  let sv := initial None None in
  let sv2 := disconnect config 0 (snd (handler config "7" sv)) in
  ChannelManager.channels (manager sv2) = ChannelManager.channels (manager sv)
  /\ ChannelManager.getSessionCount "7" (manager sv2) = 0
  /\ disconnected sv2 = [].
Proof.
  intros config sv sv2.
  pose proof (disconnect_undoes_connect
                (fun params => params) (Some nonEmpty) (Some greeting)
                None None [] "7") as H.
  cbv zeta in H. destruct H as (_ & Hcount & Hch & Hl & _); [reflexivity|].
  split; [|split].
  - vm_compute. reflexivity.
  - exact (Hcount "7").
  - exact Hl.
Defined.

Lemma disconnected_session_receives_nothing_more_witness :
  let config := wired (fun params => params) (Some nonEmpty) (Some greeting) in
  let sv := disconnect config 0 (snd (handler config "7" (initial None None))) in
  received 0 (manager (run config [Publish "7" 5; Request "7"; Publish "7" 6] sv)) = [0].
Proof.
  intros config sv.
  pose proof (disconnected_session_receives_nothing_more
                (fun params => params) (Some nonEmpty) (Some greeting)
                0 sv [Publish "7" 5; Request "7"; Publish "7" 6]) as H.
  destruct H as [H _].
  - vm_compute. lia.
  - intros c. destruct c as [|c]; vm_compute; inversion 1.
  - etransitivity; [exact H | vm_compute; reflexivity].
Defined.

End RouteFactory.

(* ===================================================================== *)
(** ** JavaScript values *)
(* ===================================================================== *)

Module Js.

(** The values the modelled code passes around.  Numbers are integers
    here (NaN, the other falsy number, is left out); objects are references. *)
#[warnings="-register-all"]
Inductive Value :=
| Undefined
| Null
| Bool (b : bool)
| Number (z : Z)
| Str (s : string)
| Object (ref : nat)
| Array (items : list Value).

(** Truthiness, as [if (v)] and [Boolean(v)] decide it. *)
Definition truthy (v : Value) : bool :=
  match v with
  | Undefined | Null => false
  | Bool b => b
  | Number z => negb (z =? 0)%Z
  | Str s => negb (String.eqb s "")
  | Object _ | Array _ => true
  end.

(** [Array.isArray]. *)
Definition isArray (v : Value) : bool :=
  match v with
  | Array _ => true
  | _ => false
  end.

(** [arr[0]]: [undefined] on an empty array. *)
Definition first (arr : list Value) : Value := nth 0 arr Undefined.

End Js.

(* ===================================================================== *)
(** ** Query invalidation on SSE events (useSSEQueryInvalidation) *)
(* ===================================================================== *)

Module QueryInvalidation.

Section Handler.

Context {TEvent : Type}.

(** The [queryKeys] option: keys given directly or computed from the event.
    The keys are an array ([Some]) or absent ([None], JavaScript's
    [undefined]). *)
Inductive QueryKeys :=
| Static (keys : option (list Js.Value))
| Dynamic (f : TEvent -> option (list Js.Value)).

(** [typeof queryKeys === "function" ? queryKeys(event) : queryKeys]. *)
Definition keysToInvalidate (queryKeys : QueryKeys) (event : TEvent) : option (list Js.Value) :=
  match queryKeys with
  | Dynamic f => f event
  | Static keys => keys
  end.

(** [Array.isArray(keys[0]) ? keys : [keys]]. *)
Definition keyArray (keys : list Js.Value) : list Js.Value :=
  if Js.isArray (Js.first keys) then keys else [Js.Array keys].

(** What one run of the [onEvent] handler does: the [queryKey] of each
    [queryClient.invalidateQueries] call, in order, or a [TypeError]. *)
Inductive Outcome :=
| Invalidated (queryKeys : list Js.Value)
| ThrowsTypeError.

End Handler.

Arguments QueryKeys : clear implicits.

(** The handler of the first copy of the hook, with the guard. *)
Module Guarded.

Definition onEvent {TEvent : Type}
    (isClient : bool) (queryKeys : QueryKeys TEvent) (event : TEvent) : Outcome :=
  if negb isClient then Invalidated []
  else
    match keysToInvalidate queryKeys event with
    | None => Invalidated []                       (* !keysToInvalidate *)
    | Some keys =>
        if (length keys =? 0)%nat then Invalidated []   (* .length === 0 *)
        else Invalidated (keyArray keys)
    end.

End Guarded.

(** The handler of the second copy of the hook: no guard. *)
Module Unguarded.

Definition onEvent {TEvent : Type}
    (queryKeys : QueryKeys TEvent) (event : TEvent) : Outcome :=
  match keysToInvalidate queryKeys event with
  | None => ThrowsTypeError                         (* undefined[0] *)
  | Some keys => Invalidated (keyArray keys)
  end.

End Unguarded.

Section Properties.

Context {TEvent : Type}.
Implicit Types (queryKeys : QueryKeys TEvent) (event : TEvent).

(** The number of invalidation calls of an outcome. *)
Definition invalidationCalls (o : Outcome) : nat :=
  match o with
  | Invalidated ks => length ks
  | ThrowsTypeError => 0
  end.

(** The guarded copy makes no call when the keys are empty or absent. *)
Lemma guarded_no_keys_no_calls isClient queryKeys event :
  keysToInvalidate queryKeys event = None \/ keysToInvalidate queryKeys event = Some [] ->
  Guarded.onEvent isClient queryKeys event = Invalidated [].
Proof.
  intros [H|H]; unfold Guarded.onEvent; rewrite H; destruct isClient; reflexivity.
Qed.

(** With keys present the two copies agree (on the client). *)
Lemma guarded_unguarded_agree queryKeys event k ks :
  keysToInvalidate queryKeys event = Some (k :: ks) ->
  Guarded.onEvent true queryKeys event = Unguarded.onEvent queryKeys event.
Proof.
  intros H. unfold Guarded.onEvent, Unguarded.onEvent. rewrite H. reflexivity.
Qed.

(** C3, evaluated on the second copy of the hook: for every event, an
    empty key list (given directly or returned by the [queryKeys] function)
    makes the handler call [invalidateQueries] once, with the empty query
    key, which matches every query of the cache; the specification asks for zero
    calls. *)
Theorem unguarded_empty_keys_invalidate_everything (event : TEvent) :
  Unguarded.onEvent (Static (Some [])) event = Invalidated [Js.Array []]
  /\ Unguarded.onEvent (Dynamic (fun _ => Some [])) event = Invalidated [Js.Array []]
  /\ invalidationCalls (Unguarded.onEvent (Static (Some [])) event) = 1
  /\ Guarded.onEvent true (Static (Some [])) event = Invalidated [].
Proof. repeat split. Qed.

End Properties.

End QueryInvalidation.

(* ===================================================================== *)
(** ** Topic broadcaster (server/events.ts, createMemoryBroadcaster) *)
(* ===================================================================== *)

Module Events.

(** *** The async generator returned by [subscribe] *)

(** Where the generator is parked. *)
Inductive GeneratorState :=
| SuspendedStart               (* created; the body has not been entered *)
| Awaiting (resolved : bool)   (* at [await new Promise(...)]; [resolved]: the
                                  promise is resolved, the continuation is queued *)
| SuspendedYield               (* at [yield event] *)
| Completed.

(** Calls on the generator object that are not settled yet. *)
Inductive Request := ReqNext | ReqReturn.

(** Settled iterator results: [{ value, done: false }] or [{ done: true }]. *)
Inductive IteratorResult :=
| Yield (value : Js.Value)
| Done.

(** One subscription: the closure variables of the generator body
    ([queue], [resolveNext]) and the state of the generator object.  The
    listener of subscription number [i] is identified by [i]. *)
Record Subscription := {
  channel : string;
  queue : list Js.Value;
  resolveNext : bool;                (* [resolveNext !== null] *)
  state : GeneratorState;
  requests : list Request;           (* oldest first *)
  results : list IteratorResult      (* oldest first *)
}.

(** The broadcaster: the [EventEmitter] (event name to listeners, in
    registration order; a name without listeners has no entry) and every
    subscription created so far. *)
Record Broadcaster := {
  emitter : gmap string (list nat);
  subscriptions : list Subscription
}.

Definition createMemoryBroadcaster : Broadcaster :=
  {| emitter := ∅; subscriptions := [] |}.

Definition set_subscriptions (f : list Subscription -> list Subscription) (b : Broadcaster) :=
  {| emitter := emitter b; subscriptions := f (subscriptions b) |}.

Definition set_emitter (f : gmap string (list nat) -> gmap string (list nat)) (b : Broadcaster) :=
  {| emitter := f (emitter b); subscriptions := subscriptions b |}.

(** Lines 79-85, the listener of a subscription:
    [queue.push(data); if (resolveNext) { resolveNext(); resolveNext = null; }].
    Resolving wakes the generator if it is parked at the promise. *)
Definition listener (data : Js.Value) (s : Subscription) : Subscription :=
  if resolveNext s then
    {| channel := channel s; queue := queue s ++ [data]; resolveNext := false;
       state := match state s with Awaiting _ => Awaiting true | st => st end;
       requests := requests s; results := results s |}
  else
    {| channel := channel s; queue := queue s ++ [data]; resolveNext := false;
       state := state s; requests := requests s; results := results s |}.

(** *** Node's EventEmitter, the part the broadcaster uses (node:events is
    a platform module): [on], [off], [emit], [listenerCount]. *)

Definition listeners (em : gmap string (list nat)) (name : string) : list nat :=
  default [] (em !! name).

Definition listenerCount (em : gmap string (list nat)) (name : string) : nat :=
  length (listeners em name).

(** Calling the listeners of a snapshot, in order, with [data]. *)
Definition call_listeners (ls : list nat) (data : Js.Value) (b : Broadcaster) : Broadcaster :=
  set_subscriptions (fun subs => fold_left (fun acc i => alter (listener data) i acc) ls subs) b.

(** [emitter.emit(name, data)].  An ["error"] event without a listener is
    thrown ([None]); any other event without listeners is dropped. *)
Definition emit (name : string) (data : Js.Value) (b : Broadcaster) : option Broadcaster :=
  match listeners (emitter b) name with
  | [] => if String.eqb name "error" then None else Some b
  | ls => Some (call_listeners ls data b)
  end.

(** [emitter.on(name, listener)]: listeners of ["newListener"] are told the
    event name first, then the listener is appended. *)
Definition on (name : string) (i : nat) (b : Broadcaster) : Broadcaster :=
  let b1 := call_listeners (listeners (emitter b) "newListener") (Js.Str name) b in
  set_emitter (insert name (listeners (emitter b1) name ++ [i])) b1.

(** Removing the most recently added occurrence. *)
Fixpoint remove_last (i : nat) (ls : list nat) : list nat :=
  match ls with
  | [] => []
  | x :: ls' =>
      if existsb (Nat.eqb i) ls' then x :: remove_last i ls'
      else if (x =? i)%nat then ls' else x :: ls'
  end.

(** [emitter.off(name, listener)]: at most one occurrence is removed, an
    emptied entry is deleted, and the remaining listeners of
    ["removeListener"] are told the event name. *)
Definition off (name : string) (i : nat) (b : Broadcaster) : Broadcaster :=
  let ls := listeners (emitter b) name in
  if existsb (Nat.eqb i) ls then
    let ls' := remove_last i ls in
    let b1 :=
      set_emitter (fun em => match ls' with [] => delete name em | _ => <[name := ls']> em end) b in
    call_listeners (listeners (emitter b1) "removeListener") (Js.Str name) b1
  else b.

(** *** The generator body *)

(** What a run of the body leaves behind. *)
Record Run := {
  r_state : GeneratorState;
  r_queue : list Js.Value;
  r_requests : list Request;
  r_results : list IteratorResult;   (* results settled by this run *)
  r_finally : bool                   (* the [finally] block ran *)
}.

(** Lines 90-105, from the top of [while (true)], while a [next()] is being
    served and [rest] are the requests queued behind it.  A truthy event is
    yielded and settles the request; a falsy one fails [if (event)] and the
    loop goes on; an empty queue parks the body at the [await], the request
    still pending.  A [return()] that is next in line resumes the body at
    the [yield] as a return: the [finally] block runs and everything queued
    behind settles with [done]. *)
Fixpoint loop (q : list Js.Value) (rest : list Request) : Run :=
  match q with
  | [] =>
      {| r_state := Awaiting false; r_queue := []; r_requests := ReqNext :: rest;
         r_results := []; r_finally := false |}
  | event :: q' =>
      if Js.truthy event then
        match rest with
        | [] =>
            {| r_state := SuspendedYield; r_queue := q'; r_requests := [];
               r_results := [Yield event]; r_finally := false |}
        | ReqNext :: rest' =>
            let r := loop q' rest' in
            {| r_state := r_state r; r_queue := r_queue r; r_requests := r_requests r;
               r_results := Yield event :: r_results r; r_finally := r_finally r |}
        | ReqReturn :: rest' =>
            {| r_state := Completed; r_queue := q'; r_requests := [];
               r_results := Yield event :: Done :: map (fun _ => Done) rest';
               r_finally := true |}
        end
      else loop q' rest
  end.

(** Storing the outcome of a run of subscription [i]; the [await] sets
    [resolveNext], the [finally] block calls [emitter.off]. *)
Definition apply_run (i : nat) (r : Run) (b : Broadcaster) : Broadcaster :=
  let upd s :=
    {| channel := channel s; queue := r_queue r;
       resolveNext := match r_state r with Awaiting _ => true | _ => resolveNext s end;
       state := r_state r; requests := r_requests r;
       results := results s ++ r_results r |} in
  let b1 := set_subscriptions (alter upd i) b in
  if r_finally r then
    match subscriptions b !! i with
    | Some s => off (channel s) i b1
    | None => b1
    end
  else b1.

(** Serving the queued requests of a generator that is not executing. *)
Definition drain (i : nat) (b : Broadcaster) : Broadcaster :=
  match subscriptions b !! i with
  | None => b
  | Some s =>
      match requests s with
      | [] => b
      | req :: rest =>
          match state s with
          | Awaiting _ => b                 (* executing: the request waits *)
          | Completed =>
              set_subscriptions (alter (fun s =>
                {| channel := channel s; queue := queue s; resolveNext := resolveNext s;
                   state := Completed; requests := [];
                   results := results s ++ map (fun _ => Done) (req :: rest) |}) i) b
          | SuspendedStart =>
              match req with
              | ReqReturn =>              (* closed before the body ever ran *)
                  set_subscriptions (alter (fun s =>
                    {| channel := channel s; queue := queue s; resolveNext := resolveNext s;
                       state := Completed; requests := [];
                       results := results s ++ map (fun _ => Done) (req :: rest) |}) i) b
              | ReqNext =>                (* line 87: emitter.on(channel, listener) *)
                  let b1 := on (channel s) i b in
                  apply_run i (loop (queue s) rest) b1
              end
          | SuspendedYield =>
              match req with
              | ReqNext => apply_run i (loop (queue s) rest) b
              | ReqReturn =>              (* return at the yield: finally *)
                  apply_run i
                    {| r_state := Completed; r_queue := queue s; r_requests := [];
                       r_results := map (fun _ => Done) (req :: rest); r_finally := true |} b
              end
          end
      end
  end.

Definition enqueue (req : Request) (i : nat) (b : Broadcaster) : Broadcaster :=
  set_subscriptions (alter (fun s =>
    {| channel := channel s; queue := queue s; resolveNext := resolveNext s;
       state := state s; requests := requests s ++ [req]; results := results s |}) i) b.

(** *** The broadcaster's interface and the generator's methods *)

(** [subscribe(channel)]: calling an [async *] function only creates the
    generator object. *)
Definition subscribe (ch : string) (b : Broadcaster) : nat * Broadcaster :=
  (length (subscriptions b),
   set_subscriptions (fun subs => subs ++
     [{| channel := ch; queue := []; resolveNext := false; state := SuspendedStart;
         requests := []; results := [] |}]) b).

(** [publish(channel, data)]: [emitter.emit(channel, data)]. *)
Definition publish (ch : string) (data : Js.Value) (b : Broadcaster) : option Broadcaster :=
  emit ch data b.

Definition getListenerCount (ch : string) (b : Broadcaster) : nat :=
  listenerCount (emitter b) ch.

(** [generator.next()] and [generator.return()]. *)
Definition next (i : nat) (b : Broadcaster) : Broadcaster := drain i (enqueue ReqNext i b).
Definition return_ (i : nat) (b : Broadcaster) : Broadcaster := drain i (enqueue ReqReturn i b).

(** The continuation of a resolved [await] (a microtask): back to the top
    of the loop. *)
Definition resume (i : nat) (b : Broadcaster) : Broadcaster :=
  match subscriptions b !! i with
  | Some s =>
      match state s, requests s with
      | Awaiting true, ReqNext :: rest => apply_run i (loop (queue s) rest) b
      | _, _ => b
      end
  | None => b
  end.

(** The 30 s keep-alive timer of the current [await] fires: [resolve()]. *)
Definition keepAlive (i : nat) (b : Broadcaster) : Broadcaster :=
  set_subscriptions (alter (fun s =>
    match state s with
    | Awaiting false =>
        {| channel := channel s; queue := queue s; resolveNext := resolveNext s;
           state := Awaiting true; requests := requests s; results := results s |}
    | _ => s
    end) i) b.

(** What can happen to a broadcaster. *)
Inductive Input :=
| Subscribe (ch : string)
| Next (i : nat)
| Return (i : nat)
| Publish (ch : string) (data : Js.Value)
| Resume (i : nat)
| KeepAlive (i : nat).

(** A throwing [publish] leaves the state as it was. *)
Definition step (b : Broadcaster) (inp : Input) : Broadcaster :=
  match inp with
  | Subscribe ch => snd (subscribe ch b)
  | Next i => next i b
  | Return i => return_ i b
  | Publish ch data => default b (publish ch data b)
  | Resume i => resume i b
  | KeepAlive i => keepAlive i b
  end.

Definition run (inputs : list Input) (b : Broadcaster) : Broadcaster :=
  fold_left step inputs b.

(** The values a subscription has yielded so far. *)
Definition yielded (b : Broadcaster) (i : nat) : list Js.Value :=
  match subscriptions b !! i with
  | Some s => omap (fun r => match r with Yield v => Some v | Done => None end) (results s)
  | None => []
  end.

(** *** Which listeners are registered *)

(** The generator states in which the listener of the subscription is
    attached: after line 87 and before the [finally] block. *)
Definition registered (s : Subscription) : bool :=
  match state s with
  | Awaiting _ | SuspendedYield => true
  | SuspendedStart | Completed => false
  end.

Definition shape (o : option Subscription) : option string :=
  match o with
  | Some s => if registered s then Some (channel s) else None
  | None => None
  end.

(** The channel on which subscription [i] listens, if it does. *)
Definition reg (b : Broadcaster) (i : nat) : option string :=
  shape (subscriptions b !! i).

(** The emitter holds exactly the listeners that [f] names, once each. *)
Definition wf_with (em : gmap string (list nat)) (f : nat -> option string) : Prop :=
  forall name,
    NoDup (listeners em name)
    /\ forall i, i ∈ listeners em name <-> f i = Some name.

Definition wf (b : Broadcaster) : Prop := wf_with (emitter b) (reg b).

Definition upd (f : nat -> option string) (i : nat) (v : option string) : nat -> option string :=
  fun j => if decide (j = i) then v else f j.

Lemma wf_with_ext em f g : (forall i, f i = g i) -> wf_with em f -> wf_with em g.
Proof.
  intros Hfg Hwf name. destruct (Hwf name) as [Hnd Hin]. split; [assumption|].
  intros i. rewrite <- Hfg. apply Hin.
Qed.

Lemma listeners_insert em n l n' :
  listeners (<[n := l]> em) n' = if decide (n = n') then l else listeners em n'.
Proof.
  unfold listeners. destruct (decide (n = n')) as [->|Hne].
  - rewrite lookup_insert_eq. reflexivity.
  - rewrite lookup_insert_ne by assumption. reflexivity.
Qed.

Lemma listeners_delete em n n' :
  listeners (delete n em) n' = if decide (n = n') then [] else listeners em n'.
Proof.
  unfold listeners. destruct (decide (n = n')) as [->|Hne].
  - rewrite lookup_delete_eq. reflexivity.
  - rewrite lookup_delete_ne by assumption. reflexivity.
Qed.

Lemma existsb_eqb_elem_of i (l : list nat) : existsb (Nat.eqb i) l = true <-> i ∈ l.
Proof.
  rewrite existsb_exists. split.
  - intros (x & Hx & Heq). apply Nat.eqb_eq in Heq. subst. apply list_elem_of_In. assumption.
  - intros H. exists i. split; [apply list_elem_of_In; assumption | apply Nat.eqb_refl].
Qed.

Lemma remove_last_NoDup i (l : list nat) :
  NoDup l -> i ∈ l ->
  NoDup (remove_last i l)
  /\ (forall j, j ∈ remove_last i l <-> j ∈ l /\ j <> i)
  /\ S (length (remove_last i l)) = length l.
Proof.
  induction l as [|x l IH]; intros Hnd Hin.
  - inversion Hin.
  - apply NoDup_cons in Hnd as [Hx Hnd]. simpl.
    destruct (existsb (Nat.eqb i) l) eqn:E.
    + apply existsb_eqb_elem_of in E.
      destruct (IH Hnd E) as (IH1 & IH2 & IH3).
      assert (x <> i) by (intros ->; contradiction).
      split; [|split].
      * apply NoDup_cons. split; [|assumption]. rewrite IH2. tauto.
      * intros j. rewrite !elem_of_cons, IH2. split; [|tauto].
        intros [->|[? ?]]; tauto.
      * simpl. lia.
    + assert (Hni : i ∉ l).
      { intros Hc. apply existsb_eqb_elem_of in Hc. congruence. }
      assert (x = i) as ->.
      { apply elem_of_cons in Hin as [->|?]; [reflexivity | contradiction]. }
      rewrite Nat.eqb_refl. split; [assumption|]. split; [|reflexivity].
      intros j. rewrite elem_of_cons. split.
      * intros Hj. split; [tauto|]. intros ->. contradiction.
      * intros [[->|?] ?]; [contradiction | assumption].
Qed.

Lemma listener_shape data s :
  channel (listener data s) = channel s /\ registered (listener data s) = registered s.
Proof.
  unfold listener, registered. destruct (resolveNext s); simpl; [|tauto].
  destruct (state s); tauto.
Qed.

Lemma shape_listener data o : shape (listener data <$> o) = shape o.
Proof.
  destruct o as [s|]; [|reflexivity]. simpl.
  destruct (listener_shape data s) as [-> ->]. reflexivity.
Qed.

Lemma fold_listener_shape data (ls : list nat) (subs : list Subscription) (i : nat) :
  shape (fold_left (fun acc j => alter (listener data) j acc) ls subs !! i) = shape (subs !! i).
Proof.
  revert subs. induction ls as [|j ls IH]; intros subs; [reflexivity|].
  simpl. rewrite IH, list_lookup_alter.
  destruct (decide (j = i)) as [->|]; [apply shape_listener | reflexivity].
Qed.

Lemma fold_listener_other data (ls : list nat) (subs : list Subscription) (i : nat) :
  i ∉ ls ->
  fold_left (fun acc j => alter (listener data) j acc) ls subs !! i = subs !! i.
Proof.
  revert subs. induction ls as [|j ls IH]; intros subs Hni; [reflexivity|].
  apply not_elem_of_cons in Hni as [Hne Hni].
  simpl. rewrite IH by assumption. apply list_lookup_alter_ne. congruence.
Qed.

Lemma fold_listener_length data (ls : list nat) (subs : list Subscription) :
  length (fold_left (fun acc j => alter (listener data) j acc) ls subs) = length subs.
Proof.
  revert subs. induction ls as [|j ls IH]; intros subs; [reflexivity|].
  simpl. rewrite IH. apply length_alter.
Qed.

Lemma emitter_call_listeners ls data b : emitter (call_listeners ls data b) = emitter b.
Proof. reflexivity. Qed.

Lemma reg_call_listeners ls data b i : reg (call_listeners ls data b) i = reg b i.
Proof. unfold reg. simpl. apply fold_listener_shape. Qed.

Lemma lookup_call_listeners ls data b i :
  i ∉ ls -> subscriptions (call_listeners ls data b) !! i = subscriptions b !! i.
Proof. intros H. simpl. apply fold_listener_other. assumption. Qed.

Lemma length_call_listeners ls data b :
  length (subscriptions (call_listeners ls data b)) = length (subscriptions b).
Proof. simpl. apply fold_listener_length. Qed.

(** [on] attaches a listener that was not attached. *)
Lemma on_spec name i b f :
  wf_with (emitter b) f -> f i = None ->
  wf_with (emitter (on name i b)) (upd f i (Some name))
  /\ listenerCount (emitter (on name i b)) name = S (listenerCount (emitter b) name)
  /\ (forall j, reg (on name i b) j = reg b j)
  /\ (forall j, j ∉ listeners (emitter b) "newListener" ->
        subscriptions (on name i b) !! j = subscriptions b !! j).
Proof.
  intros Hwf Hfi. unfold on. simpl. split; [|split; [|split]].
  - intros n. rewrite listeners_insert. unfold upd.
    destruct (Hwf n) as [Hnd Hin].
    destruct (decide (name = n)) as [->|Hne].
    + split.
      * apply NoDup_app. split; [assumption|]. split; [|apply NoDup_singleton].
        intros x Hx Hx'. apply list_elem_of_singleton in Hx'. subst x.
        apply Hin in Hx. congruence.
      * intros j. rewrite elem_of_app, list_elem_of_singleton.
        destruct (decide (j = i)) as [->|Hji].
        -- split; [reflexivity | tauto].
        -- rewrite Hin. tauto.
    + split; [assumption|]. intros j.
      destruct (decide (j = i)) as [->|Hji].
      * rewrite Hin, Hfi. split; [discriminate | congruence].
      * apply Hin.
  - unfold listenerCount. rewrite listeners_insert.
    destruct (decide (name = name)); [|congruence].
    rewrite length_app. simpl. lia.
  - intros j. unfold reg. simpl. apply fold_listener_shape.
  - intros j Hj. simpl. apply fold_listener_other. assumption.
Qed.

(** [off] detaches an attached listener. *)
Lemma off_spec name i b f :
  wf_with (emitter b) f -> f i = Some name ->
  wf_with (emitter (off name i b)) (upd f i None)
  /\ S (listenerCount (emitter (off name i b)) name) = listenerCount (emitter b) name
  /\ (forall j, reg (off name i b) j = reg b j)
  /\ (forall j, f j = None -> subscriptions (off name i b) !! j = subscriptions b !! j)
  /\ subscriptions (off name i b) !! i = subscriptions b !! i.
Proof.
  intros Hwf Hfi. unfold off.
  destruct (Hwf name) as [Hnd Hin].
  assert (Hi : i ∈ listeners (emitter b) name) by (apply Hin; assumption).
  assert (E : existsb (Nat.eqb i) (listeners (emitter b) name) = true)
    by (apply existsb_eqb_elem_of; assumption).
  rewrite E.
  destruct (remove_last_NoDup i _ Hnd Hi) as (R1 & R2 & R3).
  set (ls' := remove_last i (listeners (emitter b) name)) in *.
  set (em' := match ls' with [] => delete name (emitter b) | _ => <[name := ls']> (emitter b) end).
  assert (Hem' : forall n,
            listeners em' n = if decide (name = n) then ls' else listeners (emitter b) n).
  { intros n. unfold em'. destruct ls' eqn:El.
    - apply listeners_delete.
    - apply listeners_insert. }
  assert (Hwf' : wf_with em' (upd f i None)).
  { intros n. rewrite Hem'. unfold upd. destruct (Hwf n) as [Hnd' Hin'].
    destruct (decide (name = n)) as [<-|Hne].
    - split; [assumption|]. intros j. rewrite R2.
      destruct (decide (j = i)) as [->|Hji]; [split; [tauto | discriminate]|].
      rewrite Hin. tauto.
    - split; [assumption|]. intros j.
      destruct (decide (j = i)) as [->|Hji]; [|apply Hin'].
      rewrite Hin', Hfi. split; [congruence | discriminate]. }
  simpl. fold em'. split; [exact Hwf'|]. split; [|split; [|split]].
  - unfold listenerCount. rewrite Hem'.
    destruct (decide (name = name)); [|congruence]. exact R3.
  - intros j. unfold reg. simpl. apply fold_listener_shape.
  - intros j Hj. simpl. apply fold_listener_other.
    intros Hc. apply (Hwf' "removeListener") in Hc. unfold upd in Hc.
    destruct (decide (j = i)); congruence.
  - simpl. apply fold_listener_other.
    intros Hc. apply (Hwf' "removeListener") in Hc. unfold upd in Hc.
    destruct (decide (i = i)); congruence.
Qed.

Lemma loop_shape q rest :
  let r := loop q rest in
  (r_finally r = true /\ r_state r = Completed)
  \/ (r_finally r = false /\ (r_state r = Awaiting false \/ r_state r = SuspendedYield)).
Proof.
  revert rest. induction q as [|event q IH]; intros rest; simpl.
  - right. split; [reflexivity | left; reflexivity].
  - destruct (Js.truthy event); [|apply IH].
    destruct rest as [|[|] rest']; simpl.
    + right. split; [reflexivity | right; reflexivity].
    + apply IH.
    + left. split; reflexivity.
Qed.

Lemma wf_createMemoryBroadcaster : wf createMemoryBroadcaster.
Proof.
  intros name. unfold listeners, reg. simpl. rewrite lookup_empty. simpl.
  split; [apply NoDup_nil_2|]. intros i. split; [intros H; inversion H | discriminate].
Qed.

Lemma reg_alter_shape (g : Subscription -> Subscription) i b j :
  (forall s, channel (g s) = channel s /\ registered (g s) = registered s) ->
  reg (set_subscriptions (alter g i) b) j = reg b j.
Proof.
  intros Hg. unfold reg. simpl. rewrite list_lookup_alter.
  destruct (decide (i = j)) as [->|]; [|reflexivity].
  destruct (subscriptions b !! j) as [s|]; [|reflexivity]. simpl.
  destruct (Hg s) as [-> ->]. reflexivity.
Qed.

(** Storing a run of an attached subscription keeps the emitter and the
    generator states in step. *)
Lemma apply_run_wf i r b f s :
  wf_with (emitter b) f ->
  subscriptions b !! i = Some s ->
  f i = Some (channel s) ->
  (forall j, j <> i -> f j = reg b j) ->
  ((r_finally r = true /\ r_state r = Completed)
   \/ (r_finally r = false /\ (r_state r = Awaiting false \/ r_state r = SuspendedYield))) ->
  wf (apply_run i r b).
Proof.
  intros Hwf Hs Hfi Hother Hr. unfold apply_run. rewrite Hs.
  set (u := fun s0 : Subscription => _).
  set (b1 := set_subscriptions (alter u i) b).
  assert (Hreg1 : forall j, reg b1 j =
            if decide (j = i) then (if r_finally r then None else Some (channel s)) else f j).
  { intros j. unfold reg, b1. simpl. rewrite list_lookup_alter.
    destruct (decide (i = j)) as [->|Hne].
    - destruct (decide (j = j)); [|congruence]. rewrite Hs. simpl.
      unfold registered, u. simpl.
      destruct Hr as [[-> ->]|[-> [->| ->]]]; reflexivity.
    - destruct (decide (j = i)); [congruence|]. symmetry. apply Hother. congruence. }
  destruct (r_finally r) eqn:Ef.
  - destruct (off_spec (channel s) i b1 f) as (Hw & _ & Hrg & _); [exact Hwf | exact Hfi |].
    eapply wf_with_ext; [|exact Hw]. intros j. rewrite Hrg, Hreg1. reflexivity.
  - eapply wf_with_ext; [|exact Hwf]. intros j. rewrite Hreg1.
    destruct (decide (j = i)) as [->|]; [assumption | reflexivity].
Qed.

(** ... and leaves the subscriptions that are not attached alone. *)
Lemma apply_run_other i r b f s j :
  wf_with (emitter b) f ->
  subscriptions b !! i = Some s ->
  f i = Some (channel s) ->
  j <> i -> f j = None ->
  subscriptions (apply_run i r b) !! j = subscriptions b !! j.
Proof.
  intros Hwf Hs Hfi Hne Hfj. unfold apply_run. rewrite Hs.
  set (u := fun s0 : Subscription => _).
  destruct (r_finally r).
  - destruct (off_spec (channel s) i (set_subscriptions (alter u i) b) f)
      as (_ & _ & _ & Hfr & _); [exact Hwf | exact Hfi |].
    rewrite Hfr by assumption. simpl. apply list_lookup_alter_ne. congruence.
  - simpl. apply list_lookup_alter_ne. congruence.
Qed.


Lemma wf_enqueue req i b : wf b -> wf (enqueue req i b).
Proof.
  intros Hwf. eapply wf_with_ext; [|exact Hwf]. intros j. symmetry.
  apply reg_alter_shape. intros s. split; reflexivity.
Qed.

Lemma wf_keepAlive i b : wf b -> wf (keepAlive i b).
Proof.
  intros Hwf. eapply wf_with_ext; [|exact Hwf]. intros j. symmetry.
  apply reg_alter_shape. intros s. unfold registered.
  destruct (state s) as [|[|]| |] eqn:E; simpl; rewrite ?E; split; reflexivity.
Qed.

Lemma wf_subscribe ch b : wf b -> wf (snd (subscribe ch b)).
Proof.
  intros Hwf. eapply wf_with_ext; [|exact Hwf]. intros j. unfold reg. simpl.
  destruct (decide (j < length (subscriptions b))) as [Hlt|Hge].
  - rewrite lookup_app_l by assumption. reflexivity.
  - rewrite (lookup_ge_None_2 (subscriptions b)) by lia.
    destruct (decide (j = length (subscriptions b))) as [->|Hne].
    + rewrite list_lookup_middle by reflexivity. reflexivity.
    + rewrite lookup_ge_None_2; [reflexivity|]. rewrite length_app. simpl. lia.
Qed.

Lemma wf_publish ch data b : wf b -> wf (default b (publish ch data b)).
Proof.
  intros Hwf. unfold publish, emit.
  destruct (listeners (emitter b) ch) as [|l ls]; [destruct (String.eqb ch "error"); exact Hwf|].
  simpl default. eapply wf_with_ext; [|exact Hwf]. intros j. symmetry.
  apply reg_call_listeners.
Qed.

Lemma wf_resume i b : wf b -> wf (resume i b).
Proof.
  intros Hwf. unfold resume.
  destruct (subscriptions b !! i) as [s|] eqn:Es; [|exact Hwf].
  destruct (state s) as [|[|]| |] eqn:Est; try exact Hwf.
  destruct (requests s) as [|[|] rest]; try exact Hwf.
  eapply (apply_run_wf i _ b (reg b) s); try eassumption.
  - unfold reg. rewrite Es. simpl. unfold registered. rewrite Est. reflexivity.
  - reflexivity.
  - apply loop_shape.
Qed.

Lemma wf_drain i b : wf b -> wf (drain i b).
Proof.
  intros Hwf. unfold drain.
  destruct (subscriptions b !! i) as [s|] eqn:Es; [|exact Hwf].
  destruct (requests s) as [|req rest] eqn:Er; [exact Hwf|].
  destruct (state s) as [|r| |] eqn:Est.
  - (* SuspendedStart *)
    assert (Hri : reg b i = None).
    { unfold reg. rewrite Es. simpl. unfold registered. rewrite Est. reflexivity. }
    destruct req.
    + destruct (on_spec (channel s) i b (reg b) Hwf Hri) as (Hw & _ & Hrg & Hfr).
      assert (Hs1 : subscriptions (on (channel s) i b) !! i = Some s).
      { rewrite Hfr; [assumption|]. intros Hc. apply (Hwf "newListener") in Hc. congruence. }
      eapply (apply_run_wf i _ _ _ s); [exact Hw | exact Hs1 | | | apply loop_shape].
      * unfold upd. destruct (decide (i = i)); congruence.
      * intros j Hne. unfold upd. destruct (decide (j = i)); [congruence|].
        symmetry. apply Hrg.
    + eapply wf_with_ext; [|exact Hwf]. intros j. unfold reg. simpl.
      rewrite list_lookup_alter. destruct (decide (i = j)) as [->|]; [|reflexivity].
      rewrite Es. simpl. unfold registered. rewrite Est. reflexivity.
  - exact Hwf.
  - (* SuspendedYield *)
    assert (Hri : reg b i = Some (channel s)).
    { unfold reg. rewrite Es. simpl. unfold registered. rewrite Est. reflexivity. }
    destruct req.
    + eapply (apply_run_wf i _ b (reg b) s); try eassumption; [reflexivity | apply loop_shape].
    + eapply (apply_run_wf i _ b (reg b) s); try eassumption; [reflexivity|].
      left. split; reflexivity.
  - eapply wf_with_ext; [|exact Hwf]. intros j. unfold reg. simpl.
    rewrite list_lookup_alter. destruct (decide (i = j)) as [->|]; [|reflexivity].
    rewrite Es. simpl. unfold registered. rewrite Est. reflexivity.
Qed.

Lemma wf_step b inp : wf b -> wf (step b inp).
Proof.
  intros Hwf. destruct inp; simpl.
  - apply wf_subscribe, Hwf.
  - apply wf_drain, wf_enqueue, Hwf.
  - apply wf_drain, wf_enqueue, Hwf.
  - apply wf_publish, Hwf.
  - apply wf_resume, Hwf.
  - apply wf_keepAlive, Hwf.
Qed.

Lemma wf_run_inputs inputs b : wf b -> wf (run inputs b).
Proof.
  revert b. induction inputs as [|inp inputs IH]; intros b Hwf; [exact Hwf|].
  simpl. apply IH, wf_step, Hwf.
Qed.

Lemma subscriptions_set f b : subscriptions (set_subscriptions f b) = f (subscriptions b).
Proof. reflexivity. Qed.

Lemma reg_None_not_listening b i name :
  wf b -> reg b i = None -> i ∉ listeners (emitter b) name.
Proof. intros Hwf Hr Hc. apply (Hwf name) in Hc. congruence. Qed.

Lemma drain_other i j b :
  wf b -> reg b i = None -> i <> j ->
  subscriptions (drain j b) !! i = subscriptions b !! i.
Proof.
  intros Hwf Hri Hne. unfold drain.
  destruct (subscriptions b !! j) as [s|] eqn:Es; [|reflexivity].
  destruct (requests s) as [|req rest] eqn:Er; [reflexivity|].
  destruct (state s) as [|r| |] eqn:Est.
  - assert (Hrj : reg b j = None).
    { unfold reg. rewrite Es. simpl. unfold registered. rewrite Est. reflexivity. }
    destruct req.
    + destruct (on_spec (channel s) j b (reg b) Hwf Hrj) as (Hw & _ & Hrg & Hfr).
      assert (Hs1 : subscriptions (on (channel s) j b) !! j = Some s).
      { rewrite Hfr; [assumption|]. apply reg_None_not_listening; assumption. }
      rewrite (apply_run_other j _ _ _ s i Hw Hs1).
      * apply Hfr. apply reg_None_not_listening; assumption.
      * unfold upd. destruct (decide (j = j)); congruence.
      * assumption.
      * unfold upd. destruct (decide (i = j)); [congruence | assumption].
    + simpl. apply list_lookup_alter_ne. congruence.
  - reflexivity.
  - assert (Hrj : reg b j = Some (channel s)).
    { unfold reg. rewrite Es. simpl. unfold registered. rewrite Est. reflexivity. }
    destruct req; apply (apply_run_other j _ b (reg b) s i); assumption.
  - simpl. apply list_lookup_alter_ne. congruence.
Qed.

Lemma resume_other i j b :
  wf b -> reg b i = None -> i <> j ->
  subscriptions (resume j b) !! i = subscriptions b !! i.
Proof.
  intros Hwf Hri Hne. unfold resume.
  destruct (subscriptions b !! j) as [s|] eqn:Es; [|reflexivity].
  destruct (state s) as [|[|]| |] eqn:Est; try reflexivity.
  destruct (requests s) as [|[|] rest]; try reflexivity.
  apply (apply_run_other j _ b (reg b) s i); try assumption.
  unfold reg. rewrite Es. simpl. unfold registered. rewrite Est. reflexivity.
Qed.








(** *** Delivery *)

Lemma fold_listener_once data (ls : list nat) (subs : list Subscription) (i : nat) :
  NoDup ls -> i ∈ ls ->
  fold_left (fun acc j => alter (listener data) j acc) ls subs !! i
  = listener data <$> subs !! i.
Proof.
  revert subs. induction ls as [|j ls IH]; intros subs Hnd Hin; [inversion Hin|].
  apply NoDup_cons in Hnd as [Hj Hnd]. simpl.
  destruct (decide (j = i)) as [->|Hne].
  - rewrite fold_listener_other by assumption. apply list_lookup_alter_eq.
  - apply elem_of_cons in Hin as [->|Hin]; [congruence|].
    rewrite IH by assumption. rewrite list_lookup_alter_ne by assumption. reflexivity.
Qed.

(** A publish on a channel without listeners (other than ["error"]) does
    not throw and changes nothing. *)
Lemma publish_without_listeners ch data b :
  getListenerCount ch b = 0 -> ch <> "error" -> publish ch data b = Some b.
Proof.
  intros Hc Hne. unfold publish, emit.
  unfold getListenerCount, listenerCount in Hc.
  destruct (listeners (emitter b) ch); [|discriminate].
  apply String.eqb_neq in Hne. rewrite Hne. reflexivity.
Qed.


Lemma listener_queue data s : queue (listener data s) = queue s ++ [data].
Proof. unfold listener. destruct (resolveNext s); reflexivity. Qed.

(** The values of settled results. *)
Definition values (rs : list IteratorResult) : list Js.Value :=
  omap (fun r => match r with Yield v => Some v | Done => None end) rs.

(** The loop yields truthy events in queue order and silently consumes the
    falsy ones: what it yields, followed by the truthy events it leaves in
    the queue, are the truthy events it started with. *)
Lemma loop_yields_truthy_in_order q rest :
  values (r_results (loop q rest)) ++ List.filter Js.truthy (r_queue (loop q rest))
  = List.filter Js.truthy q.
Proof.
  revert rest. induction q as [|event q IH]; intros rest; [reflexivity|].
  simpl. destruct (Js.truthy event) eqn:E; [|apply IH].
  destruct rest as [|[|] rest']; simpl.
  - reflexivity.
  - f_equal. apply IH.
  - f_equal. induction rest' as [|r rest' IHr]; [reflexivity | exact IHr].
Qed.





(** A [return()] issued while a [next()] is pending waits in the request
    queue: the listener stays attached until the next truthy event has been
    yielded, and is detached then. *)
Example return_while_waiting_is_deferred :
  let b := run [Subscribe "t"; Next 0; Return 0] createMemoryBroadcaster in
  let b' := run [Publish "t" (Js.Number 1); Resume 0] b in
  getListenerCount "t" b = 1
  /\ getListenerCount "t" b' = 0
  /\ (results <$> subscriptions b' !! 0) = Some [Yield (Js.Number 1); Done].
Proof. repeat split. Qed.

(** The falsy values of the model. *)
Lemma falsy_values data :
  Js.truthy data = false ->
  data = Js.Undefined \/ data = Js.Null \/ data = Js.Bool false
  \/ data = Js.Number 0 \/ data = Js.Str "".
Proof.
  destruct data as [| |[|]|z|s| |]; simpl; intros H; try discriminate; auto.
  - apply negb_false_iff, Z.eqb_eq in H. subst. auto.
  - apply negb_false_iff, String.eqb_eq in H. subst. auto 6.
Qed.

(** C2, evaluated: one subscriber is attached on channel "t" and waits.  A
    published falsy value (0, the empty string, false, null, undefined) is
    queued, fails [if (event)] and is dropped: the subscription is back at
    the [await] with an empty queue and has yielded nothing, where the specification
    has it yield the value exactly once.  A truthy value is yielded.  A
    publish on channel "error" without listeners throws, where the specification has
    it do nothing. *)
Theorem falsy_event_is_dropped_and_error_channel_throws :
  let b := run [Subscribe "t"; Next 0] createMemoryBroadcaster in
  getListenerCount "t" b = 1
  /\ (forall data, Js.truthy data = false ->
        let b' := run [Publish "t" data; Resume 0] b in
        subscriptions b' = subscriptions b /\ yielded b' 0 = [])
  /\ yielded (run [Publish "t" (Js.Number 0); Resume 0; KeepAlive 0; Resume 0] b) 0 = []
  /\ yielded (run [Publish "t" (Js.Number 1); Resume 0] b) 0 = [Js.Number 1]
  /\ publish "error" (Js.Number 1) createMemoryBroadcaster = None.
Proof.
  split; [reflexivity|]. split; [|split; [|split]]; try reflexivity.
  intros data Hf.
  destruct (falsy_values data Hf) as [-> | [-> | [-> | [-> | ->]]]];
    split; vm_compute; reflexivity.
Qed.

(* --------------------------------------------------------------------- *)
(** *** Choosing a broadcaster: [createEventBroadcaster] *)






(* --------------------------------------------------------------------- *)
(** *** Listener counts, delivery and the life of a subscription *)





(** X14: in every state the
    broadcaster reaches, a publish throws only on channel [error] without
    listeners; otherwise it appends the event exactly once to the queue of
    each subscription attached on that channel, leaves every other
    subscription as it was, and changes no listener. *)
Theorem publish_reaches_attached_subscriptions_only
    (inputs : list Input) (ch : string) (data : Js.Value) :
  let b := run inputs createMemoryBroadcaster in
  (publish ch data b = None <-> ch = "error" /\ getListenerCount ch b = 0)
  /\ forall b', publish ch data b = Some b' ->
       emitter b' = emitter b
       /\ length (subscriptions b') = length (subscriptions b)
       /\ forall i s, subscriptions b !! i = Some s ->
            exists s', subscriptions b' !! i = Some s'
              /\ channel s' = channel s /\ results s' = results s
              /\ requests s' = requests s
              /\ queue s' = (if decide (reg b i = Some ch) then queue s ++ [data]
                             else queue s)
              /\ (reg b i <> Some ch -> s' = s).
Proof.
  intros b.
  assert (Hwf : wf b) by apply wf_run_inputs, wf_createMemoryBroadcaster.
  destruct (Hwf ch) as [Hnd Hin].
  unfold publish, emit, getListenerCount, listenerCount.
  destruct (listeners (emitter b) ch) as [|l ls] eqn:El.
  - split.
    + destruct (String.eqb ch "error") eqn:E.
      * apply String.eqb_eq in E. split; [intros _; split; [exact E | reflexivity]|].
        reflexivity.
      * apply String.eqb_neq in E. split; [discriminate | intros [? _]; contradiction].
    + intros b' H. destruct (String.eqb ch "error"); [discriminate|].
      injection H as <-. split; [reflexivity|]. split; [reflexivity|].
      intros i s Hs. exists s. repeat split; try assumption.
      rewrite decide_False; [reflexivity|]. intros Hr. apply Hin in Hr. inversion Hr.
  - split; [split; [discriminate | intros [_ H]; discriminate]|].
    intros b' [= <-]. split; [reflexivity|]. split; [apply length_call_listeners|].
    intros i s Hs. destruct (decide (reg b i = Some ch)) as [Hr|Hr].
    + exists (listener data s). unfold call_listeners.
      rewrite subscriptions_set. cbv beta.
      rewrite (fold_listener_once data (l :: ls)); [|assumption | apply Hin, Hr].
      rewrite Hs. split; [reflexivity|].
      split; [apply listener_shape|].
      split; [unfold listener; destruct (resolveNext s); reflexivity|].
      split; [unfold listener; destruct (resolveNext s); reflexivity|].
      split; [apply listener_queue | contradiction].
    + exists s. rewrite lookup_call_listeners; [|rewrite Hin; exact Hr].
      repeat split; assumption.
Qed.




Lemma yielded_lookup b i s :
  subscriptions b !! i = Some s -> yielded b i = values (results s).
Proof. intros H. unfold yielded. now rewrite H. Qed.

Lemma values_app rs rs' : values (rs ++ rs') = values rs ++ values rs'.
Proof. unfold values. apply omap_app. Qed.



(** X16: when the 30 s keep-alive timer
    wakes a generator that waits with an empty queue, the loop goes round
    once and waits again: nothing is yielded, no request is settled, the
    listener stays attached; the broadcaster is exactly as before. *)
Theorem keepAlive_wakeup_changes_nothing
    (b : Broadcaster) (i : nat) (s : Subscription) (rest : list Request) :
  subscriptions b !! i = Some s ->
  state s = Awaiting false -> resolveNext s = true ->
  queue s = [] -> requests s = ReqNext :: rest ->
  run [KeepAlive i; Resume i] b = b.
Proof.
  intros Hs Hst Hrn Hq Hreq. cbn [run fold_left step].
  assert (Hs1 : subscriptions (keepAlive i b) !! i =
    Some {| channel := channel s; queue := queue s; resolveNext := resolveNext s;
            state := Awaiting true; requests := requests s; results := results s |}).
  { simpl. rewrite list_lookup_alter_eq, Hs. simpl. rewrite Hst. reflexivity. }
  unfold resume. rewrite Hs1. cbn [state requests queue]. rewrite Hreq, Hq.
  cbn [loop]. unfold apply_run. cbn [r_finally r_state r_queue r_requests r_results].
  destruct b as [em subs]. unfold set_subscriptions, keepAlive. simpl in *.
  f_equal. apply list_eq. intros j.
  destruct (decide (i = j)) as [<-|Hne].
  - rewrite !list_lookup_alter_eq, Hs. simpl. rewrite Hst. simpl.
    destruct s as [c q rn st rq rs]. simpl in *. subst. rewrite app_nil_r. reflexivity.
  - rewrite !list_lookup_alter_ne by assumption. reflexivity.
Qed.

(** A completed generator stays completed: its own calls settle with
    [done], and nothing else reaches it. *)
Lemma step_completed i s b inp :
  wf b ->
  subscriptions b !! i = Some s -> state s = Completed -> requests s = [] ->
  exists s', subscriptions (step b inp) !! i = Some s'
    /\ state s' = Completed /\ requests s' = []
    /\ channel s' = channel s /\ queue s' = queue s
    /\ values (results s') = values (results s).
Proof.
  intros Hwf Hs Hst Hreq.
  assert (Hri : reg b i = None).
  { unfold reg. rewrite Hs. simpl. unfold registered. rewrite Hst. reflexivity. }
  assert (Hsame : exists s', Some s = Some s'
            /\ state s' = Completed /\ requests s' = []
            /\ channel s' = channel s /\ queue s' = queue s
            /\ values (results s') = values (results s)).
  { exists s. repeat split; assumption. }
  assert (Hself : forall req,
            exists s', subscriptions (drain i (enqueue req i b)) !! i = Some s'
              /\ state s' = Completed /\ requests s' = []
              /\ channel s' = channel s /\ queue s' = queue s
              /\ values (results s') = values (results s)).
  { intros req. unfold drain.
    assert (Hs0 : subscriptions (enqueue req i b) !! i =
      Some {| channel := channel s; queue := queue s; resolveNext := resolveNext s;
              state := state s; requests := requests s ++ [req]; results := results s |}).
    { simpl. rewrite list_lookup_alter_eq, Hs. reflexivity. }
    rewrite Hs0. cbn [requests state]. rewrite Hreq, Hst. cbn [app].
    rewrite subscriptions_set, list_lookup_alter_eq, Hs0. cbn [fmap option_fmap option_map].
    eexists. split; [reflexivity|]. cbn [state requests channel queue results].
    repeat split. rewrite values_app. simpl. apply app_nil_r. }
  assert (Hother : forall req j, i <> j ->
            subscriptions (drain j (enqueue req j b)) !! i = Some s).
  { intros req j Hne. rewrite drain_other; try assumption.
    - simpl. rewrite list_lookup_alter_ne by congruence. assumption.
    - apply wf_enqueue, Hwf.
    - unfold enqueue. rewrite reg_alter_shape; [assumption|]. intros; split; reflexivity. }
  destruct inp as [ch|j|j|ch data|j|j]; cbn [step].
  - simpl. rewrite lookup_app_l by (eapply lookup_lt_Some; eassumption).
    rewrite Hs. exact Hsame.
  - destruct (decide (i = j)) as [<-|Hne]; [apply Hself|].
    unfold next. rewrite Hother by assumption. exact Hsame.
  - destruct (decide (i = j)) as [<-|Hne]; [apply Hself|].
    unfold return_. rewrite Hother by assumption. exact Hsame.
  - unfold publish, emit.
    destruct (listeners (emitter b) ch) as [|l ls] eqn:El.
    + destruct (String.eqb ch "error"); simpl; rewrite Hs; exact Hsame.
    + simpl default. rewrite lookup_call_listeners, Hs; [exact Hsame|].
      rewrite <- El. apply reg_None_not_listening; assumption.
  - destruct (decide (i = j)) as [<-|Hne].
    + unfold resume. rewrite Hs, Hst, Hs. exact Hsame.
    + rewrite resume_other, Hs by assumption. exact Hsame.
  - simpl. rewrite list_lookup_alter. destruct (decide (j = i)) as [->|].
    + rewrite Hs. simpl. rewrite Hst. exact Hsame.
    + rewrite Hs. exact Hsame.
Qed.

(** X17: once a generator has
    completed, nothing brings it back: whatever is published and whatever is
    called afterwards, on it or on other generators, it yields nothing more,
    its queue is not written to, and its listener is attached to no
    channel. *)
Theorem completed_subscription_stays_closed
    (b : Broadcaster) (i : nat) (s : Subscription) (inputs : list Input) :
  wf b ->
  subscriptions b !! i = Some s -> state s = Completed -> requests s = [] ->
  let b' := run inputs b in
  yielded b' i = yielded b i
  /\ (forall name, i ∉ listeners (emitter b') name)
  /\ exists s', subscriptions b' !! i = Some s'
       /\ state s' = Completed /\ queue s' = queue s.
Proof.
  intros Hwf Hs Hst Hreq b'. rewrite (yielded_lookup b i s Hs). unfold b'. clear b'.
  revert b s Hwf Hs Hst Hreq. induction inputs as [|inp inputs IH]; intros b s Hwf Hs Hst Hreq.
  - simpl. rewrite (yielded_lookup b i s Hs). split; [reflexivity|]. split.
    + intros name. apply reg_None_not_listening; [assumption|].
      unfold reg. rewrite Hs. simpl. unfold registered. now rewrite Hst.
    + exists s. repeat split; assumption.
  - destruct (step_completed i s b inp Hwf Hs Hst Hreq)
      as (s1 & Hs1 & Hst1 & Hreq1 & _ & Hq1 & Hv1).
    destruct (IH _ s1 (wf_step b inp Hwf) Hs1 Hst1 Hreq1) as (Hy & Hl & s' & Hs' & Hst' & Hq').
    cbn [run fold_left]. split; [unfold run in Hy; congruence|].
    split; [exact Hl|]. exists s'. split; [exact Hs'|]. split; [exact Hst' | congruence].
Qed.























(** A subscriber waiting on [t]. *)
Lemma keepAlive_wakeup_changes_nothing_witness :
  let b := run [Subscribe "t"; Next 0] createMemoryBroadcaster in
  run [KeepAlive 0; Resume 0] b = b.
Proof.
  intros b.
  apply (keepAlive_wakeup_changes_nothing b 0
           {| channel := "t"; queue := []; resolveNext := true;
              state := Awaiting false; requests := [ReqNext]; results := [] |}
           []); reflexivity.
Defined.

(** A subscriber that yielded once and was closed; more events and calls
    follow. *)
Lemma completed_subscription_stays_closed_witness :
  let b := run [Subscribe "t"; Next 0; Publish "t" (Js.Number 1); Resume 0; Return 0]
             createMemoryBroadcaster in
  yielded (run [Publish "t" (Js.Number 2); Next 0; Resume 0] b) 0 = [Js.Number 1].
Proof.
  intros b.
  assert (Hwf : wf b) by apply wf_run_inputs, wf_createMemoryBroadcaster.
  pose proof (completed_subscription_stays_closed b 0
                {| channel := "t"; queue := []; resolveNext := false;
                   state := Completed; requests := [];
                   results := [Yield (Js.Number 1); Done] |}
                [Publish "t" (Js.Number 2); Next 0; Resume 0] Hwf) as H.
  cbv zeta in H. destruct H as (H & _); [reflexivity | reflexivity | reflexivity |].
  etransitivity; [exact H | vm_compute; reflexivity].
Defined.


End Events.

(* ===================================================================== *)
(** ** Client reconnection controller
       (client/hooks/useAutoReconnectStream.ts, usePageVisibility.ts) *)
(* ===================================================================== *)

Module Reconnect.

(** [maxRetries]: a number, [Infinity] by default. *)
Inductive Num :=
| Finite (z : Z)
| Infinity.

(** [attempt < maxRetries]. *)
Definition below (attempt : nat) (maxRetries : Num) : bool :=
  match maxRetries with
  | Finite z => (Z.of_nat attempt <? z)%Z
  | Infinity => true
  end.

Definition Num_eqb (a b : Num) : bool :=
  match a, b with
  | Finite x, Finite y => (x =? y)%Z
  | Infinity, Infinity => true
  | _, _ => false
  end.

(** Errors, after [err instanceof Error ? err : new Error(String(err))]:
    their message. *)
Definition Err : Type := string.

(** The options of the hook that its logic reads.  [identity] stands for the
    referential identities of [streamFn], [params] and the callbacks, which
    the effect lists as dependencies; [externalSignal] names an
    [AbortSignal] of the caller. *)
Record Props := {
  maxRetries : Num;
  baseDelay : Q;
  maxDelay : Q;
  enabled : bool;
  pauseOnHidden : bool;
  shouldRetry : option (Err -> nat -> bool);
  externalSignal : option nat;
  identity : nat
}.

(** Lines 115-121: the defaults. *)
Definition defaultProps : Props :=
  {| maxRetries := Infinity; baseDelay := 1000; maxDelay := 30000;
     enabled := true; pauseOnHidden := true; shouldRetry := None;
     externalSignal := None; identity := 0 |}.

(** Line 135: [enabled && (!pauseOnHidden || isVisible)]. *)
Definition shouldStream (p : Props) (isVisible : bool) : bool :=
  enabled p && (negb (pauseOnHidden p) || isVisible).

(** Lines 250-264: the dependency list of the effect. *)
Record Deps := {
  d_shouldStream : bool;
  d_baseDelay : Q;
  d_externalSignal : option nat;
  d_maxDelay : Q;
  d_maxRetries : Num;
  d_identity : nat
}.

Definition depsOf (p : Props) (isVisible : bool) : Deps :=
  {| d_shouldStream := shouldStream p isVisible; d_baseDelay := baseDelay p;
     d_externalSignal := externalSignal p; d_maxDelay := maxDelay p;
     d_maxRetries := maxRetries p; d_identity := identity p |}.

Definition option_nat_eqb (a b : option nat) : bool :=
  match a, b with
  | Some x, Some y => (x =? y)%nat
  | None, None => true
  | _, _ => false
  end.

(** React's comparison of two dependency lists. *)
Definition deps_eqb (a b : Deps) : bool :=
  Bool.eqb (d_shouldStream a) (d_shouldStream b)
  && Qeq_bool (d_baseDelay a) (d_baseDelay b)
  && option_nat_eqb (d_externalSignal a) (d_externalSignal b)
  && Qeq_bool (d_maxDelay a) (d_maxDelay b)
  && Num_eqb (d_maxRetries a) (d_maxRetries b)
  && (d_identity a =? d_identity b)%nat.

(** One run of the effect: the closure of lines 137-249, with its
    [isMounted] variable. *)
Record Effect := {
  e_props : Props;
  e_shouldStream : bool;
  isMounted : bool
}.

(** One invocation of [connectToStream] that got past its guard: the
    [AbortController] it created and where the async function stands. *)
Inductive Stage :=
| AwaitingStream      (* [streamFn(params)] called, its result awaited *)
| Consuming           (* inside [for await] *)
| Finished.

Record Connection := {
  c_effect : nat;
  c_aborted : bool;   (* [abortControllerRef.current.signal.aborted] of its controller *)
  c_stage : Stage
}.

Inductive TimerState := Armed | Cleared | Fired.

(** One [setTimeout] of [scheduleReconnect]. *)
Record Timer := {
  t_effect : nat;
  t_delay : Z;
  t_state : TimerState
}.

Section Hook.

(** The type of stream items. *)
Context {TEvent : Type}.

(** The calls the hook makes on its environment, in order.  An optional
    callback that is absent is a call that does nothing; callbacks are
    taken not to throw. *)
Inductive Call :=
| CallStreamFn
| CallOnConnect
| CallOnData (event : TEvent) (reconnectAttempt : nat)
| CallOnDisconnect
| CallOnError (error : Err) (reconnectAttempt : nat)
| CallOnMaxRetriesReached (error : Err).

(** The state of one mounted hook: its [useState] cells, its refs, the
    [isVisible] cell of [usePageVisibility], the committed dependency list,
    and the objects its closures share (effects, connections, timers, the
    external signals aborted so far). *)
Record Hook := {
  isConnected : bool;
  isReconnecting : bool;
  reconnectAttempt : nat;
  error : option Err;
  abortControllerRef : option nat;      (* the connection whose controller it holds *)
  reconnectTimeoutRef : option nat;
  currentAttemptRef : nat;
  isVisible : bool;
  deps : option Deps;
  effects : list Effect;
  connections : list Connection;
  timers : list Timer;
  abortedSignals : list nat;
  randomCalls : nat;                    (* calls of [Math.random] so far *)
  calls : list Call
}.

Definition set_isConnected (v : bool) (h : Hook) : Hook :=
  {| isConnected := v; isReconnecting := isReconnecting h;
     reconnectAttempt := reconnectAttempt h; error := error h;
     abortControllerRef := abortControllerRef h;
     reconnectTimeoutRef := reconnectTimeoutRef h;
     currentAttemptRef := currentAttemptRef h; isVisible := isVisible h;
     deps := deps h; effects := effects h; connections := connections h;
     timers := timers h; abortedSignals := abortedSignals h;
     randomCalls := randomCalls h; calls := calls h |}.

Definition set_isReconnecting (v : bool) (h : Hook) : Hook :=
  {| isConnected := isConnected h; isReconnecting := v;
     reconnectAttempt := reconnectAttempt h; error := error h;
     abortControllerRef := abortControllerRef h;
     reconnectTimeoutRef := reconnectTimeoutRef h;
     currentAttemptRef := currentAttemptRef h; isVisible := isVisible h;
     deps := deps h; effects := effects h; connections := connections h;
     timers := timers h; abortedSignals := abortedSignals h;
     randomCalls := randomCalls h; calls := calls h |}.

Definition set_reconnectAttempt (v : nat) (h : Hook) : Hook :=
  {| isConnected := isConnected h; isReconnecting := isReconnecting h;
     reconnectAttempt := v; error := error h;
     abortControllerRef := abortControllerRef h;
     reconnectTimeoutRef := reconnectTimeoutRef h;
     currentAttemptRef := currentAttemptRef h; isVisible := isVisible h;
     deps := deps h; effects := effects h; connections := connections h;
     timers := timers h; abortedSignals := abortedSignals h;
     randomCalls := randomCalls h; calls := calls h |}.

Definition set_error (v : option Err) (h : Hook) : Hook :=
  {| isConnected := isConnected h; isReconnecting := isReconnecting h;
     reconnectAttempt := reconnectAttempt h; error := v;
     abortControllerRef := abortControllerRef h;
     reconnectTimeoutRef := reconnectTimeoutRef h;
     currentAttemptRef := currentAttemptRef h; isVisible := isVisible h;
     deps := deps h; effects := effects h; connections := connections h;
     timers := timers h; abortedSignals := abortedSignals h;
     randomCalls := randomCalls h; calls := calls h |}.

Definition set_abortControllerRef (v : option nat) (h : Hook) : Hook :=
  {| isConnected := isConnected h; isReconnecting := isReconnecting h;
     reconnectAttempt := reconnectAttempt h; error := error h; abortControllerRef := v;
     reconnectTimeoutRef := reconnectTimeoutRef h;
     currentAttemptRef := currentAttemptRef h; isVisible := isVisible h;
     deps := deps h; effects := effects h; connections := connections h;
     timers := timers h; abortedSignals := abortedSignals h;
     randomCalls := randomCalls h; calls := calls h |}.

Definition set_reconnectTimeoutRef (v : option nat) (h : Hook) : Hook :=
  {| isConnected := isConnected h; isReconnecting := isReconnecting h;
     reconnectAttempt := reconnectAttempt h; error := error h;
     abortControllerRef := abortControllerRef h; reconnectTimeoutRef := v;
     currentAttemptRef := currentAttemptRef h; isVisible := isVisible h;
     deps := deps h; effects := effects h; connections := connections h;
     timers := timers h; abortedSignals := abortedSignals h;
     randomCalls := randomCalls h; calls := calls h |}.

Definition set_currentAttemptRef (v : nat) (h : Hook) : Hook :=
  {| isConnected := isConnected h; isReconnecting := isReconnecting h;
     reconnectAttempt := reconnectAttempt h; error := error h;
     abortControllerRef := abortControllerRef h;
     reconnectTimeoutRef := reconnectTimeoutRef h; currentAttemptRef := v;
     isVisible := isVisible h; deps := deps h; effects := effects h;
     connections := connections h; timers := timers h;
     abortedSignals := abortedSignals h; randomCalls := randomCalls h;
     calls := calls h |}.

Definition set_isVisible (v : bool) (h : Hook) : Hook :=
  {| isConnected := isConnected h; isReconnecting := isReconnecting h;
     reconnectAttempt := reconnectAttempt h; error := error h;
     abortControllerRef := abortControllerRef h;
     reconnectTimeoutRef := reconnectTimeoutRef h;
     currentAttemptRef := currentAttemptRef h; isVisible := v; deps := deps h;
     effects := effects h; connections := connections h; timers := timers h;
     abortedSignals := abortedSignals h; randomCalls := randomCalls h;
     calls := calls h |}.

Definition set_deps (v : option Deps) (h : Hook) : Hook :=
  {| isConnected := isConnected h; isReconnecting := isReconnecting h;
     reconnectAttempt := reconnectAttempt h; error := error h;
     abortControllerRef := abortControllerRef h;
     reconnectTimeoutRef := reconnectTimeoutRef h;
     currentAttemptRef := currentAttemptRef h; isVisible := isVisible h; deps := v;
     effects := effects h; connections := connections h; timers := timers h;
     abortedSignals := abortedSignals h; randomCalls := randomCalls h;
     calls := calls h |}.

Definition set_effects (v : list Effect) (h : Hook) : Hook :=
  {| isConnected := isConnected h; isReconnecting := isReconnecting h;
     reconnectAttempt := reconnectAttempt h; error := error h;
     abortControllerRef := abortControllerRef h;
     reconnectTimeoutRef := reconnectTimeoutRef h;
     currentAttemptRef := currentAttemptRef h; isVisible := isVisible h;
     deps := deps h; effects := v; connections := connections h; timers := timers h;
     abortedSignals := abortedSignals h; randomCalls := randomCalls h;
     calls := calls h |}.

Definition set_connections (v : list Connection) (h : Hook) : Hook :=
  {| isConnected := isConnected h; isReconnecting := isReconnecting h;
     reconnectAttempt := reconnectAttempt h; error := error h;
     abortControllerRef := abortControllerRef h;
     reconnectTimeoutRef := reconnectTimeoutRef h;
     currentAttemptRef := currentAttemptRef h; isVisible := isVisible h;
     deps := deps h; effects := effects h; connections := v; timers := timers h;
     abortedSignals := abortedSignals h; randomCalls := randomCalls h;
     calls := calls h |}.

Definition set_timers (v : list Timer) (h : Hook) : Hook :=
  {| isConnected := isConnected h; isReconnecting := isReconnecting h;
     reconnectAttempt := reconnectAttempt h; error := error h;
     abortControllerRef := abortControllerRef h;
     reconnectTimeoutRef := reconnectTimeoutRef h;
     currentAttemptRef := currentAttemptRef h; isVisible := isVisible h;
     deps := deps h; effects := effects h; connections := connections h; timers := v;
     abortedSignals := abortedSignals h; randomCalls := randomCalls h;
     calls := calls h |}.

Definition set_abortedSignals (v : list nat) (h : Hook) : Hook :=
  {| isConnected := isConnected h; isReconnecting := isReconnecting h;
     reconnectAttempt := reconnectAttempt h; error := error h;
     abortControllerRef := abortControllerRef h;
     reconnectTimeoutRef := reconnectTimeoutRef h;
     currentAttemptRef := currentAttemptRef h; isVisible := isVisible h;
     deps := deps h; effects := effects h; connections := connections h;
     timers := timers h; abortedSignals := v; randomCalls := randomCalls h;
     calls := calls h |}.

Definition set_randomCalls (v : nat) (h : Hook) : Hook :=
  {| isConnected := isConnected h; isReconnecting := isReconnecting h;
     reconnectAttempt := reconnectAttempt h; error := error h;
     abortControllerRef := abortControllerRef h;
     reconnectTimeoutRef := reconnectTimeoutRef h;
     currentAttemptRef := currentAttemptRef h; isVisible := isVisible h;
     deps := deps h; effects := effects h; connections := connections h;
     timers := timers h; abortedSignals := abortedSignals h; randomCalls := v;
     calls := calls h |}.

Definition set_calls (v : list Call) (h : Hook) : Hook :=
  {| isConnected := isConnected h; isReconnecting := isReconnecting h;
     reconnectAttempt := reconnectAttempt h; error := error h;
     abortControllerRef := abortControllerRef h;
     reconnectTimeoutRef := reconnectTimeoutRef h;
     currentAttemptRef := currentAttemptRef h; isVisible := isVisible h;
     deps := deps h; effects := effects h; connections := connections h;
     timers := timers h; abortedSignals := abortedSignals h;
     randomCalls := randomCalls h; calls := v |}.

(** The first render: [useState]/[useRef] initial values; [isVisible] is
    [true] without a [document], else [!document.hidden]. *)
Definition initial (documentHidden : option bool) : Hook :=
  {| isConnected := false; isReconnecting := false; reconnectAttempt := 0; error := None;
     abortControllerRef := None; reconnectTimeoutRef := None; currentAttemptRef := 0;
     isVisible := match documentHidden with Some hidden => negb hidden | None => true end;
     deps := None; effects := []; connections := []; timers := [];
     abortedSignals := []; randomCalls := 0; calls := [] |}.

Definition log (c : Call) (h : Hook) : Hook := set_calls (calls h ++ [c]) h.

(** The value of the [n]-th call of [Math.random]. *)
Variable Math_random : nat -> Q.

(** What the closures of effect [e] see. *)
Definition propsOf (h : Hook) (e : nat) : Props :=
  match effects h !! e with
  | Some ef => e_props ef
  | None => defaultProps
  end.

Definition mounted (h : Hook) (e : nat) : bool :=
  match effects h !! e with
  | Some ef => isMounted ef
  | None => false
  end.

Definition shouldStreamOf (h : Hook) (e : nat) : bool :=
  match effects h !! e with
  | Some ef => e_shouldStream ef
  | None => false
  end.

Definition signalAborted (h : Hook) (signal : option nat) : bool :=
  match signal with
  | Some n => existsb (Nat.eqb n) (abortedSignals h)
  | None => false
  end.

(** [combinedSignal.aborted] of a connection: its own controller or the
    external signal of its effect's props. *)
Definition combinedAborted (h : Hook) (cn : Connection) : bool :=
  c_aborted cn || signalAborted h (externalSignal (propsOf h (c_effect cn))).

(** [abortControllerRef.current?.abort()]. *)
Definition abortCurrent (h : Hook) : Hook :=
  match abortControllerRef h with
  | Some c =>
      set_connections
        (alter (fun cn => {| c_effect := c_effect cn; c_aborted := true;
                             c_stage := c_stage cn |}) c (connections h)) h
  | None => h
  end.

(** [if (reconnectTimeoutRef.current) clearTimeout(reconnectTimeoutRef.current)]. *)
Definition clearPending (h : Hook) : Hook :=
  match reconnectTimeoutRef h with
  | Some t =>
      set_timers
        (alter (fun tm => match t_state tm with
                          | Armed => {| t_effect := t_effect tm; t_delay := t_delay tm;
                                        t_state := Cleared |}
                          | _ => tm
                          end) t (timers h)) h
  | None => h
  end.

Definition setStage (c : nat) (st : Stage) (h : Hook) : Hook :=
  set_connections
    (alter (fun cn => {| c_effect := c_effect cn; c_aborted := c_aborted cn;
                         c_stage := st |}) c (connections h)) h.

(** Lines 140-160 of [connectToStream], run in the closure of effect [e],
    up to the call of [streamFn]. *)
Definition connectToStream (e : nat) (h : Hook) : Hook :=
  if negb (shouldStreamOf h e) then h
  else
    let c := length (connections h) in
    let h := set_connections
               (connections h ++ [{| c_effect := e; c_aborted := false;
                                     c_stage := AwaitingStream |}]) h in
    let h := set_abortControllerRef (Some c) h in
    let h := set_isConnected false h in
    let h := set_error None h in
    log CallStreamFn h.

(** Lines 210-226, [scheduleReconnect] in the closure of effect [e]. *)
Definition scheduleReconnect (e : nat) (h : Hook) : Hook :=
  let h := set_isReconnecting true h in
  let h := set_currentAttemptRef (S (currentAttemptRef h)) h in
  let delay :=
    Backoff.calculateBackoffWithJitter (currentAttemptRef h)
      (baseDelay (propsOf h e)) (maxDelay (propsOf h e)) (1 # 4)
      (Math_random (randomCalls h)) in
  let h := set_randomCalls (S (randomCalls h)) h in
  let t := length (timers h) in
  let h := set_timers (timers h ++ [{| t_effect := e; t_delay := delay; t_state := Armed |}]) h in
  set_reconnectTimeoutRef (Some t) h.

(** Lines 221-225: the timer fires. *)
Definition timerFired (t : nat) (h : Hook) : Hook :=
  match timers h !! t with
  | Some tm =>
      match t_state tm with
      | Armed =>
          let h := set_timers (<[t := {| t_effect := t_effect tm; t_delay := t_delay tm;
                                         t_state := Fired |}]> (timers h)) h in
          if mounted h (t_effect tm) && shouldStreamOf h (t_effect tm)
          then connectToStream (t_effect tm) h
          else h
      | _ => h
      end
  | None => h
  end.

(** Lines 162-165: the stream is there. *)
Definition streamResolved (c : nat) (h : Hook) : Hook :=
  match connections h !! c with
  | Some cn =>
      match c_stage cn with
      | AwaitingStream =>
          let h := setStage c Consuming h in
          let h := set_isConnected true h in
          let h := set_isReconnecting false h in
          let h := set_reconnectAttempt (currentAttemptRef h) h in
          log CallOnConnect h
      | _ => h
      end
  | None => h
  end.

(** Lines 184-207: the [catch] block of connection [c]. *)
Definition handleError (c : nat) (cn : Connection) (err : Err) (h : Hook) : Hook :=
  let e := c_effect cn in
  let h := setStage c Finished h in
  if negb (mounted h e) || combinedAborted h cn then h
  else
    let h := set_error (Some err) h in
    let h := set_isConnected false h in
    let h := log CallOnDisconnect h in
    let h := log (CallOnError err (currentAttemptRef h)) h in
    let customShouldRetry :=
      match shouldRetry (propsOf h e) with
      | Some f => f err (currentAttemptRef h)
      | None => true
      end in
    let belowMaxRetries := below (currentAttemptRef h) (maxRetries (propsOf h e)) in
    if customShouldRetry && belowMaxRetries && shouldStreamOf h e
    then scheduleReconnect e h
    else if negb belowMaxRetries
    then log (CallOnMaxRetriesReached err) h
    else h.

(** [streamFn] threw, or the promise it returned was rejected. *)
Definition streamRejected (c : nat) (err : Err) (h : Hook) : Hook :=
  match connections h !! c with
  | Some cn =>
      match c_stage cn with
      | AwaitingStream => handleError c cn err h
      | _ => h
      end
  | None => h
  end.

(** The stream threw while it was being consumed. *)
Definition streamError (c : nat) (err : Err) (h : Hook) : Hook :=
  match connections h !! c with
  | Some cn =>
      match c_stage cn with
      | Consuming => handleError c cn err h
      | _ => h
      end
  | None => h
  end.

(** Lines 168-175: one item.  After the [break] the test of line 179
    fails for the same reason, and the function returns. *)
Definition streamItem (c : nat) (event : TEvent) (h : Hook) : Hook :=
  match connections h !! c with
  | Some cn =>
      match c_stage cn with
      | Consuming =>
          if negb (mounted h (c_effect cn)) || combinedAborted h cn
          then setStage c Finished h
          else log (CallOnData event (currentAttemptRef h)) h
      | _ => h
      end
  | None => h
  end.

(** Lines 177-183: the stream ended. *)
Definition streamEnded (c : nat) (h : Hook) : Hook :=
  match connections h !! c with
  | Some cn =>
      match c_stage cn with
      | Consuming =>
          let e := c_effect cn in
          let h := setStage c Finished h in
          if mounted h e && negb (combinedAborted h cn) && shouldStreamOf h e
          then
            let h := set_isConnected false h in
            let h := log CallOnDisconnect h in
            scheduleReconnect e h
          else h
      | _ => h
      end
  | None => h
  end.

(** Lines 239-249: the cleanup of effect [e]. *)
Definition cleanup (e : nat) (h : Hook) : Hook :=
  let h := set_effects
             (alter (fun ef => {| e_props := e_props ef; e_shouldStream := e_shouldStream ef;
                                  isMounted := false |}) e (effects h)) h in
  let h := abortCurrent h in
  clearPending h.

(** Lines 137-236: the body of the effect, run for props [p]. *)
Definition runEffect (p : Props) (h : Hook) : Hook :=
  let e := length (effects h) in
  let s := shouldStream p (isVisible h) in
  let h := set_effects (effects h ++ [{| e_props := p; e_shouldStream := s;
                                         isMounted := true |}]) h in
  if s then connectToStream e h
  else
    let h := set_isConnected false h in
    let h := set_isReconnecting false h in
    abortCurrent h.

(** The effect that is in place: the last one that ran. *)
Definition currentEffect (h : Hook) : option nat :=
  match length (effects h) with
  | O => None
  | S n => Some n
  end.

(** A render with props [p], committed: React compares the dependency list
    with the previous one and, when it differs (or on the first render),
    runs the previous effect's cleanup and the effect. *)
Definition render (p : Props) (h : Hook) : Hook :=
  let d := depsOf p (isVisible h) in
  let same := match deps h with Some d0 => deps_eqb d0 d | None => false end in
  if same then h
  else
    let h := match currentEffect h with Some e => cleanup e h | None => h end in
    let h := set_deps (Some d) h in
    runEffect p h.

(** usePageVisibility, [handleVisibilityChange]:
    [setIsVisible(!document.hidden)]. *)
Definition handleVisibilityChange (hidden : bool) (h : Hook) : Hook :=
  set_isVisible (negb hidden) h.

(** Lines 267-282: the returned [reconnect]. *)
Definition reconnect (h : Hook) : Hook :=
  let h := abortCurrent h in
  let h := clearPending h in
  let h := set_currentAttemptRef 0 h in
  let h := set_reconnectAttempt 0 h in
  set_error None h.

(** The caller aborts one of its signals. *)
Definition abortSignal (n : nat) (h : Hook) : Hook :=
  set_abortedSignals (n :: abortedSignals h) h.

(** Everything that can happen to a mounted hook. *)
Inductive Input :=
| Render (p : Props)
| VisibilityChange (hidden : bool)
| Reconnect
| AbortSignal (n : nat)
| StreamResolved (c : nat)
| StreamRejected (c : nat) (err : Err)
| StreamItem (c : nat) (event : TEvent)
| StreamEnded (c : nat)
| StreamError (c : nat) (err : Err)
| TimerFired (t : nat).

Definition step (h : Hook) (inp : Input) : Hook :=
  match inp with
  | Render p => render p h
  | VisibilityChange hidden => handleVisibilityChange hidden h
  | Reconnect => reconnect h
  | AbortSignal n => abortSignal n h
  | StreamResolved c => streamResolved c h
  | StreamRejected c err => streamRejected c err h
  | StreamItem c event => streamItem c event h
  | StreamEnded c => streamEnded c h
  | StreamError c err => streamError c err h
  | TimerFired t => timerFired t h
  end.

Definition run (inputs : list Input) (h : Hook) : Hook := fold_left step inputs h.

(** *** The controller's phase *)

(** A connection that can still act: not finished, its effect mounted,
    its signal not aborted. *)
Definition live (h : Hook) (cn : Connection) : bool :=
  match c_stage cn with
  | Finished => false
  | _ => mounted h (c_effect cn) && negb (combinedAborted h cn)
  end.

Definition armed (tm : Timer) : bool :=
  match t_state tm with
  | Armed => true
  | _ => false
  end.

Inductive Phase := Idle | Connecting | Connected | Reconnecting | Stopped.

(** The specification's states, read off the hook: connecting while a live
    connection awaits its stream, connected while one consumes it,
    reconnecting while a timer is armed; otherwise stopped if the effect in
    place wants to stream and idle if it does not. *)
Definition phase (h : Hook) : Phase :=
  if existsb (fun cn => live h cn && match c_stage cn with AwaitingStream => true | _ => false end)
       (connections h) then Connecting
  else if existsb (fun cn => live h cn && match c_stage cn with Consuming => true | _ => false end)
       (connections h) then Connected
  else if existsb armed (timers h) then Reconnecting
  else
    match currentEffect h with
    | Some e => if mounted h e && shouldStreamOf h e then Stopped else Idle
    | None => Idle
    end.

(** How often a call satisfying [f] was made. *)
Definition count (f : Call -> bool) (h : Hook) : nat :=
  length (List.filter f (calls h)).

Definition isStreamFn (c : Call) : bool :=
  match c with CallStreamFn => true | _ => false end.
Definition isOnMaxRetriesReached (c : Call) : bool :=
  match c with CallOnMaxRetriesReached _ => true | _ => false end.
Definition isOnError (c : Call) : bool :=
  match c with CallOnError _ _ => true | _ => false end.
Definition isOnDisconnect (c : Call) : bool :=
  match c with CallOnDisconnect => true | _ => false end.

End Hook.


Section Properties.

Context {TEvent : Type}.
Variable Math_random : nat -> Q.

Abbreviation Hook := (@Hook TEvent).
Implicit Types (h : Hook) (cn : Connection) (tm : Timer).

(** *** At most one activity *)

Definition quiet_conns h : Prop :=
  forall c cn, connections h !! c = Some cn -> live h cn = false.

Definition quiet_timers h : Prop :=
  forall t tm, timers h !! t = Some tm -> armed tm = false.

(** Only the effect that ran last can be mounted; connections refer to
    effects that exist; an armed timer is the one [reconnectTimeoutRef]
    holds and excludes a live connection; a live connection is the one whose
    controller [abortControllerRef] holds; before the first effect there is
    no timer. *)
Record inv h : Prop := {
  inv_mounted : forall e ef,
      effects h !! e = Some ef -> isMounted ef = true -> S e = length (effects h);
  inv_effect : forall c cn,
      connections h !! c = Some cn -> c_effect cn < length (effects h);
  inv_timer : forall t tm,
      timers h !! t = Some tm -> armed tm = true ->
      reconnectTimeoutRef h = Some t /\ quiet_conns h;
  inv_live : forall c cn,
      connections h !! c = Some cn -> live h cn = true -> abortControllerRef h = Some c;
  inv_no_effect : effects h = [] -> length (timers h) = 0
}.

Lemma live_not_aborted h cn : live h cn = true -> c_aborted cn = false.
Proof.
  unfold live, combinedAborted. destruct (c_stage cn); [| |discriminate];
    destruct (c_aborted cn); simpl; rewrite ?andb_false_r; congruence.
Qed.

Lemma live_mounted h cn : live h cn = true -> mounted h (c_effect cn) = true.
Proof.
  unfold live. destruct (c_stage cn); [| |discriminate];
    intros H; apply andb_true_iff in H; tauto.
Qed.

Lemma live_not_finished h cn : live h cn = true -> c_stage cn <> Finished.
Proof. unfold live. destruct (c_stage cn); congruence. Qed.

(** [live] reads the effects and the aborted signals only. *)
Lemma live_frame h h' cn :
  effects h' = effects h -> abortedSignals h' = abortedSignals h ->
  live h' cn = live h cn.
Proof.
  intros He Ha. unfold live, mounted, combinedAborted, propsOf, signalAborted.
  rewrite He, Ha. reflexivity.
Qed.

Lemma inv_initial d : inv (initial d).
Proof.
  split; simpl; try (intros ? ? H; rewrite lookup_nil in H; discriminate).
  reflexivity.
Qed.

(** **** [abortControllerRef.current?.abort()] *)

Lemma abortCurrent_conn h c cn' :
  connections (abortCurrent h) !! c = Some cn' ->
  exists cn, connections h !! c = Some cn
    /\ c_effect cn' = c_effect cn /\ c_stage cn' = c_stage cn
    /\ (c_aborted cn' = true \/ (cn' = cn /\ abortControllerRef h <> Some c)).
Proof.
  unfold abortCurrent. destruct (abortControllerRef h) as [r|] eqn:Er; simpl.
  - rewrite list_lookup_alter. destruct (decide (r = c)) as [->|Hne].
    + destruct (connections h !! c) as [cn|]; [|discriminate]. simpl.
      intros [= <-]. exists cn. simpl. auto.
    + intros H. exists cn'. repeat split; try assumption. right. split; congruence.
  - intros H. exists cn'. repeat split; try assumption. right. split; congruence.
Qed.

Lemma abortCurrent_frame h :
  effects (abortCurrent h) = effects h
  /\ timers (abortCurrent h) = timers h
  /\ abortedSignals (abortCurrent h) = abortedSignals h
  /\ reconnectTimeoutRef (abortCurrent h) = reconnectTimeoutRef h
  /\ abortControllerRef (abortCurrent h) = abortControllerRef h
  /\ currentAttemptRef (abortCurrent h) = currentAttemptRef h
  /\ reconnectAttempt (abortCurrent h) = reconnectAttempt h
  /\ calls (abortCurrent h) = calls h
  /\ length (connections (abortCurrent h)) = length (connections h).
Proof.
  unfold abortCurrent. destruct (abortControllerRef h) eqn:E; simpl;
    rewrite ?length_alter; repeat split; assumption.
Qed.

Lemma live_abortCurrent h c cn' :
  connections (abortCurrent h) !! c = Some cn' ->
  live (abortCurrent h) cn' = true ->
  connections h !! c = Some cn' /\ live h cn' = true /\ abortControllerRef h <> Some c.
Proof.
  intros Hc Hl. destruct (abortCurrent_frame h) as (He & _ & Ha & _).
  rewrite (live_frame h _ cn' He Ha) in Hl.
  destruct (abortCurrent_conn h c cn' Hc) as (cn & Hcn & _ & _ & [Hab|[-> Hne]]).
  - apply live_not_aborted in Hl. congruence.
  - auto.
Qed.

Lemma abortCurrent_quiet h : inv h -> quiet_conns (abortCurrent h).
Proof.
  intros Hinv c cn' Hc. destruct (live (abortCurrent h) cn') eqn:El; [|reflexivity].
  destruct (live_abortCurrent h c cn' Hc El) as (Hcn & Hl & Hne).
  exfalso. apply Hne. eapply inv_live; eassumption.
Qed.

Lemma abortCurrent_inv h : inv h -> inv (abortCurrent h).
Proof.
  intros Hinv. pose proof (abortCurrent_quiet h Hinv) as Hq.
  destruct (abortCurrent_frame h) as (He & Ht & Ha & Hr & Hc & _).
  split.
  - rewrite He. apply Hinv.
  - intros c cn' Hcn'. rewrite He.
    destruct (abortCurrent_conn h c cn' Hcn') as (cn & Hcn & -> & _).
    eapply inv_effect; eassumption.
  - rewrite Ht, Hr. intros t tm Htm Harm. split; [|exact Hq].
    eapply inv_timer; eassumption.
  - intros c cn' Hcn' Hl. rewrite (Hq c cn' Hcn') in Hl. discriminate.
  - rewrite He, Ht. apply Hinv.
Qed.

Lemma abortCurrent_quiet_timers h : quiet_timers h -> quiet_timers (abortCurrent h).
Proof.
  intros Hq. unfold quiet_timers. destruct (abortCurrent_frame h) as (_ & -> & _). exact Hq.
Qed.

(** **** [clearTimeout(reconnectTimeoutRef.current)] *)

Lemma clearPending_frame h :
  effects (clearPending h) = effects h
  /\ connections (clearPending h) = connections h
  /\ abortedSignals (clearPending h) = abortedSignals h
  /\ reconnectTimeoutRef (clearPending h) = reconnectTimeoutRef h
  /\ abortControllerRef (clearPending h) = abortControllerRef h
  /\ currentAttemptRef (clearPending h) = currentAttemptRef h
  /\ reconnectAttempt (clearPending h) = reconnectAttempt h
  /\ calls (clearPending h) = calls h
  /\ length (timers (clearPending h)) = length (timers h).
Proof.
  unfold clearPending. destruct (reconnectTimeoutRef h) eqn:E; simpl;
    rewrite ?length_alter; repeat split; assumption.
Qed.

Lemma clearPending_timer h t tm' :
  timers (clearPending h) !! t = Some tm' -> armed tm' = true ->
  timers h !! t = Some tm' /\ reconnectTimeoutRef h <> Some t.
Proof.
  unfold clearPending. destruct (reconnectTimeoutRef h) as [r|] eqn:Er; simpl.
  - rewrite list_lookup_alter. destruct (decide (r = t)) as [->|Hne].
    + destruct (timers h !! t) as [[e d st]|]; [|discriminate]. simpl.
      intros [= <-]. unfold armed. destruct st; simpl; discriminate.
    + intros H _. split; congruence.
  - intros H _. split; congruence.
Qed.

Lemma clearPending_quiet h : inv h -> quiet_timers (clearPending h).
Proof.
  intros Hinv t tm' Ht. destruct (armed tm') eqn:Ea; [|reflexivity].
  destruct (clearPending_timer h t tm' Ht Ea) as (Htm & Hne).
  exfalso. apply Hne. eapply inv_timer; eassumption.
Qed.

Lemma clearPending_quiet_conns h : quiet_conns h -> quiet_conns (clearPending h).
Proof.
  intros Hq c cn. destruct (clearPending_frame h) as (He & Hc & Ha & _).
  rewrite Hc. intros Hcn. rewrite (live_frame h _ cn He Ha). eapply Hq; eassumption.
Qed.

Lemma clearPending_inv h : inv h -> inv (clearPending h).
Proof.
  intros Hinv. pose proof (clearPending_quiet h Hinv) as Hq.
  destruct (clearPending_frame h) as (He & Hc & Ha & Hr & Hac & _ & _ & _ & Hlen).
  split.
  - rewrite He. apply Hinv.
  - rewrite Hc, He. apply Hinv.
  - intros t tm Htm Harm. rewrite (Hq t tm Htm) in Harm. discriminate.
  - rewrite Hc, Hac. intros c cn Hcn. rewrite (live_frame h _ cn He Ha).
    eapply inv_live; eassumption.
  - rewrite He, Hlen. apply Hinv.
Qed.

(** **** Frames *)

Lemma quiet_conns_frame h h' :
  effects h' = effects h -> connections h' = connections h ->
  abortedSignals h' = abortedSignals h ->
  quiet_conns h -> quiet_conns h'.
Proof.
  intros He Hc Ha Hq c cn. rewrite Hc. intros Hcn.
  rewrite (live_frame h h' cn He Ha). eapply Hq; eassumption.
Qed.

Lemma quiet_timers_frame h h' :
  timers h' = timers h -> quiet_timers h -> quiet_timers h'.
Proof. intros Ht Hq t tm. rewrite Ht. apply Hq. Qed.

Lemma inv_frame h h' :
  effects h' = effects h -> connections h' = connections h ->
  timers h' = timers h -> abortedSignals h' = abortedSignals h ->
  reconnectTimeoutRef h' = reconnectTimeoutRef h ->
  abortControllerRef h' = abortControllerRef h ->
  inv h -> inv h'.
Proof.
  intros He Hc Ht Ha Hr Hac Hinv. split.
  - rewrite He. apply Hinv.
  - rewrite Hc, He. apply Hinv.
  - rewrite Ht, Hr. intros t tm Htm Harm.
    destruct (inv_timer h Hinv t tm Htm Harm) as [H1 H2]. split; [assumption|].
    eapply quiet_conns_frame; eassumption.
  - rewrite Hc, Hac. intros c cn Hcn. rewrite (live_frame h h' cn He Ha).
    eapply inv_live; eassumption.
  - rewrite He, Ht. apply Hinv.
Qed.

Lemma lookup_snoc_Some {A} (l : list A) (x y : A) (i : nat) :
  (l ++ [x]) !! i = Some y -> l !! i = Some y \/ (i = length l /\ y = x).
Proof.
  intros H. apply lookup_app_Some in H as [H|[Hle H]]; [left; assumption|].
  right. apply list_lookup_singleton_Some in H as [H1 H2]. split; [lia | congruence].
Qed.

(** **** [connectToStream] and [scheduleReconnect] start from quiet *)

Lemma connectToStream_inv e h :
  inv h -> quiet_conns h -> quiet_timers h -> inv (connectToStream e h).
Proof.
  intros Hinv Hqc Hqt. unfold connectToStream.
  destruct (shouldStreamOf h e) eqn:Ess; simpl negb; cbv iota; [|exact Hinv].
  assert (He : e < length (effects h)).
  { unfold shouldStreamOf in Ess. destruct (effects h !! e) eqn:E; [|discriminate].
    eapply lookup_lt_Some; eassumption. }
  split; simpl.
  - apply Hinv.
  - intros c cn Hcn. apply lookup_snoc_Some in Hcn as [Hcn|[_ ->]]; [|exact He].
    eapply inv_effect; eassumption.
  - intros t tm Htm Harm. rewrite (Hqt t tm Htm) in Harm. discriminate.
  - intros c cn Hcn Hl. apply lookup_snoc_Some in Hcn as [Hcn|[-> _]]; [|reflexivity].
    change (live h cn = true) in Hl.
    rewrite (Hqc c cn Hcn) in Hl. discriminate.
  - apply Hinv.
Qed.

Lemma scheduleReconnect_inv e h :
  inv h -> quiet_conns h -> quiet_timers h -> e < length (effects h) ->
  inv (scheduleReconnect Math_random e h).
Proof.
  intros Hinv Hqc Hqt He. unfold scheduleReconnect. split; simpl.
  - apply Hinv.
  - apply Hinv.
  - intros t tm Htm Harm. apply lookup_snoc_Some in Htm as [Htm|[-> _]].
    + rewrite (Hqt t tm Htm) in Harm. discriminate.
    + split; [reflexivity|]. eapply quiet_conns_frame; [..|exact Hqc]; reflexivity.
  - intros c cn Hcn Hl. change (live h cn = true) in Hl.
    rewrite (Hqc c cn Hcn) in Hl. discriminate.
  - intros H0. rewrite H0 in He. simpl in He. lia.
Qed.

(** **** Stage changes *)

Lemma setStage_conn h c st c' cn' :
  connections (setStage c st h) !! c' = Some cn' ->
  exists cn, connections h !! c' = Some cn
    /\ c_effect cn' = c_effect cn /\ c_aborted cn' = c_aborted cn
    /\ ((c' = c /\ c_stage cn' = st) \/ (c' <> c /\ cn' = cn)).
Proof.
  unfold setStage. simpl. rewrite list_lookup_alter.
  destruct (decide (c = c')) as [->|Hne].
  - destruct (connections h !! c') as [cn|]; [|discriminate]. simpl.
    intros [= <-]. exists cn. simpl.
    split; [reflexivity|]. split; [reflexivity|]. split; [reflexivity|].
    left. split; reflexivity.
  - intros H. exists cn'. split; [assumption|]. split; [reflexivity|].
    split; [reflexivity|]. right. split; [congruence | reflexivity].
Qed.

Lemma live_same_but_stage h cn cn' :
  c_effect cn' = c_effect cn -> c_aborted cn' = c_aborted cn ->
  live h cn' = true -> c_stage cn <> Finished -> live h cn = true.
Proof.
  intros He Ha. unfold live, combinedAborted. rewrite He, Ha.
  destruct (c_stage cn'); [| |discriminate]; destruct (c_stage cn); congruence.
Qed.

Lemma live_setStage h c st c' cn' :
  connections (setStage c st h) !! c' = Some cn' ->
  live (setStage c st h) cn' = true ->
  exists cn, connections h !! c' = Some cn
    /\ (c_stage cn <> Finished -> live h cn = true)
    /\ ((c' = c /\ c_stage cn' = st) \/ (c' <> c /\ cn' = cn)).
Proof.
  intros Hc Hl. change (live h cn' = true) in Hl.
  destruct (setStage_conn h c st c' cn' Hc) as (cn & Hcn & He & Ha & Hor).
  exists cn. split; [assumption|]. split; [|assumption].
  intros Hnf. eapply live_same_but_stage; eassumption.
Qed.

Lemma setStage_Finished_inv c h : inv h -> inv (setStage c Finished h).
Proof.
  intros Hinv.
  assert (Hlive : forall c' cn', connections (setStage c Finished h) !! c' = Some cn' ->
            live (setStage c Finished h) cn' = true ->
            connections h !! c' = Some cn' /\ live h cn' = true).
  { intros c' cn' Hc Hl.
    destruct (live_setStage h c Finished c' cn' Hc Hl) as (cn & Hcn & Hlv & [[-> Hst]|[Hne ->]]).
    - apply live_not_finished in Hl. contradiction.
    - split; [assumption|]. change (live h cn = true) in Hl. exact Hl. }
  split.
  - apply Hinv.
  - intros c' cn' Hc. destruct (setStage_conn h c Finished c' cn' Hc) as (cn & Hcn & -> & _).
    exact (inv_effect h Hinv c' cn Hcn).
  - intros t tm Htm Harm. destruct (inv_timer h Hinv t tm Htm Harm) as [H1 H2].
    split; [exact H1|]. intros c' cn' Hc.
    destruct (live (setStage c Finished h) cn') eqn:El; [|reflexivity].
    destruct (Hlive c' cn' Hc El) as [Hcn Hl]. rewrite (H2 c' cn' Hcn) in Hl. discriminate.
  - intros c' cn' Hc Hl. destruct (Hlive c' cn' Hc Hl) as [Hcn Hl'].
    exact (inv_live h Hinv c' cn' Hcn Hl').
  - apply Hinv.
Qed.

(** Finishing the live connection leaves nothing running. *)
Lemma setStage_Finished_quiet c cn h :
  inv h -> connections h !! c = Some cn -> live h cn = true ->
  quiet_conns (setStage c Finished h) /\ quiet_timers (setStage c Finished h).
Proof.
  intros Hinv Hcn Hl. split.
  - intros c' cn' Hc. destruct (live (setStage c Finished h) cn') eqn:El; [|reflexivity].
    exfalso.
    destruct (live_setStage h c Finished c' cn' Hc El) as (cn0 & Hcn0 & Hlv & [[-> Hst]|[Hne ->]]).
    + apply live_not_finished in El. contradiction.
    + change (live h cn0 = true) in El.
      pose proof (inv_live h Hinv c cn Hcn Hl) as H1.
      pose proof (inv_live h Hinv c' cn0 Hcn0 El) as H2. congruence.
  - intros t tm Htm. destruct (armed tm) eqn:Ea; [|reflexivity]. exfalso.
    destruct (inv_timer h Hinv t tm Htm Ea) as [_ Hq].
    rewrite (Hq c cn Hcn) in Hl. discriminate.
Qed.

Lemma setStage_Consuming_inv c cn h :
  inv h -> connections h !! c = Some cn -> c_stage cn = AwaitingStream ->
  inv (setStage c Consuming h).
Proof.
  intros Hinv Hcn Hst.
  assert (Hlive : forall c' cn', connections (setStage c Consuming h) !! c' = Some cn' ->
            live (setStage c Consuming h) cn' = true ->
            exists cn0, connections h !! c' = Some cn0 /\ live h cn0 = true).
  { intros c' cn' Hc Hl.
    destruct (live_setStage h c Consuming c' cn' Hc Hl) as (cn0 & Hcn0 & Hlv & [[-> _]|[Hne ->]]).
    - exists cn0. split; [assumption|]. apply Hlv. rewrite Hcn in Hcn0. injection Hcn0 as <-.
      rewrite Hst. discriminate.
    - exists cn0. split; [assumption|].
      change (live h cn0 = true) in Hl. exact Hl. }
  split.
  - apply Hinv.
  - intros c' cn' Hc. destruct (setStage_conn h c Consuming c' cn' Hc) as (cn0 & Hcn0 & -> & _).
    exact (inv_effect h Hinv c' cn0 Hcn0).
  - intros t tm Htm Harm. destruct (inv_timer h Hinv t tm Htm Harm) as [H1 H2].
    split; [exact H1|]. intros c' cn' Hc.
    destruct (live (setStage c Consuming h) cn') eqn:El; [|reflexivity].
    destruct (Hlive c' cn' Hc El) as (cn0 & Hcn0 & Hl). rewrite (H2 c' cn0 Hcn0) in Hl.
    discriminate.
  - intros c' cn' Hc Hl. destruct (Hlive c' cn' Hc Hl) as (cn0 & Hcn0 & Hl').
    exact (inv_live h Hinv c' cn0 Hcn0 Hl').
  - apply Hinv.
Qed.

(** **** The handlers *)

Lemma streamResolved_inv c h : inv h -> inv (streamResolved c h).
Proof.
  intros Hinv. unfold streamResolved.
  destruct (connections h !! c) as [cn|] eqn:Hcn; [|exact Hinv].
  destruct (c_stage cn) eqn:Hst; try exact Hinv.
  apply (inv_frame (setStage c Consuming h)); try reflexivity.
  eapply setStage_Consuming_inv; eassumption.
Qed.

Lemma handleError_inv c cn err h :
  inv h -> connections h !! c = Some cn -> c_stage cn <> Finished ->
  inv (handleError Math_random c cn err h).
Proof.
  intros Hinv Hcn Hst. unfold handleError.
  pose proof (setStage_Finished_inv c h Hinv) as Hinv1.
  destruct (negb (mounted (setStage c Finished h) (c_effect cn))
            || combinedAborted (setStage c Finished h) cn) eqn:E; [exact Hinv1|].
  apply orb_false_iff in E as [Em Ea]. apply negb_false_iff in Em.
  change (mounted h (c_effect cn) = true) in Em.
  change (combinedAborted h cn = false) in Ea.
  assert (Hl : live h cn = true).
  { unfold live. rewrite Em, Ea. destruct (c_stage cn); [reflexivity | reflexivity | congruence]. }
  destruct (setStage_Finished_quiet c cn h Hinv Hcn Hl) as [Hqc Hqt].
  match goal with |- inv (if ?b then _ else _) => destruct b end.
  - apply scheduleReconnect_inv.
    + apply (inv_frame (setStage c Finished h)); try reflexivity. exact Hinv1.
    + apply (quiet_conns_frame (setStage c Finished h)); try reflexivity. exact Hqc.
    + apply (quiet_timers_frame (setStage c Finished h)); try reflexivity. exact Hqt.
    + exact (inv_effect h Hinv c cn Hcn).
  - match goal with |- inv (if ?b then _ else _) => destruct b end;
      (apply (inv_frame (setStage c Finished h)); try reflexivity; exact Hinv1).
Qed.

Lemma streamRejected_inv c err h : inv h -> inv (streamRejected Math_random c err h).
Proof.
  intros Hinv. unfold streamRejected.
  destruct (connections h !! c) as [cn|] eqn:Hcn; [|exact Hinv].
  destruct (c_stage cn) eqn:Hst; try exact Hinv.
  apply handleError_inv; try assumption. congruence.
Qed.

Lemma streamError_inv c err h : inv h -> inv (streamError Math_random c err h).
Proof.
  intros Hinv. unfold streamError.
  destruct (connections h !! c) as [cn|] eqn:Hcn; [|exact Hinv].
  destruct (c_stage cn) eqn:Hst; try exact Hinv.
  apply handleError_inv; try assumption. congruence.
Qed.

Lemma streamItem_inv c event h : inv h -> inv (streamItem c event h).
Proof.
  intros Hinv. unfold streamItem.
  destruct (connections h !! c) as [cn|] eqn:Hcn; [|exact Hinv].
  destruct (c_stage cn) eqn:Hst; try exact Hinv.
  destruct (negb (mounted h (c_effect cn)) || combinedAborted h cn).
  - apply setStage_Finished_inv, Hinv.
  - apply (inv_frame h); try reflexivity. exact Hinv.
Qed.

Lemma streamEnded_inv c h : inv h -> inv (streamEnded Math_random c h).
Proof.
  intros Hinv. unfold streamEnded.
  destruct (connections h !! c) as [cn|] eqn:Hcn; [|exact Hinv].
  destruct (c_stage cn) eqn:Hst; try exact Hinv.
  pose proof (setStage_Finished_inv c h Hinv) as Hinv1.
  destruct (mounted (setStage c Finished h) (c_effect cn)
            && negb (combinedAborted (setStage c Finished h) cn)
            && shouldStreamOf (setStage c Finished h) (c_effect cn)) eqn:E; [|exact Hinv1].
  apply andb_true_iff in E as [E _]. apply andb_true_iff in E as [Em Ea].
  apply negb_true_iff in Ea.
  change (mounted h (c_effect cn) = true) in Em.
  change (combinedAborted h cn = false) in Ea.
  assert (Hl : live h cn = true).
  { unfold live. rewrite Em, Ea, Hst. reflexivity. }
  destruct (setStage_Finished_quiet c cn h Hinv Hcn Hl) as [Hqc Hqt].
  apply scheduleReconnect_inv.
  - apply (inv_frame (setStage c Finished h)); try reflexivity. exact Hinv1.
  - apply (quiet_conns_frame (setStage c Finished h)); try reflexivity. exact Hqc.
  - apply (quiet_timers_frame (setStage c Finished h)); try reflexivity. exact Hqt.
  - exact (inv_effect h Hinv c cn Hcn).
Qed.

Lemma timerFired_inv t h : inv h -> inv (timerFired t h).
Proof.
  intros Hinv. unfold timerFired.
  destruct (timers h !! t) as [tm|] eqn:Htm; [|exact Hinv].
  destruct (t_state tm) eqn:Hst; try exact Hinv.
  assert (Harm : armed tm = true) by (unfold armed; rewrite Hst; reflexivity).
  destruct (inv_timer h Hinv t tm Htm Harm) as [Href Hqc].
  set (h1 := set_timers _ h).
  assert (Hqt1 : quiet_timers h1).
  { intros t' tm'. unfold h1. simpl.
    destruct (decide (t = t')) as [<-|Hne].
    - rewrite list_lookup_insert_eq by (eapply lookup_lt_Some; eassumption).
      intros [= <-]. reflexivity.
    - rewrite list_lookup_insert_ne by assumption. intros Htm'.
      destruct (armed tm') eqn:Ea; [|reflexivity]. exfalso.
      destruct (inv_timer h Hinv t' tm' Htm' Ea) as [Href' _]. congruence. }
  assert (Hqc1 : quiet_conns h1).
  { apply (quiet_conns_frame h); try reflexivity. exact Hqc. }
  assert (Hinv1 : inv h1).
  { split.
    - apply Hinv.
    - apply Hinv.
    - intros t' tm' Htm' Ha. rewrite (Hqt1 t' tm' Htm') in Ha. discriminate.
    - intros c cn Hcn Hl. rewrite (Hqc1 c cn Hcn) in Hl. discriminate.
    - unfold h1. simpl. rewrite length_insert. apply Hinv. }
  destruct (mounted h1 (t_effect tm) && shouldStreamOf h1 (t_effect tm)); [|exact Hinv1].
  apply connectToStream_inv; assumption.
Qed.

(** **** The effect *)

Definition all_unmounted h : Prop :=
  forall e ef, effects h !! e = Some ef -> isMounted ef = false.

Lemma all_unmounted_quiet h : all_unmounted h -> quiet_conns h.
Proof.
  intros Hu c cn _. unfold live, mounted.
  destruct (c_stage cn); try reflexivity;
    (destruct (effects h !! c_effect cn) as [ef|] eqn:E; [|reflexivity];
     rewrite (Hu _ _ E); reflexivity).
Qed.

Lemma currentEffect_Some h e : currentEffect h = Some e -> S e = length (effects h).
Proof. unfold currentEffect. destruct (length (effects h)); [discriminate|]. congruence. Qed.

Lemma currentEffect_None h : currentEffect h = None -> effects h = [].
Proof.
  unfold currentEffect. destruct (effects h); [reflexivity | discriminate].
Qed.

(** After the cleanup nothing of the old effect can act any more. *)
Lemma cleanup_inv e h :
  inv h -> currentEffect h = Some e ->
  inv (cleanup e h) /\ all_unmounted (cleanup e h) /\ quiet_timers (cleanup e h).
Proof.
  intros Hinv Hcur. apply currentEffect_Some in Hcur. unfold cleanup.
  set (h1 := set_effects _ h).
  assert (Hu1 : all_unmounted h1).
  { intros e' ef'. unfold h1. simpl. rewrite list_lookup_alter.
    destruct (decide (e = e')) as [<-|Hne].
    - destruct (effects h !! e); [|discriminate]. simpl. intros [= <-]. reflexivity.
    - intros He'. destruct (isMounted ef') eqn:Em; [|reflexivity].
      pose proof (inv_mounted h Hinv e' ef' He' Em). lia. }
  assert (Hinv1 : inv h1).
  { split.
    - intros e' ef' He' Hm. rewrite (Hu1 e' ef' He') in Hm. discriminate.
    - unfold h1. simpl. rewrite length_alter. apply Hinv.
    - intros t tm Htm Harm. split; [|apply all_unmounted_quiet, Hu1].
      exact (proj1 (inv_timer h Hinv t tm Htm Harm)).
    - intros c cn Hcn Hl. rewrite (all_unmounted_quiet h1 Hu1 c cn Hcn) in Hl. discriminate.
    - unfold h1. simpl. intros H0. apply Hinv.
      apply (f_equal length) in H0. rewrite length_alter in H0.
      destruct (effects h); [reflexivity | discriminate]. }
  pose proof (abortCurrent_inv h1 Hinv1) as Hinv2.
  pose proof (clearPending_inv _ Hinv2) as Hinv3.
  split; [exact Hinv3|]. split; [|apply clearPending_quiet, Hinv2].
  unfold all_unmounted.
  destruct (clearPending_frame (abortCurrent h1)) as (-> & _).
  destruct (abortCurrent_frame h1) as (-> & _). exact Hu1.
Qed.

Lemma runEffect_inv p h :
  inv h -> all_unmounted h -> quiet_timers h -> inv (runEffect p h).
Proof.
  intros Hinv Hu Hqt. unfold runEffect.
  set (ef0 := {| e_props := p; e_shouldStream := shouldStream p (isVisible h);
                 isMounted := true |}).
  set (h1 := set_effects (effects h ++ [ef0]) h).
  assert (Hqc1 : quiet_conns h1).
  { intros c cn Hcn. change (connections h !! c = Some cn) in Hcn.
    pose proof (inv_effect h Hinv c cn Hcn) as Hlt.
    unfold live, mounted. unfold h1. simpl.
    rewrite lookup_app_l by assumption.
    destruct (effects h !! c_effect cn) as [ef|] eqn:E.
    - rewrite (Hu _ _ E). destruct (c_stage cn); reflexivity.
    - destruct (c_stage cn); reflexivity. }
  assert (Hinv1 : inv h1).
  { split.
    - intros e' ef' He' Hm. unfold h1 in *. simpl in *.
      apply lookup_snoc_Some in He' as [He'|[-> _]].
      + rewrite (Hu e' ef' He') in Hm. discriminate.
      + rewrite length_app. simpl. lia.
    - intros c cn Hcn. unfold h1. simpl. rewrite length_app.
      pose proof (inv_effect h Hinv c cn Hcn). lia.
    - intros t tm Htm Harm. rewrite (Hqt t tm Htm) in Harm. discriminate.
    - intros c cn Hcn Hl. rewrite (Hqc1 c cn Hcn) in Hl. discriminate.
    - unfold h1. simpl. intros H0. destruct (effects h); discriminate. }
  destruct (shouldStream p (isVisible h)).
  - apply connectToStream_inv; try assumption.
  - apply abortCurrent_inv. apply (inv_frame h1); try reflexivity. exact Hinv1.
Qed.

Lemma render_inv p h : inv h -> inv (render p h).
Proof.
  intros Hinv. unfold render.
  match goal with |- inv (if ?b then _ else _) => destruct b end; [exact Hinv|].
  destruct (currentEffect h) as [e|] eqn:Hcur.
  - destruct (cleanup_inv e h Hinv Hcur) as (Hinv1 & Hu1 & Hqt1).
    apply runEffect_inv.
    + apply (inv_frame (cleanup e h)); try reflexivity. exact Hinv1.
    + exact Hu1.
    + exact Hqt1.
  - apply currentEffect_None in Hcur. apply runEffect_inv.
    + apply (inv_frame h); try reflexivity. exact Hinv.
    + intros e ef. simpl. rewrite Hcur, lookup_nil. discriminate.
    + intros t tm. simpl. pose proof (inv_no_effect h Hinv Hcur) as H0.
      destruct (timers h); [rewrite lookup_nil; discriminate | discriminate].
Qed.

(** After [reconnect()] nothing is running. *)
Lemma reconnect_quiet h :
  inv h -> inv (reconnect h) /\ quiet_conns (reconnect h) /\ quiet_timers (reconnect h).
Proof.
  intros Hinv. unfold reconnect.
  pose proof (abortCurrent_inv h Hinv) as H1.
  pose proof (abortCurrent_quiet h Hinv) as Hq1.
  pose proof (clearPending_inv _ H1) as H2.
  pose proof (clearPending_quiet _ H1) as Hq2.
  pose proof (clearPending_quiet_conns _ Hq1) as Hq3.
  split; [|split].
  - apply (inv_frame (clearPending (abortCurrent h))); try reflexivity. exact H2.
  - apply (quiet_conns_frame (clearPending (abortCurrent h))); try reflexivity. exact Hq3.
  - apply (quiet_timers_frame (clearPending (abortCurrent h))); try reflexivity. exact Hq2.
Qed.

Lemma live_abortSignal n h cn : live (abortSignal n h) cn = true -> live h cn = true.
Proof.
  unfold live, combinedAborted, signalAborted, mounted, propsOf. simpl.
  destruct (c_stage cn); try discriminate;
    destruct (effects h !! c_effect cn) as [ef|]; try discriminate;
    destruct (isMounted ef); try discriminate; simpl;
    destruct (c_aborted cn); try discriminate; simpl;
    destruct (externalSignal (e_props ef)) as [m|]; try (intros; reflexivity);
    simpl; destruct (m =? n)%nat; simpl; try discriminate; intros H; exact H.
Qed.

Lemma abortSignal_inv n h : inv h -> inv (abortSignal n h).
Proof.
  intros Hinv. split.
  - apply Hinv.
  - apply Hinv.
  - intros t tm Htm Harm. destruct (inv_timer h Hinv t tm Htm Harm) as [H1 H2].
    split; [exact H1|]. intros c cn Hcn.
    destruct (live (abortSignal n h) cn) eqn:El; [|reflexivity].
    apply live_abortSignal in El. rewrite (H2 c cn Hcn) in El. discriminate.
  - intros c cn Hcn Hl. apply live_abortSignal in Hl.
    exact (inv_live h Hinv c cn Hcn Hl).
  - apply Hinv.
Qed.

Lemma step_inv h inp : inv h -> inv (step Math_random h inp).
Proof.
  intros Hinv. destruct inp; simpl.
  - apply render_inv, Hinv.
  - apply (inv_frame h); try reflexivity. exact Hinv.
  - apply reconnect_quiet, Hinv.
  - apply abortSignal_inv, Hinv.
  - apply streamResolved_inv, Hinv.
  - apply streamRejected_inv, Hinv.
  - apply streamItem_inv, Hinv.
  - apply streamEnded_inv, Hinv.
  - apply streamError_inv, Hinv.
  - apply timerFired_inv, Hinv.
Qed.

Lemma run_inv inputs h : inv h -> inv (run Math_random inputs h).
Proof.
  revert h. induction inputs as [|inp inputs IH]; intros h Hinv; [exact Hinv|].
  simpl. apply IH, step_inv, Hinv.
Qed.

(** *** A quiet hook stays quiet *)

(** Inputs that run no effect and are not calls of the hook's user: stream
    and timer callbacks, aborts of external signals, and renders that leave
    the dependency list as it is. *)
Definition passive h (inp : @Input TEvent) : bool :=
  match inp with
  | Render p =>
      match deps h with
      | Some d0 => deps_eqb d0 (depsOf p (isVisible h))
      | None => false
      end
  | VisibilityChange _ | Reconnect => false
  | _ => true
  end.

Fixpoint all_passive (inputs : list (@Input TEvent)) h : bool :=
  match inputs with
  | [] => true
  | inp :: rest => passive h inp && all_passive rest (step Math_random h inp)
  end.

(** Nothing is running: the invariant holds, no connection is live, no
    timer is armed. *)
Definition calm h : Prop := inv h /\ quiet_conns h /\ quiet_timers h.

Lemma not_live_cases h cn :
  live h cn = false -> c_stage cn <> Finished ->
  negb (mounted h (c_effect cn)) || combinedAborted h cn = true.
Proof.
  unfold live. intros Hl Hst.
  destruct (c_stage cn); try congruence;
    destruct (mounted h (c_effect cn)); simpl in *; try reflexivity;
    apply negb_false_iff in Hl; exact Hl.
Qed.

Lemma quiet_setStage_Finished c h : quiet_conns h -> quiet_conns (setStage c Finished h).
Proof.
  intros Hq c' cn' Hc. destruct (live (setStage c Finished h) cn') eqn:El; [|reflexivity].
  exfalso.
  destruct (live_setStage h c Finished c' cn' Hc El) as (cn & Hcn & Hlv & [[-> Hst]|[Hne ->]]).
  - apply live_not_finished in El. contradiction.
  - change (live h cn = true) in El. rewrite (Hq c' cn Hcn) in El. discriminate.
Qed.

Lemma quiet_setStage_Consuming c cn h :
  quiet_conns h -> connections h !! c = Some cn -> c_stage cn = AwaitingStream ->
  quiet_conns (setStage c Consuming h).
Proof.
  intros Hq Hcn Hst c' cn' Hc.
  destruct (live (setStage c Consuming h) cn') eqn:El; [|reflexivity]. exfalso.
  destruct (live_setStage h c Consuming c' cn' Hc El) as (cn0 & Hcn0 & Hlv & [[-> _]|[Hne ->]]).
  - rewrite Hcn in Hcn0. injection Hcn0 as <-.
    rewrite (Hq c cn Hcn) in Hlv. rewrite Hst in Hlv.
    specialize (Hlv ltac:(discriminate)). discriminate.
  - change (live h cn0 = true) in El. rewrite (Hq c' cn0 Hcn0) in El. discriminate.
Qed.

(** What a passive input can do to a calm hook: at most log an
    [onConnect] of a stale connection. *)
Lemma step_passive h inp :
  calm h -> passive h inp = true ->
  let h' := step Math_random h inp in
  calm h'
  /\ effects h' = effects h /\ deps h' = deps h /\ isVisible h' = isVisible h
  /\ currentAttemptRef h' = currentAttemptRef h
  /\ length (connections h') = length (connections h)
  /\ (calls h' = calls h \/ calls h' = calls h ++ [CallOnConnect]).
Proof.
  intros (Hinv & Hqc & Hqt) Hp h'.
  assert (Hinv' : inv h') by (apply step_inv, Hinv).
  assert (Hsame : forall hx : Hook, hx = h ->
            calm hx /\ effects hx = effects h /\ deps hx = deps h /\ isVisible hx = isVisible h
            /\ currentAttemptRef hx = currentAttemptRef h
            /\ length (connections hx) = length (connections h)
            /\ (calls hx = calls h \/ calls hx = calls h ++ [CallOnConnect])).
  { intros hx ->. unfold calm. auto 10. }
  assert (Hfin : forall c, 
            calm (setStage c Finished h) /\ effects (setStage c Finished h) = effects h
            /\ deps (setStage c Finished h) = deps h
            /\ isVisible (setStage c Finished h) = isVisible h
            /\ currentAttemptRef (setStage c Finished h) = currentAttemptRef h
            /\ length (connections (setStage c Finished h)) = length (connections h)
            /\ (calls (setStage c Finished h) = calls h
                \/ calls (setStage c Finished h) = calls h ++ [CallOnConnect])).
  { intros c. split; [|simpl; rewrite length_alter; auto 10].
    split; [apply setStage_Finished_inv, Hinv|].
    split; [apply quiet_setStage_Finished, Hqc | exact Hqt]. }
  destruct inp as [p|hidden| |n|c|c err|c event|c|c err|t]; simpl in Hp; try discriminate;
    unfold h'; simpl step.
  - (* Render, same dependencies *)
    apply Hsame. unfold render. destruct (deps h) as [d0|]; [|discriminate].
    rewrite Hp. reflexivity.
  - (* AbortSignal *)
    split; [|simpl; auto 10]. split; [apply abortSignal_inv, Hinv|]. split; [|exact Hqt].
    intros c cn Hcn. destruct (live (abortSignal n h) cn) eqn:El; [|reflexivity].
    apply live_abortSignal in El. rewrite (Hqc c cn Hcn) in El. discriminate.
  - (* StreamResolved *)
    unfold streamResolved.
    destruct (connections h !! c) as [cn|] eqn:Hcn; [|apply Hsame; reflexivity].
    destruct (c_stage cn) eqn:Hst; try (apply Hsame; reflexivity).
    split; [|simpl; rewrite length_alter; auto 10].
    split; [|split; [|exact Hqt]].
    { apply (inv_frame (setStage c Consuming h)); try reflexivity.
      eapply setStage_Consuming_inv; eassumption. }
    apply (quiet_conns_frame (setStage c Consuming h)); try reflexivity.
    eapply quiet_setStage_Consuming; eassumption.
  - (* StreamRejected *)
    unfold streamRejected.
    destruct (connections h !! c) as [cn|] eqn:Hcn; [|apply Hsame; reflexivity].
    destruct (c_stage cn) eqn:Hst; try (apply Hsame; reflexivity).
    unfold handleError.
    change (mounted (setStage c Finished h) (c_effect cn)) with (mounted h (c_effect cn)).
    change (combinedAborted (setStage c Finished h) cn) with (combinedAborted h cn).
    rewrite (not_live_cases h cn (Hqc c cn Hcn)) by congruence. apply Hfin.
  - (* StreamItem *)
    unfold streamItem.
    destruct (connections h !! c) as [cn|] eqn:Hcn; [|apply Hsame; reflexivity].
    destruct (c_stage cn) eqn:Hst; try (apply Hsame; reflexivity).
    rewrite (not_live_cases h cn (Hqc c cn Hcn)) by congruence. apply Hfin.
  - (* StreamEnded *)
    unfold streamEnded.
    destruct (connections h !! c) as [cn|] eqn:Hcn; [|apply Hsame; reflexivity].
    destruct (c_stage cn) eqn:Hst; try (apply Hsame; reflexivity).
    change (mounted (setStage c Finished h) (c_effect cn)) with (mounted h (c_effect cn)).
    change (combinedAborted (setStage c Finished h) cn) with (combinedAborted h cn).
    pose proof (not_live_cases h cn (Hqc c cn Hcn)) as Hn.
    assert (Hcond : mounted h (c_effect cn) && negb (combinedAborted h cn) = false).
    { destruct (mounted h (c_effect cn)); simpl in *; [|reflexivity].
      rewrite Hn by congruence. reflexivity. }
    rewrite Hcond. simpl. apply Hfin.
  - (* StreamError *)
    unfold streamError.
    destruct (connections h !! c) as [cn|] eqn:Hcn; [|apply Hsame; reflexivity].
    destruct (c_stage cn) eqn:Hst; try (apply Hsame; reflexivity).
    unfold handleError.
    change (mounted (setStage c Finished h) (c_effect cn)) with (mounted h (c_effect cn)).
    change (combinedAborted (setStage c Finished h) cn) with (combinedAborted h cn).
    rewrite (not_live_cases h cn (Hqc c cn Hcn)) by congruence. apply Hfin.
  - (* TimerFired *)
    unfold timerFired.
    destruct (timers h !! t) as [tm|] eqn:Htm; [|apply Hsame; reflexivity].
    pose proof (Hqt t tm Htm) as Ha. unfold armed in Ha.
    destruct (t_state tm); try discriminate; apply Hsame; reflexivity.
Qed.

Lemma run_passive inputs h :
  calm h -> all_passive inputs h = true ->
  let h' := run Math_random inputs h in
  calm h'
  /\ effects h' = effects h /\ deps h' = deps h /\ isVisible h' = isVisible h
  /\ currentAttemptRef h' = currentAttemptRef h
  /\ length (connections h') = length (connections h)
  /\ exists k, calls h' = calls h ++ repeat CallOnConnect k.
Proof.
  revert h. induction inputs as [|inp inputs IH]; intros h Hcalm Hall.
  - simpl. split; [exact Hcalm|]. do 5 (split; [reflexivity|]).
    exists 0. simpl. rewrite app_nil_r. reflexivity.
  - simpl in Hall. apply andb_true_iff in Hall as [Hp Hall].
    destruct (step_passive h inp Hcalm Hp) as (Hc1 & He1 & Hd1 & Hv1 & Ha1 & Hl1 & Hcalls1).
    destruct (IH _ Hc1 Hall) as (Hc2 & He2 & Hd2 & Hv2 & Ha2 & Hl2 & k & Hcalls2).
    simpl. split; [exact Hc2|].
    split; [congruence|]. split; [congruence|]. split; [congruence|].
    split; [congruence|]. split; [congruence|].
    destruct Hcalls1 as [Hc|Hc].
    + exists k. rewrite Hcalls2, Hc. reflexivity.
    + exists (S k). rewrite Hcalls2, Hc, <- app_assoc. reflexivity.
Qed.

(** *** The phase of a calm hook *)

Lemma quiet_conns_existsb h (f : Connection -> bool) :
  quiet_conns h -> existsb (fun cn => live h cn && f cn) (connections h) = false.
Proof.
  intros Hq. apply not_true_iff_false. intros H.
  apply existsb_exists in H as (cn & Hin & Hl).
  apply list_elem_of_In, list_elem_of_lookup in Hin as [c Hc].
  rewrite (Hq c cn Hc) in Hl. discriminate.
Qed.

Lemma quiet_timers_existsb h : quiet_timers h -> existsb armed (timers h) = false.
Proof.
  intros Hq. apply not_true_iff_false. intros H.
  apply existsb_exists in H as (tm & Hin & Ha).
  apply list_elem_of_In, list_elem_of_lookup in Hin as [t Ht].
  rewrite (Hq t tm Ht) in Ha. discriminate.
Qed.

Lemma phase_calm h :
  quiet_conns h -> quiet_timers h ->
  phase h = match currentEffect h with
            | Some e => if mounted h e && shouldStreamOf h e then Stopped else Idle
            | None => Idle
            end.
Proof.
  intros Hqc Hqt. unfold phase.
  rewrite !quiet_conns_existsb by assumption.
  rewrite quiet_timers_existsb by assumption. reflexivity.
Qed.

(** Boolean checks, for concrete states. *)
Definition quiet_connsb h : bool := forallb (fun cn => negb (live h cn)) (connections h).
Definition quiet_timersb h : bool := forallb (fun tm => negb (armed tm)) (timers h).

Lemma quiet_connsb_spec h : quiet_connsb h = true -> quiet_conns h.
Proof.
  intros H c cn Hc. unfold quiet_connsb in H. rewrite forallb_forall in H.
  apply negb_true_iff, H, list_elem_of_In, list_elem_of_lookup. eauto.
Qed.

Lemma quiet_timersb_spec h : quiet_timersb h = true -> quiet_timers h.
Proof.
  intros H t tm Ht. unfold quiet_timersb in H. rewrite forallb_forall in H.
  apply negb_true_iff, H, list_elem_of_In, list_elem_of_lookup. eauto.
Qed.

(** *** Renders that re-run the effect *)

(** What cleanups and aborts leave alone. *)
Definition same_counters h h' : Prop :=
  calls h' = calls h
  /\ currentAttemptRef h' = currentAttemptRef h
  /\ reconnectAttempt h' = reconnectAttempt h
  /\ isVisible h' = isVisible h
  /\ abortedSignals h' = abortedSignals h
  /\ length (connections h') = length (connections h)
  /\ abortControllerRef h' = abortControllerRef h.

Lemma abortCurrent_counters h : same_counters h (abortCurrent h).
Proof.
  unfold abortCurrent, same_counters. destruct (abortControllerRef h) eqn:E; simpl;
    rewrite ?length_alter; repeat split; try reflexivity; assumption.
Qed.

Lemma clearPending_counters h : same_counters h (clearPending h).
Proof.
  unfold clearPending, same_counters. destruct (reconnectTimeoutRef h); simpl;
    repeat split; reflexivity.
Qed.

Lemma same_counters_trans h1 h2 h3 :
  same_counters h1 h2 -> same_counters h2 h3 -> same_counters h1 h3.
Proof.
  unfold same_counters.
  intros (A1 & A2 & A3 & A4 & A5 & A6 & A7) (B1 & B2 & B3 & B4 & B5 & B6 & B7).
  repeat split; congruence.
Qed.

Lemma cleanup_counters e h : same_counters h (cleanup e h).
Proof.
  unfold cleanup. eapply same_counters_trans; [|apply clearPending_counters].
  eapply same_counters_trans; [|apply abortCurrent_counters].
  unfold same_counters. simpl. repeat split; reflexivity.
Qed.

Lemma abortCurrent_keeps_quiet h : quiet_conns h -> quiet_conns (abortCurrent h).
Proof.
  intros Hq c cn' Hc. destruct (live (abortCurrent h) cn') eqn:El; [|reflexivity].
  destruct (live_abortCurrent h c cn' Hc El) as (Hcn & Hl & _).
  rewrite (Hq c cn' Hcn) in Hl. discriminate.
Qed.

(** The state in which the effect body runs: the old effect is cleaned up. *)
Definition cleaned h : Hook :=
  match currentEffect h with
  | Some e => cleanup e h
  | None => h
  end.

Lemma cleaned_spec h :
  inv h ->
  inv (cleaned h) /\ all_unmounted (cleaned h) /\ quiet_timers (cleaned h)
  /\ same_counters h (cleaned h).
Proof.
  intros Hinv. unfold cleaned. destruct (currentEffect h) as [e|] eqn:Hcur.
  - destruct (cleanup_inv e h Hinv Hcur) as (H1 & H2 & H3).
    split; [exact H1|]. split; [exact H2|]. split; [exact H3|]. apply cleanup_counters.
  - apply currentEffect_None in Hcur. split; [exact Hinv|]. split; [|split].
    + intros e ef. rewrite Hcur, lookup_nil. discriminate.
    + intros t tm. pose proof (inv_no_effect h Hinv Hcur) as H0.
      destruct (timers h); [rewrite lookup_nil; discriminate | discriminate].
    + unfold same_counters. repeat split; reflexivity.
Qed.

Lemma render_changed p h :
  match deps h with
  | Some d0 => deps_eqb d0 (depsOf p (isVisible h))
  | None => false
  end = false ->
  render p h = runEffect p (set_deps (Some (depsOf p (isVisible h))) (cleaned h)).
Proof. intros H. unfold render, cleaned. rewrite H. reflexivity. Qed.

Lemma deps_differ d0 p v :
  d_shouldStream d0 = negb (shouldStream p v) -> deps_eqb d0 (depsOf p v) = false.
Proof.
  intros H. unfold deps_eqb. simpl. rewrite H.
  destruct (shouldStream p v); reflexivity.
Qed.

(** The effect body when the hook should not stream (lines 231-236). *)
Lemma runEffect_idle p h :
  inv h -> all_unmounted h -> quiet_timers h ->
  shouldStream p (isVisible h) = false ->
  let h' := runEffect p h in
  calm h' /\ same_counters h h' /\ deps h' = deps h
  /\ isConnected h' = false /\ isReconnecting h' = false
  /\ phase h' = Idle
  /\ (forall c cn, abortControllerRef h = Some c ->
        connections h' !! c = Some cn -> c_aborted cn = true).
Proof.
  intros Hinv Hu Hqt Hs h'. subst h'.
  assert (Hinv' : inv (runEffect p h)) by (apply runEffect_inv; assumption).
  unfold runEffect in *. rewrite Hs in *.
  set (h1 := set_isReconnecting false _) in *.
  assert (Hqc1 : quiet_conns h1).
  { intros c cn Hcn. change (connections h !! c = Some cn) in Hcn.
    pose proof (inv_effect h Hinv c cn Hcn) as Hlt.
    unfold live, mounted. unfold h1. simpl.
    rewrite lookup_app_l by assumption.
    destruct (effects h !! c_effect cn) as [ef|] eqn:E.
    - rewrite (Hu _ _ E). destruct (c_stage cn); reflexivity.
    - destruct (c_stage cn); reflexivity. }
  assert (Hqc : quiet_conns (abortCurrent h1)) by (apply abortCurrent_keeps_quiet, Hqc1).
  assert (Hqt' : quiet_timers (abortCurrent h1)) by (apply abortCurrent_quiet_timers; exact Hqt).
  pose proof (abortCurrent_counters h1) as Hcnt.
  split; [split; [exact Hinv' | split; [exact Hqc | exact Hqt']]|].
  split; [exact Hcnt|].
  assert (Hab : exists cs, abortCurrent h1 = set_connections cs h1).
  { unfold abortCurrent. destruct (abortControllerRef h1); [eexists; reflexivity|].
    exists (connections h1). destruct h1; reflexivity. }
  destruct Hab as [cs Hab].
  split; [rewrite Hab; reflexivity|]. split; [rewrite Hab; reflexivity|].
  split; [rewrite Hab; reflexivity|].
  split.
  - rewrite phase_calm by assumption. rewrite Hab.
    unfold currentEffect, mounted, shouldStreamOf. simpl. rewrite length_app. simpl.
    replace (length (effects h) + 1) with (S (length (effects h))) by lia.
    rewrite list_lookup_middle by reflexivity. reflexivity.
  - intros c cn Hc. unfold abortCurrent.
    change (abortControllerRef h1) with (abortControllerRef h). rewrite Hc. simpl.
    rewrite list_lookup_alter_eq. destruct (connections h !! c); [|discriminate].
    simpl. intros [= <-]. reflexivity.
Qed.

(** The effect body when the hook should stream: [connectToStream]. *)
Lemma runEffect_streaming p h :
  inv h -> all_unmounted h -> quiet_timers h ->
  shouldStream p (isVisible h) = true ->
  signalAborted h (externalSignal p) = false ->
  let h' := runEffect p h in
  inv h'
  /\ connections h' =
       connections h ++ [{| c_effect := length (effects h); c_aborted := false;
                            c_stage := AwaitingStream |}]
  /\ calls h' = calls h ++ [CallStreamFn]
  /\ currentAttemptRef h' = currentAttemptRef h
  /\ reconnectAttempt h' = reconnectAttempt h
  /\ abortControllerRef h' = Some (length (connections h))
  /\ timers h' = timers h
  /\ phase h' = Connecting.
Proof.
  intros Hinv Hu Hqt Hs Hsig h'. subst h'.
  assert (Hinv' : inv (runEffect p h)) by (apply runEffect_inv; assumption).
  unfold runEffect in *. rewrite Hs in *.
  unfold connectToStream in *. unfold shouldStreamOf in *. simpl in *.
  rewrite list_lookup_middle in * by reflexivity. simpl in *.
  split; [exact Hinv'|]. do 6 (split; [reflexivity|]).
  unfold phase. simpl. rewrite existsb_app. simpl.
  unfold live at 2. simpl. unfold mounted, combinedAborted, propsOf. simpl.
  rewrite list_lookup_middle by reflexivity. simpl.
  change (signalAborted _ (externalSignal p)) with (signalAborted h (externalSignal p)).
  rewrite Hsig. simpl. rewrite orb_true_r. reflexivity.
Qed.

(** *** Properties of the controller *)

Lemma count_app_onConnect (f : @Call TEvent -> bool) (cs : list Call) k :
  f CallOnConnect = false ->
  length (List.filter f (cs ++ repeat CallOnConnect k)) = length (List.filter f cs).
Proof.
  intros Hf. rewrite List.filter_app, length_app.
  replace (List.filter f (repeat CallOnConnect k)) with (@nil (@Call TEvent)); [simpl; lia|].
  induction k as [|k IH]; [reflexivity|]. simpl. rewrite Hf. exact IH.
Qed.

Lemma phase_effects h h' :
  quiet_conns h -> quiet_timers h -> quiet_conns h' -> quiet_timers h' ->
  effects h' = effects h -> phase h' = phase h.
Proof.
  intros Q1 Q2 Q3 Q4 He. rewrite !phase_calm by assumption.
  unfold currentEffect, mounted, shouldStreamOf. rewrite He. reflexivity.
Qed.

Lemma phase_calm_not_Connecting h : quiet_conns h -> quiet_timers h -> phase h <> Connecting.
Proof.
  intros Q1 Q2. rewrite phase_calm by assumption.
  destruct (currentEffect h) as [e|]; [|discriminate].
  destruct (mounted h e && shouldStreamOf h e); discriminate.
Qed.

(** A calm hook makes no further call but [onConnect] of stale
    connections and keeps its phase, whatever its streams and timers do. *)
Lemma calm_stays h inputs (f : @Call TEvent -> bool) :
  calm h -> all_passive inputs h = true -> f CallOnConnect = false ->
  count f (run Math_random inputs h) = count f h
  /\ phase (run Math_random inputs h) = phase h
  /\ currentAttemptRef (run Math_random inputs h) = currentAttemptRef h.
Proof.
  intros Hcalm Hall Hf.
  destruct (run_passive inputs h Hcalm Hall) as ((_ & Q3 & Q4) & He & _ & _ & Ha & _ & k & Hc).
  destruct Hcalm as (_ & Q1 & Q2). split; [|split].
  - unfold count. rewrite Hc. apply count_app_onConnect, Hf.
  - apply phase_effects; assumption.
  - exact Ha.
Qed.

(** C1, on the code: [reconnect()] does abort the connection in flight,
    clear the pending timer and reset the attempt counter and the error, but
    it starts nothing: whatever the history of the hook, after [reconnect()]
    no connection is live, no timer is armed, the phase is not Connecting,
    and as long as the dependency list of the effect stays as it is (any
    stream and timer callbacks, any render with unchanged dependencies)
    [streamFn] is not called again.  The specification has the controller back in
    Connecting at once. *)
Theorem reconnect_starts_no_connection
    (history inputs : list Input) (documentHidden : option bool) :
  let h := run Math_random history (initial documentHidden) in
  let h' := step Math_random h Reconnect in
  all_passive inputs h' = true ->
  quiet_conns h' /\ quiet_timers h'
  /\ (forall c cn, abortControllerRef h = Some c ->
        connections h' !! c = Some cn -> c_aborted cn = true)
  /\ currentAttemptRef h' = 0 /\ reconnectAttempt h' = 0 /\ error h' = None
  /\ calls h' = calls h
  /\ phase h' <> Connecting
  /\ count isStreamFn (run Math_random inputs h') = count isStreamFn h
  /\ phase (run Math_random inputs h') <> Connecting.
Proof.
  intros h h' Hall.
  assert (Hinv : inv h) by (apply run_inv, inv_initial).
  destruct (reconnect_quiet h Hinv) as (Hinv' & Q1 & Q2).
  change (reconnect h) with h' in *.
  assert (Hcalm : calm h') by (split; [|split]; assumption).
  destruct (calm_stays h' inputs isStreamFn Hcalm Hall eq_refl) as (Hcount & Hphase & _).
  assert (Hcalls : calls h' = calls h).
  { unfold h'. simpl. unfold reconnect. simpl.
    destruct (clearPending_counters (abortCurrent h)) as (-> & _).
    destruct (abortCurrent_counters h) as (-> & _). reflexivity. }
  split; [exact Q1|]. split; [exact Q2|]. split; [|split; [reflexivity|]].
  { intros c cn Hc. unfold h'. simpl. unfold reconnect. simpl.
    destruct (clearPending_frame (abortCurrent h)) as (_ & -> & _).
    unfold abortCurrent. rewrite Hc. simpl. rewrite list_lookup_alter_eq.
    destruct (connections h !! c); [|discriminate]. simpl. intros [= <-]. reflexivity. }
  split; [reflexivity|]. split; [reflexivity|]. split; [exact Hcalls|].
  split; [apply phase_calm_not_Connecting; assumption|].
  split.
  - rewrite Hcount. unfold count. rewrite Hcalls. reflexivity.
  - rewrite Hphase. apply phase_calm_not_Connecting; assumption.
Qed.

(** C6: take any hook whose effect in place streams.  When the tab is
    hidden ([pauseOnHidden] on) and the hook re-renders, the cleanup aborts
    the controller in [abortControllerRef] and clears the pending timer:
    afterwards no connection is live and no timer is armed, the phase is
    Idle, the attempt counter is what it was and no callback has been
    called.  While hidden, whatever the cancelled streams and timers still
    deliver, the only call that can happen is [onConnect] of a stream that
    resolves late: no [onError], no [onDisconnect], no [onData], and the
    counter stays.  When the tab becomes visible again and the hook
    re-renders, [streamFn] is called once, a fresh connection with a fresh
    controller awaits it (phase Connecting), and the attempt counter still
    has its old value. *)
Theorem pause_cancels_and_resume_connects
    (history waiting : list Input) (documentHidden : option bool) (p : Props) (d0 : Deps) :
  let h := run Math_random history (initial documentHidden) in
  deps h = Some d0 -> d_shouldStream d0 = true ->
  enabled p = true -> pauseOnHidden p = true ->
  let paused := run Math_random [VisibilityChange true; Render p] h in
  all_passive waiting paused = true ->
  let later := run Math_random waiting paused in
  signalAborted later (externalSignal p) = false ->
  let resumed := run Math_random [VisibilityChange false; Render p] later in
  (quiet_conns paused /\ quiet_timers paused
   /\ (forall c cn, abortControllerRef h = Some c ->
         connections paused !! c = Some cn -> c_aborted cn = true)
   /\ phase paused = Idle
   /\ currentAttemptRef paused = currentAttemptRef h
   /\ reconnectAttempt paused = reconnectAttempt h
   /\ calls paused = calls h)
  /\ (currentAttemptRef later = currentAttemptRef h
      /\ phase later = Idle
      /\ exists k, calls later = calls h ++ repeat CallOnConnect k)
  /\ (phase resumed = Connecting
      /\ currentAttemptRef resumed = currentAttemptRef h
      /\ calls resumed = calls later ++ [CallStreamFn]
      /\ connections resumed !! length (connections later) =
           Some {| c_effect := length (effects later); c_aborted := false;
                   c_stage := AwaitingStream |}
      /\ abortControllerRef resumed = Some (length (connections later))).
Proof.
  intros h Hdeps Hss Hen Hpause paused Hall later Hsig resumed.
  assert (Hinv : inv h) by (apply run_inv, inv_initial).
  (* the pause *)
  set (hv := handleVisibilityChange true h).
  assert (Hinvv : inv hv) by (apply (inv_frame h); try reflexivity; exact Hinv).
  assert (Hoff : shouldStream p false = false).
  { unfold shouldStream. rewrite Hpause. simpl. apply andb_false_r. }
  assert (Hon : shouldStream p true = true).
  { unfold shouldStream. rewrite Hen, Hpause. reflexivity. }
  assert (Hpaused : paused =
            runEffect p (set_deps (Some (depsOf p false)) (cleaned hv))).
  { unfold paused. simpl. fold hv. apply (render_changed p hv).
    change (deps hv) with (deps h). rewrite Hdeps. apply deps_differ.
    change (isVisible hv) with false. rewrite Hoff, Hss. reflexivity. }
  destruct (cleaned_spec hv Hinvv) as (Hinvc & Huc & Hqtc & Hcntc).
  destruct Hcntc as (Cc1 & Cc2 & Cc3 & Cc4 & Cc5 & Cc6 & Cc7).
  set (hc := set_deps (Some (depsOf p false)) (cleaned hv)) in *.
  assert (Hinvhc : inv hc) by (apply (inv_frame (cleaned hv)); try reflexivity; exact Hinvc).
  destruct (runEffect_idle p hc Hinvhc Huc Hqtc) as (Hcalm & Hcnt & Hd & _ & _ & Hph & Hab).
  { change (isVisible hc) with (isVisible (cleaned hv)). rewrite Cc4. exact Hoff. }
  rewrite <- Hpaused in *.
  destruct Hcnt as (C1 & C2 & C3 & C4 & C5 & C6 & C7).
  change (calls hc) with (calls (cleaned hv)) in C1.
  change (currentAttemptRef hc) with (currentAttemptRef (cleaned hv)) in C2.
  change (reconnectAttempt hc) with (reconnectAttempt (cleaned hv)) in C3.
  change (isVisible hc) with (isVisible (cleaned hv)) in C4.
  change (abortedSignals hc) with (abortedSignals (cleaned hv)) in C5.
  change (abortControllerRef hc) with (abortControllerRef (cleaned hv)) in Hab.
  change (calls hv) with (calls h) in Cc1.
  change (currentAttemptRef hv) with (currentAttemptRef h) in Cc2.
  change (reconnectAttempt hv) with (reconnectAttempt h) in Cc3.
  change (isVisible hv) with false in Cc4.
  change (abortControllerRef hv) with (abortControllerRef h) in Cc7.
  rewrite Cc7 in Hab.
  destruct Hcalm as (Hinvp & Q1 & Q2).
  split.
  { split; [exact Q1|]. split; [exact Q2|]. split; [exact Hab|]. split; [exact Hph|].
    split; [congruence|]. split; congruence. }
  (* while hidden *)
  destruct (run_passive waiting paused (conj Hinvp (conj Q1 Q2)) Hall)
    as ((Hinvl & Q3 & Q4) & Hel & Hdl & Hvl & Hal & Hll & k & Hcl).
  fold later in Hinvl, Q3, Q4, Hel, Hdl, Hvl, Hal, Hll, Hcl.
  split.
  { split; [congruence|]. split.
    - rewrite (phase_effects paused later) by assumption. exact Hph.
    - exists k. rewrite Hcl. congruence. }
  (* the resume *)
  set (lv := handleVisibilityChange false later).
  assert (Hinvlv : inv lv) by (apply (inv_frame later); try reflexivity; exact Hinvl).
  assert (Hresumed : resumed =
            runEffect p (set_deps (Some (depsOf p true)) (cleaned lv))).
  { unfold resumed. simpl. fold lv. apply (render_changed p lv).
    change (deps lv) with (deps later). rewrite Hdl, Hd.
    change (isVisible lv) with true. apply deps_differ. simpl. rewrite Hoff, Hon. reflexivity. }
  destruct (cleaned_spec lv Hinvlv) as (Hinvc2 & Huc2 & Hqtc2 & Hcnt2).
  destruct Hcnt2 as (D1 & D2 & D3 & D4 & D5 & D6 & D7).
  set (hc2 := set_deps (Some (depsOf p true)) (cleaned lv)) in *.
  assert (Hinvhc2 : inv hc2) by (apply (inv_frame (cleaned lv)); try reflexivity; exact Hinvc2).
  assert (Heff2 : length (effects (cleaned lv)) = length (effects later)).
  { unfold cleaned. destruct (currentEffect lv); [|reflexivity].
    unfold cleanup.
    destruct (clearPending_frame (abortCurrent (set_effects
      (alter (fun ef => {| e_props := e_props ef; e_shouldStream := e_shouldStream ef;
                           isMounted := false |}) n (effects lv)) lv))) as (-> & _).
    destruct (abortCurrent_frame (set_effects
      (alter (fun ef => {| e_props := e_props ef; e_shouldStream := e_shouldStream ef;
                           isMounted := false |}) n (effects lv)) lv)) as (-> & _).
    simpl. apply length_alter. }
  destruct (runEffect_streaming p hc2 Hinvhc2 Huc2 Hqtc2)
    as (_ & Hconn & Hcalls & Hattempt & _ & Href & _ & Hphase).
  { change (isVisible hc2) with (isVisible (cleaned lv)). rewrite D4. exact Hon. }
  { unfold signalAborted in *. change (abortedSignals hc2) with (abortedSignals (cleaned lv)).
    rewrite D5. exact Hsig. }
  rewrite <- Hresumed in *.
  change (calls hc2) with (calls (cleaned lv)) in Hcalls.
  change (currentAttemptRef hc2) with (currentAttemptRef (cleaned lv)) in Hattempt.
  change (connections hc2) with (connections (cleaned lv)) in Hconn, Href.
  change (effects hc2) with (effects (cleaned lv)) in Hconn.
  change (calls lv) with (calls later) in D1.
  change (currentAttemptRef lv) with (currentAttemptRef later) in D2.
  change (connections lv) with (connections later) in D6.
  split; [exact Hphase|]. split; [congruence|]. split; [congruence|]. split.
  - rewrite Hconn, <- D6, Heff2. apply list_lookup_middle. reflexivity.
  - rewrite Href, D6. reflexivity.
Qed.

(** The props of the reconnection scenario: the defaults but for
    [maxRetries]. *)
Definition withMaxRetries (n : Z) : Props :=
  {| maxRetries := Finite n; baseDelay := 1000; maxDelay := 30000;
     enabled := true; pauseOnHidden := true; shouldRetry := None;
     externalSignal := None; identity := 0 |}.

(** C4: the stream factory fails at once on its first three calls and
    succeeds on the fourth; each backoff timer fires.  With [maxRetries = 5]
    the hook ends Connected, [streamFn] having been called four times, with
    [reconnectAttempt = 3].  With [maxRetries = 2] the third failure finds
    the attempt counter at the cap: [onMaxRetriesReached] is called, once in
    all, no timer is armed and no connection is live (Stopped), and nothing
    the streams or timers do afterwards changes that. *)
Theorem three_failures_then_success (e1 e2 e3 : Err) (inputs : list Input) :
  let failures :=
    [StreamRejected 0 e1; TimerFired 0; StreamRejected 1 e2; TimerFired 1;
     StreamRejected 2 e3] in
  let h5 := run Math_random
              (Render (withMaxRetries 5) :: failures ++ [TimerFired 2; StreamResolved 3])
              (initial None) in
  let h2 := run Math_random (Render (withMaxRetries 2) :: failures) (initial None) in
  (phase h5 = Connected /\ isConnected h5 = true
   /\ reconnectAttempt h5 = 3 /\ currentAttemptRef h5 = 3
   /\ count isStreamFn h5 = 4 /\ count isOnMaxRetriesReached h5 = 0)
  /\ (phase h2 = Stopped /\ isConnected h2 = false
      /\ count isStreamFn h2 = 3 /\ count isOnMaxRetriesReached h2 = 1
      /\ quiet_conns h2 /\ quiet_timers h2
      /\ (all_passive inputs h2 = true ->
            phase (run Math_random inputs h2) = Stopped
            /\ count isOnMaxRetriesReached (run Math_random inputs h2) = 1
            /\ count isStreamFn (run Math_random inputs h2) = 3)).
Proof.
  intros failures h5 h2.
  split; [repeat split; reflexivity|].
  assert (Hinv : inv h2) by (apply run_inv, inv_initial).
  assert (Q1 : quiet_conns h2) by (apply quiet_connsb_spec; reflexivity).
  assert (Q2 : quiet_timers h2) by (apply quiet_timersb_spec; reflexivity).
  do 4 (split; [reflexivity|]). split; [exact Q1|]. split; [exact Q2|].
  intros Hall.
  assert (Hcalm : calm h2) by (split; [|split]; assumption).
  destruct (calm_stays h2 inputs isOnMaxRetriesReached Hcalm Hall eq_refl) as (H1 & H2 & _).
  destruct (calm_stays h2 inputs isStreamFn Hcalm Hall eq_refl) as (H3 & _ & _).
  split; [rewrite H2; reflexivity|]. split; [rewrite H1; reflexivity|].
  rewrite H3. reflexivity.
Qed.

Lemma calls_log (c : @Call TEvent) h : calls (log c h) = calls h ++ [c].
Proof. reflexivity. Qed.

(** The [catch] block of a connection that is still current. *)
Lemma handleError_live c cn err h :
  mounted h (c_effect cn) = true -> combinedAborted h cn = false ->
  handleError Math_random c cn err h =
    let e := c_effect cn in
    let attempt := currentAttemptRef h in
    let h2 := log (CallOnError err attempt)
                (log CallOnDisconnect
                   (set_isConnected false (set_error (Some err) (setStage c Finished h)))) in
    let allowed := match shouldRetry (propsOf h e) with
                   | Some f => f err attempt
                   | None => true
                   end in
    let capOk := below attempt (maxRetries (propsOf h e)) in
    if allowed && capOk && shouldStreamOf h e then scheduleReconnect Math_random e h2
    else if negb capOk then log (CallOnMaxRetriesReached err) h2
    else h2.
Proof.
  intros Hm Ha. unfold handleError.
  change (mounted (setStage c Finished h) (c_effect cn)) with (mounted h (c_effect cn)).
  change (combinedAborted (setStage c Finished h) cn) with (combinedAborted h cn).
  rewrite Hm, Ha. reflexivity.
Qed.

(** C5, as the code has it: a stream error reaches the [catch] block of a
    connection that is still current.  [onMaxRetriesReached] is called
    exactly when the attempt counter is not below [maxRetries], whatever
    [shouldRetry] returns; when [shouldRetry] returns false and the counter
    is below [maxRetries], the hook stops (no timer, no live connection)
    after [onDisconnect] and [onError] only; when both allow, a reconnect is
    scheduled and the counter goes up by one. *)
Theorem onMaxRetriesReached_iff_cap_reached
    (h : Hook) (c : nat) (cn : Connection) (err : Err) :
  inv h -> connections h !! c = Some cn -> live h cn = true ->
  shouldStreamOf h (c_effect cn) = true ->
  let attempt := currentAttemptRef h in
  let p := propsOf h (c_effect cn) in
  let allowed := match shouldRetry p with Some f => f err attempt | None => true end in
  let capOk := below attempt (maxRetries p) in
  let h' := handleError Math_random c cn err h in
  (step Math_random h (StreamRejected c err) = h' \/ step Math_random h (StreamError c err) = h')
  /\ (allowed = false -> capOk = true ->
        calls h' = calls h ++ [CallOnDisconnect; CallOnError err attempt]
        /\ phase h' = Stopped /\ quiet_conns h' /\ quiet_timers h')
  /\ (capOk = false ->
        calls h' = calls h ++ [CallOnDisconnect; CallOnError err attempt;
                               CallOnMaxRetriesReached err]
        /\ phase h' = Stopped /\ quiet_conns h' /\ quiet_timers h')
  /\ (allowed = true -> capOk = true ->
        calls h' = calls h ++ [CallOnDisconnect; CallOnError err attempt]
        /\ phase h' = Reconnecting /\ currentAttemptRef h' = S attempt)
  /\ (count isOnMaxRetriesReached h' = S (count isOnMaxRetriesReached h) <-> capOk = false).
Proof.
  intros Hinv Hcn Hl Hss attempt p allowed capOk h'.
  pose proof (live_mounted h cn Hl) as Hm.
  assert (Ha : combinedAborted h cn = false).
  { unfold live in Hl. rewrite Hm in Hl. destruct (c_stage cn); try discriminate;
      apply negb_true_iff in Hl; exact Hl. }
  assert (Hcur : currentEffect h = Some (c_effect cn)).
  { unfold mounted in Hm. destruct (effects h !! c_effect cn) as [ef|] eqn:E; [|discriminate].
    pose proof (inv_mounted h Hinv _ ef E Hm) as Hlen.
    unfold currentEffect. rewrite <- Hlen. reflexivity. }
  destruct (setStage_Finished_quiet c cn h Hinv Hcn Hl) as [Qc Qt].
  pose proof (handleError_live c cn err h Hm Ha) as Heq. cbv zeta in Heq.
  fold attempt in Heq. fold p in Heq. fold allowed in Heq. fold capOk in Heq.
  rewrite Hss, andb_true_r in Heq. fold h' in Heq.
  set (h2 := log (CallOnError err attempt) _) in Heq.
  assert (Q2c : quiet_conns h2).
  { apply (quiet_conns_frame (setStage c Finished h)); try reflexivity. exact Qc. }
  assert (Q2t : quiet_timers h2).
  { apply (quiet_timers_frame (setStage c Finished h)); try reflexivity. exact Qt. }
  assert (Hcalls2 : calls h2 = calls h ++ [CallOnDisconnect; CallOnError err attempt]).
  { unfold h2, log. simpl. rewrite <- app_assoc. reflexivity. }
  assert (Hstopped : forall hx : Hook,
            effects hx = effects h -> quiet_conns hx -> quiet_timers hx -> phase hx = Stopped).
  { intros hx He Q1 Q2. rewrite phase_calm by assumption.
    unfold currentEffect, mounted, shouldStreamOf in *. rewrite He, Hcur.
    rewrite Hm, Hss. reflexivity. }
  split; [|split; [|split; [|split]]].
  - pose proof (live_not_finished h cn Hl) as Hnf. simpl.
    unfold streamRejected, streamError. rewrite Hcn.
    destruct (c_stage cn); [left | right | contradiction]; reflexivity.
  - intros Hal Hcap. rewrite Hal, Hcap in Heq. simpl in Heq. rewrite Heq.
    split; [exact Hcalls2|]. split; [|split; assumption].
    apply Hstopped; [reflexivity | assumption | assumption].
  - intros Hcap. rewrite Hcap, andb_false_r in Heq. simpl in Heq. rewrite Heq.
    split; [|split; [|split]].
    + rewrite calls_log, Hcalls2, <- app_assoc. reflexivity.
    + apply Hstopped; [reflexivity | |].
      * apply (quiet_conns_frame h2); try reflexivity. exact Q2c.
      * apply (quiet_timers_frame h2); try reflexivity. exact Q2t.
    + apply (quiet_conns_frame h2); try reflexivity. exact Q2c.
    + apply (quiet_timers_frame h2); try reflexivity. exact Q2t.
  - intros Hal Hcap. rewrite Hal, Hcap in Heq. simpl in Heq. rewrite Heq.
    split; [exact Hcalls2|]. split; [|reflexivity].
    unfold phase.
    rewrite !(quiet_conns_existsb (scheduleReconnect Math_random (c_effect cn) h2)).
    + unfold scheduleReconnect. simpl. rewrite existsb_app. simpl.
      rewrite orb_true_r. reflexivity.
    + apply (quiet_conns_frame h2); try reflexivity. exact Q2c.
    + apply (quiet_conns_frame h2); try reflexivity. exact Q2c.
  - unfold count. destruct capOk eqn:Hcap.
    + assert (Hc' : calls h' = calls h ++ [CallOnDisconnect; CallOnError err attempt]).
      { rewrite Heq. rewrite andb_true_r. destruct allowed; simpl; exact Hcalls2. }
      rewrite Hc', List.filter_app, length_app. simpl. split; [lia | discriminate].
    + rewrite andb_false_r in Heq. simpl in Heq. rewrite Heq, calls_log.
      rewrite Hcalls2, !List.filter_app, !length_app. simpl. split; [reflexivity | lia].
Qed.

End Properties.

(** *** Concrete runs *)

(** A fixed draw for [Math.random] and natural numbers as stream items. *)
Definition half (_ : nat) : Q := 1 # 2.

(** Connected at attempt 0 with the default options, then [reconnect()],
    a re-render with the same options and the rest of the aborted stream:
    [streamFn] has been called once and is not called again. *)
Lemma reconnect_starts_no_connection_witness :
  let h := run half [Render defaultProps; StreamResolved 0] (initial (TEvent := nat) None) in
  let h' := step half h Reconnect in
  let inputs := [Render defaultProps; StreamItem 0 7; StreamEnded 0] in
  all_passive half inputs h' = true
  /\ phase h = Connected
  /\ phase h' = Stopped
  /\ isConnected h' = true
  /\ count isStreamFn (run half inputs h') = 1
  /\ phase (run half inputs h') = Stopped.
Proof.
  intros h h' inputs.
  assert (Hall : all_passive half inputs h' = true) by (vm_compute; reflexivity).
  pose proof (reconnect_starts_no_connection half
              [Render defaultProps; StreamResolved 0] inputs None Hall) as HH.
  destruct HH
    as (_ & _ & _ & _ & _ & _ & _ & _ & Hcount & _).
  split; [vm_compute; reflexivity|]. split; [vm_compute; reflexivity|].
  split; [vm_compute; reflexivity|]. split; [vm_compute; reflexivity|].
  split; [|vm_compute; reflexivity].
  etransitivity; [exact Hcount | vm_compute; reflexivity].
Defined.

(** One failed attempt, a reconnect that succeeds, then the tab is hidden
    and shown again: the attempt counter is still 1 in the fresh Connecting
    phase. *)
Lemma pause_cancels_and_resume_connects_witness :
  let history := [Render defaultProps; StreamRejected 0 "offline"; TimerFired 0;
                  StreamResolved 1; StreamItem 1 5] in
  let h := run half history (initial (TEvent := nat) None) in
  let paused := run half [VisibilityChange true; Render defaultProps] h in
  let later := run half [StreamItem 1 6; StreamEnded 1] paused in
  let resumed := run half [VisibilityChange false; Render defaultProps] later in
  phase h = Connected /\ currentAttemptRef h = 1
  /\ phase paused = Idle /\ calls paused = calls h
  /\ calls later = calls h
  /\ phase resumed = Connecting /\ currentAttemptRef resumed = 1.
Proof.
  intros history h paused later resumed.
  assert (Hdeps : deps h = Some (depsOf defaultProps true)) by (vm_compute; reflexivity).
  assert (Hall : all_passive half [StreamItem 1 6; StreamEnded 1] paused = true)
    by (vm_compute; reflexivity).
  assert (Hsig : signalAborted later (externalSignal defaultProps) = false)
    by (vm_compute; reflexivity).
  pose proof (pause_cancels_and_resume_connects half history
              [StreamItem 1 6; StreamEnded 1] None defaultProps
              (depsOf defaultProps true) Hdeps eq_refl eq_refl eq_refl Hall Hsig) as HH.
  destruct HH
    as ((_ & _ & _ & Hp & _ & _ & Hc) & _ & (Hr & Ha & _)).
  split; [vm_compute; reflexivity|]. split; [vm_compute; reflexivity|].
  split; [exact Hp|]. split; [exact Hc|]. split; [vm_compute; reflexivity|].
  split; [exact Hr | exact Ha].
Defined.

(** The scenario of C4 with named errors, and a late timer and stream
    callback after the stop. *)
Lemma three_failures_then_success_witness :
  let failures :=
    [StreamRejected 0 "e1"; TimerFired 0; StreamRejected 1 "e2"; TimerFired 1;
     StreamRejected 2 "e3"] in
  let h2 := run half (Render (withMaxRetries 2) :: failures) (initial (TEvent := nat) None) in
  let inputs := [TimerFired 1; StreamEnded 2] in
  all_passive half inputs h2 = true
  /\ calls h2 =
       [CallStreamFn; CallOnDisconnect; CallOnError "e1" 0;
        CallStreamFn; CallOnDisconnect; CallOnError "e2" 1;
        CallStreamFn; CallOnDisconnect; CallOnError "e3" 2;
        CallOnMaxRetriesReached "e3"]
  /\ phase (run half inputs h2) = Stopped
  /\ count isOnMaxRetriesReached (run half inputs h2) = 1.
Proof.
  intros failures h2 inputs.
  pose proof (three_failures_then_success (TEvent := nat) half "e1" "e2" "e3" inputs)
    as (_ & _ & _ & _ & _ & _ & _ & Hlater).
  assert (Hall : all_passive half inputs h2 = true) by (vm_compute; reflexivity).
  destruct (Hlater Hall) as (Hp & Hc & _).
  split; [vm_compute; reflexivity|]. split; [vm_compute; reflexivity|].
  split; [exact Hp | exact Hc].
Defined.

(** The flags the hook returns are not reset by a stop: after the cap is
    reached [isReconnecting] is still [true], although no timer is armed. *)
Example stopped_hook_still_reports_reconnecting :
  let h2 := run half
              [Render (withMaxRetries 2); StreamRejected 0 "e1"; TimerFired 0;
               StreamRejected 1 "e2"; TimerFired 1; StreamRejected 2 "e3"]
              (initial (TEvent := nat) None) in
  phase h2 = Stopped /\ isReconnecting h2 = true /\ quiet_timersb h2 = true
  /\ error h2 = Some "e3"%string.
Proof. vm_compute. repeat split. Qed.

(** Options whose [shouldRetry] always refuses. *)
Definition neverRetry (n : Z) : Props :=
  {| maxRetries := Finite n; baseDelay := 1000; maxDelay := 30000;
     enabled := true; pauseOnHidden := true; shouldRetry := Some (fun _ _ => false);
     externalSignal := None; identity := 0 |}.

(** C5 as stated fails: with [maxRetries = 0] and a [shouldRetry] that
    returns false, the first error stops the hook and
    [onMaxRetriesReached] is called all the same. *)
Lemma shouldRetry_false_at_cap_calls_onMaxRetriesReached :
  let p := neverRetry 0 in
  let h := run half [Render p; StreamRejected 0 "boom"] (initial (TEvent := nat) None) in
  match shouldRetry p with Some f => f "boom"%string 0 | None => true end = false
  /\ phase h = Stopped
  /\ calls h = [CallStreamFn; CallOnDisconnect; CallOnError "boom" 0;
                CallOnMaxRetriesReached "boom"].
Proof. repeat split. Qed.

(** The same predicate with retries left: the hook stops silently. *)
Lemma onMaxRetriesReached_iff_cap_reached_witness :
  let h := run half [Render (neverRetry 3)] (initial (TEvent := nat) None) in
  let cn := {| c_effect := 0; c_aborted := false; c_stage := AwaitingStream |} in
  let h' := step half h (StreamRejected 0 "boom") in
  connections h !! 0 = Some cn
  /\ live h cn = true
  /\ calls h' = [CallStreamFn; CallOnDisconnect; CallOnError "boom" 0]
  /\ phase h' = Stopped.
Proof.
  intros h cn h'.
  assert (Hcn : connections h !! 0 = Some cn) by (vm_compute; reflexivity).
  assert (Hlive : live h cn = true) by (vm_compute; reflexivity).
  assert (Hss : shouldStreamOf h (c_effect cn) = true) by (vm_compute; reflexivity).
  pose proof (onMaxRetriesReached_iff_cap_reached half h 0 cn "boom"
                (run_inv half _ _ (inv_initial None)) Hcn Hlive Hss) as HH.
  cbv zeta in HH. destruct HH as (_ & Hstop & _).
  destruct (Hstop eq_refl eq_refl) as (Hc & Hp & _).
  split; [vm_compute; reflexivity|]. split; [vm_compute; reflexivity|].
  split; [exact Hc | exact Hp].
Defined.

(* --------------------------------------------------------------------- *)
(** *** What holds of every run of the hook *)

Section MoreProperties.

Context {TEvent : Type}.
Variable Math_random : nat -> Q.

Implicit Types (h : @Hook TEvent) (cn : Connection) (tm : Timer).

(** The connection whose promise or stream an input settles. *)
Definition callbackOf (inp : @Input TEvent) : option nat :=
  match inp with
  | StreamResolved c | StreamRejected c _ | StreamItem c _ | StreamEnded c
  | StreamError c _ => Some c
  | _ => None
  end.

(** What a callback of a connection that is not live can still do: mark the
    connection, and, when its [streamFn] resolves late, run lines 162-165,
    which test neither [isMounted] nor the signal. *)
Lemma stale_callback h inp c cn :
  callbackOf inp = Some c -> connections h !! c = Some cn -> live h cn = false ->
  let h' := step Math_random h inp in
  timers h' = timers h
  /\ length (connections h') = length (connections h)
  /\ effects h' = effects h
  /\ currentAttemptRef h' = currentAttemptRef h
  /\ randomCalls h' = randomCalls h
  /\ ((calls h' = calls h /\ isConnected h' = isConnected h)
      \/ (inp = StreamResolved c /\ c_stage cn = AwaitingStream
          /\ calls h' = calls h ++ [CallOnConnect] /\ isConnected h' = true)).
Proof.
  intros Hcb Hcn Hl h'.
  assert (Hsame : forall hx : Hook, hx = h ->
            timers hx = timers h /\ length (connections hx) = length (connections h)
            /\ effects hx = effects h /\ currentAttemptRef hx = currentAttemptRef h
            /\ randomCalls hx = randomCalls h
            /\ ((calls hx = calls h /\ isConnected hx = isConnected h)
                \/ (inp = StreamResolved c /\ c_stage cn = AwaitingStream
                    /\ calls hx = calls h ++ [CallOnConnect] /\ isConnected hx = true))).
  { intros hx ->. auto 10. }
  assert (Hfin : timers (setStage c Finished h) = timers h
            /\ length (connections (setStage c Finished h)) = length (connections h)
            /\ effects (setStage c Finished h) = effects h
            /\ currentAttemptRef (setStage c Finished h) = currentAttemptRef h
            /\ randomCalls (setStage c Finished h) = randomCalls h
            /\ ((calls (setStage c Finished h) = calls h
                 /\ isConnected (setStage c Finished h) = isConnected h)
                \/ (inp = StreamResolved c /\ c_stage cn = AwaitingStream
                    /\ calls (setStage c Finished h) = calls h ++ [CallOnConnect]
                    /\ isConnected (setStage c Finished h) = true))).
  { simpl. rewrite length_alter. auto 10. }
  destruct inp as [p|hidden| |n|c0|c0 err|c0 event|c0|c0 err|t]; simpl in Hcb;
    try discriminate; injection Hcb as ->; unfold h'; simpl step.
  - unfold streamResolved. rewrite Hcn.
    destruct (c_stage cn) eqn:Hst; try (apply Hsame; reflexivity).
    simpl. rewrite length_alter. repeat (split; [reflexivity|]).
    right. auto.
  - unfold streamRejected. rewrite Hcn.
    destruct (c_stage cn) eqn:Hst; try (apply Hsame; reflexivity).
    unfold handleError.
    change (mounted (setStage c Finished h) (c_effect cn)) with (mounted h (c_effect cn)).
    change (combinedAborted (setStage c Finished h) cn) with (combinedAborted h cn).
    rewrite (not_live_cases h cn Hl) by congruence. apply Hfin.
  - unfold streamItem. rewrite Hcn.
    destruct (c_stage cn) eqn:Hst; try (apply Hsame; reflexivity).
    rewrite (not_live_cases h cn Hl) by congruence. apply Hfin.
  - unfold streamEnded. rewrite Hcn.
    destruct (c_stage cn) eqn:Hst; try (apply Hsame; reflexivity).
    change (mounted (setStage c Finished h) (c_effect cn)) with (mounted h (c_effect cn)).
    change (combinedAborted (setStage c Finished h) cn) with (combinedAborted h cn).
    pose proof (not_live_cases h cn Hl) as Hn.
    assert (Hcond : mounted h (c_effect cn) && negb (combinedAborted h cn) = false).
    { destruct (mounted h (c_effect cn)); simpl in *; [|reflexivity].
      rewrite Hn by congruence. reflexivity. }
    rewrite Hcond. simpl andb. cbv iota. apply Hfin.
  - unfold streamError. rewrite Hcn.
    destruct (c_stage cn) eqn:Hst; try (apply Hsame; reflexivity).
    unfold handleError.
    change (mounted (setStage c Finished h) (c_effect cn)) with (mounted h (c_effect cn)).
    change (combinedAborted (setStage c Finished h) cn) with (combinedAborted h cn).
    rewrite (not_live_cases h cn Hl) by congruence. apply Hfin.
Qed.

(** X19: whatever happens to a mounted hook
    (renders, visibility changes, [reconnect()], aborts, stream and timer
    callbacks in any order), at most one connection is live, that is
    unfinished, of a mounted effect and with a signal that is not aborted;
    at most one backoff timer is armed; never both at once; and only the
    effect that ran last is mounted.  A connection that is not live is not
    silent: when its [streamFn] resolves after the teardown, lines 162-165
    still run, which set [isConnected] and call [onConnect].  Beyond that,
    none of its callbacks arms a timer, starts a connection, draws a random
    number, changes the attempt counter or makes any other call. *)
Theorem at_most_one_live_stream_or_timer
    (documentHidden : option bool) (inputs : list (@Input TEvent)) :
  let h := run Math_random inputs (initial documentHidden) in
  (forall c1 c2 cn1 cn2,
     connections h !! c1 = Some cn1 -> connections h !! c2 = Some cn2 ->
     live h cn1 = true -> live h cn2 = true -> c1 = c2)
  /\ (forall t1 t2 tm1 tm2,
        timers h !! t1 = Some tm1 -> timers h !! t2 = Some tm2 ->
        armed tm1 = true -> armed tm2 = true -> t1 = t2)
  /\ (forall t tm c cn,
        timers h !! t = Some tm -> armed tm = true ->
        connections h !! c = Some cn -> live h cn = false)
  /\ (forall e ef,
        effects h !! e = Some ef -> isMounted ef = true -> S e = length (effects h))
  /\ (forall inp c cn,
        callbackOf inp = Some c -> connections h !! c = Some cn -> live h cn = false ->
        let h' := step Math_random h inp in
        timers h' = timers h
        /\ length (connections h') = length (connections h)
        /\ currentAttemptRef h' = currentAttemptRef h
        /\ randomCalls h' = randomCalls h
        /\ ((calls h' = calls h /\ isConnected h' = isConnected h)
            \/ (inp = StreamResolved c /\ c_stage cn = AwaitingStream
                /\ calls h' = calls h ++ [CallOnConnect] /\ isConnected h' = true))).
Proof.
  intros h.
  assert (Hinv : inv h) by apply run_inv, inv_initial.
  split; [|split; [|split; [|split]]].
  - intros c1 c2 cn1 cn2 H1 H2 L1 L2.
    pose proof (inv_live h Hinv c1 cn1 H1 L1) as R1.
    pose proof (inv_live h Hinv c2 cn2 H2 L2) as R2. congruence.
  - intros t1 t2 tm1 tm2 H1 H2 A1 A2.
    destruct (inv_timer h Hinv t1 tm1 H1 A1) as [R1 _].
    destruct (inv_timer h Hinv t2 tm2 H2 A2) as [R2 _]. congruence.
  - intros t tm c cn Ht Ha Hc.
    destruct (inv_timer h Hinv t tm Ht Ha) as [_ Hq]. exact (Hq c cn Hc).
  - apply (inv_mounted h Hinv).
  - intros inp c cn Hcb Hcn Hl h'.
    destruct (stale_callback h inp c cn Hcb Hcn Hl) as (H1 & H2 & _ & H3 & H4 & H5).
    auto.
Qed.

(** Nothing was ever started: no connection, no timer, no call, and no
    effect that wanted to stream. *)
Record dormant h : Prop := {
  dormant_connections : connections h = [];
  dormant_timers : timers h = [];
  dormant_calls : calls h = [];
  dormant_isConnected : isConnected h = false;
  dormant_effects : forall e ef, effects h !! e = Some ef -> e_shouldStream ef = false
}.

Lemma dormant_abortCurrent h : dormant h -> dormant (abortCurrent h).
Proof.
  intros [Hc Ht Hl Hi He]. unfold abortCurrent.
  destruct (abortControllerRef h); [|split; assumption].
  split; simpl; try assumption. rewrite Hc. reflexivity.
Qed.

Lemma dormant_clearPending h : dormant h -> dormant (clearPending h).
Proof.
  intros [Hc Ht Hl Hi He]. unfold clearPending.
  destruct (reconnectTimeoutRef h); [|split; assumption].
  split; simpl; try assumption. rewrite Ht. reflexivity.
Qed.

Lemma dormant_cleanup e h : dormant h -> dormant (cleanup e h).
Proof.
  intros [Hc Ht Hl Hi He]. unfold cleanup.
  apply dormant_clearPending, dormant_abortCurrent.
  split; simpl; try assumption.
  intros e' ef'. rewrite list_lookup_alter.
  destruct (decide (e = e')) as [<-|_]; [|apply He].
  destruct (effects h !! e) as [ef|] eqn:E; [|discriminate].
  simpl. intros [= <-]. simpl. eapply He, E.
Qed.

Lemma dormant_render p h : enabled p = false -> dormant h -> dormant (render p h).
Proof.
  intros Hp Hd. unfold render.
  match goal with |- dormant (if ?b then _ else _) => destruct b end; [exact Hd|].
  assert (Hd1 : dormant (match currentEffect h with
                         | Some e => cleanup e h
                         | None => h
                         end)).
  { destruct (currentEffect h); [apply dormant_cleanup|]; exact Hd. }
  set (h1 := match currentEffect h with Some e => cleanup e h | None => h end) in *.
  unfold runEffect. unfold shouldStream. rewrite Hp. cbn [andb].
  apply dormant_abortCurrent. destruct Hd1 as [Hc Ht Hl Hi He].
  split; simpl; try assumption; try reflexivity.
  intros e ef H. apply lookup_snoc_Some in H as [H|[_ ->]]; [eapply He, H | reflexivity].
Qed.

Lemma dormant_step h inp :
  (forall p, inp = Render p -> enabled p = false) ->
  dormant h -> dormant (step Math_random h inp).
Proof.
  intros Hp Hd. pose proof Hd as [Hc Ht Hl Hi He].
  destruct inp as [p|hidden| |n|c|c err|c event|c|c err|t]; simpl.
  - apply dormant_render; [apply Hp; reflexivity | exact Hd].
  - split; assumption.
  - unfold reconnect.
    destruct (dormant_clearPending _ (dormant_abortCurrent _ Hd)) as [Hc' Ht' Hl' Hi' He'].
    split; assumption.
  - split; assumption.
  - unfold streamResolved. rewrite Hc, lookup_nil. exact Hd.
  - unfold streamRejected. rewrite Hc, lookup_nil. exact Hd.
  - unfold streamItem. rewrite Hc, lookup_nil. exact Hd.
  - unfold streamEnded. rewrite Hc, lookup_nil. exact Hd.
  - unfold streamError. rewrite Hc, lookup_nil. exact Hd.
  - unfold timerFired. rewrite Ht, lookup_nil. exact Hd.
Qed.

(** X20: a hook that is only ever
    rendered with [enabled = false] never calls [streamFn] nor any callback,
    opens no connection, arms no timer, and reports Idle and not connected,
    whatever else happens to it (visibility changes and [reconnect()]
    included). *)
Theorem disabled_hook_never_calls_streamFn
    (documentHidden : option bool) (inputs : list (@Input TEvent)) :
  (forall p, Render p ∈ inputs -> enabled p = false) ->
  let h := run Math_random inputs (initial documentHidden) in
  calls h = [] /\ connections h = [] /\ timers h = []
  /\ isConnected h = false /\ phase h = Idle.
Proof.
  intros Hall h.
  assert (Hd : dormant h).
  { unfold h. clear h.
    assert (H0 : dormant (initial (TEvent := TEvent) documentHidden)).
    { split; try reflexivity. intros e ef H. simpl in H. inversion H. }
    revert H0. generalize (initial (TEvent := TEvent) documentHidden).
    induction inputs as [|inp inputs IH]; intros h0 H0; [exact H0|].
    simpl. apply IH.
    - intros p Hp. apply Hall. now right.
    - apply dormant_step; [|exact H0]. intros p ->. apply Hall. left. }
  destruct Hd as [Hc Ht Hl Hi He].
  split; [exact Hl|]. split; [exact Hc|]. split; [exact Ht|]. split; [exact Hi|].
  unfold phase. rewrite Hc, Ht. simpl.
  destruct (currentEffect h) as [e|]; [|reflexivity].
  unfold shouldStreamOf. destruct (effects h !! e) as [ef|] eqn:E.
  - rewrite (He e ef E), andb_false_r. reflexivity.
  - rewrite andb_false_r. reflexivity.
Qed.

(** X21: when the stream of the
    connection in place ends normally, the hook reports the disconnect (not
    an error), counts an attempt and arms a backoff timer for the attempt
    just counted: it is Reconnecting.  Neither [maxRetries] nor
    [shouldRetry] is consulted on this path. *)
Theorem graceful_end_always_schedules_a_retry (c : nat) cn h :
  inv h ->
  connections h !! c = Some cn -> c_stage cn = Consuming -> live h cn = true ->
  shouldStreamOf h (c_effect cn) = true ->
  let h' := streamEnded Math_random c h in
  let p := propsOf h (c_effect cn) in
  calls h' = calls h ++ [CallOnDisconnect]
  /\ currentAttemptRef h' = S (currentAttemptRef h)
  /\ isConnected h' = false /\ isReconnecting h' = true
  /\ timers h'
     = timers h
       ++ [{| t_effect := c_effect cn;
              t_delay := Backoff.calculateBackoffWithJitter (S (currentAttemptRef h))
                           (baseDelay p) (maxDelay p) (1 # 4)
                           (Math_random (randomCalls h));
              t_state := Armed |}]
  /\ phase h' = Reconnecting.
Proof.
  intros Hinv Hc Hst Hl Hss h' p.
  destruct (setStage_Finished_quiet c cn h Hinv Hc Hl) as [Hqc Hqt].
  pose proof (live_mounted h cn Hl) as Hm.
  assert (Hna : combinedAborted h cn = false).
  { unfold live in Hl. rewrite Hst in Hl. apply andb_true_iff in Hl as [_ Hl].
    now apply negb_true_iff in Hl. }
  assert (Hh' : h' = scheduleReconnect Math_random (c_effect cn)
                       (log CallOnDisconnect
                          (set_isConnected false (setStage c Finished h)))).
  { unfold h', streamEnded. rewrite Hc, Hst.
    change (mounted (setStage c Finished h) (c_effect cn)) with (mounted h (c_effect cn)).
    change (combinedAborted (setStage c Finished h) cn) with (combinedAborted h cn).
    change (shouldStreamOf (setStage c Finished h) (c_effect cn))
      with (shouldStreamOf h (c_effect cn)).
    rewrite Hm, Hna, Hss. reflexivity. }
  rewrite Hh'. split; [reflexivity|]. split; [reflexivity|].
  split; [reflexivity|]. split; [reflexivity|]. split; [reflexivity|].
  unfold phase.
  match goal with |- context [existsb _ (connections ?X)] => set (h2 := X) end.
  assert (Hq2 : quiet_conns h2).
  { eapply quiet_conns_frame; [..|exact Hqc]; reflexivity. }
  rewrite !quiet_conns_existsb by exact Hq2.
  unfold h2, scheduleReconnect. cbn [timers set_reconnectTimeoutRef set_timers].
  rewrite existsb_app. simpl. rewrite orb_true_r. reflexivity.
Qed.


(** *** The attempt counter and the backoff schedule *)

(** The retries scheduled so far (effect and delay of each timer, in
    order) and the props of the effects run so far. *)
Definition sched h : list (nat * Z) := map (fun tm => (t_effect tm, t_delay tm)) (timers h).
Definition propsList h : list Props := map e_props (effects h).

(** The delay [scheduleReconnect] computes in the closure of effect [e]. *)
Definition delayOf (e : nat) h : Z :=
  Backoff.calculateBackoffWithJitter (S (currentAttemptRef h))
    (baseDelay (propsOf h e)) (maxDelay (propsOf h e)) (1 # 4)
    (Math_random (randomCalls h)).

(** Nothing was scheduled between [h] and [h']. *)
Definition kept h h' : Prop :=
  sched h' = sched h /\ currentAttemptRef h' = currentAttemptRef h
  /\ randomCalls h' = randomCalls h /\ propsList h' = propsList h.

(** One retry was scheduled, by effect [e]. *)
Definition retried (e : nat) h h' : Prop :=
  sched h' = sched h ++ [(e, delayOf e h)]
  /\ currentAttemptRef h' = S (currentAttemptRef h)
  /\ randomCalls h' = S (randomCalls h) /\ propsList h' = propsList h.

Lemma map_alter_same {A B} (f : A -> B) (g : A -> A) (i : nat) (l : list A) :
  (forall x, f (g x) = f x) -> map f (alter g i l) = map f l.
Proof.
  intros Hg. revert i. induction l as [|x l IH]; intros [|i]; simpl.
  - reflexivity.
  - reflexivity.
  - now rewrite Hg.
  - f_equal. apply IH.
Qed.

Lemma map_insert_same {A B} (f : A -> B) (i : nat) (x y : A) (l : list A) :
  l !! i = Some x -> f y = f x -> map f (<[i := y]> l) = map f l.
Proof.
  revert i. induction l as [|z l IH]; intros [|i] H Hf; simpl in *; try discriminate.
  - injection H as ->. now rewrite Hf.
  - f_equal. now apply IH.
Qed.

Lemma propsOf_propsList h e : propsOf h e = default defaultProps (propsList h !! e).
Proof.
  unfold propsOf, propsList. rewrite list_lookup_fmap.
  destruct (effects h !! e); reflexivity.
Qed.

Lemma kept_refl h : kept h h.
Proof. repeat split. Qed.

Lemma kept_trans h1 h2 h3 : kept h1 h2 -> kept h2 h3 -> kept h1 h3.
Proof. intros (A1 & A2 & A3 & A4) (B1 & B2 & B3 & B4). repeat split; congruence. Qed.

Lemma delayOf_kept e h h' : kept h h' -> delayOf e h' = delayOf e h.
Proof.
  intros (_ & A2 & A3 & A4). unfold delayOf.
  rewrite !propsOf_propsList, A2, A3, A4. reflexivity.
Qed.

Lemma kept_retried e h1 h2 h3 : kept h1 h2 -> retried e h2 h3 -> retried e h1 h3.
Proof.
  intros K (B1 & B2 & B3 & B4). rewrite (delayOf_kept e _ _ K) in B1.
  destruct K as (A1 & A2 & A3 & A4). repeat split; congruence.
Qed.

Lemma kept_abortCurrent h : kept h (abortCurrent h).
Proof. unfold abortCurrent. destruct (abortControllerRef h); repeat split. Qed.

Lemma kept_clearPending h : kept h (clearPending h).
Proof.
  unfold clearPending. destruct (reconnectTimeoutRef h); [|apply kept_refl].
  split; [|repeat split]. unfold sched. simpl. apply map_alter_same.
  intros tm. destruct (t_state tm); reflexivity.
Qed.

Lemma kept_setStage c st h : kept h (setStage c st h).
Proof. repeat split. Qed.

Lemma kept_connectToStream e h : kept h (connectToStream e h).
Proof. unfold connectToStream. destruct (negb _); repeat split. Qed.

Lemma retried_scheduleReconnect e h : retried e h (scheduleReconnect Math_random e h).
Proof.
  unfold retried, scheduleReconnect, sched. simpl. rewrite map_app. repeat split.
Qed.

Lemma kept_cleanup e h : kept h (cleanup e h).
Proof.
  unfold cleanup. eapply kept_trans; [|apply kept_clearPending].
  eapply kept_trans; [|apply kept_abortCurrent].
  split; [reflexivity|]. split; [reflexivity|]. split; [reflexivity|].
  unfold propsList. simpl. apply map_alter_same. reflexivity.
Qed.

Lemma kept_timerFired t h : kept h (timerFired t h).
Proof.
  unfold timerFired. destruct (timers h !! t) as [tm|] eqn:Et; [|apply kept_refl].
  destruct (t_state tm); try apply kept_refl.
  set (h1 := set_timers _ h).
  assert (K1 : kept h h1).
  { split; [|repeat split]. unfold sched, h1. simpl.
    eapply map_insert_same; [exact Et | reflexivity]. }
  destruct (mounted h1 (t_effect tm) && shouldStreamOf h1 (t_effect tm)); [|exact K1].
  eapply kept_trans; [exact K1 | apply kept_connectToStream].
Qed.

Lemma kept_streamResolved c h : kept h (streamResolved c h).
Proof.
  unfold streamResolved. destruct (connections h !! c) as [cn|]; [|apply kept_refl].
  destruct (c_stage cn); repeat split.
Qed.

Lemma kept_streamItem c (event : TEvent) h : kept h (streamItem c event h).
Proof.
  unfold streamItem. destruct (connections h !! c) as [cn|]; [|apply kept_refl].
  destruct (c_stage cn); try apply kept_refl.
  destruct (negb _ || _); repeat split.
Qed.

Lemma handleError_schedule c cn err h :
  kept h (handleError Math_random c cn err h)
  \/ retried (c_effect cn) h (handleError Math_random c cn err h).
Proof.
  unfold handleError.
  destruct (negb _ || _); [left; repeat split|].
  match goal with |- context [if ?b then scheduleReconnect _ _ ?X else _] =>
    destruct b; [right | left] end.
  - eapply kept_retried; [|apply retried_scheduleReconnect]. repeat split.
  - destruct (negb _); repeat split.
Qed.

Lemma streamEnded_schedule c h :
  kept h (streamEnded Math_random c h)
  \/ exists cn, connections h !! c = Some cn
       /\ retried (c_effect cn) h (streamEnded Math_random c h).
Proof.
  unfold streamEnded. destruct (connections h !! c) as [cn|]; [|left; apply kept_refl].
  destruct (c_stage cn); try (left; apply kept_refl).
  match goal with |- context [if ?b then _ else _] => destruct b end.
  - right. exists cn. split; [reflexivity|].
    eapply kept_retried; [|apply retried_scheduleReconnect]. repeat split.
  - left. repeat split.
Qed.

Lemma render_schedule p h :
  sched (render p h) = sched h
  /\ currentAttemptRef (render p h) = currentAttemptRef h
  /\ randomCalls (render p h) = randomCalls h
  /\ (propsList (render p h) = propsList h \/ propsList (render p h) = propsList h ++ [p]).
Proof.
  unfold render.
  match goal with |- context [if ?b then h else _] => destruct b end;
    [repeat split; now left|].
  set (h1 := match currentEffect h with Some e => cleanup e h | None => h end).
  assert (K1 : kept h h1).
  { unfold h1. destruct (currentEffect h); [apply kept_cleanup | apply kept_refl]. }
  set (h2 := set_deps _ h1).
  assert (K2 : kept h h2) by exact K1.
  unfold runEffect.
  set (h3 := set_effects _ h2).
  assert (H3 : sched h3 = sched h /\ currentAttemptRef h3 = currentAttemptRef h
               /\ randomCalls h3 = randomCalls h /\ propsList h3 = propsList h ++ [p]).
  { destruct K1 as (A1 & A2 & A3 & A4).
    split; [exact A1|]. split; [exact A2|]. split; [exact A3|].
    unfold propsList in *. unfold h3, h2. simpl. rewrite map_app, A4. reflexivity. }
  assert (K3 : forall hx, kept h3 hx ->
            sched hx = sched h /\ currentAttemptRef hx = currentAttemptRef h
            /\ randomCalls hx = randomCalls h
            /\ (propsList hx = propsList h \/ propsList hx = propsList h ++ [p])).
  { intros hx (B1 & B2 & B3 & B4). destruct H3 as (A1 & A2 & A3 & A4).
    repeat split; try congruence. right. congruence. }
  destruct (shouldStream p (isVisible h2)).
  - apply K3, kept_connectToStream.
  - apply K3. eapply kept_trans; [|apply kept_abortCurrent]. repeat split.
Qed.

(** What one input does to the schedule. *)
Lemma step_schedule h (inp : @Input TEvent) :
  let h' := step Math_random h inp in
  match inp with
  | Render p =>
      sched h' = sched h /\ currentAttemptRef h' = currentAttemptRef h
      /\ randomCalls h' = randomCalls h
      /\ (propsList h' = propsList h \/ propsList h' = propsList h ++ [p])
  | Reconnect =>
      sched h' = sched h /\ currentAttemptRef h' = 0
      /\ randomCalls h' = randomCalls h /\ propsList h' = propsList h
  | _ =>
      kept h h'
      \/ exists c cn, connections h !! c = Some cn /\ retried (c_effect cn) h h'
  end.
Proof.
  destruct inp as [p|hidden| |n|c|c err|c event|c|c err|t]; simpl.
  - apply render_schedule.
  - left. repeat split.
  - unfold reconnect.
    destruct (kept_trans _ _ _ (kept_abortCurrent h) (kept_clearPending (abortCurrent h)))
      as (A1 & A2 & A3 & A4).
    repeat split; assumption.
  - left. repeat split.
  - left. apply kept_streamResolved.
  - unfold streamRejected. destruct (connections h !! c) as [cn|] eqn:E; [|left; apply kept_refl].
    destruct (c_stage cn); try (left; apply kept_refl).
    destruct (handleError_schedule c cn err h) as [K|R]; [now left|].
    right. exists c, cn. split; assumption.
  - left. apply kept_streamItem.
  - destruct (streamEnded_schedule c h) as [K|(cn & Hc & R)]; [now left|].
    right. exists c, cn. split; assumption.
  - unfold streamError. destruct (connections h !! c) as [cn|] eqn:E; [|left; apply kept_refl].
    destruct (c_stage cn); try (left; apply kept_refl).
    destruct (handleError_schedule c cn err h) as [K|R]; [now left|].
    right. exists c, cn. split; assumption.
  - left. apply kept_timerFired.
Qed.


Lemma sched_length h : length (sched h) = length (timers h).
Proof. apply length_map. Qed.

Lemma sched_lookup h t tm :
  timers h !! t = Some tm -> sched h !! t = Some (t_effect tm, t_delay tm).
Proof. intros H. unfold sched. rewrite list_lookup_fmap, H. reflexivity. Qed.

(** The schedule of a run: one [Math.random] draw per timer, the counter
    never ahead of the timers and level with them when [strict] (no
    [reconnect()] so far), every delay computed by the backoff formula for
    the attempt after the one counted before it. *)
Record scheduled (b m : Q) (strict : Prop) h : Prop := {
  scheduled_inv : inv h;
  scheduled_props : forall p, p ∈ propsList h -> baseDelay p = b /\ maxDelay p = m;
  scheduled_random : randomCalls h = length (timers h);
  scheduled_attempt : currentAttemptRef h <= length (timers h);
  scheduled_strict : strict -> currentAttemptRef h = length (timers h);
  scheduled_delay : forall t x, sched h !! t = Some x ->
      exists k, k <= t /\ (strict -> k = t)
        /\ snd x = Backoff.calculateBackoffWithJitter (S k) b m (1 # 4) (Math_random t)
}.

Lemma scheduled_kept b m strict h h' :
  scheduled b m strict h -> inv h' -> kept h h' -> scheduled b m strict h'.
Proof.
  intros [_ Hp Hr Ha Hs Hd] Hinv (K1 & K2 & K3 & K4).
  assert (Hlen : length (timers h') = length (timers h))
    by (rewrite <- !sched_length, K1; reflexivity).
  split; try assumption.
  - rewrite K4. exact Hp.
  - congruence.
  - rewrite K2, Hlen. exact Ha.
  - rewrite K2, Hlen. exact Hs.
  - rewrite K1. exact Hd.
Qed.

Lemma scheduled_retried b m strict h h' c cn :
  scheduled b m strict h -> inv h' ->
  connections h !! c = Some cn -> retried (c_effect cn) h h' ->
  scheduled b m strict h'.
Proof.
  intros [Hi Hp Hr Ha Hs Hd] Hinv Hc (K1 & K2 & K3 & K4).
  assert (Hlen : length (timers h') = S (length (timers h))).
  { rewrite <- !sched_length, K1, length_app. simpl. lia. }
  assert (Hprops : baseDelay (propsOf h (c_effect cn)) = b
                   /\ maxDelay (propsOf h (c_effect cn)) = m).
  { pose proof (inv_effect h Hi c cn Hc) as Hlt.
    destruct (lookup_lt_is_Some_2 (effects h) (c_effect cn) Hlt) as [ef Hef].
    unfold propsOf. rewrite Hef. apply Hp. unfold propsList.
    apply list_elem_of_fmap. exists ef. split; [reflexivity|].
    eapply list_elem_of_lookup_2, Hef. }
  split; try assumption.
  - rewrite K4. exact Hp.
  - rewrite K3, Hlen, Hr. reflexivity.
  - rewrite K2, Hlen. lia.
  - intros Hstrict. rewrite K2, Hlen, (Hs Hstrict). reflexivity.
  - intros t x. rewrite K1. intros H. apply lookup_snoc_Some in H as [H|[-> ->]].
    + apply Hd, H.
    + exists (currentAttemptRef h). rewrite sched_length. split; [exact Ha|].
      split; [exact Hs|]. unfold delayOf. simpl.
      destruct Hprops as [-> ->]. rewrite Hr. reflexivity.
Qed.

Lemma scheduled_step b m (strict : Prop) h (inp : @Input TEvent) :
  (forall p, inp = Render p -> baseDelay p = b /\ maxDelay p = m) ->
  (strict -> inp <> Reconnect) ->
  scheduled b m strict h -> scheduled b m strict (step Math_random h inp).
Proof.
  intros Hp Hs Hsc.
  assert (Hinv' : inv (step Math_random h inp)) by (apply step_inv, Hsc).
  pose proof (step_schedule h inp) as H. cbv zeta in H.
  destruct inp as [p|hidden| |n|c|c err|c event|c|c err|t];
    try (destruct H as [K|(c0 & cn & Hc & R)];
         [eapply scheduled_kept; eassumption | eapply scheduled_retried; eassumption]).
  - destruct H as (K1 & K2 & K3 & K4).
    destruct Hsc as [Hi Hpl Hr Ha Hst Hd].
    assert (Hlen : length (timers (step Math_random h (Render p))) = length (timers h))
      by (rewrite <- !sched_length, K1; reflexivity).
    split; try assumption.
    + intros q Hq. destruct K4 as [K4|K4]; rewrite K4 in Hq; [apply Hpl, Hq|].
      apply elem_of_app in Hq as [Hq|Hq]; [apply Hpl, Hq|].
      apply list_elem_of_singleton in Hq. subst q. apply Hp. reflexivity.
    + congruence.
    + rewrite K2, Hlen. exact Ha.
    + rewrite K2, Hlen. exact Hst.
    + rewrite K1. exact Hd.
  - destruct H as (K1 & K2 & K3 & K4).
    destruct Hsc as [Hi Hpl Hr Ha Hst Hd].
    assert (Hlen : length (timers (step Math_random h Reconnect)) = length (timers h))
      by (rewrite <- !sched_length, K1; reflexivity).
    split; try assumption.
    + rewrite K4. exact Hpl.
    + congruence.
    + rewrite K2. lia.
    + intros Hstrict. exfalso. now apply (Hs Hstrict).
    + rewrite K1. exact Hd.
Qed.

Lemma scheduled_run b m (strict : Prop) (inputs : list (@Input TEvent)) h :
  (forall p, Render p ∈ inputs -> baseDelay p = b /\ maxDelay p = m) ->
  (strict -> Reconnect ∉ inputs) ->
  scheduled b m strict h -> scheduled b m strict (run Math_random inputs h).
Proof.
  revert h. induction inputs as [|inp inputs IH]; intros h Hp Hs Hsc; [exact Hsc|].
  simpl. apply IH.
  - intros p Hin. apply Hp. now right.
  - intros Hstrict Hin. apply (Hs Hstrict). now right.
  - apply scheduled_step; [| |exact Hsc].
    + intros p ->. apply Hp. left.
    + intros Hstrict ->. apply (Hs Hstrict). left.
Qed.

Lemma scheduled_initial b m strict documentHidden :
  scheduled b m strict (initial (TEvent := TEvent) documentHidden).
Proof.
  split; try reflexivity.
  - apply inv_initial.
  - intros p H. inversion H.
  - intros t x H. inversion H.
Qed.

(** X22: for a hook rendered with
    one [baseDelay] and one [maxDelay], every backoff timer it arms waits
    [calculateBackoffWithJitter] of an attempt number that is at least 1
    (the counter is incremented before the delay is computed), with 25%
    jitter and a [Math.random] draw of its own; without [reconnect()] the
    n-th timer uses attempt n.  So, for doubles [baseDelay] and [maxDelay]
    with [maxDelay] at most 2^50 and reached before [2 ** attempt]
    overflows, no retry waits more than [Math.round] of the double
    [maxDelay + maxDelay * 0.25], and, to within one for the rounding of
    the doubles, none waits less than three quarters of
    min(2 * baseDelay, maxDelay) or more than five quarters of
    [maxDelay]. *)
Theorem retry_delays_follow_the_backoff_formula
    (b m : Q) (documentHidden : option bool) (inputs : list (@Input TEvent)) :
  (forall p, Render p ∈ inputs -> baseDelay p = b /\ maxDelay p = m) ->
  let h := run Math_random inputs (initial documentHidden) in
  forall t tm, timers h !! t = Some tm ->
    (exists k, k <= t /\ (Reconnect ∉ inputs -> k = t)
       /\ t_delay tm
          = Backoff.calculateBackoffWithJitter (S k) b m (1 # 4) (Math_random t))
    /\ (Backoff.double b -> Backoff.double m -> (0 < b)%Q -> (0 < m)%Q ->
        (m <= inject_Z (2 ^ 50))%Q -> (m <= b * 2 ^ 1024)%Q ->
        (0 <= Math_random t <= 1)%Q ->
        (t_delay tm
         <= Backoff.Math_round (Backoff.fadd m (Backoff.fmul m (1 # 4))))%Z
        /\ (Backoff.Math_round (Backoff.calculateBackoff 1 b m * (3 # 4)) - 1
            <= t_delay tm <= Backoff.Math_round (m * (5 # 4)) + 1)%Z).
Proof.
  intros Hp h t tm Ht.
  assert (Hsc : scheduled b m (Reconnect ∉ inputs) h).
  { apply scheduled_run; [exact Hp | trivial | apply scheduled_initial]. }
  destruct (scheduled_delay _ _ _ _ Hsc t _ (sched_lookup h t tm Ht)) as (k & Hk & Hst & Hd).
  simpl in Hd. split.
  - exists k. split; [exact Hk|]. split; [exact Hst | exact Hd].
  - intros Db Dm Hb Hm H50 _ Hr. rewrite Hd.
    destruct (Backoff.calculateBackoffWithJitter_retry_bounds k b m (Math_random t))
      as [U N]; try assumption.
    split; [exact U | exact (N H50)].
Qed.

(** X23: the attempt counter is
    the number of retries scheduled since the last [reconnect()]: in every
    run it is at most the number of timers armed so far, each of which took
    one [Math.random] draw, and without a [reconnect()] it equals that
    number.  In particular a successful connection does not reset it: only
    [reconnect()] does. *)
Theorem attempt_counter_counts_scheduled_retries
    (documentHidden : option bool) (inputs : list (@Input TEvent)) :
  let h := run Math_random inputs (initial documentHidden) in
  randomCalls h = length (timers h)
  /\ currentAttemptRef h <= length (timers h)
  /\ (Reconnect ∉ inputs -> currentAttemptRef h = length (timers h))
  /\ (forall inp, inp <> Reconnect ->
        currentAttemptRef h <= currentAttemptRef (step Math_random h inp))
  /\ (forall c, currentAttemptRef (step Math_random h (StreamResolved c))
                = currentAttemptRef h).
Proof.
  intros h.
  assert (Hgen : forall (strict : Prop) (l : list (@Input TEvent)) h0,
            (strict -> Reconnect ∉ l) ->
            (randomCalls h0 = length (timers h0)
             /\ currentAttemptRef h0 <= length (timers h0)
             /\ (strict -> currentAttemptRef h0 = length (timers h0))) ->
            let h1 := run Math_random l h0 in
            randomCalls h1 = length (timers h1)
            /\ currentAttemptRef h1 <= length (timers h1)
            /\ (strict -> currentAttemptRef h1 = length (timers h1))).
  { intros strict l. induction l as [|inp l IH]; intros h0 Hs H0; [exact H0|].
    simpl. apply IH; [intros Hstrict Hin; apply (Hs Hstrict); now right|].
    destruct H0 as (Hr & Ha & Hst).
    pose proof (step_schedule h0 inp) as H. cbv zeta in H.
    assert (Hk : forall hx, kept h0 hx ->
              randomCalls hx = length (timers hx)
              /\ currentAttemptRef hx <= length (timers hx)
              /\ (strict -> currentAttemptRef hx = length (timers hx))).
    { intros hx (K1 & K2 & K3 & K4).
      assert (Hlen : length (timers hx) = length (timers h0))
        by (rewrite <- !sched_length, K1; reflexivity).
      rewrite K2, K3, Hlen. repeat split; assumption. }
    assert (Hre : forall e hx, retried e h0 hx ->
              randomCalls hx = length (timers hx)
              /\ currentAttemptRef hx <= length (timers hx)
              /\ (strict -> currentAttemptRef hx = length (timers hx))).
    { intros e hx (K1 & K2 & K3 & K4).
      assert (Hlen : length (timers hx) = S (length (timers h0))).
      { rewrite <- !sched_length, K1, length_app. simpl. lia. }
      rewrite K2, K3, Hlen. split; [lia|]. split; [lia|].
      intros Hstrict. rewrite (Hst Hstrict). reflexivity. }
    destruct inp as [p|hidden| |n|c|c err|c event|c|c err|t];
      try (destruct H as [K|(c0 & cn & _ & R)]; [apply Hk, K | eapply Hre, R]).
    - destruct H as (K1 & K2 & K3 & _).
      assert (Hlen : length (timers (step Math_random h0 (Render p))) = length (timers h0))
        by (rewrite <- !sched_length, K1; reflexivity).
      rewrite K2, K3, Hlen. repeat split; assumption.
    - destruct H as (K1 & K2 & K3 & _).
      assert (Hlen : length (timers (step Math_random h0 Reconnect)) = length (timers h0))
        by (rewrite <- !sched_length, K1; reflexivity).
      rewrite K2, K3, Hlen. split; [exact Hr|]. split; [lia|].
      intros Hstrict. exfalso. apply (Hs Hstrict). left. }
  destruct (Hgen (Reconnect ∉ inputs) inputs (initial documentHidden))
    as (H1 & H2 & H3); [trivial | repeat split; simpl; lia |].
  fold h in H1, H2, H3.
  split; [exact H1|]. split; [exact H2|]. split; [exact H3|]. split.
  - intros inp Hne. pose proof (step_schedule h inp) as H. cbv zeta in H.
    destruct inp as [p|hidden| |n|c|c err|c event|c|c err|t]; try congruence;
      try (destruct H as [(_ & K2 & _)|(c0 & cn & _ & (_ & K2 & _))]; rewrite K2; lia).
    destruct H as (_ & K2 & _). rewrite K2. lia.
  - intros c. destruct (kept_streamResolved c h) as (_ & K2 & _). exact K2.
Qed.


(** *** Visibility without [pauseOnHidden] *)

Lemma Num_eqb_refl n : Num_eqb n n = true.
Proof. destruct n; simpl; [apply Z.eqb_refl | reflexivity]. Qed.

Lemma option_nat_eqb_refl o : option_nat_eqb o o = true.
Proof. destruct o; simpl; [apply Nat.eqb_refl | reflexivity]. Qed.

Lemma Qeq_bool_refl q : Qeq_bool q q = true.
Proof. apply Qeq_bool_iff. reflexivity. Qed.

(** Without [pauseOnHidden] the dependency list does not see the page's
    visibility. *)
Lemma deps_eqb_visibility p v v' :
  pauseOnHidden p = false -> deps_eqb (depsOf p v) (depsOf p v') = true.
Proof.
  intros Hp. unfold deps_eqb, depsOf, shouldStream. cbn [d_shouldStream d_baseDelay
    d_externalSignal d_maxDelay d_maxRetries d_identity]. rewrite Hp. cbn [negb orb].
  rewrite !Qeq_bool_refl, option_nat_eqb_refl, Num_eqb_refl, Nat.eqb_refl.
  destruct (enabled p); reflexivity.
Qed.

(** X24: with
    [pauseOnHidden = false], the page becoming hidden or visible changes the
    [isVisible] cell and nothing else: the render that follows leaves the
    dependency list as it is, so the effect is not re-run, the connection is
    not aborted, no timer is cleared and no call is made. *)
Theorem visibility_is_ignored_without_pauseOnHidden (p : Props) h (hidden : bool) :
  pauseOnHidden p = false ->
  deps h = Some (depsOf p (isVisible h)) ->
  run Math_random [VisibilityChange hidden; Render p] h = set_isVisible (negb hidden) h.
Proof.
  intros Hp Hd. cbn [run fold_left step]. unfold handleVisibilityChange, render.
  cbn [deps set_isVisible isVisible]. rewrite Hd.
  rewrite deps_eqb_visibility by exact Hp. reflexivity.
Qed.

End MoreProperties.

(** A disabled hook through a visibility change, a [reconnect()] and a
    re-render. *)
Lemma disabled_hook_never_calls_streamFn_witness :
  let p := {| maxRetries := Infinity; baseDelay := 1000; maxDelay := 30000;
              enabled := false; pauseOnHidden := true; shouldRetry := None;
              externalSignal := None; identity := 0 |} in
  calls (run (TEvent := nat) half
           [Render p; VisibilityChange true; Reconnect; Render p; TimerFired 0]
           (initial None)) = [].
Proof.
  intros p.
  pose proof (disabled_hook_never_calls_streamFn (TEvent := nat) half None
                [Render p; VisibilityChange true; Reconnect; Render p; TimerFired 0]) as H.
  cbv zeta in H. destruct H as (H & _); [|exact H].
  intros q Hq.
  repeat (apply elem_of_cons in Hq as [Hq|Hq];
          [first [discriminate | injection Hq as ->; reflexivity]|]).
  inversion Hq.
Defined.

(** The stream of a connected hook with [maxRetries = 0] ends: a retry is
    scheduled all the same. *)
Lemma graceful_end_always_schedules_a_retry_witness :
  let h := run (TEvent := nat) half [Render (withMaxRetries 0); StreamResolved 0]
             (initial None) in
  phase (streamEnded half 0 h) = Reconnecting
  /\ currentAttemptRef (streamEnded half 0 h) = 1.
Proof.
  intros h.
  assert (Hinv : inv h) by apply run_inv, inv_initial.
  pose proof (graceful_end_always_schedules_a_retry half 0
                {| c_effect := 0; c_aborted := false; c_stage := Consuming |} h Hinv) as H.
  cbv zeta in H.
  destruct H as (_ & Ha & _ & _ & _ & Hp);
    [reflexivity | reflexivity | reflexivity | reflexivity |].
  split; [exact Hp | exact Ha].
Defined.

(** One failure with the default delays: the timer waits 2000 ms, not
    1000 ms. *)
Lemma retry_delays_follow_the_backoff_formula_witness :
  let h := run (TEvent := nat) half [Render defaultProps; StreamRejected 0 "down"]
             (initial None) in
  (t_delay <$> timers h !! 0) = Some 2000%Z
  /\ (Backoff.Math_round (Backoff.calculateBackoff 1 1000 30000 * (3 # 4)) - 1
      <= 2000 <= Backoff.Math_round (30000 * (5 # 4)) + 1)%Z.
Proof.
  intros h.
  pose proof (retry_delays_follow_the_backoff_formula (TEvent := nat) half
                1000%Q 30000%Q None
                [Render defaultProps; StreamRejected 0 "down"]) as H.
  cbv zeta in H.
  assert (Hp : forall p,
             Render (TEvent := nat) p ∈ [Render defaultProps; StreamRejected 0 "down"] ->
             baseDelay p = 1000%Q /\ maxDelay p = 30000%Q).
  { intros q Hq. apply elem_of_cons in Hq as [Hq|Hq];
      [injection Hq as ->; split; reflexivity|].
    apply elem_of_cons in Hq as [Hq|Hq]; [discriminate | inversion Hq]. }
  specialize (H Hp 0 {| t_effect := 0; t_delay := 2000; t_state := Armed |}).
  destruct H as [_ Hb]; [vm_compute; reflexivity|].
  split; [vm_compute; reflexivity|].
  apply Hb; [vm_compute; reflexivity | vm_compute; reflexivity | reflexivity | reflexivity
            | vm_compute; discriminate | vm_compute; discriminate | split; discriminate].
Defined.

(** A connected hook that does not pause when hidden. *)
Lemma visibility_is_ignored_without_pauseOnHidden_witness :
  let p := {| maxRetries := Infinity; baseDelay := 1000; maxDelay := 30000;
              enabled := true; pauseOnHidden := false; shouldRetry := None;
              externalSignal := None; identity := 0 |} in
  let h := run (TEvent := nat) half [Render p; StreamResolved 0] (initial None) in
  phase (run half [VisibilityChange true; Render p] h) = Connected.
Proof.
  intros p h.
  rewrite (visibility_is_ignored_without_pauseOnHidden half p h true);
    [vm_compute; reflexivity | reflexivity | vm_compute; reflexivity].
Defined.

End Reconnect.

(* ===================================================================== *)
(** ** React Query integration (client/integrations/reactQuery.ts) *)
(* ===================================================================== *)

Module ReactQuery.

Section Integration.

Context {TEvent : Type}.

(** [UseStreamInvalidationOptions]: which of the optional callbacks are
    given, and the options passed on to [useAutoReconnectStream]. *)
Record Options := {
  invalidate : bool;
  updateCache : bool;
  onData : bool;
  streamOptions : Reconnect.Props
}.

(** The calls the wrapped [onData] makes. *)
Inductive CacheCall :=
| CallUpdateCache (event : TEvent)
| CallInvalidate (event : TEvent)
| CallOnData (event : TEvent) (reconnectAttempt : nat).

(** Lines 103-114, the [onData] given to [useAutoReconnectStream]:
    [updateCache?.(...)], [invalidate?.(...)], [streamOptions.onData?.(...)]. *)
Definition onDataWrapper (o : Options) (event : TEvent) (reconnectAttempt : nat)
    : list CacheCall :=
  (if updateCache o then [CallUpdateCache event] else [])
  ++ (if invalidate o then [CallInvalidate event] else [])
  ++ (if onData o then [CallOnData event reconnectAttempt] else []).

(** The component that calls [useStreamInvalidation]: the state of the
    inner hook, and the number of [onData] closures created so far.  The
    arrow function of line 103 is a new object on every render; the closure
    created by render number [n] is identified by [n]. *)
Record Component := {
  hook : @Reconnect.Hook TEvent;
  closures : nat
}.

Definition initial (documentHidden : option bool) : Component :=
  {| hook := Reconnect.initial documentHidden; closures := 0 |}.

(** The options as [useAutoReconnectStream] receives them: among the
    identities its effect depends on is that of the new closure, so the
    whole differs from that of every earlier render. *)
Definition passedOptions (closure : nat) (p : Reconnect.Props) : Reconnect.Props :=
  {| Reconnect.maxRetries := Reconnect.maxRetries p;
     Reconnect.baseDelay := Reconnect.baseDelay p;
     Reconnect.maxDelay := Reconnect.maxDelay p;
     Reconnect.enabled := Reconnect.enabled p;
     Reconnect.pauseOnHidden := Reconnect.pauseOnHidden p;
     Reconnect.shouldRetry := Reconnect.shouldRetry p;
     Reconnect.externalSignal := Reconnect.externalSignal p;
     Reconnect.identity := closure |}.

(** Lines 92-116: one render of the component. *)
Definition useStreamInvalidation (o : Options) (st : Component) : Component :=
  {| hook := Reconnect.render (passedOptions (closures st) (streamOptions o)) (hook st);
     closures := S (closures st) |}.

(** What the wrapped [onData] has done, given the calls of the inner hook. *)
Definition cacheCalls (o : Options) (h : @Reconnect.Hook TEvent) : list CacheCall :=
  flat_map (fun c => match c with
                     | Reconnect.CallOnData event attempt => onDataWrapper o event attempt
                     | _ => []
                     end) (Reconnect.calls h).

Variable Math_random : nat -> Q.

(** What happens to the component: a render with some options, or anything
    that happens to the inner hook.  The inner hook is rendered by the
    component only. *)
Inductive Input :=
| Rendered (o : Options)
| Happened (inp : @Reconnect.Input TEvent).

Definition isRender (inp : @Reconnect.Input TEvent) : bool :=
  match inp with
  | Reconnect.Render _ => true
  | _ => false
  end.

Definition step (st : Component) (inp : Input) : Component :=
  match inp with
  | Rendered o => useStreamInvalidation o st
  | Happened inp =>
      if isRender inp then st
      else {| hook := Reconnect.step Math_random (hook st) inp; closures := closures st |}
  end.

Definition run (inputs : list Input) (st : Component) : Component :=
  fold_left step inputs st.

End Integration.

Arguments Options : clear implicits.
Arguments Component : clear implicits.
Arguments Input : clear implicits.

Section Properties.

Context {TEvent : Type}.
Variable Math_random : nat -> Q.

Implicit Types (st : Component TEvent) (h : @Reconnect.Hook TEvent).

(** Nothing but a render changes the committed dependency list. *)
Lemma deps_step h (inp : @Reconnect.Input TEvent) :
  isRender inp = false ->
  Reconnect.deps (Reconnect.step Math_random h inp) = Reconnect.deps h.
Proof.
  destruct inp as [p|hidden| |n|c|c err|c event|c|c err|t]; simpl; intros Hr;
    try discriminate; try reflexivity.
  - unfold Reconnect.reconnect. simpl.
    unfold Reconnect.clearPending, Reconnect.abortCurrent.
    destruct (Reconnect.abortControllerRef h); simpl;
      destruct (Reconnect.reconnectTimeoutRef h); reflexivity.
  - unfold Reconnect.streamResolved. destruct (_ !! c) as [cn|]; [|reflexivity].
    destruct (Reconnect.c_stage cn); reflexivity.
  - unfold Reconnect.streamRejected. destruct (_ !! c) as [cn|]; [|reflexivity].
    destruct (Reconnect.c_stage cn); try reflexivity.
    unfold Reconnect.handleError.
    repeat match goal with |- context [if ?b then _ else _] => destruct b end; reflexivity.
  - unfold Reconnect.streamItem. destruct (_ !! c) as [cn|]; [|reflexivity].
    destruct (Reconnect.c_stage cn); try reflexivity.
    destruct (negb _ || _); reflexivity.
  - unfold Reconnect.streamEnded. destruct (_ !! c) as [cn|]; [|reflexivity].
    destruct (Reconnect.c_stage cn); try reflexivity.
    match goal with |- context [if ?b then _ else _] => destruct b end; reflexivity.
  - unfold Reconnect.streamError. destruct (_ !! c) as [cn|]; [|reflexivity].
    destruct (Reconnect.c_stage cn); try reflexivity.
    unfold Reconnect.handleError.
    repeat match goal with |- context [if ?b then _ else _] => destruct b end; reflexivity.
  - unfold Reconnect.timerFired. destruct (_ !! t) as [tm|]; [|reflexivity].
    destruct (Reconnect.t_state tm); try reflexivity.
    match goal with |- context [if ?b then _ else _] => destruct b end; [|reflexivity].
    unfold Reconnect.connectToStream. destruct (negb _); reflexivity.
Qed.

(** The inner hook's invariant, and: the dependency list in place belongs
    to a closure created earlier. *)
Definition sound st : Prop :=
  Reconnect.inv (hook st)
  /\ forall d, Reconnect.deps (hook st) = Some d -> Reconnect.d_identity d < closures st.

Lemma sound_initial_component documentHidden : sound (initial (TEvent := TEvent) documentHidden).
Proof. split; [apply Reconnect.inv_initial | discriminate]. Qed.

(** A render through the component always finds the dependency list
    changed. *)
Lemma deps_changed st (p : Reconnect.Props) :
  sound st ->
  match Reconnect.deps (hook st) with
  | Some d0 =>
      Reconnect.deps_eqb d0
        (Reconnect.depsOf (passedOptions (closures st) p) (Reconnect.isVisible (hook st)))
  | None => false
  end = false.
Proof.
  intros [_ Hd]. destruct (Reconnect.deps (hook st)) as [d0|]; [|reflexivity].
  specialize (Hd d0 eq_refl). unfold Reconnect.deps_eqb. simpl.
  replace (Reconnect.d_identity d0 =? closures st) with false;
    [apply andb_false_r|].
  symmetry. apply Nat.eqb_neq. lia.
Qed.

Lemma deps_render (p : Reconnect.Props) h :
  match Reconnect.deps h with
  | Some d0 => Reconnect.deps_eqb d0 (Reconnect.depsOf p (Reconnect.isVisible h))
  | None => false
  end = false ->
  Reconnect.deps (Reconnect.render p h)
  = Some (Reconnect.depsOf p (Reconnect.isVisible h)).
Proof.
  intros H. unfold Reconnect.render. rewrite H.
  set (h1 := match Reconnect.currentEffect h with
             | Some e => Reconnect.cleanup e h
             | None => h
             end).
  assert (Hv : Reconnect.isVisible h1 = Reconnect.isVisible h).
  { unfold h1. destruct (Reconnect.currentEffect h) as [e|]; [|reflexivity].
    destruct (Reconnect.cleanup_counters e h) as (_ & _ & _ & Hv & _). exact Hv. }
  unfold Reconnect.runEffect.
  match goal with |- context [if ?b then _ else _] => destruct b end.
  - unfold Reconnect.connectToStream. destruct (negb _); reflexivity.
  - unfold Reconnect.abortCurrent. simpl.
    destruct (Reconnect.abortControllerRef h1); reflexivity.
Qed.

Lemma sound_step_component st inp : sound st -> sound (step Math_random st inp).
Proof.
  intros Hs. pose proof Hs as [Hinv Hd]. destruct inp as [o|inp]; simpl.
  - split; simpl.
    + apply Reconnect.render_inv, Hinv.
    + intros d. rewrite deps_render by (apply deps_changed, Hs).
      intros [= <-]. simpl. lia.
  - destruct (isRender inp) eqn:Er; [exact Hs|]. split; simpl.
    + apply Reconnect.step_inv, Hinv.
    + rewrite deps_step by exact Er. exact Hd.
Qed.

Lemma sound_run_component inputs st : sound st -> sound (run Math_random inputs st).
Proof.
  revert st. induction inputs as [|inp inputs IH]; intros st Hs; [exact Hs|].
  simpl. apply IH, sound_step_component, Hs.
Qed.

(** X25: a component that uses
    [useStreamInvalidation] passes a new [onData] closure on every render,
    and the closure is a dependency of the inner hook's effect.  So every
    render that should stream tears the connection in place down and calls
    [streamFn] again: every connection opened before is dead, no timer stays
    armed, the hook is back at Connecting, and the attempt counter is what it
    was. *)
Theorem every_render_restarts_the_stream
    (documentHidden : option bool) (inputs : list (Input TEvent)) (o : Options) :
  let st := run Math_random inputs (initial documentHidden) in
  let st' := useStreamInvalidation o st in
  Reconnect.shouldStream (streamOptions o) (Reconnect.isVisible (hook st)) = true ->
  Reconnect.signalAborted (hook st) (Reconnect.externalSignal (streamOptions o)) = false ->
  Reconnect.calls (hook st') = Reconnect.calls (hook st) ++ [Reconnect.CallStreamFn]
  /\ length (Reconnect.connections (hook st')) = S (length (Reconnect.connections (hook st)))
  /\ (forall c cn, c < length (Reconnect.connections (hook st)) ->
        Reconnect.connections (hook st') !! c = Some cn ->
        Reconnect.live (hook st') cn = false)
  /\ (forall t tm, Reconnect.timers (hook st') !! t = Some tm -> Reconnect.armed tm = false)
  /\ Reconnect.phase (hook st') = Reconnect.Connecting
  /\ Reconnect.currentAttemptRef (hook st') = Reconnect.currentAttemptRef (hook st).
Proof.
  intros st st' Hss Hsig.
  assert (Hs : sound st) by apply sound_run_component, sound_initial_component.
  pose proof Hs as [Hinv _].
  set (h := hook st) in *.
  set (p := passedOptions (closures st) (streamOptions o)).
  assert (Hh' : hook st' = Reconnect.runEffect p
                  (Reconnect.set_deps
                     (Some (Reconnect.depsOf p (Reconnect.isVisible h)))
                     (Reconnect.cleaned h))).
  { unfold st', useStreamInvalidation. simpl. fold h p.
    apply Reconnect.render_changed. apply deps_changed, Hs. }
  destruct (Reconnect.cleaned_spec h Hinv) as (Hinv1 & Hu1 & Hqt1 & Hsame).
  destruct Hsame as (Hcalls & Hatt & _ & Hvis & Hab & Hlen & _).
  set (h1 := Reconnect.set_deps _ (Reconnect.cleaned h)) in Hh'.
  assert (Hinv1' : Reconnect.inv h1).
  { apply (Reconnect.inv_frame (Reconnect.cleaned h)); try reflexivity. exact Hinv1. }
  destruct (Reconnect.runEffect_streaming p h1 Hinv1' Hu1 Hqt1)
    as (Hinv' & Hconn & Hc & Ha & _ & Hctl & Htm & Hph).
  { change (Reconnect.isVisible h1) with (Reconnect.isVisible (Reconnect.cleaned h)).
    rewrite Hvis. exact Hss. }
  { unfold Reconnect.signalAborted.
    change (Reconnect.abortedSignals h1) with (Reconnect.abortedSignals (Reconnect.cleaned h)).
    rewrite Hab. exact Hsig. }
  rewrite Hh'. split; [|split; [|split; [|split; [|split]]]].
  - rewrite Hc. change (Reconnect.calls h1) with (Reconnect.calls (Reconnect.cleaned h)).
    now rewrite Hcalls.
  - rewrite Hconn, length_app. simpl.
    change (Reconnect.connections h1) with (Reconnect.connections (Reconnect.cleaned h)).
    rewrite Hlen. lia.
  - intros c cn Hlt Hcn.
    destruct (Reconnect.live (Reconnect.runEffect p h1) cn) eqn:El; [|reflexivity].
    pose proof (Reconnect.inv_live _ Hinv' c cn Hcn El) as Hr.
    rewrite Hctl in Hr. injection Hr as Hr.
    change (Reconnect.connections h1) with (Reconnect.connections (Reconnect.cleaned h)) in Hr.
    rewrite Hlen in Hr. lia.
  - intros t tm. rewrite Htm. apply Hqt1.
  - exact Hph.
  - rewrite Ha. exact Hatt.
Qed.

(** X26: an item of the
    connection in place makes the wrapped [onData] run [updateCache], then
    [invalidate], then the caller's [onData] (each if given), once each, with
    the current attempt count; an item of a connection that was torn down
    reaches none of them. *)
Theorem stream_items_reach_the_cache_callbacks_in_order
    (o : Options) h (c : nat) (cn : Reconnect.Connection) (event : TEvent) :
  Reconnect.connections h !! c = Some cn ->
  Reconnect.c_stage cn = Reconnect.Consuming ->
  let h' := Reconnect.step Math_random h (Reconnect.StreamItem c event) in
  cacheCalls o h'
  = cacheCalls o h
    ++ (if Reconnect.live h cn
        then (if updateCache o then [CallUpdateCache event] else [])
             ++ (if invalidate o then [CallInvalidate event] else [])
             ++ (if onData o
                 then [CallOnData event (Reconnect.currentAttemptRef h)] else [])
        else []).
Proof.
  intros Hc Hst h'. unfold h'. simpl. unfold Reconnect.streamItem. rewrite Hc, Hst.
  unfold Reconnect.live. rewrite Hst.
  destruct (Reconnect.mounted h (Reconnect.c_effect cn)); simpl.
  - destruct (Reconnect.combinedAborted h cn); simpl.
    + unfold cacheCalls. simpl. now rewrite app_nil_r.
    + unfold cacheCalls. simpl. rewrite flat_map_app. simpl.
      rewrite app_nil_r. reflexivity.
  - unfold cacheCalls. simpl. now rewrite app_nil_r.
Qed.

End Properties.

(** The stream connects, the component renders again (as React does after
    [setIsConnected(true)]): the connection that had just connected is dead
    and [streamFn] has been called a second time. *)
Lemma every_render_restarts_the_stream_witness :
  let o := {| invalidate := true; updateCache := false; onData := false;
              streamOptions := Reconnect.defaultProps |} in
  let st := run (TEvent := nat) Reconnect.half
              [Rendered o; Happened (Reconnect.StreamResolved 0)] (initial None) in
  let st' := useStreamInvalidation o st in
  Reconnect.phase (hook st) = Reconnect.Connected
  /\ Reconnect.phase (hook st') = Reconnect.Connecting
  /\ Reconnect.count Reconnect.isStreamFn (hook st') = 2.
Proof.
  intros o st st'.
  pose proof (every_render_restarts_the_stream (TEvent := nat) Reconnect.half None
                [Rendered o; Happened (Reconnect.StreamResolved 0)] o) as H.
  cbv zeta in H. destruct H as (Hc & _ & _ & _ & Hp & _); [reflexivity | reflexivity |].
  split; [vm_compute; reflexivity|]. split; [exact Hp|].
  unfold Reconnect.count. fold st st' in Hc. rewrite Hc. vm_compute. reflexivity.
Defined.

(** An item on the connected stream, with [updateCache] and [onData]. *)
Lemma stream_items_reach_the_cache_callbacks_in_order_witness :
  let o := {| invalidate := false; updateCache := true; onData := true;
              streamOptions := Reconnect.defaultProps |} in
  let h := Reconnect.run (TEvent := nat) Reconnect.half
             [Reconnect.Render Reconnect.defaultProps; Reconnect.StreamResolved 0]
             (Reconnect.initial None) in
  cacheCalls o (Reconnect.step Reconnect.half h (Reconnect.StreamItem 0 7))
  = [CallUpdateCache 7; CallOnData 7 0].
Proof.
  intros o h.
  rewrite (stream_items_reach_the_cache_callbacks_in_order Reconnect.half o h 0
             {| Reconnect.c_effect := 0; Reconnect.c_aborted := false;
                Reconnect.c_stage := Reconnect.Consuming |} 7);
    [vm_compute; reflexivity | reflexivity | reflexivity].
Defined.

End ReactQuery.

(* ===================================================================== *)
(** ** The EventSource hook (client/hooks/useSSEConnection.ts) and its use
       by useSSEQueryInvalidation *)
(* ===================================================================== *)

Module SSEConnection.

(** How a call of [onEvent] ends. *)
Inductive Result := Returns | Throws.

Section Hook.

Context {TEvent : Type}.

(** The three callbacks of one render.  [callback] identifies the
    [onEvent] function object; the two optional callbacks are given or
    not. *)
Record Callbacks := {
  callback : nat;
  onEvent : TEvent -> Result;
  onConnectionChange : bool;
  onError : bool
}.

(** [SSEConnectionOptions], [enabled] defaulted. *)
Record SSEConnectionOptions := {
  endpoint : string;
  callbacks : Callbacks;
  enabled : bool
}.

(** An [EventSource] object: its URL and whether [close()] was called. *)
Record EventSource := {
  url : string;
  closed : bool
}.

(** The calls the hook makes on its environment, in order. *)
Inductive Call :=
| CallOnEvent (callback : nat) (event : TEvent)
| CallConsoleError
| CallOnConnectionChange (connected : bool)
| CallOnError.

(** The state of one hook: whether [window] exists, the [connected] cell,
    [eventSourceRef], the source the pending cleanup closes, the callback
    refs, the committed dependency list [[endpoint, enabled]], every
    [EventSource] created so far, and the calls made. *)
Record Hook := {
  isClient : bool;
  connected : bool;
  eventSourceRef : option nat;
  cleanup : option nat;
  refs : option Callbacks;
  deps : option (string * bool);
  sources : list EventSource;
  calls : list Call
}.

Definition initial (isClient : bool) : Hook :=
  {| isClient := isClient; connected := false; eventSourceRef := None; cleanup := None;
     refs := None; deps := None; sources := []; calls := [] |}.

Definition set_connected (v : bool) (h : Hook) : Hook :=
  {| isClient := isClient h; connected := v; eventSourceRef := eventSourceRef h;
     cleanup := cleanup h; refs := refs h; deps := deps h; sources := sources h;
     calls := calls h |}.

Definition set_eventSourceRef (v : option nat) (h : Hook) : Hook :=
  {| isClient := isClient h; connected := connected h; eventSourceRef := v;
     cleanup := cleanup h; refs := refs h; deps := deps h; sources := sources h;
     calls := calls h |}.

Definition set_cleanup (v : option nat) (h : Hook) : Hook :=
  {| isClient := isClient h; connected := connected h; eventSourceRef := eventSourceRef h;
     cleanup := v; refs := refs h; deps := deps h; sources := sources h;
     calls := calls h |}.

Definition set_refs (v : option Callbacks) (h : Hook) : Hook :=
  {| isClient := isClient h; connected := connected h; eventSourceRef := eventSourceRef h;
     cleanup := cleanup h; refs := v; deps := deps h; sources := sources h;
     calls := calls h |}.

Definition set_deps (v : option (string * bool)) (h : Hook) : Hook :=
  {| isClient := isClient h; connected := connected h; eventSourceRef := eventSourceRef h;
     cleanup := cleanup h; refs := refs h; deps := v; sources := sources h;
     calls := calls h |}.

Definition set_sources (v : list EventSource) (h : Hook) : Hook :=
  {| isClient := isClient h; connected := connected h; eventSourceRef := eventSourceRef h;
     cleanup := cleanup h; refs := refs h; deps := deps h; sources := v;
     calls := calls h |}.

Definition log (c : Call) (h : Hook) : Hook :=
  {| isClient := isClient h; connected := connected h; eventSourceRef := eventSourceRef h;
     cleanup := cleanup h; refs := refs h; deps := deps h; sources := sources h;
     calls := calls h ++ [c] |}.

(** React's comparison of [[endpoint, enabled]] with the committed list. *)
Definition same_deps (d0 : option (string * bool)) (d : string * bool) : bool :=
  match d0 with
  | Some (e0, b0) => String.eqb e0 (fst d) && Bool.eqb b0 (snd d)
  | None => false
  end.

(** Lines 84-88, the cleanup the effect returned, if it returned one. *)
Definition runCleanup (h : Hook) : Hook :=
  match cleanup h with
  | Some s =>
      let h := set_sources
                 (alter (fun es => {| url := url es; closed := true |}) s (sources h)) h in
      let h := set_eventSourceRef None h in
      let h := set_connected false h in
      set_cleanup None h
  | None => h
  end.

(** One render, committed: the effect of lines 45-49 stores the callbacks;
    the effect of lines 51-89 runs when [endpoint] or [enabled] changed,
    after the cleanup of its previous run. *)
Definition render (o : SSEConnectionOptions) (h : Hook) : Hook :=
  let h := set_refs (Some (callbacks o)) h in
  let d := (endpoint o, enabled o) in
  if same_deps (deps h) d then h
  else
    let h := runCleanup h in
    let h := set_deps (Some d) h in
    if negb (isClient h) || negb (enabled o) then h
    else
      let s := length (sources h) in
      let h := set_sources (sources h ++ [{| url := endpoint o; closed := false |}]) h in
      let h := set_eventSourceRef (Some s) h in
      set_cleanup (Some s) h.

(** The component unmounts (or React re-runs the effects in strict mode):
    the cleanup runs and no dependency list is committed any more. *)
Definition unmount (h : Hook) : Hook := set_deps None (runCleanup h).

(** An [EventSource] dispatches events until it is closed. *)
Definition isOpen (h : Hook) (s : nat) : bool :=
  match sources h !! s with
  | Some es => negb (closed es)
  | None => false
  end.

(** Lines 60-63. *)
Definition onopen (s : nat) (h : Hook) : Hook :=
  if isOpen h s then
    let h := set_connected true h in
    match refs h with
    | Some cb => if onConnectionChange cb then log (CallOnConnectionChange true) h else h
    | None => h
    end
  else h.

(** Lines 66-73; [data] is [None] when [JSON.parse(event.data)] throws. *)
Definition onmessage (s : nat) (data : option TEvent) (h : Hook) : Hook :=
  if isOpen h s then
    match data with
    | None => log CallConsoleError h
    | Some parsedEvent =>
        match refs h with
        | Some cb =>
            let h := log (CallOnEvent (callback cb) parsedEvent) h in
            match onEvent cb parsedEvent with
            | Returns => h
            | Throws => log CallConsoleError h
            end
        | None => h
        end
    end
  else h.

(** Lines 76-81. *)
Definition onerror (s : nat) (h : Hook) : Hook :=
  if isOpen h s then
    let h := set_connected false h in
    match refs h with
    | Some cb =>
        let h := if onConnectionChange cb then log (CallOnConnectionChange false) h else h in
        if onError cb then log CallOnError h else h
    | None => h
    end
  else h.

Inductive Input :=
| Render (o : SSEConnectionOptions)
| Unmount
| Open (s : nat)
| Message (s : nat) (data : option TEvent)
| Error (s : nat).

Definition step (h : Hook) (inp : Input) : Hook :=
  match inp with
  | Render o => render o h
  | Unmount => unmount h
  | Open s => onopen s h
  | Message s data => onmessage s data h
  | Error s => onerror s h
  end.

Definition run (inputs : list Input) (h : Hook) : Hook := fold_left step inputs h.

(** *** useSSEQueryInvalidation on top of it *)

(** The options [useSSEQueryInvalidation] builds (lines 47-80 of the first
    copy, 130-155 of the second): [guarded] tells the copies apart.  The
    [onEvent] arrow function is a new object on every render, number
    [closure]; it throws when the handler ends in a [TypeError]. *)
Definition connectionOptions (guarded : bool) (isClient : bool) (closure : nat)
    (endpoint : string) (queryKeys : QueryInvalidation.QueryKeys TEvent)
    (onConnectionChange onError enabled : bool) : SSEConnectionOptions :=
  let handler event :=
    if guarded then QueryInvalidation.Guarded.onEvent isClient queryKeys event
    else QueryInvalidation.Unguarded.onEvent queryKeys event in
  {| endpoint := endpoint;
     callbacks :=
       {| callback := closure;
          onEvent := fun event =>
            match handler event with
            | QueryInvalidation.Invalidated _ => Returns
            | QueryInvalidation.ThrowsTypeError => Throws
            end;
          onConnectionChange := onConnectionChange;
          onError := onError |};
     enabled := if guarded then enabled && isClient else enabled |}.

End Hook.

Arguments Callbacks : clear implicits.
Arguments SSEConnectionOptions : clear implicits.
Arguments Call : clear implicits.
Arguments Hook : clear implicits.
Arguments Input : clear implicits.

Section Properties.

Context {TEvent : Type}.
Implicit Types (h : Hook TEvent) (o : SSEConnectionOptions TEvent).

(** The pending cleanup closes the source [eventSourceRef] holds; that
    source is open, was created for the endpoint of the committed
    dependency list, and is the only open one; [connected] is set only while
    it is there; without [window] or when disabled there is none. *)
Record sound h : Prop := {
  sound_cleanup : cleanup h = eventSourceRef h;
  sound_ref : forall s, eventSourceRef h = Some s ->
      exists es, sources h !! s = Some es /\ closed es = false
        /\ deps h = Some (url es, true);
  sound_open : forall s, isOpen h s = true -> eventSourceRef h = Some s;
  sound_connected : connected h = true -> is_Some (eventSourceRef h);
  sound_server : isClient h = false -> sources h = []
}.

Lemma sound_initial_hook isClient : sound (initial (TEvent := TEvent) isClient).
Proof.
  split; simpl; try reflexivity; discriminate.
Qed.

Lemma same_deps_true d0 d : same_deps d0 d = true -> d0 = Some d.
Proof.
  unfold same_deps. destruct d0 as [[e0 b0]|]; [|discriminate]. destruct d as [e b].
  simpl. intros H. apply andb_true_iff in H as [H1 H2].
  apply String.eqb_eq in H1. apply Bool.eqb_prop in H2. congruence.
Qed.

(** After the cleanup no source is open. *)
Lemma runCleanup_spec h :
  sound h ->
  let h' := runCleanup h in
  (forall s, isOpen h' s = false)
  /\ eventSourceRef h' = None /\ cleanup h' = None /\ connected h' = false
  /\ isClient h' = isClient h /\ calls h' = calls h /\ refs h' = refs h
  /\ length (sources h') = length (sources h)
  /\ (isClient h = false -> sources h' = []).
Proof.
  intros [Hc Hr Ho Hcn Hsv]. unfold runCleanup.
  destruct (cleanup h) as [s|] eqn:E; simpl.
  - split; [|rewrite length_alter; repeat split; try reflexivity].
    + intros s'. unfold isOpen. simpl. rewrite list_lookup_alter.
      destruct (decide (s = s')) as [<-|Hne].
      * destruct (sources h !! s); reflexivity.
      * destruct (sources h !! s') as [es|] eqn:Es; [|reflexivity].
        destruct (closed es) eqn:Ecl; [reflexivity|]. exfalso.
        assert (Hop : isOpen h s' = true) by (unfold isOpen; now rewrite Es, Ecl).
        apply Ho in Hop. congruence.
    + intros H. rewrite (Hsv H). reflexivity.
  - assert (Hn : eventSourceRef h = None) by congruence.
    split; [|repeat split; try assumption; try reflexivity].
    + intros s. destruct (isOpen h s) eqn:E'; [|reflexivity].
      apply Ho in E'. congruence.
    + destruct (connected h) eqn:Ec; [|reflexivity].
      destruct (Hcn eq_refl) as [x Hx]. congruence.
Qed.

Lemma sound_render o h : sound h -> sound (render o h).
Proof.
  intros Hs. pose proof Hs as [Hc Hr Ho Hcn Hsv]. unfold render.
  cbn [deps set_refs].
  destruct (same_deps (deps h) (endpoint o, enabled o)) eqn:Ed.
  { split; assumption. }
  set (h0 := set_refs (Some (callbacks o)) h).
  assert (Hs0 : sound h0) by (split; assumption).
  destruct (runCleanup_spec h0 Hs0) as (Hno & Hrf & Hcl & Hcon & Hic & _ & _ & Hlen & Hsrv).
  set (h1 := set_deps _ (runCleanup h0)).
  change (isClient h1) with (isClient (runCleanup h0)). rewrite Hic.
  change (isClient h0) with (isClient h).
  destruct (negb (isClient h) || negb (enabled o)) eqn:Eg.
  - split; simpl; try assumption.
    + congruence.
    + intros s. rewrite Hrf. discriminate.
    + intros s H. change (isOpen (runCleanup h0) s = true) in H.
      rewrite Hno in H. discriminate.
    + rewrite Hcon. discriminate.
    + intros H. apply Hsrv. rewrite <- Hic. exact H.
  - apply orb_false_iff in Eg as [Eg1 Eg2].
    apply negb_false_iff in Eg1, Eg2.
    split; simpl.
    + reflexivity.
    + intros s [= <-]. rewrite list_lookup_middle by reflexivity.
      eexists. split; [reflexivity|]. simpl. split; [reflexivity|]. now rewrite Eg2.
    + intros s H. unfold isOpen in H. simpl in H.
      destruct (decide (s = length (sources (runCleanup h0)))) as [->|Hne];
        [reflexivity|].
      exfalso.
      destruct (decide (s < length (sources (runCleanup h0)))) as [Hlt|Hge].
      * rewrite lookup_app_l in H by assumption.
        pose proof (Hno s) as Hn. unfold isOpen in Hn. rewrite Hn in H. discriminate.
      * rewrite lookup_ge_None_2 in H; [discriminate|].
        rewrite length_app. simpl. lia.
    + intros _. eexists. reflexivity.
    + intros H. rewrite Hic in H. change (isClient h0) with (isClient h) in H. congruence.
Qed.

Lemma sound_unmount h : sound h -> sound (unmount h).
Proof.
  intros Hs. destruct (runCleanup_spec h Hs) as (Hno & Hrf & Hcl & Hcon & Hic & _ & _ & _ & Hsrv).
  unfold unmount. split; simpl.
  - congruence.
  - intros s. rewrite Hrf. discriminate.
  - intros s H. change (isOpen (runCleanup h) s = true) in H.
    rewrite Hno in H. discriminate.
  - rewrite Hcon. discriminate.
  - rewrite Hic. exact Hsrv.
Qed.

(** The handlers change [connected] and the calls only. *)
Lemma handlers_frame h (inp : Input TEvent) :
  match inp with Render _ | Unmount => False | _ => True end ->
  let h' := step h inp in
  isClient h' = isClient h /\ eventSourceRef h' = eventSourceRef h
  /\ cleanup h' = cleanup h /\ refs h' = refs h /\ deps h' = deps h
  /\ sources h' = sources h
  /\ (connected h' = true ->
      connected h = true \/ exists s, inp = Open s /\ isOpen h s = true).
Proof.
  destruct inp as [o| |s|s data|s]; simpl; try contradiction; intros _.
  - unfold onopen. destruct (isOpen h s) eqn:E; [|repeat split; tauto].
    cbn [refs set_connected].
    destruct (refs h) as [cb|] eqn:Er; [destruct (onConnectionChange cb)|];
      (repeat split; simpl; try assumption;
       intros _; right; exists s; split; [reflexivity | assumption]).
  - unfold onmessage. destruct (isOpen h s); [|repeat split; tauto].
    destruct data as [ev|]; [|repeat split; tauto].
    destruct (refs h) as [cb|] eqn:Er; [|repeat split; try assumption; tauto].
    destruct (onEvent cb ev); repeat split; simpl; try assumption; tauto.
  - unfold onerror. destruct (isOpen h s); [|repeat split; tauto].
    cbn [refs set_connected].
    destruct (refs h) as [cb|] eqn:Er; [|repeat split; simpl; try assumption; discriminate].
    destruct (onConnectionChange cb), (onError cb);
      repeat split; simpl; try assumption; discriminate.
Qed.

Lemma sound_step_hook h inp : sound h -> sound (step h inp).
Proof.
  intros Hs. destruct inp as [o| |s|s data|s];
    [apply sound_render, Hs | apply sound_unmount, Hs | | |];
    (match goal with |- sound (step h ?i) =>
       destruct (handlers_frame h i I) as (H1 & H2 & H3 & H4 & H5 & H6 & H7) end;
     destruct Hs as [Hc Hr Ho Hcn Hsv]; split;
     [ congruence
     | intros s'; rewrite H2, H5, H6; apply Hr
     | intros s'; unfold isOpen; rewrite H2, H6; apply Ho
     | rewrite H2; intros Hco; destruct (H7 Hco) as [Hold|(s' & _ & Hop)];
       [apply Hcn, Hold | rewrite (Ho s' Hop); eexists; reflexivity]
     | rewrite H1, H6; exact Hsv ]).
Qed.

Lemma sound_run_hook inputs h : sound h -> sound (run inputs h).
Proof.
  revert h. induction inputs as [|inp inputs IH]; intros h Hs; [exact Hs|].
  simpl. apply IH, sound_step_hook, Hs.
Qed.

Lemma isClient_step h inp : isClient (step h inp) = isClient h.
Proof.
  destruct inp as [o| |s|s data|s].
  - unfold step, render. cbn [deps set_refs].
    destruct (same_deps _ _); [reflexivity|].
    match goal with |- context [if ?b then _ else _] => destruct b end;
      simpl; unfold runCleanup; cbn [cleanup set_refs];
      destruct (cleanup h); reflexivity.
  - simpl. unfold unmount, runCleanup. destruct (cleanup h); reflexivity.
  - exact (proj1 (handlers_frame h (Open s) I)).
  - exact (proj1 (handlers_frame h (Message s data) I)).
  - exact (proj1 (handlers_frame h (Error s) I)).
Qed.

Lemma isClient_run inputs h : isClient (run inputs h) = isClient h.
Proof.
  revert h. induction inputs as [|inp inputs IH]; intros h; [reflexivity|].
  simpl. rewrite IH. apply isClient_step.
Qed.

(** X27: in every state the hook reaches, at
    most one [EventSource] is open; it is the one [eventSourceRef] holds and
    it was created for the endpoint of the last committed render, which was
    enabled; [connected] is true only while that source is there; and
    without [window] no [EventSource] is ever created. *)
Theorem at_most_one_open_EventSource (client : bool) (inputs : list (Input TEvent)) :
  let h := run inputs (initial client) in
  (forall s1 s2, isOpen h s1 = true -> isOpen h s2 = true -> s1 = s2)
  /\ (forall s, isOpen h s = true ->
        eventSourceRef h = Some s
        /\ exists es, sources h !! s = Some es /\ deps h = Some (url es, true))
  /\ (connected h = true -> exists s, isOpen h s = true)
  /\ (client = false -> sources h = [] /\ connected h = false).
Proof.
  intros h.
  assert (Hs : sound h) by apply sound_run_hook, sound_initial_hook.
  assert (Hic : isClient h = client) by apply isClient_run.
  destruct Hs as [Hc Hr Ho Hcn Hsv].
  assert (Hopen : forall s, eventSourceRef h = Some s -> isOpen h s = true).
  { intros s H. destruct (Hr s H) as (es & Hes & Hcl & _).
    unfold isOpen. now rewrite Hes, Hcl. }
  split; [|split; [|split]].
  - intros s1 s2 H1 H2. apply Ho in H1, H2. congruence.
  - intros s H. pose proof (Ho s H) as Href. split; [exact Href|].
    destruct (Hr s Href) as (es & Hes & _ & Hd). exists es. split; assumption.
  - intros H. destruct (Hcn H) as [s Hs]. exists s. apply Hopen, Hs.
  - intros ->. rewrite Hic in Hsv. split; [apply Hsv; reflexivity|].
    destruct (connected h) eqn:E; [|reflexivity].
    destruct (Hcn eq_refl) as [s Hs]. apply Hopen in Hs.
    unfold isOpen in Hs. rewrite (Hsv eq_refl) in Hs. discriminate.
Qed.

(** X28: a render that changes the
    callbacks but neither [endpoint] nor [enabled] leaves the [EventSource]
    and [connected] untouched and makes no call; the next message on the
    open source is handed to the new [onEvent], since the handlers read the
    refs. *)
Theorem callback_change_keeps_the_connection o h (s : nat) (event : TEvent) :
  deps h = Some (endpoint o, enabled o) ->
  isOpen h s = true ->
  let h' := render o h in
  sources h' = sources h /\ connected h' = connected h
  /\ eventSourceRef h' = eventSourceRef h /\ calls h' = calls h
  /\ exists rest,
       calls (onmessage s (Some event) h')
       = calls h ++ CallOnEvent (callback (callbacks o)) event :: rest
       /\ (rest = [] \/ rest = [CallConsoleError]).
Proof.
  intros Hd Hop h'.
  assert (Hh' : h' = set_refs (Some (callbacks o)) h).
  { unfold h', render. cbn [deps set_refs]. rewrite Hd. simpl.
    rewrite String.eqb_refl, Bool.eqb_reflx. reflexivity. }
  rewrite Hh'. repeat (split; [reflexivity|]).
  unfold onmessage. change (isOpen (set_refs (Some (callbacks o)) h) s) with (isOpen h s).
  rewrite Hop. cbn [refs set_refs].
  destruct (onEvent (callbacks o) event).
  - exists []. split; [reflexivity | now left].
  - exists [CallConsoleError]. split; [|now right].
    simpl. rewrite <- app_assoc. reflexivity.
Qed.

(** X29: a message that is not JSON, or
    whose [onEvent] throws, is caught inside [onmessage]: [console.error] is
    called once, [onError] and [onConnectionChange] are not, and the
    connection is as it was (same source, still open, [connected]
    unchanged); a message on a closed source does nothing at all. *)
Theorem bad_message_is_logged_and_dropped h (s : nat) (data : option TEvent) :
  (forall event cb, data = Some event -> refs h = Some cb -> onEvent cb event = Throws) ->
  is_Some (refs h) ->
  let h' := onmessage s data h in
  connected h' = connected h /\ sources h' = sources h
  /\ eventSourceRef h' = eventSourceRef h
  /\ (forall s', isOpen h' s' = isOpen h s')
  /\ calls h'
     = calls h
       ++ (if isOpen h s
           then match data, refs h with
                | Some event, Some cb => [CallOnEvent (callback cb) event; CallConsoleError]
                | _, _ => [CallConsoleError]
                end
           else []).
Proof.
  intros Hbad [cb Hcb] h'. unfold h', onmessage.
  destruct (isOpen h s) eqn:Eo.
  - destruct data as [event|].
    + rewrite Hcb, (Hbad event cb eq_refl Hcb). simpl.
      rewrite <- app_assoc. repeat split.
    + repeat split.
  - rewrite app_nil_r. repeat split.
Qed.

(** The invalidations a handler run makes. *)
Definition invalidated (o : QueryInvalidation.Outcome) : list Js.Value :=
  match o with
  | QueryInvalidation.Invalidated keys => keys
  | QueryInvalidation.ThrowsTypeError => []
  end.

(** X30:
    [useSSEQueryInvalidation] hands [useSSEConnection] a new [onEvent] on
    every render, which costs no reconnection: re-rendering any number of
    times with the same endpoint and [enabled] keeps the [EventSource], and a
    message goes to the [onEvent] of the latest render.  The first copy of
    the hook never lets [console.error] be reached by a parsed event and
    never opens a source without [window]; the second copy, given absent
    keys, throws inside [onmessage], which logs the error, invalidates
    nothing and leaves the connection alone. *)
Theorem query_invalidation_rerender_keeps_the_EventSource
    (guarded client : bool) (n : nat) (endpoint : string)
    (queryKeys : QueryInvalidation.QueryKeys TEvent)
    (onConnectionChange onError enabled : bool) (event : TEvent) :
  let options k :=
    connectionOptions guarded client k endpoint queryKeys
      onConnectionChange onError enabled in
  let h := render (options 0) (initial client) in
  let h' := fold_left (fun hx k => render (options k) hx) (seq 1 n) h in
  sources h' = sources h /\ eventSourceRef h' = eventSourceRef h
  /\ (guarded = true -> client = false -> sources h = [])
  /\ (guarded = true ->
      forall s, calls (onmessage s (Some event) h')
                = if isOpen h s then [CallOnEvent n event] else [])
  /\ (guarded = false ->
      QueryInvalidation.keysToInvalidate queryKeys event = None ->
      forall s, isOpen h s = true ->
        calls (onmessage s (Some event) h') = [CallOnEvent n event; CallConsoleError]
        /\ invalidated (QueryInvalidation.Unguarded.onEvent queryKeys event) = []
        /\ connected (onmessage s (Some event) h') = connected h).
Proof.
  intros options h h'.
  assert (Hd : deps h = Some (SSEConnection.endpoint (options 0),
                              SSEConnection.enabled (options 0))).
  { unfold h, render. simpl. destruct (negb client || _); reflexivity. }
  assert (Hcalls : calls h = []).
  { unfold h, render. simpl. destruct (negb client || _); reflexivity. }
  assert (Hiter : forall k,
            let hk := fold_left (fun hx j => render (options j) hx) (seq 1 k) h in
            sources hk = sources h /\ eventSourceRef hk = eventSourceRef h
            /\ deps hk = deps h /\ calls hk = calls h /\ connected hk = connected h
            /\ refs hk = Some (callbacks (options k))).
  { induction k as [|k IH].
    - simpl. repeat split. unfold h, render. simpl.
      destruct (negb client || _); reflexivity.
    - rewrite seq_S, fold_left_app. cbn [fold_left Nat.add].
      destruct IH as (I1 & I2 & I3 & I4 & I5 & _).
      set (hk := fold_left _ (seq 1 k) h) in *.
      assert (Hr : render (options (S k)) hk
                   = set_refs (Some (callbacks (options (S k)))) hk).
      { unfold render. cbn [deps set_refs]. rewrite I3, Hd. simpl.
        rewrite String.eqb_refl, Bool.eqb_reflx. reflexivity. }
      rewrite Hr. simpl. repeat split; assumption. }
  destruct (Hiter n) as (I1 & I2 & I3 & I4 & I5 & I6). fold h' in I1, I2, I3, I4, I5, I6.
  assert (Hopen : forall s, isOpen h' s = isOpen h s).
  { intros s. unfold isOpen. now rewrite I1. }
  split; [exact I1|]. split; [exact I2|]. split; [|split].
  - intros -> ->. unfold h, render. reflexivity.
  - intros -> s. unfold onmessage. rewrite Hopen.
    destruct (isOpen h s); [|rewrite I4, Hcalls; reflexivity].
    rewrite I6. cbn [callbacks options connectionOptions callback onEvent].
    unfold QueryInvalidation.Guarded.onEvent.
    destruct (negb client); [simpl; rewrite I4, Hcalls; reflexivity|].
    destruct (QueryInvalidation.keysToInvalidate queryKeys event) as [keys|];
      [destruct (length keys =? 0)|]; simpl; rewrite I4, Hcalls; reflexivity.
  - intros -> Hk s Hs. unfold onmessage. rewrite Hopen, Hs, I6.
    cbn [callbacks options connectionOptions callback onEvent].
    unfold QueryInvalidation.Unguarded.onEvent. rewrite Hk. simpl.
    rewrite I4, Hcalls, I5. repeat split.
Qed.

End Properties.

(** Two renders with different callbacks; a message after the second. *)
Lemma callback_change_keeps_the_connection_witness :
  let cb k := {| callback := k; onEvent := fun _ : nat => Returns;
                 onConnectionChange := true; onError := false |} in
  let o k := {| endpoint := "/api/sse"; callbacks := cb k; enabled := true |} in
  let h := run [Render (o 0); Open 0] (initial true) in
  sources (render (o 1) h) = sources h
  /\ calls (onmessage 0 (Some 7) (render (o 1) h))
     = [CallOnConnectionChange true; CallOnEvent 1 7].
Proof.
  intros cb o h.
  pose proof (callback_change_keeps_the_connection (o 1) h 0 7) as H.
  cbv zeta in H. destruct H as (Hs & _ & _ & _ & _); [reflexivity | reflexivity |].
  split; [exact Hs | vm_compute; reflexivity].
Defined.

(** A message that is not JSON on a connected hook. *)
Lemma bad_message_is_logged_and_dropped_witness :
  let cb := {| callback := 0; onEvent := fun _ : nat => Returns;
               onConnectionChange := false; onError := true |} in
  let o := {| endpoint := "/api/sse"; callbacks := cb; enabled := true |} in
  let h := run [Render o; Open 0] (initial true) in
  connected (onmessage 0 None h) = true
  /\ calls (onmessage 0 None h) = [CallConsoleError].
Proof.
  intros cb o h.
  pose proof (bad_message_is_logged_and_dropped h 0 None) as H.
  cbv zeta in H. destruct H as (Hc & _ & _ & _ & Hcalls).
  - intros event cb' Hd. discriminate.
  - eexists. reflexivity.
  - split; [rewrite Hc; reflexivity | rewrite Hcalls; reflexivity].
Defined.

End SSEConnection.
